(** * Threads, reentrancy and semaphores: w3/thread_demo.c and w6/thread_recitation.c

    The development has two parts.

    - [Mem] and [Formatters]: an object memory (blocks of bytes, pointers
      as block and offset, [Fault] on an access outside an object) and the
      four upper-casing routines of the two files.
    - [Machine] and the worker modules: an interleaving machine for POSIX
      threads (one shared-memory access per step, [pthread_mutex_t],
      the [semc_*] semaphore built from a mutex and a condition variable)
      and the worker functions of the two files as programs of that
      machine. *)

From Stdlib Require Import ZArith Lia Bool String Ascii.
From stdpp Require Import base tactics option list.

Local Open Scope Z_scope.
#[local] Set Warnings "-clear-no-such-hyp".

(** ** Machine integers *)

Definition INT_MAX : Z := 2147483647.
Definition LONG_MAX : Z := 9223372036854775807.
Definition SIZE_MAX : Z := 18446744073709551615.

(** [int] and [long] arithmetic, two's complement wrap-around. *)
Definition wrap_int (z : Z) : Z := (z + 2 ^ 31) mod 2 ^ 32 - 2 ^ 31.
Definition wrap_long (z : Z) : Z := (z + 2 ^ 63) mod 2 ^ 64 - 2 ^ 63.
(** [size_t] arithmetic. *)
Definition wrap_size (z : Z) : Z := z mod 2 ^ 64.

(** ** Object memory *)

Module Mem.

(** An object is an array of [unsigned char] values; a memory is the list
    of the program's objects, a block being an index in it. *)
Abbreviation block := nat.
Abbreviation mem := (list (list Z)).

Inductive ptr := Null | Ptr (b : block) (off : Z).
Arguments Ptr b%_nat off%_Z.

Inductive result (A : Type) := Ok (a : A) | Fault.
Arguments Ok {A} a.
Arguments Fault {A}.

(** [p + i] *)
Definition ptr_add (p : ptr) (i : Z) : ptr :=
  match p with
  | Null => Null
  | Ptr b off => Ptr b (off + i)
  end.

(** [*p]: [None] for the null pointer and outside the object. *)
Definition load (m : mem) (p : ptr) : option Z :=
  match p with
  | Null => None
  | Ptr b off =>
      if off <? 0 then None
      else match m !! b with
           | Some o => o !! Z.to_nat off
           | None => None
           end
  end.

(** [*p = v] *)
Definition store (m : mem) (p : ptr) (v : Z) : option mem :=
  match p with
  | Null => None
  | Ptr b off =>
      if off <? 0 then None
      else match m !! b with
           | Some o =>
               if decide (Z.to_nat off < length o)%nat
               then Some (<[b := <[Z.to_nat off := v]> o]> m)
               else None
           | None => None
           end
  end.

(** Index of the first NUL of a byte sequence. *)
Fixpoint find_nul (bytes : list Z) : option nat :=
  match bytes with
  | [] => None
  | c :: rest => if c =? 0 then Some 0%nat else S <$> find_nul rest
  end.

(** The bytes of the object of [p] from [p] on. *)
Definition bytes_from (m : mem) (p : ptr) : option (list Z) :=
  match p with
  | Null => None
  | Ptr b off =>
      if off <? 0 then None
      else match m !! b with
           | Some o => Some (drop (Z.to_nat off) o)
           | None => None
           end
  end.

(** [strlen(p)]: a fault when [p] is null or no NUL follows in the object.
    An object has at most [SIZE_MAX] bytes, so the length fits [size_t]. *)
Definition strlen (m : mem) (p : ptr) : option Z :=
  match bytes_from m p with
  | Some bytes => Z.of_nat <$> find_nul bytes
  | None => None
  end.

(** The C string at [p], without its terminator. *)
Definition cstring (m : mem) (p : ptr) : option (list Z) :=
  match bytes_from m p with
  | Some bytes => (fun n => take n bytes) <$> find_nul bytes
  | None => None
  end.

(** [toupper] in the "C" locale, on an [unsigned char] value. *)
Definition toupper (c : Z) : Z :=
  if (97 <=? c) && (c <=? 122) then c - 32 else c.

Definition bytes_of_string (s : string) : list Z :=
  map (fun a => Z.of_nat (nat_of_ascii a)) (list_ascii_of_string s).

(** A string literal: its characters and the terminator. *)
Definition literal (s : string) : list Z := bytes_of_string s ++ [0].

End Mem.

(** ** The formatting routines *)

Module Formatters.
Import Mem.

(** The loop shared by the four routines,
    [for (size_t i = 0; i < n; i++) out[i] = (char)toupper((unsigned char)s[i]);]
    Every iteration reads [s[i]], so the loop runs at most as many
    iterations as the object of [s] has bytes before it faults: that bound
    is the recursion argument ([upper_loop_fuel] below shows that a larger
    one changes nothing). *)
Fixpoint upper_loop (fuel : nat) (m : mem) (s out : ptr) (i n : Z) : result mem :=
  if i <? n then
    match fuel with
    | O => Fault
    | S fuel' =>
        match load m (ptr_add s i) with
        | None => Fault
        | Some c =>
            match store m (ptr_add out i) (toupper c) with
            | None => Fault
            | Some m' => upper_loop fuel' m' s out (i + 1) n
            end
        end
    end
  else Ok m.

Definition object_size (m : mem) (p : ptr) : nat :=
  match p with
  | Null => 0%nat
  | Ptr b _ => match m !! b with Some o => length o | None => 0%nat end
  end.

Definition loop_bound (m : mem) (s : ptr) : nat := S (object_size m s).

(** w6/thread_recitation.c, [upper_reentrant]. *)
Definition upper_reentrant (m : mem) (s out : ptr) (outcap : Z) : result mem :=
  if outcap =? 0 then Ok m
  else
    match strlen m s with
    | None => Fault
    | Some len =>
        let n := if len >=? outcap then wrap_size (outcap - 1) else len in
        match upper_loop (loop_bound m s) m s out 0 n with
        | Fault => Fault
        | Ok m1 =>
            match store m1 (ptr_add out n) 0 with
            | None => Fault
            | Some m2 => Ok m2
            end
        end
    end.

(** w3/thread_demo.c, [reentrant_upper]: the same routine without the
    test of [outcap]. *)
Definition reentrant_upper (m : mem) (s out : ptr) (outcap : Z) : result mem :=
  match strlen m s with
  | None => Fault
  | Some len =>
      let n := if len >=? outcap then wrap_size (outcap - 1) else len in
      match upper_loop (loop_bound m s) m s out 0 n with
      | Fault => Fault
      | Ok m1 =>
          match store m1 (ptr_add out n) 0 with
          | None => Fault
          | Some m2 => Ok m2
          end
      end
  end.

(** The function-local [static char buf[64]]: one object for the whole
    program, at block [buf]. *)
Definition buf_size : Z := 64.

(** w6/thread_recitation.c, [upper_not_reentrant], and
    w3/thread_demo.c, [not_reentrant_upper] (the two bodies differ only in
    how the busy-wait inside the loop is spelled, and the busy-wait touches
    a local only). The result is the memory and the returned pointer. *)
Definition upper_not_reentrant (buf : block) (m : mem) (s : ptr) : result (mem * ptr) :=
  match strlen m s with
  | None => Fault
  | Some len =>
      let n := if len >=? buf_size then wrap_size (buf_size - 1) else len in
      match upper_loop (loop_bound m s) m s (Ptr buf 0) 0 n with
      | Fault => Fault
      | Ok m1 =>
          match store m1 (Ptr buf n) 0 with
          | None => Fault
          | Some m2 => Ok (m2, Ptr buf 0)
          end
      end
  end.

Arguments upper_not_reentrant buf%_nat m s.

Definition not_reentrant_upper := upper_not_reentrant.

(** What the routines are meant to leave in the destination: the
    upper-cased copy of [src], cut to at most [cap - 1] characters. *)
Definition upper_truncated (src : list Z) (cap : Z) : list Z :=
  map toupper (take (Z.to_nat (cap - 1)) src).

(** The object [o] with [bytes] written from index [off] on. *)
Definition write_at (o : list Z) (off : nat) (bytes : list Z) : list Z :=
  take off o ++ bytes ++ drop (off + length bytes) o.

(** [p] points into the bytes [lo .. hi - 1] of block [b]. *)
Definition inside (p : ptr) (b : block) (lo hi : Z) : Prop :=
  exists off, p = Ptr b off /\ lo <= off < hi.

End Formatters.

(** ** The thread machine *)

Module Machine.

(** The shared variables of the two programs: [long counter] and
    [pair_t pair_vals = {a, b}]. *)
Record globals := { counter : Z; pair_a : Z; pair_b : Z }.

Definition set_counter (g : globals) (v : Z) : globals :=
  {| counter := v; pair_a := pair_a g; pair_b := pair_b g |}.
Definition set_a (g : globals) (v : Z) : globals :=
  {| counter := counter g; pair_a := v; pair_b := pair_b g |}.
Definition set_b (g : globals) (v : Z) : globals :=
  {| counter := counter g; pair_a := pair_a g; pair_b := v |}.

(** What a step of a worker's own code does, as seen from outside. *)
Inductive gvar := Vcounter | Va | Vb.
Inductive label :=
| LRead (x : gvar)          (* a shared variable is read into a local *)
| LWrite (x : gvar)         (* a local is written to a shared variable *)
| LModify                   (* a local is incremented *)
| LYieldIf (fired : bool)   (* [if (cond) sched_yield();] and whether it yielded *)
| LSpin (n : Z)             (* a busy-wait of [n] rounds *)
| LCheck (ok : bool).       (* the comparison of the invariant pair *)

(** [busy_spin(n)]: [for (volatile int i = 0; i < n; ++i) {}] touches
    its own local only; the result is the number of rounds. *)
Definition busy_spin (n : Z) : Z := Z.max 0 n.

(** What a worker does next, given the shared variables and its locals.
    A worker's own step makes at most one access to shared memory. *)
Inductive action (C : Type) :=
| ALocal (l : label) (g : globals) (c : C)  (* own code: new globals, new locals *)
| ALock (c : C)                             (* [pthread_mutex_lock(&lock)] *)
| AUnlock (c : C)                           (* [pthread_mutex_unlock(&lock)] *)
| AWait (c : C)                             (* [semc_wait(&sem)] *)
| APost (c : C)                             (* [semc_post(&sem)] *)
| AReturn (v : Z).                          (* [return (void * )v] *)
Arguments ALocal {C} l g c.
Arguments ALock {C} c.
Arguments AUnlock {C} c.
Arguments AWait {C} c.
Arguments APost {C} c.
Arguments AReturn {C} v.

(** *** Mutex *)

(** A [pthread_mutex_t] is free or owned by a thread. Locking an owned
    mutex blocks: no step. *)
Definition pthread_mutex_lock (t : nat) (mu : option nat) : option (option nat) :=
  match mu with
  | None => Some (Some t)
  | Some _ => None
  end.

Definition pthread_mutex_unlock (mu : option nat) : option nat := None.

(** *** The counting semaphore [semc_t]

    [count] and the mutex [m]; the state of the condition variable [cv] is
    the set of threads blocked in [pthread_cond_wait], that is the threads
    whose program point is [WBlocked]. *)
Record semc_t := { count : Z; m : option nat }.

Definition semc_init (initial : Z) : semc_t := {| count := initial; m := None |}.

(** Program points of
    [pthread_mutex_lock(&s->m); while (s->count == 0) pthread_cond_wait(&s->cv, &s->m); s->count--; pthread_mutex_unlock(&s->m);] *)
Inductive wait_pc :=
| WLock        (* before [pthread_mutex_lock] *)
| WTest        (* before the test [s->count == 0] *)
| WCondWait    (* before [pthread_cond_wait]: releases [m] and blocks *)
| WBlocked     (* blocked on [cv] *)
| WReacquire   (* woken up, [pthread_cond_wait] takes [m] again *)
| WDecLoad     (* [s->count--]: load *)
| WDecStore    (* [s->count--]: store *)
| WUnlock.     (* before [pthread_mutex_unlock] *)

(** Program points of
    [pthread_mutex_lock(&s->m); s->count++; pthread_cond_signal(&s->cv); pthread_mutex_unlock(&s->m);] *)
Inductive post_pc :=
| PLock | PIncLoad | PIncStore | PSignal | PUnlock.

Inductive sem_pc := Running | InWait (w : wait_pc) | InPost (p : post_pc).

(** One step of [semc_wait] by thread [t] at point [w] with register [r].
    [None]: the thread cannot move; [Some (None, _, _)]: the call returns. *)
Definition semc_wait (t : nat) (w : wait_pc) (r : Z) (s : semc_t)
  : option (option wait_pc * Z * semc_t) :=
  match w with
  | WLock | WReacquire =>
      match pthread_mutex_lock t (m s) with
      | Some mu => Some (Some WTest, r, {| count := count s; m := mu |})
      | None => None
      end
  | WTest => Some (Some (if count s =? 0 then WCondWait else WDecLoad), r, s)
  | WCondWait =>
      Some (Some WBlocked, r, {| count := count s; m := pthread_mutex_unlock (m s) |})
  | WBlocked => None
  | WDecLoad => Some (Some WDecStore, count s, s)
  | WDecStore => Some (Some WUnlock, r, {| count := wrap_int (r - 1); m := m s |})
  | WUnlock => Some (None, r, {| count := count s; m := pthread_mutex_unlock (m s) |})
  end.

(** One step of [semc_post]. At [PSignal] with a thread blocked on [cv]
    the signal has to wake one of them: that is the event [Signal] of
    [exec], not a step of the thread alone. *)
Definition semc_post (t : nat) (waiters : bool) (p : post_pc) (r : Z) (s : semc_t)
  : option (option post_pc * Z * semc_t) :=
  match p with
  | PLock =>
      match pthread_mutex_lock t (m s) with
      | Some mu => Some (Some PIncLoad, r, {| count := count s; m := mu |})
      | None => None
      end
  | PIncLoad => Some (Some PIncStore, count s, s)
  | PIncStore => Some (Some PSignal, r, {| count := wrap_int (r + 1); m := m s |})
  | PSignal => if waiters then None else Some (Some PUnlock, r, s)
  | PUnlock => Some (None, r, {| count := count s; m := pthread_mutex_unlock (m s) |})
  end.

(** *** Threads and states *)

Record shared := { glob : globals; lock : option nat; sem : semc_t }.

Definition with_glob (sh : shared) (g : globals) : shared :=
  {| glob := g; lock := lock sh; sem := sem sh |}.
Definition with_lock (sh : shared) (mu : option nat) : shared :=
  {| glob := glob sh; lock := mu; sem := sem sh |}.
Definition with_sem (sh : shared) (s : semc_t) : shared :=
  {| glob := glob sh; lock := lock sh; sem := s |}.

Section Threads.
Context {C : Type}.

(** A thread: the locals of its worker function, where it is inside a
    semaphore call, the register of that call, and its return value once
    it has returned. *)
Record thread := { local : C; spc : sem_pc; reg : Z; ret : option Z }.

Record state := { shr : shared; threads : list thread }.

Inductive event :=
| Step (t : nat)        (* thread [t] makes its next step *)
| Signal (t u : nat)    (* [pthread_cond_signal] of [t] wakes the blocked [u] *)
| Spurious (u : nat).   (* a spurious wake-up of the blocked [u] *)

Definition blocked (th : thread) : bool :=
  match spc th with
  | InWait WBlocked => true
  | _ => false
  end.

Definition has_waiter (ths : list thread) : bool := existsb blocked ths.

Definition in_sem (th : thread) (pc : sem_pc) (r : Z) : thread :=
  {| local := local th; spc := pc; reg := r; ret := ret th |}.
Definition call_sem (th : thread) (c : C) (pc : sem_pc) : thread :=
  {| local := c; spc := pc; reg := reg th; ret := ret th |}.
Definition with_local (th : thread) (c : C) : thread :=
  {| local := c; spc := spc th; reg := reg th; ret := ret th |}.
Definition returned (th : thread) (v : Z) : thread :=
  {| local := local th; spc := spc th; reg := reg th; ret := Some v |}.

Definition wait_cont (w : option wait_pc) : sem_pc :=
  match w with Some w' => InWait w' | None => Running end.
Definition post_cont (p : option post_pc) : sem_pc :=
  match p with Some p' => InPost p' | None => Running end.

Variable prog : globals -> C -> action C.

(** One step of thread [t]; [waiters] tells whether a thread is blocked on
    the condition variable. *)
Definition thread_step (t : nat) (waiters : bool) (sh : shared) (th : thread)
  : option (shared * thread) :=
  match ret th with
  | Some _ => None
  | None =>
      match spc th with
      | Running =>
          match prog (glob sh) (local th) with
          | ALocal _ g c => Some (with_glob sh g, with_local th c)
          | ALock c =>
              match pthread_mutex_lock t (lock sh) with
              | Some mu => Some (with_lock sh mu, with_local th c)
              | None => None
              end
          | AUnlock c => Some (with_lock sh (pthread_mutex_unlock (lock sh)), with_local th c)
          | AWait c => Some (sh, call_sem th c (InWait WLock))
          | APost c => Some (sh, call_sem th c (InPost PLock))
          | AReturn v => Some (sh, returned th v)
          end
      | InWait w =>
          match semc_wait t w (reg th) (sem sh) with
          | Some (w', r, s) => Some (with_sem sh s, in_sem th (wait_cont w') r)
          | None => None
          end
      | InPost p =>
          match semc_post t waiters p (reg th) (sem sh) with
          | Some (p', r, s) => Some (with_sem sh s, in_sem th (post_cont p') r)
          | None => None
          end
      end
  end.

Definition exec (e : event) (s : state) : option state :=
  match e with
  | Step t =>
      match threads s !! t with
      | Some th =>
          match thread_step t (has_waiter (threads s)) (shr s) th with
          | Some (sh, th') => Some {| shr := sh; threads := <[t := th']> (threads s) |}
          | None => None
          end
      | None => None
      end
  | Signal t u =>
      match threads s !! t, threads s !! u with
      | Some th, Some tu =>
          match ret th, spc th with
          | None, InPost PSignal =>
              if blocked tu
              then Some {| shr := shr s;
                           threads := <[t := in_sem th (InPost PUnlock) (reg th)]>
                                        (<[u := in_sem tu (InWait WReacquire) (reg tu)]> (threads s)) |}
              else None
          | _, _ => None
          end
      | _, _ => None
      end
  | Spurious u =>
      match threads s !! u with
      | Some tu =>
          if blocked tu
          then Some {| shr := shr s;
                       threads := <[u := in_sem tu (InWait WReacquire) (reg tu)]> (threads s) |}
          else None
      | None => None
      end
  end.

(** A schedule is a list of events; [run] is [None] when an event of the
    schedule is not enabled. *)
Fixpoint run (sched : list event) (s : state) : option state :=
  match sched with
  | [] => Some s
  | e :: rest =>
      match exec e s with
      | Some s' => run rest s'
      | None => None
      end
  end.

(** The label of the step an event makes, for steps of a worker's own code. *)
Definition observe (e : event) (s : state) : option (nat * label) :=
  match e with
  | Step t =>
      match threads s !! t with
      | Some th =>
          match ret th, spc th, prog (glob (shr s)) (local th) with
          | None, Running, ALocal l _ _ => Some (t, l)
          | _, _, _ => None
          end
      | None => None
      end
  | _ => None
  end.

Fixpoint trace (sched : list event) (s : state) : list (nat * label) :=
  match sched with
  | [] => []
  | e :: rest =>
      match exec e s with
      | Some s' =>
          match observe e s with
          | Some o => o :: trace rest s'
          | None => trace rest s'
          end
      | None => []
      end
  end.

(** Whether event [e] is the store of [s->count++] in [semc_post] made
    on a count of [INT_MAX]: the one step of the semaphore that takes the
    [int] out of its range. *)
Definition overflows (e : event) (s : state) : bool :=
  match e with
  | Step t =>
      match threads s !! t with
      | Some th =>
          match ret th, spc th with
          | None, InPost PIncStore => INT_MAX <=? count (sem (shr s))
          | _, _ => false
          end
      | None => false
      end
  | _ => false
  end.

(** No event of the run is such a step. *)
Fixpoint no_overflow (sched : list event) (s : state) : bool :=
  match sched with
  | [] => true
  | e :: rest =>
      negb (overflows e s) &&
      match exec e s with
      | Some s' => no_overflow rest s'
      | None => true
      end
  end.

(** The driver: the shared variables are reset, the semaphore is
    initialised, [W] threads are created on the same worker. *)
Definition spawn (c0 : C) : thread :=
  {| local := c0; spc := Running; reg := 0; ret := None |}.

Definition start_state (permits : Z) (cs : list C) : state :=
  {| shr := {| glob := {| counter := 0; pair_a := 0; pair_b := 0 |};
               lock := None;
               sem := semc_init permits |};
     threads := map spawn cs |}.

Definition init (permits : Z) (W : nat) (c0 : C) : state :=
  start_state permits (replicate W c0).

(** Every [pthread_join] of the driver has returned. *)
Definition joined (s : state) : bool :=
  forallb (fun th => match ret th with Some _ => true | None => false end) (threads s).

End Threads.

Arguments thread C : clear implicits.
Arguments state C : clear implicits.

End Machine.

(** ** The counter workers *)

Module Counter.
Import Machine.

(** Locals of a counter worker: where it is, the loop variable [int i]
    and the temporary [long tmp] (for [counter++], the register between
    its load and its store). *)
Record vars (P : Type) := { pc : P; i : Z; tmp : Z }.
Arguments pc {P} _.
Arguments i {P} _.
Arguments tmp {P} _.

Definition goto {P Q : Type} (c : vars P) (p : Q) : vars Q :=
  {| pc := p; i := i c; tmp := tmp c |}.
Definition load_tmp {P Q : Type} (c : vars P) (p : Q) (v : Z) : vars Q :=
  {| pc := p; i := i c; tmp := v |}.
(** [i++] at the end of the loop body. *)
Definition next_iter {P Q : Type} (c : vars P) (p : Q) : vars Q :=
  {| pc := p; i := wrap_int (i c + 1); tmp := tmp c |}.

(** *** Without synchronisation *)

Inductive amp_pc := ARead | AYield1 | ASpin | AModify | AYield2 | AWrite.

(** w6/thread_recitation.c, [inc_no_lock], with [ITERATIONS = K]. *)
Definition inc_no_lock (K : Z) (g : globals) (c : vars amp_pc) : action (vars amp_pc) :=
  match pc c with
  | ARead =>
      if i c <? K
      then ALocal (LRead Vcounter) g (load_tmp c AYield1 (counter g))
      else AReturn 0
  | AYield1 => ALocal (LYieldIf (Z.land (i c) 0x3FF =? 0)) g (goto c ASpin)
  | ASpin => ALocal (LSpin (busy_spin 50)) g (goto c AModify)
  | AModify => ALocal LModify g (load_tmp c AYield2 (wrap_long (tmp c + 1)))
  | AYield2 => ALocal (LYieldIf (Z.land (i c) 0x7FF =? 0)) g (goto c AWrite)
  | AWrite => ALocal (LWrite Vcounter) (set_counter g (tmp c)) (next_iter c ARead)
  end.

(** w3/thread_demo.c, [increment_without_lock_stressed]. *)
Definition increment_without_lock_stressed (K : Z) (g : globals) (c : vars amp_pc)
  : action (vars amp_pc) :=
  match pc c with
  | ARead =>
      if i c <? K
      then ALocal (LRead Vcounter) g (load_tmp c AYield1 (counter g))
      else AReturn 0
  | AYield1 => ALocal (LYieldIf (Z.land (i c) 0x3FF =? 0)) g (goto c ASpin)
  | ASpin => ALocal (LSpin (busy_spin 50)) g (goto c AModify)
  | AModify => ALocal LModify g (load_tmp c AYield2 (wrap_long (tmp c + 1)))
  | AYield2 => ALocal (LYieldIf (Z.land (i c) 0x7FF =? 0)) g (goto c AWrite)
  | AWrite => ALocal (LWrite Vcounter) (set_counter g (tmp c)) (next_iter c ARead)
  end.

(** *** Under the mutex *)

Inductive lock_pc := LHead | LLoad | LStore | LTail.

(** w6/thread_recitation.c, [inc_with_lock]:
    [pthread_mutex_lock(&g_lock); counter++; pthread_mutex_unlock(&g_lock);] *)
Definition inc_with_lock (K : Z) (g : globals) (c : vars lock_pc) : action (vars lock_pc) :=
  match pc c with
  | LHead => if i c <? K then ALock (goto c LLoad) else AReturn 0
  | LLoad => ALocal (LRead Vcounter) g (load_tmp c LStore (counter g))
  | LStore =>
      ALocal (LWrite Vcounter) (set_counter g (wrap_long (tmp c + 1))) (goto c LTail)
  | LTail => AUnlock (next_iter c LHead)
  end.

(** w3/thread_demo.c, [increment_with_lock]: the same body on [lock]. *)
Definition increment_with_lock := inc_with_lock.

(** *** Under the semaphore *)

Inductive bin_pc := BHead | BLoad | BStore | BTail.

(** w6/thread_recitation.c, [inc_with_sem_binary]:
    [semc_wait(&sem_bin); counter++; semc_post(&sem_bin);] *)
Definition inc_with_sem_binary (K : Z) (g : globals) (c : vars bin_pc)
  : action (vars bin_pc) :=
  match pc c with
  | BHead => if i c <? K then AWait (goto c BLoad) else AReturn 0
  | BLoad => ALocal (LRead Vcounter) g (load_tmp c BStore (counter g))
  | BStore =>
      ALocal (LWrite Vcounter) (set_counter g (wrap_long (tmp c + 1))) (goto c BTail)
  | BTail => APost (next_iter c BHead)
  end.

Inductive three_pc := THead | TRead | TSpin | TWrite | TTail.

(** w6/thread_recitation.c, [inc_with_sem_three]:
    [semc_wait(&sem_three); long tmp = counter; busy_spin(30); counter = tmp + 1; semc_post(&sem_three);] *)
Definition inc_with_sem_three (K : Z) (g : globals) (c : vars three_pc)
  : action (vars three_pc) :=
  match pc c with
  | THead => if i c <? K then AWait (goto c TRead) else AReturn 0
  | TRead => ALocal (LRead Vcounter) g (load_tmp c TSpin (counter g))
  | TSpin => ALocal (LSpin (busy_spin 30)) g (goto c TWrite)
  | TWrite =>
      ALocal (LWrite Vcounter) (set_counter g (wrap_long (tmp c + 1))) (goto c TTail)
  | TTail => APost (next_iter c THead)
  end.

Definition start {P : Type} (p : P) : vars P := {| pc := p; i := 0; tmp := 0 |}.

End Counter.

(** ** The invariant-pair workers *)

Module Pair.
Import Machine.

Inductive nolock_pc :=
| UReadA | UReadB | UYield1 | UIncA | UIncB | UYield2 | UWriteA | UWriteB
| UCheckA | UCheckB | UFail.

(** Locals of [touch_pair_without_lock]: [int i], [long ta, tb], and the
    first operand of the comparison [pair_vals.a != pair_vals.b]. *)
Record vars := { pc : nolock_pc; i : Z; ta : Z; tb : Z; ca : Z }.

Definition goto (c : vars) (p : nolock_pc) : vars :=
  {| pc := p; i := i c; ta := ta c; tb := tb c; ca := ca c |}.
Definition set_ta (c : vars) (p : nolock_pc) (v : Z) : vars :=
  {| pc := p; i := i c; ta := v; tb := tb c; ca := ca c |}.
Definition set_tb (c : vars) (p : nolock_pc) (v : Z) : vars :=
  {| pc := p; i := i c; ta := ta c; tb := v; ca := ca c |}.
Definition set_ca (c : vars) (p : nolock_pc) (v : Z) : vars :=
  {| pc := p; i := i c; ta := ta c; tb := tb c; ca := v |}.
Definition next_iter (c : vars) (p : nolock_pc) : vars :=
  {| pc := p; i := wrap_int (i c + 1); ta := ta c; tb := tb c; ca := ca c |}.

(** w3/thread_demo.c, [touch_pair_without_lock], with [ITERATIONS = K].
    The return value is 1 when the worker saw [a != b], 0 ([NULL])
    otherwise. *)
Definition touch_pair_without_lock (K : Z) (g : globals) (c : vars) : action vars :=
  match pc c with
  | UReadA =>
      if i c <? K
      then ALocal (LRead Va) g (set_ta c UReadB (pair_a g))
      else AReturn 0
  | UReadB => ALocal (LRead Vb) g (set_tb c UYield1 (pair_b g))
  | UYield1 => ALocal (LYieldIf (Z.land (i c) 0x1FF =? 0)) g (goto c UIncA)
  | UIncA => ALocal LModify g (set_ta c UIncB (wrap_long (ta c + 1)))
  | UIncB => ALocal LModify g (set_tb c UYield2 (wrap_long (tb c + 1)))
  | UYield2 => ALocal (LYieldIf (Z.land (i c) 0x3FF =? 0)) g (goto c UWriteA)
  | UWriteA => ALocal (LWrite Va) (set_a g (ta c)) (goto c UWriteB)
  | UWriteB => ALocal (LWrite Vb) (set_b g (tb c)) (goto c UCheckA)
  | UCheckA => ALocal (LRead Va) g (set_ca c UCheckB (pair_a g))
  | UCheckB =>
      if ca c =? pair_b g
      then ALocal (LCheck true) g (next_iter c UReadA)
      else ALocal (LCheck false) g (goto c UFail)
  | UFail => AReturn 1
  end.

Definition start : vars := {| pc := UReadA; i := 0; ta := 0; tb := 0; ca := 0 |}.

(** The joins of Bonus A: [if ((long)ret == 1) broke = 1;] *)
Definition broke {C : Type} (s : state C) : bool :=
  existsb (fun th => match ret th with Some v => v =? 1 | None => false end) (threads s).

End Pair.

Module PairLock.
Import Machine Counter.

Inductive pair_pc := QHead | QLoadA | QStoreA | QSpin | QLoadB | QStoreB | QTail.

(** w3/thread_demo.c, [touch_pair_with_lock]:
    [pthread_mutex_lock(&lock); pair_vals.a++; if ((i & 0x3FF) == 0) spin; pair_vals.b++; pthread_mutex_unlock(&lock);]
    The local [tmp] is the register of the two increments. *)
Definition touch_pair_with_lock (K : Z) (g : globals) (c : vars pair_pc)
  : action (vars pair_pc) :=
  match pc c with
  | QHead => if i c <? K then ALock (goto c QLoadA) else AReturn 0
  | QLoadA => ALocal (LRead Va) g (load_tmp c QStoreA (pair_a g))
  | QStoreA => ALocal (LWrite Va) (set_a g (wrap_long (tmp c + 1))) (goto c QSpin)
  | QSpin =>
      ALocal (LSpin (if Z.land (i c) 0x3FF =? 0 then busy_spin 50 else 0)) g (goto c QLoadB)
  | QLoadB => ALocal (LRead Vb) g (load_tmp c QStoreB (pair_b g))
  | QStoreB => ALocal (LWrite Vb) (set_b g (wrap_long (tmp c + 1))) (goto c QTail)
  | QTail => AUnlock (next_iter c QHead)
  end.

End PairLock.

(** ** Clients of the semaphore alone *)

Module Script.
Import Machine.

(** A thread that calls [semc_wait] and [semc_post] in a given order and
    returns. *)
Inductive op := Acquire | Release.

Definition client (g : globals) (c : list op) : action (list op) :=
  match c with
  | [] => AReturn 0
  | Acquire :: rest => AWait rest
  | Release :: rest => APost rest
  end.

(** A thread that takes a permit, holds it and gives it back:
    [semc_wait(&s); ... semc_post(&s);] *)
Inductive phase := Before | Holding | After.

Definition holder (g : globals) (c : phase) : action phase :=
  match c with
  | Before => AWait Holding
  | Holding => APost After
  | After => AReturn 0
  end.

End Script.

(** ** What a worker does, step by step *)

Module Trace.
Import Machine.

(** The labels of the next [n] steps of a worker left alone, as long as
    they are steps of its own code. *)
Fixpoint local_trace {C : Type} (prog : globals -> C -> action C) (n : nat)
    (g : globals) (c : C) : list label :=
  match n with
  | O => []
  | S n' =>
      match prog g c with
      | ALocal l g' c' => l :: local_trace prog n' g' c'
      | _ => []
      end
  end.

(** The conditional yields of a trace, in order, and whether each fired. *)
Fixpoint cadence (tr : list label) : list bool :=
  match tr with
  | [] => []
  | LYieldIf b :: rest => b :: cadence rest
  | _ :: rest => cadence rest
  end.

(** The busy-waits of a trace, in order. *)
Fixpoint spins (tr : list label) : list Z :=
  match tr with
  | [] => []
  | LSpin n :: rest => n :: spins rest
  | _ :: rest => spins rest
  end.

(** The number of write-backs of [pair_vals.b] by thread [t]: each ends
    one read-modify-write of the pair. *)
Fixpoint writebacks (t : nat) (tr : list (nat * label)) : Z :=
  match tr with
  | [] => 0
  | (u, LWrite Vb) :: rest => (if Nat.eqb u t then 1 else 0) + writebacks t rest
  | _ :: rest => writebacks t rest
  end.

End Trace.


(** * Properties *)

(** ** Machine integers *)

Lemma wrap_int_id z : - 2 ^ 31 <= z <= INT_MAX -> wrap_int z = z.
Proof. unfold wrap_int, INT_MAX. intros H. rewrite Z.mod_small; lia. Qed.

Lemma wrap_long_id z : - 2 ^ 63 <= z <= LONG_MAX -> wrap_long z = z.
Proof. unfold wrap_long, LONG_MAX. intros H. rewrite Z.mod_small; lia. Qed.

Lemma wrap_size_id z : 0 <= z <= SIZE_MAX -> wrap_size z = z.
Proof. unfold wrap_size, SIZE_MAX. intros H. rewrite Z.mod_small; lia. Qed.

(** ** The formatting routines *)

Module FormatterFacts.
Import Mem Formatters.

Lemma find_nul_spec bytes k :
  find_nul bytes = Some k ->
  bytes !! k = Some 0 /\ Forall (fun c => c <> 0) (take k bytes).
Proof.
  revert k. induction bytes as [|c rest IH]; intros k; simpl; [done|].
  destruct (Z.eqb_spec c 0) as [->|Hc].
  - intros [= <-]. split; [done|constructor].
  - destruct (find_nul rest) as [j|]; simpl; [|done].
    intros [= <-]. destruct (IH j eq_refl) as [H1 H2].
    split; [done|]. simpl. by constructor.
Qed.

Lemma find_nul_app l rest :
  Forall (fun c => c <> 0) l -> find_nul (l ++ 0 :: rest) = Some (length l).
Proof.
  induction 1 as [|c l Hc _ IH]; simpl; [done|].
  destruct (Z.eqb_spec c 0); [done|]. by rewrite IH.
Qed.

Lemma toupper_nonzero c : c <> 0 -> toupper c <> 0.
Proof.
  unfold toupper. intros Hc.
  destruct (Z.leb_spec 97 c), (Z.leb_spec c 122); simpl; lia.
Qed.

Lemma cstring_inv m b off src :
  cstring m (Ptr b off) = Some src ->
  exists o, m !! b = Some o /\ 0 <= off /\
    find_nul (drop (Z.to_nat off) o) = Some (length src) /\
    src = take (length src) (drop (Z.to_nat off) o) /\
    (Z.to_nat off + length src < length o)%nat /\
    Forall (fun c => c <> 0) src.
Proof.
  unfold cstring, bytes_from.
  destruct (Z.ltb_spec off 0); [done|].
  destruct (m !! b) as [o|] eqn:Ho; [|done].
  destruct (find_nul (drop (Z.to_nat off) o)) as [k|] eqn:Hk; [|done].
  simpl. intros [= <-]. exists o.
  destruct (find_nul_spec _ _ Hk) as [Hz Hall].
  assert (Hlt : (Z.to_nat off + k < length o)%nat).
  { rewrite lookup_drop in Hz. by apply lookup_lt_Some in Hz. }
  assert (Hlen : length (take k (drop (Z.to_nat off) o)) = k).
  { rewrite length_take, length_drop. lia. }
  rewrite Hlen. repeat split; auto; lia.
Qed.

(** The loop, on a source and a destination in distinct objects and within
    their bounds. *)
Lemma upper_loop_ok k : forall fuel m bs offs bo offo i n o_s o_out,
  bs <> bo -> m !! bs = Some o_s -> m !! bo = Some o_out ->
  0 <= offs -> 0 <= offo -> 0 <= i -> n = i + Z.of_nat k ->
  (Z.to_nat (offs + n) <= length o_s)%nat ->
  (Z.to_nat (offo + n) <= length o_out)%nat ->
  (k <= fuel)%nat ->
  upper_loop fuel m (Ptr bs offs) (Ptr bo offo) i n =
    Ok (<[bo := take (Z.to_nat (offo + i)) o_out
                ++ map toupper (take k (drop (Z.to_nat (offs + i)) o_s))
                ++ drop (Z.to_nat (offo + n)) o_out]> m).
Proof.
  induction k as [|k IH]; intros fuel m bs offs bo offo i n o_s o_out
    Hne Hs Ho Hoffs Hoffo Hi Hn Hbs Hbo Hfuel.
  - assert (n = i) as -> by lia.
    assert (upper_loop fuel m (Ptr bs offs) (Ptr bo offo) i i = Ok m) as ->.
    { destruct fuel; simpl; by rewrite Z.ltb_irrefl. }
    rewrite take_0. simpl. rewrite take_drop. by rewrite list_insert_id.
  - destruct fuel as [|fuel]; [lia|].
    simpl. destruct (Z.ltb_spec i n); [|lia].
    destruct (Z.ltb_spec (offs + i) 0); [lia|]. rewrite Hs.
    destruct (o_s !! Z.to_nat (offs + i)) as [c|] eqn:Hc.
    2:{ apply lookup_ge_None in Hc. lia. }
    destruct (Z.ltb_spec (offo + i) 0); [lia|]. rewrite Ho.
    destruct (decide (Z.to_nat (offo + i) < length o_out)%nat) as [Hlt|]; [|lia].
    assert (Hb : (bo < length m)%nat) by (by apply lookup_lt_Some in Ho).
    rewrite (IH fuel _ bs offs bo offo (i + 1) n o_s
               (<[Z.to_nat (offo + i) := toupper c]> o_out)); try lia; auto.
    + rewrite list_insert_insert_eq. do 2 f_equal.
      replace (Z.to_nat (offo + (i + 1))) with (S (Z.to_nat (offo + i))) by lia.
      replace (Z.to_nat (offs + (i + 1))) with (S (Z.to_nat (offs + i))) by lia.
      rewrite (take_S_r _ _ (toupper c)).
      2:{ by apply list_lookup_insert_eq. }
      rewrite take_insert_ge by lia.
      rewrite drop_insert_lt by lia.
      rewrite (drop_S _ _ _ Hc). simpl. by rewrite <- app_assoc.
    + by rewrite list_lookup_insert_ne.
    + by rewrite list_lookup_insert_eq.
    + by rewrite length_insert.
Qed.

Lemma upper_truncated_length src cap :
  0 < cap -> Z.of_nat (length (upper_truncated src cap)) = Z.min (Z.of_nat (length src)) (cap - 1).
Proof. intros H. unfold upper_truncated. rewrite length_map, length_take. lia. Qed.

Lemma write_at_length o off bytes :
  (off + length bytes <= length o)%nat -> length (write_at o off bytes) = length o.
Proof.
  intros H. unfold write_at. rewrite !length_app, length_take, length_drop. lia.
Qed.

Lemma write_at_outside o off bytes j :
  (off + length bytes <= length o)%nat ->
  (j < off \/ off + length bytes <= j)%nat ->
  write_at o off bytes !! j = o !! j.
Proof.
  intros Hlen Hj. unfold write_at. destruct Hj as [Hj|Hj].
  - rewrite lookup_app_l by (rewrite length_take; lia).
    rewrite lookup_take. by destruct (decide (j < off)%nat); [|lia].
  - rewrite app_assoc, lookup_app_r by (rewrite length_app, length_take; lia).
    rewrite lookup_drop, length_app, length_take. f_equal. lia.
Qed.

(** The body common to the four routines: length, truncation, loop and
    terminator, on a destination of capacity [cap]. *)
Lemma upper_into m bs offs bo offo cap src o_out :
  bs <> bo -> cstring m (Ptr bs offs) = Some src -> m !! bo = Some o_out ->
  0 <= offo -> 0 < cap <= SIZE_MAX -> offo + cap <= Z.of_nat (length o_out) ->
  exists n m1,
    strlen m (Ptr bs offs) = Some (Z.of_nat (length src)) /\
    (if Z.of_nat (length src) >=? cap then wrap_size (cap - 1) else Z.of_nat (length src)) = n /\
    upper_loop (loop_bound m (Ptr bs offs)) m (Ptr bs offs) (Ptr bo offo) 0 n = Ok m1 /\
    store m1 (Ptr bo (offo + n)) 0 =
      Some (<[bo := write_at o_out (Z.to_nat offo) (upper_truncated src cap ++ [0])]> m).
Proof.
  intros Hne Hsrc Ho Hoffo Hcap Hroom.
  destruct (cstring_inv _ _ _ _ Hsrc) as (o_s & Hs & Hoffs & Hnul & Hsrc' & Hlen & Hnz).
  set (len := Z.of_nat (length src)).
  set (n := Z.min len (cap - 1)).
  assert (Hn : (if len >=? cap then wrap_size (cap - 1) else len) = n).
  { unfold Z.geb. destruct (Z.compare_spec len cap); subst n;
      rewrite ?wrap_size_id by lia; lia. }
  assert (Hb : (bo < length m)%nat) by (by apply lookup_lt_Some in Ho).
  exists n. eexists. split; [|split; [exact Hn|split]].
  - unfold strlen, bytes_from. destruct (Z.ltb_spec offs 0); [lia|].
    by rewrite Hs, Hnul.
  - apply (upper_loop_ok (Z.to_nat n) _ m bs offs bo offo 0 n o_s o_out); auto;
      unfold loop_bound, object_size; rewrite ?Hs; subst n len; lia.
  - unfold store. destruct (Z.ltb_spec (offo + n) 0); [lia|].
    rewrite list_lookup_insert_eq by done.
    match goal with |- context [decide ?P] => destruct (decide P) as [_|Hbad] end.
    2:{ exfalso. apply Hbad. rewrite !length_app, length_take, length_map,
          length_take, !length_drop. subst n len. lia. }
    rewrite list_insert_insert_eq. do 2 f_equal.
    unfold write_at, upper_truncated.
    rewrite Z.add_0_r.
    rewrite insert_app_r_alt by (rewrite length_take; lia).
    rewrite insert_app_r_alt by (rewrite length_take, length_map, length_take, length_drop; lia).
    rewrite length_take, length_map, length_take, length_drop.
    assert (Hk : take (Z.to_nat n) (drop (Z.to_nat (offs + 0)) o_s)
                 = take (Z.to_nat (cap - 1)) src).
    { rewrite Z.add_0_r. rewrite Hsrc'. rewrite take_take.
      f_equal. subst n len. lia. }
    rewrite Hk. f_equal. rewrite <- app_assoc. f_equal. simpl.
    rewrite length_app, length_map, length_take. simpl.
    assert (Hd : drop (Z.to_nat (offo + n)) o_out
                 = (match o_out !! Z.to_nat (offo + n) with Some x => [x] | None => [] end)
                   ++ drop (S (Z.to_nat (offo + n))) o_out).
    { destruct (o_out !! Z.to_nat (offo + n)) as [x|] eqn:Hx.
      - by rewrite (drop_S _ _ _ Hx).
      - apply lookup_ge_None in Hx. lia. }
    destruct (o_out !! Z.to_nat (offo + n)) as [x|] eqn:Hx.
    2:{ apply lookup_ge_None in Hx. lia. }
    rewrite Hd. simpl.
    match goal with |- context [<[?j := 0]> (x :: ?l)] =>
      replace j with 0%nat by (subst n len; lia) end.
    simpl. do 2 f_equal. subst n len. lia.
Qed.

Lemma cstring_written (m : mem) bo o_out offo (text : list Z) :
  m !! bo = Some o_out -> 0 <= offo ->
  (Z.to_nat offo + length (text ++ [0%Z]) <= length o_out)%nat ->
  Forall (fun c => c <> 0) text ->
  cstring (<[bo := write_at o_out (Z.to_nat offo) (text ++ [0])]> m) (Ptr bo offo) = Some text.
Proof.
  intros Ho Hoffo Hroom Hnz.
  assert (Hb : (bo < length m)%nat) by (by apply lookup_lt_Some in Ho).
  unfold cstring, bytes_from. destruct (Z.ltb_spec offo 0); [lia|].
  rewrite list_lookup_insert_eq by done. unfold write_at.
  rewrite drop_app_length' by (rewrite length_take; lia).
  rewrite <- !app_assoc. simpl. rewrite find_nul_app by done. simpl.
  by rewrite take_app_length.
Qed.

Lemma load_frame (m : mem) bo o_out off bytes p :
  m !! bo = Some o_out -> (off + length bytes <= length o_out)%nat ->
  ~ inside p bo (Z.of_nat off) (Z.of_nat off + Z.of_nat (length bytes)) ->
  load (<[bo := write_at o_out off bytes]> m) p = load m p.
Proof.
  intros Ho Hroom Hout. destruct p as [|b o]; [done|]. simpl.
  destruct (Z.ltb_spec o 0); [done|].
  destruct (decide (b = bo)) as [->|Hb].
  - rewrite list_lookup_insert_eq by (by apply lookup_lt_Some in Ho). rewrite Ho.
    apply write_at_outside; [done|].
    destruct (decide (Z.to_nat o < off)%nat); [by left|right].
    destruct (decide (off + length bytes <= Z.to_nat o)%nat); [done|].
    exfalso. apply Hout. exists o. split; [done|lia].
  - by rewrite list_lookup_insert_ne.
Qed.

Lemma upper_truncated_nonzero src cap :
  Forall (fun c => c <> 0) src -> Forall (fun c => c <> 0) (upper_truncated src cap).
Proof.
  intros H. unfold upper_truncated. apply Forall_map.
  apply Forall_take. eapply Forall_impl; [exact H|]. intros c. apply toupper_nonzero.
Qed.

(** A store keeps the size of every object. *)
Lemma store_object_size m p v m' q :
  store m p v = Some m' -> object_size m' q = object_size m q.
Proof.
  destruct p as [|b off]; [done|]. simpl.
  destruct (off <? 0); [done|].
  destruct (m !! b) as [o|] eqn:Ho; [|done].
  destruct (decide _); [|done]. intros [= <-].
  destruct q as [|b' off']; [done|]. simpl.
  destruct (decide (b = b')) as [<-|Hne].
  - rewrite list_lookup_insert_eq by (by apply lookup_lt_Some in Ho).
    by rewrite Ho, length_insert.
  - by rewrite list_lookup_insert_ne.
Qed.

(** The recursion argument of [upper_loop] is immaterial once it exceeds
    the number of bytes the source object has left: the loop then ends by
    its own test or by a fault, never by the bound. *)
Lemma upper_loop_fuel fuel1 : forall fuel2 m b off out i n,
  (object_size m (Ptr b off) < fuel1 + Z.to_nat (off + i))%nat ->
  (object_size m (Ptr b off) < fuel2 + Z.to_nat (off + i))%nat ->
  upper_loop fuel1 m (Ptr b off) out i n = upper_loop fuel2 m (Ptr b off) out i n.
Proof.
  assert (Hfail : forall m b off i fuel,
    (object_size m (Ptr b off) < Z.to_nat (off + i))%nat ->
    forall out n, upper_loop fuel m (Ptr b off) out i n = if i <? n then Fault else Ok m).
  { intros m b off i fuel Hsz out n. destruct fuel; simpl; [done|].
    destruct (i <? n); [|done].
    destruct (Z.ltb_spec (off + i) 0); [done|].
    simpl in Hsz. destruct (m !! b) as [o|]; [|done].
    destruct (o !! Z.to_nat (off + i)) eqn:Hl; [|done].
    apply lookup_lt_Some in Hl. lia. }
  induction fuel1 as [|fuel1 IH]; intros fuel2 m b off out i n H1 H2.
  - by rewrite !Hfail by lia.
  - destruct fuel2 as [|fuel2]; [by rewrite !Hfail by lia|].
    simpl. destruct (i <? n); [|done].
    destruct (Z.ltb_spec (off + i) 0); [done|].
    destruct (m !! b) as [o|] eqn:Ho; [|done].
    destruct (o !! Z.to_nat (off + i)) as [c|] eqn:Hc; [|done].
    destruct (store m (ptr_add out i) (toupper c)) as [m'|] eqn:Hst; [|done].
    apply IH; rewrite (store_object_size _ _ _ _ _ Hst); lia.
Qed.

(** C7. The reentrant formatters ([upper_reentrant] of w6 and
    [reentrant_upper] of w3), on a string [src] at [s] and a destination
    of capacity [outcap > 0] in another object: the call succeeds; the only
    bytes that change are the [length text + 1 <= outcap] first bytes of
    the destination, which receive [text], the upper-cased copy of [src]
    cut to [outcap - 1] characters, and a terminator; the destination then
    holds the string [text]; every other location of the memory reads as
    before. No bound is put on the length of [src]. *)
Theorem reentrant_formatters_correct (m : mem) bs offs bo offo outcap src o_out :
  bs <> bo ->
  cstring m (Ptr bs offs) = Some src ->
  m !! bo = Some o_out ->
  0 <= offo -> 0 < outcap <= SIZE_MAX -> offo + outcap <= Z.of_nat (length o_out) ->
  let text := upper_truncated src outcap in
  let m' := <[bo := write_at o_out (Z.to_nat offo) (text ++ [0])]> m in
  upper_reentrant m (Ptr bs offs) (Ptr bo offo) outcap = Ok m' /\
  reentrant_upper m (Ptr bs offs) (Ptr bo offo) outcap = Ok m' /\
  cstring m' (Ptr bo offo) = Some text /\
  Z.of_nat (length text) = Z.min (Z.of_nat (length src)) (outcap - 1) /\
  (forall p, ~ inside p bo offo (offo + Z.of_nat (length text) + 1) -> load m' p = load m p).
Proof.
  intros Hne Hsrc Ho Hoffo Hcap Hroom text m'.
  destruct (upper_into m bs offs bo offo outcap src o_out Hne Hsrc Ho Hoffo Hcap Hroom)
    as (n & m1 & Hlen & Hn & Hloop & Hstore).
  assert (Htext : Z.of_nat (length text) = Z.min (Z.of_nat (length src)) (outcap - 1)).
  { apply upper_truncated_length. lia. }
  assert (Hw6 : reentrant_upper m (Ptr bs offs) (Ptr bo offo) outcap = Ok m').
  { unfold reentrant_upper. rewrite Hlen. cbv zeta. rewrite Hn, Hloop.
    simpl ptr_add. by rewrite Hstore. }
  split; [|split; [exact Hw6|split; [|split; [exact Htext|]]]].
  - unfold upper_reentrant. destruct (Z.eqb_spec outcap 0); [lia|]. exact Hw6.
  - destruct (cstring_inv _ _ _ _ Hsrc) as (_ & _ & _ & _ & _ & _ & Hnz).
    apply cstring_written; auto.
    + rewrite length_app. simpl. lia.
    + by apply upper_truncated_nonzero.
  - intros p Hp. apply load_frame; [done| |].
    + rewrite length_app. simpl. lia.
    + intros (off & -> & Hoff). apply Hp. exists off. split; [done|].
      rewrite length_app in Hoff. simpl in Hoff. lia.
Qed.

Definition demo_mem : mem := [replicate 64 0; literal "hello"; literal "world"; replicate 16 0].

Lemma reentrant_formatters_correct_witness :
  upper_reentrant demo_mem (Ptr 1 0) (Ptr 3 0) 4 =
    Ok (<[3%nat := write_at (replicate 16 0) 0 (bytes_of_string "HEL" ++ [0])]> demo_mem).
Proof.
  refine (proj1 (reentrant_formatters_correct demo_mem 1%nat 0 3%nat 0 4
                   (bytes_of_string "hello") (replicate 16 0) _ _ _ _ _ _)).
  - discriminate.
  - reflexivity.
  - reflexivity.
  - lia.
  - unfold SIZE_MAX. lia.
  - simpl. lia.
Defined.

(** C8. The non-reentrant formatter called on "hello" and then on
    "world": both calls return the same pointer, the address of the static
    buffer; after the first call the buffer holds "HELLO", after the second
    it holds "WORLD", also when read through the first pointer. *)
Theorem not_reentrant_last_write_wins (m0 : mem) buf b1 b2 o_buf :
  m0 !! buf = Some o_buf -> length o_buf = Z.to_nat buf_size ->
  b1 <> buf -> b2 <> buf ->
  m0 !! b1 = Some (literal "hello") -> m0 !! b2 = Some (literal "world") ->
  exists m1 m2 p1 p2,
    upper_not_reentrant buf m0 (Ptr b1 0) = Ok (m1, p1) /\
    upper_not_reentrant buf m1 (Ptr b2 0) = Ok (m2, p2) /\
    p1 = Ptr buf 0 /\ p2 = p1 /\
    cstring m1 p1 = Some (bytes_of_string "HELLO") /\
    cstring m2 p2 = Some (bytes_of_string "WORLD") /\
    cstring m2 p1 = Some (bytes_of_string "WORLD").
Proof.
  intros Hbuf Hsz Hb1 Hb2 Hs1 Hs2.
  assert (Hc1 : cstring m0 (Ptr b1 0) = Some (bytes_of_string "hello")).
  { unfold cstring, bytes_from. simpl. by rewrite Hs1. }
  assert (Hcap : 0 < buf_size <= SIZE_MAX) by (unfold buf_size, SIZE_MAX; lia).
  assert (Hroom : 0 + buf_size <= Z.of_nat (length o_buf)) by (rewrite Hsz; unfold buf_size; lia).
  destruct (upper_into m0 b1 0 buf 0 buf_size _ o_buf Hb1 Hc1 Hbuf (Z.le_refl 0) Hcap Hroom)
    as (n1 & m1' & Hlen1 & Hn1 & Hloop1 & Hstore1).
  set (o1 := write_at o_buf (Z.to_nat 0) (upper_truncated (bytes_of_string "hello") buf_size ++ [0])) in *.
  set (m1 := <[buf := o1]> m0) in *.
  assert (Hb : (buf < length m0)%nat) by (by apply lookup_lt_Some in Hbuf).
  assert (Hbuf1 : m1 !! buf = Some o1) by (by apply list_lookup_insert_eq).
  assert (Ho1 : length o1 = length o_buf).
  { apply write_at_length. rewrite Hsz. vm_compute. lia. }
  assert (Hc2 : cstring m1 (Ptr b2 0) = Some (bytes_of_string "world")).
  { unfold cstring, bytes_from. simpl. unfold m1.
    rewrite list_lookup_insert_ne by done. by rewrite Hs2. }
  assert (Hroom1 : 0 + buf_size <= Z.of_nat (length o1)) by (rewrite Ho1; lia).
  destruct (upper_into m1 b2 0 buf 0 buf_size _ o1 Hb2 Hc2 Hbuf1 (Z.le_refl 0) Hcap Hroom1)
    as (n2 & m2' & Hlen2 & Hn2 & Hloop2 & Hstore2).
  set (o2 := write_at o1 (Z.to_nat 0) (upper_truncated (bytes_of_string "world") buf_size ++ [0])) in *.
  exists m1, (<[buf := o2]> m1), (Ptr buf 0), (Ptr buf 0).
  assert (Hw1 : cstring m1 (Ptr buf 0) = Some (bytes_of_string "HELLO")).
  { apply (cstring_written m0 buf o_buf 0 (bytes_of_string "HELLO")); auto; [lia| |].
    - rewrite Hsz. vm_compute. lia.
    - vm_compute. repeat constructor; discriminate. }
  assert (Hw2 : cstring (<[buf := o2]> m1) (Ptr buf 0) = Some (bytes_of_string "WORLD")).
  { apply (cstring_written m1 buf o1 0 (bytes_of_string "WORLD")); auto; [lia| |].
    - rewrite Ho1, Hsz. vm_compute. lia.
    - vm_compute. repeat constructor; discriminate. }
  repeat split; auto.
  - unfold upper_not_reentrant. rewrite Hlen1. cbv zeta. rewrite Hn1, Hloop1.
    rewrite Z.add_0_l in Hstore1. by rewrite Hstore1.
  - unfold upper_not_reentrant. rewrite Hlen2. cbv zeta. rewrite Hn2, Hloop2.
    rewrite Z.add_0_l in Hstore2. by rewrite Hstore2.
Qed.

Lemma not_reentrant_last_write_wins_witness :
  exists m1 m2 p1 p2,
    upper_not_reentrant 0 demo_mem (Ptr 1 0) = Ok (m1, p1) /\
    upper_not_reentrant 0 m1 (Ptr 2 0) = Ok (m2, p2) /\
    p1 = Ptr 0 0 /\ p2 = p1 /\
    cstring m1 p1 = Some (bytes_of_string "HELLO") /\
    cstring m2 p2 = Some (bytes_of_string "WORLD") /\
    cstring m2 p1 = Some (bytes_of_string "WORLD").
Proof.
  apply (not_reentrant_last_write_wins demo_mem 0%nat 1%nat 2%nat (replicate 64 0)).
  - reflexivity.
  - reflexivity.
  - discriminate.
  - discriminate.
  - reflexivity.
  - reflexivity.
Defined.

(** The routine of w3 is the one of w6. *)
Lemma not_reentrant_upper_same : not_reentrant_upper = upper_not_reentrant.
Proof. reflexivity. Qed.

(** C9, as the code has it. A destination of capacity zero makes
    [upper_reentrant] return at once: nothing is read (the source may even
    be null), nothing is written, nothing faults. *)
Theorem upper_reentrant_zero_capacity (m : mem) (s out : ptr) :
  upper_reentrant m s out 0 = Ok m.
Proof. reflexivity. Qed.

(** C9 as stated fails: a null source is not tested by any of the
    routines, [strlen] dereferences it and the call faults, the memory
    being in order and the capacity positive. *)
Lemma null_input_faults :
  upper_reentrant demo_mem Null (Ptr 3 0) 16 = Fault /\
  reentrant_upper demo_mem Null (Ptr 3 0) 16 = Fault /\
  upper_not_reentrant 0 demo_mem Null = Fault.
Proof. repeat split. Qed.

(** [reentrant_upper] of w3 has no test of the capacity: with capacity
    zero the truncated length wraps to [SIZE_MAX], the loop copies the
    whole source and its terminator into the destination and goes on
    reading behind the source until it faults. *)
Lemma reentrant_upper_zero_capacity_faults :
  reentrant_upper demo_mem (Ptr 1 0) (Ptr 3 0) 0 = Fault.
Proof. vm_compute. reflexivity. Qed.

End FormatterFacts.


(** ** The thread machine *)

Module MachineFacts.
Import Machine.

(** *** Sums over the threads *)

Definition total {A : Type} (f : A -> Z) (l : list A) : Z :=
  foldr (fun x acc => f x + acc) 0 l.

Lemma total_insert {A : Type} (f : A -> Z) (l : list A) t x y :
  l !! t = Some x -> total f (<[t := y]> l) = total f l - f x + f y.
Proof.
  revert t. induction l as [|a l IH]; intros [|t] H; simplify_eq/=; [lia|].
  rewrite (IH t H). lia.
Qed.

Lemma total_nonneg {A : Type} (f : A -> Z) (l : list A) :
  (forall t x, l !! t = Some x -> 0 <= f x) -> 0 <= total f l.
Proof.
  induction l as [|a l IH]; intros H; simpl; [lia|].
  specialize (H 0%nat a eq_refl) as H0.
  assert (0 <= total f l) by (apply IH; intros t x Hx; apply (H (S t) x Hx)).
  lia.
Qed.

Lemma total_one {A : Type} (f : A -> Z) (l : list A) t x :
  (forall t x, l !! t = Some x -> 0 <= f x) -> l !! t = Some x -> f x <= total f l.
Proof.
  revert t. induction l as [|a l IH]; intros [|t] Hpos Hx; simplify_eq/=.
  - assert (0 <= total f l); [|lia].
    apply total_nonneg. intros u y Hy. apply (Hpos (S u) y Hy).
  - specialize (Hpos 0%nat a eq_refl) as H0.
    assert (f x <= total f l); [|lia].
    apply (IH t); [|done]. intros u y Hy. apply (Hpos (S u) y Hy).
Qed.

Lemma total_two {A : Type} (f : A -> Z) (l : list A) t u x y :
  (forall t x, l !! t = Some x -> 0 <= f x) ->
  l !! t = Some x -> l !! u = Some y -> t <> u -> f x + f y <= total f l.
Proof.
  revert t u. induction l as [|a l IH]; intros t u Hpos Hx Hy Hne; [done|].
  assert (Hpos' : forall v z, l !! v = Some z -> 0 <= f z).
  { intros v z Hz. apply (Hpos (S v) z Hz). }
  destruct t as [|t], u as [|u]; simplify_eq/=.
  - assert (f y <= total f l) by (by apply total_one with u). lia.
  - assert (f x <= total f l) by (by apply total_one with t). lia.
  - specialize (Hpos 0%nat a eq_refl) as H0.
    assert (f x + f y <= total f l) by (apply (IH t u); auto). lia.
Qed.

Lemma total_ext {A : Type} (f g : A -> Z) (l : list A) :
  (forall t x, l !! t = Some x -> f x = g x) -> total f l = total g l.
Proof.
  induction l as [|a l IH]; intros H; simpl; [done|].
  rewrite (H 0%nat a eq_refl), IH; [done|]. intros t x Hx. apply (H (S t) x Hx).
Qed.

Lemma total_const {A : Type} (f : A -> Z) (l : list A) k :
  (forall t x, l !! t = Some x -> f x = k) -> total f l = Z.of_nat (length l) * k.
Proof.
  induction l as [|a l IH]; intros H; [simpl; lia|].
  change (total f (a :: l)) with (f a + total f l).
  rewrite (H 0%nat a eq_refl), IH; [simpl length; lia|].
  intros t x Hx. apply (H (S t) x Hx).
Qed.

Lemma total_le {A : Type} (f : A -> Z) (l : list A) k :
  (forall t x, l !! t = Some x -> f x <= k) -> total f l <= Z.of_nat (length l) * k.
Proof.
  induction l as [|a l IH]; intros H; [simpl; lia|].
  change (total f (a :: l)) with (f a + total f l).
  specialize (H 0%nat a eq_refl) as H0.
  assert (total f l <= Z.of_nat (length l) * k).
  { apply IH. intros t x Hx. apply (H (S t) x Hx). }
  simpl length. lia.
Qed.

Lemma total_mono {A : Type} (f g : A -> Z) (l : list A) :
  (forall t x, l !! t = Some x -> f x <= g x) -> total f l <= total g l.
Proof.
  induction l as [|a l IH]; intros H; simpl; [lia|].
  specialize (H 0%nat a eq_refl) as H0.
  assert (total f l <= total g l) by (apply IH; intros t x Hx; apply (H (S t) x Hx)).
  lia.
Qed.

Lemma total_app {A : Type} (f : A -> Z) (l1 l2 : list A) :
  total f (l1 ++ l2) = total f l1 + total f l2.
Proof. induction l1 as [|a l IH]; simpl; lia. Qed.

Lemma total_room {A : Type} (f : A -> Z) (l : list A) k t x :
  (forall u y, l !! u = Some y -> f y <= k) -> l !! t = Some x ->
  total f l <= Z.of_nat (length l) * k - (k - f x).
Proof.
  revert t. induction l as [|a l IH]; intros t Hle Hx; [done|].
  assert (Hle' : forall u y, l !! u = Some y -> f y <= k).
  { intros u y Hy. apply (Hle (S u) y Hy). }
  change (total f (a :: l)) with (f a + total f l). simpl length.
  destruct t as [|t]; simplify_eq/=.
  - pose proof (total_le f l k Hle'). lia.
  - specialize (Hle 0%nat a eq_refl) as H0. specialize (IH t Hle' Hx). lia.
Qed.

(** *** Steps of one thread *)

Section Generic.
Context {C : Type} (prog : globals -> C -> action C).

(** A thread woken up from [pthread_cond_wait]. *)
Definition woken (th : thread C) : thread C := in_sem th (InWait WReacquire) (reg th).

(** What an event is made of: a step of one thread (whatever it is told
    about the waiters), or the wake-up of a blocked thread. A [Signal] is
    a wake-up followed by the step of the signalling thread. *)
Inductive micro (s s' : state C) : Prop :=
| micro_step t b th sh th' :
    threads s !! t = Some th ->
    thread_step prog t b (shr s) th = Some (sh, th') ->
    s' = {| shr := sh; threads := <[t := th']> (threads s) |} ->
    micro s s'
| micro_wake u tu :
    threads s !! u = Some tu ->
    blocked tu = true ->
    s' = {| shr := shr s; threads := <[u := woken tu]> (threads s) |} ->
    micro s s'.

Lemma exec_micro e s s' :
  exec prog e s = Some s' ->
  micro s s' \/
  exists s1, micro s s1 /\ micro s1 s' /\ shr s1 = shr s.
Proof.
  destruct e as [t|t u|u]; simpl.
  - destruct (threads s !! t) as [th|] eqn:Ht; [|done].
    destruct (thread_step _ _ _ _ _) as [[sh th']|] eqn:Hs; [|done].
    intros [= <-]. left. by eapply micro_step.
  - destruct (threads s !! t) as [th|] eqn:Ht; [|done].
    destruct (threads s !! u) as [tu|] eqn:Hu; [|done].
    destruct (ret th) eqn:Hret; [done|].
    destruct (spc th) as [|w|p] eqn:Hspc; try done.
    destruct p; try done.
    destruct (blocked tu) eqn:Hb; [|done].
    intros [= <-]. right.
    assert (t <> u).
    { intros ->. simplify_eq. unfold blocked in Hb. by rewrite Hspc in Hb. }
    exists {| shr := shr s; threads := <[u := woken tu]> (threads s) |}.
    split; [by eapply micro_wake|]. split; [|done].
    eapply (micro_step _ _ t false th).
    + simpl. by rewrite list_lookup_insert_ne.
    + unfold thread_step. rewrite Hret, Hspc. simpl. reflexivity.
    + simpl. by destruct (shr s).
  - destruct (threads s !! u) as [tu|] eqn:Hu; [|done].
    destruct (blocked tu) eqn:Hb; [|done].
    intros [= <-]. left. by eapply micro_wake.
Qed.

Lemma run_app sched1 sched2 (s : state C) :
  run prog (sched1 ++ sched2) s =
    match run prog sched1 s with
    | Some s' => run prog sched2 s'
    | None => None
    end.
Proof.
  revert s. induction sched1 as [|e r IH]; intros s; simpl; [done|].
  destruct (exec prog e s); [apply IH|done].
Qed.

(** A property kept by the steps of one thread holds along every run. *)
Lemma invariant_run (I : state C -> Prop) :
  (forall s s', I s -> micro s s' -> I s') ->
  forall sched s s', I s -> run prog sched s = Some s' -> I s'.
Proof.
  intros Hstep. induction sched as [|e r IH]; intros s s' Hs; simpl.
  - by intros [= <-].
  - destruct (exec prog e s) as [s1|] eqn:He; [|done].
    intros Hr. apply (IH s1); [|done].
    destruct (exec_micro _ _ _ He) as [Hm|(s2 & Hm1 & Hm2 & _)]; eauto.
Qed.

(** *** The semaphore's own invariant *)

(** The program points at which a thread owns the mutex [m]. *)
Definition holds_m (pc : sem_pc) : bool :=
  match pc with
  | InWait (WTest | WCondWait | WDecLoad | WDecStore | WUnlock) => true
  | InPost (PIncLoad | PIncStore | PSignal | PUnlock) => true
  | _ => false
  end.

Definition thr_sem_ok (sm : semc_t) (u : nat) (th : thread C) : Prop :=
  (holds_m (spc th) = true <-> m sm = Some u) /\
  (spc th = InWait WDecStore \/ spc th = InPost PIncStore -> reg th = count sm) /\
  (spc th = InWait WDecLoad \/ spc th = InWait WDecStore -> count sm <> 0).

Definition sem_ok (s : state C) : Prop :=
  0 <= count (sem (shr s)) <= INT_MAX /\
  forall u th, threads s !! u = Some th -> thr_sem_ok (sem (shr s)) u th.

End Generic.

Ltac inv_step H :=
  unfold thread_step, semc_wait, semc_post, pthread_mutex_lock, pthread_mutex_unlock in H;
  repeat (case_match; simplify_eq/=; try done).

Ltac bool_facts :=
  repeat match goal with
  | H : (_ <? _) = true |- _ => apply Z.ltb_lt in H
  | H : (_ <? _) = false |- _ => apply Z.ltb_ge in H
  | H : (_ =? _) = true |- _ => apply Z.eqb_eq in H
  | H : (_ =? _) = false |- _ => apply Z.eqb_neq in H
  end.

Ltac split_thread u t Hu :=
  cbn [threads] in Hu;
  destruct (decide (u = t)) as [->|?];
    [rewrite list_lookup_insert_eq in Hu by (eapply lookup_lt_Some; eassumption);
     simplify_eq
    |rewrite list_lookup_insert_ne in Hu by done].

Section SemInvariant.
Context {C : Type} (prog : globals -> C -> action C).

(** The increment of [semc_post] is the one step that needs a bound:
    it must not start from [INT_MAX]. *)
Definition post_fits (s : state C) : Prop :=
  forall t th, threads s !! t = Some th -> spc th = InPost PIncStore ->
    count (sem (shr s)) < INT_MAX.

(** A step of thread [t] keeps the invariant, the store of the
    increment of [semc_post] provided the count is below [INT_MAX]. *)
Lemma sem_ok_step (s : state C) t b th sh th' :
  sem_ok s -> threads s !! t = Some th ->
  thread_step prog t b (shr s) th = Some (sh, th') ->
  (spc th = InPost PIncStore -> count (sem (shr s)) < INT_MAX) ->
  sem_ok {| shr := sh; threads := <[t := th']> (threads s) |}.
Proof.
  intros [Hc Hall] Ht Hs Hmax.
  pose proof (Hall t th Ht) as (Hm & Hreg & Hnz).
  inv_step Hs.
  all: try specialize (Hmax eq_refl).
  all: try specialize (Hreg (or_introl eq_refl)); try specialize (Hreg (or_intror eq_refl)).
  all: try specialize (Hnz (or_introl eq_refl)); try specialize (Hnz (or_intror eq_refl)).
  all: split; [simpl; rewrite ?wrap_int_id by (unfold INT_MAX in *; lia); simpl in *;
               unfold INT_MAX in *; lia|].
  all: intros u thu Hu; split_thread u t Hu;
    [|pose proof (Hall u thu Hu) as (Hm' & Hreg' & Hnz')];
    unfold thr_sem_ok in *; simpl in *;
    rewrite ?wrap_int_id by (unfold INT_MAX in *; lia).
  all: try (match goal with H : spc ?x = _ |- _ => rewrite H in * end); simpl in *.
  all: split_and!; [split; intros ?|intros [?|?]|intros [?|?]]; simplify_eq/=; try done; try lia.
  all: try (intuition congruence).
  all: exfalso; rewrite H1 in Hm'; simpl in Hm'; intuition congruence.
Qed.

Lemma sem_ok_wake (s : state C) u tu :
  sem_ok s -> threads s !! u = Some tu -> blocked tu = true ->
  sem_ok {| shr := shr s; threads := <[u := woken tu]> (threads s) |}.
Proof.
  intros [Hc Hall] Hu Hb.
  split; [done|]. intros v thv Hv. split_thread v u Hv.
  - pose proof (Hall u tu Hu) as (Hm & Hreg & Hnz).
    unfold blocked in Hb. destruct (spc tu) as [|[]|]; try done.
    unfold thr_sem_ok in *; simpl in *. split_and!; [done|intros [?|?]; done..].
  - by apply Hall.
Qed.

Lemma sem_ok_micro (s s' : state C) :
  sem_ok s -> post_fits s -> micro prog s s' -> sem_ok s'.
Proof.
  intros Hok Hfits Hm. destruct Hm as [t b th sh th' Ht Hs ->|u tu Hu Hb ->].
  - eapply sem_ok_step; eauto.
  - by apply sem_ok_wake.
Qed.

(** An event that is not the overflowing store keeps the invariant. *)
Lemma sem_ok_exec e (s s' : state C) :
  sem_ok s -> overflows e s = false -> exec prog e s = Some s' -> sem_ok s'.
Proof.
  intros Hok Hov He. destruct e as [t|t u|u]; simpl in *.
  - destruct (threads s !! t) as [th|] eqn:Ht; [|done].
    destruct (thread_step _ _ _ _ _) as [[sh th']|] eqn:Hs; [|done].
    injection He as <-. eapply sem_ok_step; eauto.
    intros Hpc. rewrite Hpc in Hov.
    unfold thread_step in Hs. destruct (ret th); [done|].
    by apply Z.leb_gt in Hov.
  - destruct (threads s !! t) as [th|] eqn:Ht; [|done].
    destruct (threads s !! u) as [tu|] eqn:Hu; [|done].
    destruct (ret th) eqn:Hret; [done|].
    destruct (spc th) as [|w|p] eqn:Hspc; try done.
    destruct p; try done.
    destruct (blocked tu) eqn:Hb; [|done].
    injection He as <-.
    assert (t <> u).
    { intros ->. simplify_eq. unfold blocked in Hb. by rewrite Hspc in Hb. }
    pose proof (sem_ok_wake s u tu Hok Hu Hb) as Hok1.
    apply (sem_ok_step _ t false th (shr s) (in_sem th (InPost PUnlock) (reg th))) in Hok1.
    + exact Hok1.
    + simpl. by rewrite list_lookup_insert_ne.
    + unfold thread_step. rewrite Hret, Hspc. simpl. by destruct (shr s).
    + by rewrite Hspc.
  - destruct (threads s !! u) as [tu|] eqn:Hu; [|done].
    destruct (blocked tu) eqn:Hb; [|done].
    injection He as <-. by apply sem_ok_wake.
Qed.

(** Along a run without the overflowing store, the invariant of the
    semaphore holds. *)
Lemma sem_ok_run sched : forall (s s' : state C),
  sem_ok s -> no_overflow prog sched s = true -> run prog sched s = Some s' -> sem_ok s'.
Proof.
  induction sched as [|e r IH]; intros s s' Hs Hp; simpl in *.
  - by intros [= <-].
  - destruct (exec prog e s) as [s1|] eqn:He; [|done].
    apply andb_true_iff in Hp as [Hov Hp]. apply negb_true_iff in Hov.
    intros Hr. apply (IH s1); [|done|done].
    by apply (sem_ok_exec e s).
Qed.

Lemma sem_ok_start permits (cs : list C) :
  0 <= permits <= INT_MAX -> sem_ok (start_state permits cs).
Proof.
  intros Hp. split; [done|]. intros u th Hu. simpl in Hu.
  rewrite list_lookup_fmap in Hu.
  destruct (cs !! u); simplify_eq/=.
  unfold thr_sem_ok; simpl. split_and!; [split; done|intros [?|?]; done..].
Qed.

(** The overflowing store does take the count out of its range: it
    leaves [INT_MIN]. *)
Lemma overflow_wraps e (s s' : state C) :
  sem_ok s -> overflows e s = true -> exec prog e s = Some s' ->
  count (sem (shr s')) = - 2 ^ 31.
Proof.
  intros [Hc Hall] Hov He. destruct e as [t|t u|u]; simpl in *; try done.
  destruct (threads s !! t) as [th|] eqn:Ht; [|done].
  pose proof (Hall t th Ht) as (_ & Hreg & _).
  destruct (ret th) eqn:Hret; [done|].
  destruct (spc th) as [|w|[]] eqn:Hspc; try done.
  apply Z.leb_le in Hov.
  unfold thread_step in He. rewrite Hret, Hspc in He. simpl in He.
  injection He as <-. simpl.
  rewrite (Hreg (or_intror eq_refl)).
  replace (count (sem (shr s))) with INT_MAX by lia. reflexivity.
Qed.

Definition spc_at (s : state C) (t : nat) : option sem_pc := spc <$> threads s !! t.

(** C2, as the code has it. From a number of permits between 0 and
    [INT_MAX], along every run of any clients in which no [semc_post]
    increments a count of [INT_MAX] (the count is an [int], and
    [semc_post] does not test it): the count is not negative; a thread
    blocked in [semc_wait] cannot move by itself; a thread that finds the
    count zero at the test goes on to
    [pthread_cond_wait] and blocks, releasing the mutex; a thread that has
    been woken up takes the mutex and comes back to the test; a thread is
    at the decrement only with a count greater than zero, passes the test
    only then, and its decrement takes exactly one off the count. *)
Theorem semc_wait_never_negative (permits : Z) (cs : list C) sched (s : state C) :
  0 <= permits <= INT_MAX ->
  no_overflow prog sched (start_state permits cs) = true ->
  run prog sched (start_state permits cs) = Some s ->
  0 <= count (sem (shr s)) /\
  forall t th, threads s !! t = Some th -> ret th = None ->
    (spc th = InWait WBlocked -> exec prog (Step t) s = None) /\
    (spc th = InWait WTest -> count (sem (shr s)) = 0 ->
       exists s', exec prog (Step t) s = Some s' /\
         spc_at s' t = Some (InWait WCondWait) /\ sem (shr s') = sem (shr s)) /\
    (spc th = InWait WCondWait ->
       exists s', exec prog (Step t) s = Some s' /\
         spc_at s' t = Some (InWait WBlocked) /\ m (sem (shr s')) = None) /\
    (spc th = InWait WReacquire ->
       forall s', exec prog (Step t) s = Some s' -> spc_at s' t = Some (InWait WTest)) /\
    (spc th = InWait WTest -> count (sem (shr s)) <> 0 ->
       exists s', exec prog (Step t) s = Some s' /\
         spc_at s' t = Some (InWait WDecLoad) /\ sem (shr s') = sem (shr s)) /\
    (spc th = InWait WDecLoad \/ spc th = InWait WDecStore -> 0 < count (sem (shr s))) /\
    (spc th = InWait WDecStore ->
       exists s', exec prog (Step t) s = Some s' /\
         count (sem (shr s')) = count (sem (shr s)) - 1).
Proof.
  intros Hp Hfit Hrun.
  assert (Hok : sem_ok s).
  { eapply sem_ok_run; [|exact Hfit|exact Hrun]. by apply sem_ok_start. }
  destruct Hok as [Hc Hall]. split; [lia|].
  intros t th Ht Hret. pose proof (Hall t th Ht) as (Hm & Hreg & Hnz).
  assert (Hlt : (t < length (threads s))%nat) by (by apply lookup_lt_Some in Ht).
  unfold spc_at, exec, thread_step. rewrite Ht, Hret.
  split_and!; intros Hpc; try (rewrite Hpc; simpl).
  - done.
  - intros Hz. rewrite Hz. simpl. eexists. split; [done|]. simpl.
    rewrite list_lookup_insert_eq by done. split; [done|]. by destruct (sem (shr s)).
  - eexists. split; [done|]. simpl. by rewrite list_lookup_insert_eq.
  - intros s'. unfold pthread_mutex_lock. destruct (m (sem (shr s))); [done|].
    intros [= <-]. simpl. by rewrite list_lookup_insert_eq.
  - intros Hz. destruct (Z.eqb_spec (count (sem (shr s))) 0) as [|_]; [done|].
    eexists. split; [done|]. simpl.
    rewrite list_lookup_insert_eq by done. split; [done|]. by destruct (sem (shr s)).
  - specialize (Hnz Hpc). lia.
  - rewrite Hpc in *. eexists. split; [done|]. simpl.
    rewrite (Hreg (or_introl eq_refl)).
    specialize (Hnz (or_intror eq_refl)).
    apply wrap_int_id. unfold INT_MAX in *. lia.
Qed.

End SemInvariant.

(** *** Permits held *)

Section Accounting.
Context {C : Type} (prog : globals -> C -> action C).

(** [bal c] is the number of permits a worker holds when its locals are
    [c], as the worker's code has it: one more after a [semc_wait], one
    less after a [semc_post]. [okc] delimits the locals the worker can
    reach. *)
Variable okc : C -> Prop.
Variable bal : C -> Z.
Variable permits : Z.

Definition next_ok (a : action C) : Prop :=
  match a with
  | ALocal _ _ c | ALock c | AUnlock c | AWait c | APost c => okc c
  | AReturn _ => True
  end.

Definition next_bal (b : Z) (a : action C) : Prop :=
  match a with
  | ALocal _ _ c | ALock c | AUnlock c => bal c = b
  | AWait c => bal c = b + 1
  | APost c => bal c = b - 1
  | AReturn _ => True
  end.

Hypothesis ok_next : forall g c, okc c -> next_ok (prog g c).
Hypothesis bal_next : forall g c, okc c -> next_bal (bal c) (prog g c).
Hypothesis bal_nonneg : forall c, okc c -> 0 <= bal c.
Hypothesis permits_range : 0 <= permits <= INT_MAX.

(** Inside [semc_wait] the permit is taken by the store of the decrement,
    inside [semc_post] it is given back by the store of the increment. *)
Definition adj (pc : sem_pc) : Z :=
  match pc with
  | InWait WUnlock => 0
  | InWait _ => -1
  | InPost (PLock | PIncLoad | PIncStore) => 1
  | _ => 0
  end.

Definition eff (th : thread C) : Z := bal (local th) + adj (spc th).

Definition acc_ok (s : state C) : Prop :=
  sem_ok s /\
  count (sem (shr s)) + total eff (threads s) = permits /\
  forall u th, threads s !! u = Some th -> okc (local th) /\ 0 <= eff th.

Lemma acc_ok_fits s : acc_ok s -> post_fits s.
Proof.
  intros (_ & Hsum & Hall) t th Ht Hpc.
  assert (eff th <= total eff (threads s)).
  { apply total_one with t; [|done]. intros u x Hx. by apply (Hall u x Hx). }
  destruct (Hall t th Ht) as [Hok _]. apply bal_nonneg in Hok.
  unfold eff in *. rewrite Hpc in *. simpl in *. lia.
Qed.

Lemma acc_ok_micro (s s' : state C) : acc_ok s -> micro prog s s' -> acc_ok s'.
Proof.
  intros Hacc Hmic.
  assert (Hsem' : sem_ok s').
  { apply (sem_ok_micro prog s); [by destruct Hacc|by apply acc_ok_fits|done]. }
  pose proof (acc_ok_fits s Hacc) as Hfits.
  destruct Hacc as ((Hc & Hsems) & Hsum & Hall).
  split; [done|]. clear Hsem'.
  destruct Hmic as [t b th sh th' Ht Hs ->|u tu Hu Hb ->].
  - pose proof (Hall t th Ht) as (Hok & Heff).
    pose proof (Hsems t th Ht) as (Hm & Hreg & Hnz).
    pose proof (ok_next (glob (shr s)) _ Hok) as Hnext.
    pose proof (bal_next (glob (shr s)) _ Hok) as Hbal.
    pose proof (bal_nonneg _ Hok) as Hb0.
    pose proof (Hfits t th Ht) as Hmax.
    unfold eff in Heff.
    inv_step Hs.
    all: try specialize (Hmax eq_refl).
    all: try specialize (Hreg (or_introl eq_refl)); try specialize (Hreg (or_intror eq_refl)).
    all: try specialize (Hnz (or_introl eq_refl)); try specialize (Hnz (or_intror eq_refl)).
    all: (split;
      [rewrite (total_insert eff _ t th) by done; unfold eff; simpl;
       rewrite ?wrap_int_id by (unfold INT_MAX in *; lia);
       repeat match goal with H : spc _ = _ |- _ => rewrite H end; simpl; lia
      |intros u thu Hu; split_thread u t Hu; [|by eapply Hall];
       unfold eff; simpl; split; [done|];
       repeat match goal with H : spc _ = _ |- _ => rewrite H end; simpl;
       try match goal with H : okc ?c |- context [bal ?c] =>
         pose proof (bal_nonneg _ H) end; lia]).
  - split.
    + simpl. rewrite (total_insert eff _ u tu) by done.
      assert (eff (woken tu) = eff tu); [|lia].
      unfold blocked in Hb. unfold eff, woken. simpl.
      by destruct (spc tu) as [|[]|].
    + intros v thv Hv. split_thread v u Hv; [|by eapply Hall].
      destruct (Hall u tu Hu) as [Hok Heff]. split; [done|].
      unfold blocked in Hb. unfold eff, woken in *. simpl.
      destruct (spc tu) as [|[]|]; try done.
Qed.

Lemma acc_ok_start (cs : list C) :
  (forall c, c ∈ cs -> okc c /\ bal c = 0) -> acc_ok (start_state permits cs).
Proof.
  intros Hcs. split; [by apply sem_ok_start|]. split.
  - simpl. rewrite (total_const eff _ 0); [lia|].
    intros t x Hx. rewrite list_lookup_fmap in Hx.
    destruct (cs !! t) as [c|] eqn:Hc; simplify_eq/=.
    unfold eff. simpl. destruct (Hcs c); [|lia]. by eapply list_elem_of_lookup_2.
  - intros u th Hu. simpl in Hu. rewrite list_lookup_fmap in Hu.
    destruct (cs !! u) as [c|] eqn:Hc; simplify_eq/=.
    unfold eff. simpl. destruct (Hcs c); [|split; [done|lia]].
    by eapply list_elem_of_lookup_2.
Qed.

Lemma acc_ok_run (cs : list C) sched s :
  (forall c, c ∈ cs -> okc c /\ bal c = 0) ->
  run prog sched (start_state permits cs) = Some s -> acc_ok s.
Proof.
  intros Hcs. apply (invariant_run prog acc_ok).
  - intros s1 s2. apply acc_ok_micro.
  - by apply acc_ok_start.
Qed.

(** The permits held never exceed the permits of the semaphore. *)
Lemma held_le_permits s : acc_ok s -> total eff (threads s) <= permits.
Proof. intros ((Hc & _) & Hsum & _). lia. Qed.

(** With one permit, two threads never hold it together. *)
Lemma mutual_exclusion s t u a b :
  acc_ok s -> permits = 1 ->
  threads s !! t = Some a -> threads s !! u = Some b -> t <> u ->
  1 <= eff a -> 1 <= eff b -> False.
Proof.
  intros ((Hc & _) & Hsum & Hall) -> Ha Hb Hne H1 H2.
  assert (eff a + eff b <= total eff (threads s)); [|lia].
  apply total_two with t u; auto. intros v x Hx. by apply (Hall v x Hx).
Qed.

End Accounting.

Lemma micro_length {C : Type} (prog : globals -> C -> action C) (s s' : state C) :
  micro prog s s' -> length (threads s') = length (threads s).
Proof. intros [t b th sh th' _ _ ->|u tu _ _ ->]; simpl; by rewrite length_insert. Qed.

Lemma joined_ret {C : Type} (s : state C) t th :
  joined s = true -> threads s !! t = Some th -> is_Some (ret th).
Proof.
  unfold joined. rewrite forallb_forall. intros Hall Ht.
  specialize (Hall th). destruct (ret th); [done|].
  discriminate Hall. apply list_elem_of_In. by eapply list_elem_of_lookup_2.
Qed.

(** *** Events, one at a time *)

Section Events.
Context {C : Type} (prog : globals -> C -> action C).

Lemma run_step t th sh th' rest (s : state C) :
  threads s !! t = Some th ->
  thread_step prog t (has_waiter (threads s)) (shr s) th = Some (sh, th') ->
  run prog (Step t :: rest) s
    = run prog rest {| shr := sh; threads := <[t := th']> (threads s) |}.
Proof. intros Ht Hs. simpl. by rewrite Ht, Hs. Qed.

Lemma run_signal t u th tu rest (s : state C) :
  threads s !! t = Some th -> threads s !! u = Some tu ->
  ret th = None -> spc th = InPost PSignal -> blocked tu = true ->
  run prog (Signal t u :: rest) s
    = run prog rest
        {| shr := shr s;
           threads := <[t := in_sem th (InPost PUnlock) (reg th)]>
                        (<[u := in_sem tu (InWait WReacquire) (reg tu)]> (threads s)) |}.
Proof. intros Ht Hu Hr Hs Hb. simpl. by rewrite Ht, Hu, Hr, Hs, Hb. Qed.

(** Two threads of a thread list, set apart. *)
Definition two (t u : nat) (a b : thread C) (ths : list (thread C)) : list (thread C) :=
  <[t := a]> (<[u := b]> ths).

Lemma two_id t u a b ths :
  ths !! t = Some a -> ths !! u = Some b -> ths = two t u a b ths.
Proof. intros Ha Hb. unfold two. by rewrite (list_insert_id _ u), list_insert_id. Qed.

Lemma two_lookup_l t u a b ths :
  (t < length ths)%nat -> two t u a b ths !! t = Some a.
Proof. intros H. unfold two. apply list_lookup_insert_eq. by rewrite length_insert. Qed.

Lemma two_lookup_r t u a b ths :
  t <> u -> (u < length ths)%nat -> two t u a b ths !! u = Some b.
Proof.
  intros Hne H. unfold two. rewrite list_lookup_insert_ne by done.
  by apply list_lookup_insert_eq.
Qed.

Lemma two_insert_l t u a a' b ths : <[t := a']> (two t u a b ths) = two t u a' b ths.
Proof. unfold two. apply list_insert_insert_eq. Qed.

Lemma two_insert_r t u a b b' ths :
  t <> u -> <[u := b']> (two t u a b ths) = two t u a b' ths.
Proof.
  intros Hne. unfold two. rewrite list_insert_insert_ne by done.
  by rewrite list_insert_insert_eq.
Qed.

End Events.

(** *** Runs of one thread at a time *)

Section Solo.
Context {C : Type} (prog : globals -> C -> action C).

(** [n] steps of thread [t] while no thread is blocked on the condition
    variable, [t] included. *)
Fixpoint solo (n : nat) (t : nat) (sh : shared) (th : thread C)
  : option (shared * thread C) :=
  match n with
  | O => Some (sh, th)
  | S n' =>
      match thread_step prog t false sh th with
      | Some (sh1, th1) => if blocked th1 then None else solo n' t sh1 th1
      | None => None
      end
  end.

Lemma solo_app n1 n2 t sh th :
  solo (n1 + n2) t sh th =
    match solo n1 t sh th with
    | Some (sh1, th1) => solo n2 t sh1 th1
    | None => None
    end.
Proof.
  revert sh th. induction n1 as [|n1 IH]; intros sh th; simpl; [done|].
  destruct (thread_step prog t false sh th) as [[sh1 th1]|]; [|done].
  destruct (blocked th1); [done|]. apply IH.
Qed.

Lemma has_waiter_insert (ths : list (thread C)) t th :
  has_waiter ths = false -> blocked th = false -> has_waiter (<[t := th]> ths) = false.
Proof.
  unfold has_waiter. revert t. induction ths as [|a l IH]; intros t; simpl; [done|].
  intros [Ha Hl]%orb_false_elim Hb. destruct t as [|t]; simpl.
  - by rewrite Hb, Hl.
  - by rewrite Ha, IH.
Qed.

Lemma run_solo n : forall t (s : state C) th sh' th',
  has_waiter (threads s) = false ->
  threads s !! t = Some th ->
  solo n t (shr s) th = Some (sh', th') ->
  run prog (repeat (Step t) n) s
    = Some {| shr := sh'; threads := <[t := th']> (threads s) |} /\
  (blocked th = false -> blocked th' = false).
Proof.
  induction n as [|n IH]; intros t s th sh' th' Hw Ht Hsolo; simpl in *.
  - simplify_eq. split; [|done]. rewrite list_insert_id by done. by destruct s.
  - rewrite Ht, Hw.
    destruct (thread_step prog t false (shr s) th) as [[sh1 th1]|]; [|done].
    destruct (blocked th1) eqn:Hb1; [done|].
    assert (Hlt : (t < length (threads s))%nat) by (by apply lookup_lt_Some in Ht).
    destruct (IH t {| shr := sh1; threads := <[t := th1]> (threads s) |} th1 sh' th')
      as [Hrun Hb]; simpl.
    + by apply has_waiter_insert.
    + by apply list_lookup_insert_eq.
    + done.
    + rewrite Hrun. simpl. rewrite list_insert_insert_eq. split; [done|]. auto.
Qed.

(** A worker that, left alone in a quiet state, runs to its return takes
    every thread to its return, one after the other. [val] is a shared
    value and [gain th] what the rest of worker [th] adds to it. *)
Variable quiet : shared -> Prop.
Variable ready : thread C -> Prop.
Variable val : shared -> Z.
Variable gain : thread C -> Z.
Variable bound : Z.

Hypothesis gain_nonneg : forall th, ready th -> 0 <= gain th.
Hypothesis solo_complete : forall t sh th,
  quiet sh -> ready th -> 0 <= val sh -> val sh + gain th <= bound ->
  exists n sh' th',
    solo n t sh th = Some (sh', th') /\ is_Some (ret th') /\
    quiet sh' /\ val sh' = val sh + gain th.

Definition left_over (th : thread C) : Z :=
  match ret th with Some _ => 0 | None => gain th end.

Definition settled (th : thread C) : Prop :=
  blocked th = false /\ (ret th = None -> ready th).

Lemma complete_from (rest : list (thread C)) : forall pre sh,
  quiet sh -> 0 <= val sh -> val sh + total left_over rest <= bound ->
  has_waiter pre = false -> Forall settled rest ->
  exists sched s',
    run prog sched {| shr := sh; threads := pre ++ rest |} = Some s' /\
    quiet (shr s') /\
    val (shr s') = val sh + total left_over rest /\
    exists rest', threads s' = pre ++ rest' /\ length rest' = length rest /\
      Forall (fun th => is_Some (ret th)) rest'.
Proof.
  induction rest as [|th rest IH]; intros pre sh Hq Hv Hb Hw Hall.
  - exists [], {| shr := sh; threads := pre ++ [] |}. simpl.
    split; [done|]. split; [done|]. split; [lia|]. by exists [].
  - apply Forall_cons in Hall as [[Hawake Hready] Hall].
    change (total left_over (th :: rest)) with (left_over th + total left_over rest) in *.
    assert (Hrest : 0 <= total left_over rest).
    { apply total_nonneg. intros u x Hx. unfold left_over.
      destruct (ret x) eqn:Hr; [lia|]. apply gain_nonneg.
      eapply Forall_lookup_1 in Hall as [_ Hx']; eauto. }
    destruct (ret th) as [v|] eqn:Hret.
    + (* already returned *)
      assert (Hlo : left_over th = 0) by (unfold left_over; by rewrite Hret).
      assert (Hw1 : has_waiter (pre ++ [th]) = false).
      { unfold has_waiter in *. rewrite existsb_app, Hw. simpl. by rewrite Hawake. }
      destruct (IH (pre ++ [th]) sh Hq Hv ltac:(lia) Hw1 Hall)
        as (sched & s' & Hrun & Hq' & Hval & rest' & Hths & Hlen & Hdone).
      exists sched, s'. rewrite <- app_assoc in Hrun. simpl in Hrun.
      split; [done|]. split; [done|]. split; [lia|]. exists (th :: rest').
      rewrite Hths, <- app_assoc. split; [done|]. split; [simpl; lia|].
      constructor; [by rewrite Hret|done].
    + (* run it alone to its return *)
      specialize (Hready eq_refl).
      pose proof (gain_nonneg _ Hready) as Hg.
      assert (Hlo : left_over th = gain th) by (unfold left_over; by rewrite Hret).
      destruct (solo_complete (length pre) sh th Hq Hready Hv ltac:(lia))
        as (n & sh1 & th1 & Hsolo & Hret1 & Hq1 & Hval1).
      set (s := {| shr := sh; threads := pre ++ th :: rest |}).
      assert (Hw0 : has_waiter (threads s) = false).
      { unfold has_waiter in *. simpl. rewrite existsb_app, Hw. simpl. rewrite Hawake. simpl.
        apply not_true_is_false. intros (x & Hx & Hbx)%existsb_exists.
        apply list_elem_of_In in Hx. rewrite Forall_forall in Hall.
        destruct (Hall x Hx) as [Hbx' _]. congruence. }
      assert (Ht : threads s !! length pre = Some th).
      { simpl. by rewrite list_lookup_middle. }
      destruct (run_solo n (length pre) s th sh1 th1 Hw0 Ht Hsolo) as [Hrun1 Hb1].
      specialize (Hb1 Hawake).
      assert (Hins : <[length pre := th1]> (threads s) = (pre ++ [th1]) ++ rest).
      { simpl. rewrite insert_app_r_alt by lia. rewrite Nat.sub_diag. simpl.
        by rewrite <- app_assoc. }
      rewrite Hins in Hrun1.
      assert (Hw1 : has_waiter (pre ++ [th1]) = false).
      { unfold has_waiter in *. rewrite existsb_app, Hw. simpl. by rewrite Hb1. }
      destruct (IH (pre ++ [th1]) sh1 Hq1 ltac:(lia) ltac:(lia) Hw1 Hall)
        as (sched & s' & Hrun & Hq' & Hval & rest' & Hths & Hlen & Hdone).
      exists (repeat (Step (length pre)) n ++ sched), s'.
      rewrite run_app. fold s. rewrite Hrun1.
      split; [done|]. split; [done|]. split; [lia|]. exists (th1 :: rest').
      rewrite Hths, <- app_assoc. split; [done|]. split; [simpl; lia|].
      by constructor.
Qed.

(** From a quiet state whose threads are all at rest, some schedule takes
    every thread to its return. *)
Lemma complete_all (s : state C) :
  quiet (shr s) -> 0 <= val (shr s) ->
  val (shr s) + total left_over (threads s) <= bound ->
  Forall settled (threads s) ->
  exists sched s',
    run prog sched s = Some s' /\ joined s' = true /\
    length (threads s') = length (threads s) /\
    val (shr s') = val (shr s) + total left_over (threads s).
Proof.
  intros Hq Hv Hb Hall.
  destruct (complete_from (threads s) [] (shr s) Hq Hv Hb eq_refl Hall)
    as (sched & s' & Hrun & _ & Hval & rest' & Hths & Hlen & Hdone).
  exists sched, s'. simpl in Hrun. destruct s as [sh ths]. simpl in *.
  split; [done|]. split; [|split; [|done]].
  - unfold joined. rewrite Hths. simpl. apply forallb_forall. intros x Hx.
    apply list_elem_of_In in Hx. rewrite Forall_forall in Hdone.
    by destruct (Hdone x Hx) as [v ->].
  - rewrite Hths. simpl. lia.
Qed.

End Solo.

End MachineFacts.


(** ** Workers under the mutex *)

Module LockFacts.
Import Machine MachineFacts.

Section Locking.
Context {C : Type} (prog : globals -> C -> action C).

(** [inlock c]: the worker owns the mutex when its locals are [c]. *)
Variable inlock : C -> bool.

Definition next_lock (b : bool) (a : action C) : Prop :=
  match a with
  | ALock c => b = false /\ inlock c = true
  | AUnlock c => b = true /\ inlock c = false
  | ALocal _ _ c | AWait c | APost c => inlock c = b
  | AReturn _ => True
  end.

Hypothesis lock_next : forall g c, next_lock (inlock c) (prog g c).

Definition lock_ok (s : state C) : Prop :=
  forall u th, threads s !! u = Some th ->
    (inlock (local th) = true <-> lock (shr s) = Some u).

Lemma lock_ok_micro (s s' : state C) : lock_ok s -> micro prog s s' -> lock_ok s'.
Proof.
  intros Hall Hmic. destruct Hmic as [t b th sh th' Ht Hs ->|u tu Hu Hb ->].
  - pose proof (Hall t th Ht) as Hm.
    pose proof (lock_next (glob (shr s)) (local th)) as Hn.
    inv_step Hs.
    all: intros u thu Hu; split_thread u t Hu; [|pose proof (Hall u thu Hu) as Hm'];
      simpl in *; try done; try (intuition congruence).
    all: by rewrite Hn.
  - intros v thv Hv. split_thread v u Hv; [|by eapply Hall]. by apply (Hall u tu).
Qed.

Lemma lock_ok_start permits (cs : list C) :
  (forall c, c ∈ cs -> inlock c = false) -> lock_ok (start_state permits cs).
Proof.
  intros Hcs u th Hu. simpl in Hu. rewrite list_lookup_fmap in Hu.
  destruct (cs !! u) as [c|] eqn:Hc; simplify_eq/=.
  rewrite (Hcs c) by (by eapply list_elem_of_lookup_2). split; done.
Qed.

(** Two threads never own the mutex together. *)
Lemma lock_exclusion s t u a b :
  lock_ok s -> threads s !! t = Some a -> threads s !! u = Some b ->
  inlock (local a) = true -> inlock (local b) = true -> t = u.
Proof.
  intros Hok Ha Hb Hla Hlb.
  apply (Hok t a Ha) in Hla. apply (Hok u b Hb) in Hlb. congruence.
Qed.

End Locking.

End LockFacts.

(** *** [inc_with_lock] *)

Module LockedCounter.
Import Machine MachineFacts LockFacts Counter.

Definition inlock (c : vars lock_pc) : bool :=
  match pc c with LHead => false | _ => true end.

(** The increments a worker has completed. *)
Definition finished (c : vars lock_pc) : Z :=
  i c + match pc c with LTail => 1 | _ => 0 end.

Definition loc_ok (K : Z) (g : globals) (th : thread (vars lock_pc)) : Prop :=
  0 <= i (local th) <= K /\
  (inlock (local th) = true -> i (local th) < K) /\
  (pc (local th) = LStore -> tmp (local th) = counter g) /\
  (is_Some (ret th) -> pc (local th) = LHead /\ i (local th) = K).

Definition inv (K : Z) (s : state (vars lock_pc)) : Prop :=
  lock_ok inlock s /\
  counter (glob (shr s)) = total (fun th => finished (local th)) (threads s) /\
  forall u th, threads s !! u = Some th -> loc_ok K (glob (shr s)) th.

Lemma mutex_lock_next K g c : next_lock inlock (inlock c) (inc_with_lock K g c).
Proof.
  unfold inc_with_lock, inlock. destruct c as [[] i tmp]; simpl; try done.
  all: by destruct (i <? K).
Qed.

Lemma mutex_finished_range K g th : loc_ok K g th -> 0 <= finished (local th) <= K.
Proof.
  unfold loc_ok, finished, inlock. intros (H1 & H2 & _).
  destruct (pc (local th)); lia.
Qed.

Lemma mutex_inv_micro K s s' :
  0 <= K <= INT_MAX -> Z.of_nat (length (threads s)) * K <= LONG_MAX ->
  inv K s -> micro (inc_with_lock K) s s' -> inv K s'.
Proof.
  intros HK HW (Hlock & Hsum & Hall) Hmic.
  assert (Hlock' : lock_ok inlock s').
  { eapply lock_ok_micro; eauto using mutex_lock_next. }
  split; [done|]. clear Hlock'.
  assert (Hpos : 0 <= counter (glob (shr s))).
  { rewrite Hsum. apply total_nonneg. intros u x Hx.
    by apply (mutex_finished_range K (glob (shr s))), (Hall u). }
  destruct Hmic as [t b th sh th' Ht Hs ->|u tu Hu Hb ->].
  - pose proof (Hall t th Ht) as (Hi & Hin & Htmp & Hret).
    assert (Hroom : counter (glob (shr s)) <= LONG_MAX - (K - finished (local th))).
    { rewrite Hsum. etrans; [apply (total_room _ _ K t th); [|done]|lia].
      intros u y Hy. by apply (mutex_finished_range K (glob (shr s))), (Hall u). }
    assert (Hex : forall u thu, threads s !! u = Some thu -> u <> t ->
                    inlock (local th) = true -> inlock (local thu) = true -> False).
    { intros u thu Hu Hne H1 H2. apply Hne. by apply (lock_exclusion inlock s u t thu th). }
    unfold thread_step, inc_with_lock in Hs. inv_step Hs.
    all: bool_facts; unfold inlock, finished in Hin, Hroom, Hex;
      repeat match goal with H : pc _ = _ |- _ => rewrite H in * end;
      try specialize (Hin eq_refl); try specialize (Htmp eq_refl);
      rewrite ?Htmp in *.
    all: rewrite ?wrap_long_id by (unfold LONG_MAX, INT_MAX in *; lia).
    all: rewrite ?wrap_int_id by (unfold LONG_MAX, INT_MAX in *; lia).
    all: (split;
      [cbn [threads shr glob]; rewrite (total_insert _ _ t th) by done; rewrite <- Hsum;
       unfold finished; simpl;
       repeat match goal with H : pc _ = _ |- _ => rewrite H end; simpl;
       rewrite ?wrap_int_id by (unfold LONG_MAX, INT_MAX in *; lia); lia
      |intros u thu Hu; split_thread u t Hu;
       [|pose proof (Hall u thu Hu) as (Hi' & Hin' & Htmp' & Hret');
         specialize (Hex u thu Hu ltac:(done))];
       unfold loc_ok, inlock in *; simpl;
       repeat match goal with H : pc _ = _ |- _ => rewrite H end;
       repeat match goal with H : ret _ = _ |- _ => rewrite H end; simpl;
       rewrite ?wrap_int_id by (unfold LONG_MAX, INT_MAX in *; lia);
       (split_and!; try lia; try done; intros; try done; try lia)]).
    all: try (by match goal with H : is_Some None |- _ => destruct H end).
    all: try (split; [done|lia]).
    all: exfalso; apply Hex; [done|];
      by match goal with H : pc _ = _ |- _ => rewrite H end.
  - split; [simpl; rewrite (total_insert _ _ u tu) by done; simpl; lia|].
    intros v thv Hv. split_thread v u Hv; [|by eapply Hall]. by apply (Hall u tu).
Qed.

Lemma mutex_inv_start K W :
  0 <= K -> inv K (init 0 W (start LHead)).
Proof.
  intros HK. split; [|split].
  - apply lock_ok_start. by intros c ->%elem_of_replicate_inv.
  - simpl. rewrite (total_const _ _ 0); [lia|].
    intros t x Hx. rewrite list_lookup_fmap in Hx.
    destruct (replicate W _ !! t) as [c|] eqn:Hc; simplify_eq/=.
    by apply lookup_replicate in Hc as [-> _].
  - intros u th Hu. simpl in Hu. rewrite list_lookup_fmap in Hu.
    destruct (replicate W _ !! u) as [c|] eqn:Hc; simplify_eq/=.
    apply lookup_replicate in Hc as [-> _].
    unfold loc_ok, inlock; simpl. split_and!; try done; try lia.
Qed.

(** Every run of [W] workers under the mutex that ends with all of them
    returned leaves [W * K] in the counter. *)
Lemma mutex_exact K W sched s :
  0 <= K <= INT_MAX -> Z.of_nat W * K <= LONG_MAX ->
  run (inc_with_lock K) sched (init 0 W (start LHead)) = Some s ->
  joined s = true ->
  counter (glob (shr s)) = Z.of_nat W * K.
Proof.
  intros HK HW Hrun Hj.
  assert (Hinv : length (threads s) = W /\ inv K s).
  { revert Hrun. apply (invariant_run _ (fun s => length (threads s) = W /\ inv K s)).
    - intros s1 s2 [Hlen Hi] Hm. split.
      + by rewrite (micro_length _ _ _ Hm).
      + eapply mutex_inv_micro; eauto. by rewrite Hlen.
    - split; [simpl; by rewrite length_map, length_replicate|apply mutex_inv_start; lia]. }
  destruct Hinv as (Hlen & _ & Hsum & Hall).
  rewrite Hsum, (total_const _ _ K); [by rewrite Hlen|].
  intros t th Ht. destruct (Hall t th Ht) as (_ & _ & _ & Hret).
  destruct Hret as [Hpc Hi]; [by eapply joined_ret|].
  unfold finished. rewrite Hpc. lia.
Qed.

(** *** One worker at a time *)

Definition quiet (sh : shared) : Prop := lock sh = None.

Definition ready (K : Z) (th : thread (vars lock_pc)) : Prop :=
  ret th = None /\ spc th = Running /\ pc (local th) = LHead /\ 0 <= i (local th) <= K.

Lemma mutex_solo_iteration K t sh th :
  quiet sh -> ready K th -> i (local th) < K -> K <= INT_MAX ->
  exists sh' th',
    solo (inc_with_lock K) 4 t sh th = Some (sh', th') /\
    quiet sh' /\ ready K th' /\ i (local th') = i (local th) + 1 /\
    counter (glob sh') = wrap_long (counter (glob sh) + 1).
Proof.
  destruct sh as [g lk sm], th as [[p j x] pc r rt]. unfold quiet, ready. simpl.
  intros -> (-> & -> & -> & Hj) Hlt HK.
  assert (Hlt' : (j <? K) = true) by lia.
  unfold solo, thread_step, inc_with_lock. simpl. rewrite Hlt'. simpl.
  eexists _, _. split; [reflexivity|]. simpl.
  rewrite wrap_int_id by (unfold INT_MAX in *; lia).
  split_and!; auto; lia.
Qed.

Lemma mutex_solo_complete K t : forall k sh th,
  Z.of_nat k = K - i (local th) -> K <= INT_MAX ->
  quiet sh -> ready K th ->
  0 <= counter (glob sh) -> counter (glob sh) + (K - i (local th)) <= LONG_MAX ->
  exists sh' th',
    solo (inc_with_lock K) (4 * k + 1) t sh th = Some (sh', th') /\
    is_Some (ret th') /\ quiet sh' /\
    counter (glob sh') = counter (glob sh) + (K - i (local th)).
Proof.
  induction k as [|k IH]; intros sh th Hk HK Hq Hr Hv Hb.
  - destruct sh as [g lk sm], th as [[p j x] pc r rt]. unfold quiet, ready in *.
    simpl in *. destruct Hr as (-> & -> & -> & Hj).
    assert (Hlt' : (j <? K) = false) by lia.
    unfold solo, thread_step, inc_with_lock. simpl. rewrite Hlt'. simpl.
    eexists _, _. split; [reflexivity|]. simpl. split_and!; auto; lia.
  - destruct (mutex_solo_iteration K t sh th Hq Hr ltac:(lia) HK)
      as (sh1 & th1 & Hsolo & Hq1 & Hr1 & Hi1 & Hc1).
    rewrite wrap_long_id in Hc1 by (unfold LONG_MAX in *; lia).
    destruct (IH sh1 th1) as (sh' & th' & Hsolo' & Hret & Hq' & Hc'); auto; try lia.
    exists sh', th'. replace (4 * S k + 1)%nat with (4 + (4 * k + 1))%nat by lia.
    rewrite solo_app, Hsolo, Hsolo'. split_and!; auto; lia.
Qed.

(** The workers under the mutex can all run to their return. *)
Lemma mutex_completes K W :
  0 <= K <= INT_MAX -> Z.of_nat W * K <= LONG_MAX ->
  exists sched s,
    run (inc_with_lock K) sched (init 0 W (start LHead)) = Some s /\ joined s = true.
Proof.
  intros HK HW.
  assert (Hgain : forall th, ready K th -> 0 <= K - i (local th)).
  { intros th (_ & _ & _ & Hi). lia. }
  assert (Hsolo : forall t sh th, quiet sh -> ready K th -> 0 <= counter (glob sh) ->
            counter (glob sh) + (K - i (local th)) <= LONG_MAX ->
            exists n sh' th', solo (inc_with_lock K) n t sh th = Some (sh', th') /\
              is_Some (ret th') /\ quiet sh' /\
              counter (glob sh') = counter (glob sh) + (K - i (local th))).
  { intros t sh th Hq Hr Hv Hb.
    destruct (mutex_solo_complete K t (Z.to_nat (K - i (local th))) sh th) as (sh' & th' & H);
      auto; try lia; [|eauto].
    destruct Hr as (_ & _ & _ & Hi). lia. }
  destruct (complete_all (inc_with_lock K) quiet (ready K)
              (fun sh => counter (glob sh)) (fun th => K - i (local th)) LONG_MAX
              Hgain Hsolo (init 0 W (start LHead)))
    as (sched & s & Hrun & Hj & _); eauto.
  - done.
  - simpl. lia.
  - simpl. rewrite (total_const _ _ K).
    + rewrite length_map, length_replicate. lia.
    + intros t x Hx. rewrite list_lookup_fmap in Hx.
      destruct (replicate W _ !! t) as [c|] eqn:Hc; simplify_eq/=.
      apply lookup_replicate in Hc as [-> _]. unfold left_over. simpl. lia.
  - simpl. apply Forall_forall. intros x Hx.
    apply list_elem_of_fmap in Hx as (c & -> & Hc).
    apply elem_of_replicate_inv in Hc as ->.
    split; [done|]. intros _. unfold ready. simpl. split_and!; auto; lia.
Qed.

End LockedCounter.


(** ** Workers under the semaphore *)

(** *** [inc_with_sem_binary] *)

Module BinaryCounter.
Import Machine MachineFacts Counter.

(** Permits held, by the worker's own position. *)
Definition bal (c : vars bin_pc) : Z :=
  match pc c with BHead => 0 | _ => 1 end.

Definition anyc (c : vars bin_pc) : Prop := True.

Definition finished (c : vars bin_pc) : Z :=
  i c + match pc c with BTail => 1 | _ => 0 end.

(** Where the worker is while it is inside a semaphore call. *)
Definition phase (th : thread (vars bin_pc)) : Prop :=
  match spc th with
  | Running => True
  | InWait _ => pc (local th) = BLoad
  | InPost _ => pc (local th) = BHead
  end.

Definition loc_ok (K : Z) (g : globals) (th : thread (vars bin_pc)) : Prop :=
  0 <= i (local th) <= K /\
  (bal (local th) = 1 -> i (local th) < K) /\
  (pc (local th) = BStore -> tmp (local th) = counter g) /\
  (is_Some (ret th) -> pc (local th) = BHead /\ i (local th) = K) /\
  phase th.

Definition inv (K : Z) (s : state (vars bin_pc)) : Prop :=
  acc_ok anyc bal 1 s /\
  counter (glob (shr s)) = total (fun th => finished (local th)) (threads s) /\
  forall u th, threads s !! u = Some th -> loc_ok K (glob (shr s)) th.

Lemma binary_ok_next K g c : anyc c -> next_ok anyc (inc_with_sem_binary K g c).
Proof. intros _. unfold inc_with_sem_binary. by repeat case_match. Qed.

Lemma binary_bal_next K g c : anyc c -> next_bal bal (bal c) (inc_with_sem_binary K g c).
Proof.
  intros _. unfold inc_with_sem_binary, bal. destruct c as [[] j x]; simpl; try done.
  all: by destruct (j <? K).
Qed.

Lemma binary_bal_nonneg c : anyc c -> 0 <= bal c.
Proof. intros _. unfold bal. destruct (pc c); lia. Qed.

Lemma binary_finished_range K g th : loc_ok K g th -> 0 <= finished (local th) <= K.
Proof.
  unfold loc_ok, finished, bal. intros (H1 & H2 & _).
  destruct (pc (local th)); lia.
Qed.

Lemma binary_inv_micro K s s' :
  0 <= K <= INT_MAX -> Z.of_nat (length (threads s)) * K <= LONG_MAX ->
  inv K s -> micro (inc_with_sem_binary K) s s' -> inv K s'.
Proof.
  intros HK HW (Hacc & Hsum & Hall) Hmic.
  assert (Hacc' : acc_ok anyc bal 1 s').
  { eapply acc_ok_micro; eauto using binary_ok_next, binary_bal_next, binary_bal_nonneg.
    unfold INT_MAX; lia. }
  split; [done|]. clear Hacc'.
  assert (Hpos : 0 <= counter (glob (shr s))).
  { rewrite Hsum. apply total_nonneg. intros u x Hx.
    by apply (binary_finished_range K (glob (shr s))), (Hall u). }
  destruct Hmic as [t b th sh th' Ht Hs ->|u tu Hu Hb ->].
  - pose proof (Hall t th Ht) as (Hi & Hin & Htmp & Hret & Hph).
    assert (Hroom : counter (glob (shr s)) <= LONG_MAX - (K - finished (local th))).
    { rewrite Hsum. etrans; [apply (total_room _ _ K t th); [|done]|lia].
      intros u y Hy. by apply (binary_finished_range K (glob (shr s))), (Hall u). }
    assert (Hex : forall u thu, threads s !! u = Some thu -> u <> t ->
                    1 <= eff bal th -> 1 <= eff bal thu -> False).
    { intros u thu Hu Hne H1 H2.
      assert (Hr : 0 <= 1 <= INT_MAX) by (unfold INT_MAX; lia).
      by apply (mutual_exclusion anyc bal 1 Hr s t u th thu). }
    unfold thread_step, inc_with_sem_binary in Hs. inv_step Hs.
    all: bool_facts; unfold bal, finished, phase, eff in Hin, Hroom, Hex, Hph;
      repeat match goal with H : spc _ = _ |- _ => rewrite H in * end;
      repeat match goal with H : pc _ = _ |- _ => rewrite H in * end;
      try specialize (Hin eq_refl);
      try specialize (Htmp eq_refl);
      rewrite ?Htmp in *.
    all: rewrite ?wrap_long_id by (unfold LONG_MAX, INT_MAX in *; lia).
    all: rewrite ?wrap_int_id by (unfold LONG_MAX, INT_MAX in *; lia).
    all: (split;
      [cbn [threads shr glob]; rewrite (total_insert _ _ t th) by done; rewrite <- Hsum;
       unfold finished; simpl;
       repeat match goal with H : pc _ = _ |- _ => rewrite H end; simpl;
       rewrite ?wrap_int_id by (unfold LONG_MAX, INT_MAX in *; lia); lia
      |intros u thu Hu; split_thread u t Hu;
       [|pose proof (Hall u thu Hu) as (Hi' & Hin' & Htmp' & Hret' & Hph');
         specialize (Hex u thu Hu ltac:(done))];
       unfold loc_ok, bal, phase in *; simpl;
       repeat match goal with H : pc _ = _ |- _ => rewrite H end;
       repeat match goal with H : spc _ = _ |- _ => rewrite H end;
       repeat match goal with H : ret _ = _ |- _ => rewrite H end; simpl;
       rewrite ?wrap_int_id by (unfold LONG_MAX, INT_MAX in *; lia);
       (split_and!; try lia; try done; intros; destruct_or?; try done; try lia; eauto)]).
    all: try (by match goal with H : is_Some None |- _ => destruct H end).
    all: try (split; [done|lia]).
    all: try (exfalso; apply Hex; [simpl; lia|];
      destruct (spc thu);
      repeat match goal with H : pc _ = _ |- _ => rewrite H in * end; simpl; done).
  - split; [simpl; rewrite (total_insert _ _ u tu) by done; simpl; lia|].
    intros v thv Hv. split_thread v u Hv; [|by eapply Hall].
    destruct (Hall u tu Hu) as (Hi & Hin & Htmp & Hret & Hph).
    unfold loc_ok, phase, blocked in *. simpl.
    destruct (spc tu) as [|[]|]; done.
Qed.

Lemma binary_inv_start K W :
  0 <= K -> inv K (init 1 W (start BHead)).
Proof.
  intros HK. split; [|split].
  - apply acc_ok_start; [unfold INT_MAX; lia|]. by intros c ->%elem_of_replicate_inv.
  - simpl. rewrite (total_const _ _ 0); [lia|].
    intros t x Hx. rewrite list_lookup_fmap in Hx.
    destruct (replicate W _ !! t) as [c|] eqn:Hc; simplify_eq/=.
    by apply lookup_replicate in Hc as [-> _].
  - intros u th Hu. simpl in Hu. rewrite list_lookup_fmap in Hu.
    destruct (replicate W _ !! u) as [c|] eqn:Hc; simplify_eq/=.
    apply lookup_replicate in Hc as [-> _].
    unfold loc_ok, bal, phase; simpl. split_and!; try done; try lia.
Qed.

(** Every run of [W] workers under the binary semaphore that ends with all
    of them returned leaves [W * K] in the counter. *)
Lemma binary_exact K W sched s :
  0 <= K <= INT_MAX -> Z.of_nat W * K <= LONG_MAX ->
  run (inc_with_sem_binary K) sched (init 1 W (start BHead)) = Some s ->
  joined s = true ->
  counter (glob (shr s)) = Z.of_nat W * K.
Proof.
  intros HK HW Hrun Hj.
  assert (Hinv : length (threads s) = W /\ inv K s).
  { revert Hrun. apply (invariant_run _ (fun s => length (threads s) = W /\ inv K s)).
    - intros s1 s2 [Hlen Hi] Hm. split.
      + by rewrite (micro_length _ _ _ Hm).
      + eapply binary_inv_micro; eauto. by rewrite Hlen.
    - split; [simpl; by rewrite length_map, length_replicate|apply binary_inv_start; lia]. }
  destruct Hinv as (Hlen & _ & Hsum & Hall).
  rewrite Hsum, (total_const _ _ K); [by rewrite Hlen|].
  intros t th Ht. destruct (Hall t th Ht) as (_ & _ & _ & Hret & _).
  destruct Hret as [Hpc Hi]; [by eapply joined_ret|].
  unfold finished. rewrite Hpc. lia.
Qed.

(** *** One worker at a time *)

Definition quiet (sh : shared) : Prop :=
  m (sem sh) = None /\ 1 <= count (sem sh) <= INT_MAX.

Definition ready (K : Z) (th : thread (vars bin_pc)) : Prop :=
  ret th = None /\ spc th = Running /\ pc (local th) = BHead /\ 0 <= i (local th) <= K.

(** [semc_wait] and the load of [counter++]: seven steps. *)
Lemma binary_solo_enter K t sh th :
  quiet sh -> ready K th -> i (local th) < K ->
  solo (inc_with_sem_binary K) 7 t sh th =
    Some (with_sem sh {| count := count (sem sh) - 1; m := None |},
          {| local := {| pc := BStore; i := i (local th); tmp := counter (glob sh) |};
             spc := Running; reg := count (sem sh); ret := None |}).
Proof.
  destruct sh as [g lk [c mu]], th as [[p j x] pc r rt]. unfold quiet, ready. simpl.
  intros (-> & Hc) (-> & -> & -> & Hj) Hlt.
  assert (Hlt' : (j <? K) = true) by lia.
  assert (Hc' : (c =? 0) = false) by lia.
  unfold solo, thread_step, inc_with_sem_binary. simpl. rewrite Hlt'. simpl.
  rewrite Hc'. simpl.
  rewrite wrap_int_id by (unfold INT_MAX in *; lia). reflexivity.
Qed.

(** The store of [counter++] and [semc_post]: seven steps. *)
Lemma binary_solo_leave K t sh j x r :
  m (sem sh) = None -> 0 <= count (sem sh) < INT_MAX -> 0 <= j < INT_MAX ->
  solo (inc_with_sem_binary K) 7 t sh
    {| local := {| pc := BStore; i := j; tmp := x |}; spc := Running; reg := r; ret := None |} =
    Some (with_sem (with_glob sh (set_counter (glob sh) (wrap_long (x + 1))))
                   {| count := count (sem sh) + 1; m := None |},
          {| local := {| pc := BHead; i := j + 1; tmp := x |};
             spc := Running; reg := count (sem sh); ret := None |}).
Proof.
  destruct sh as [g lk [c mu]]. simpl. intros -> Hc Hj.
  unfold solo, thread_step, inc_with_sem_binary. simpl.
  unfold with_sem, with_glob, in_sem, call_sem, with_local, goto, next_iter,
    pthread_mutex_unlock. simpl.
  rewrite !wrap_int_id by (unfold INT_MAX in *; lia). reflexivity.
Qed.

Lemma binary_solo_iteration K t sh th :
  quiet sh -> ready K th -> i (local th) < K -> K <= INT_MAX ->
  exists sh' th',
    solo (inc_with_sem_binary K) 14 t sh th = Some (sh', th') /\
    quiet sh' /\ ready K th' /\ i (local th') = i (local th) + 1 /\
    counter (glob sh') = wrap_long (counter (glob sh) + 1).
Proof.
  intros Hq Hr Hlt HK. change 14%nat with (7 + 7)%nat.
  rewrite solo_app, (binary_solo_enter K t sh th Hq Hr Hlt).
  destruct Hq as [Hm Hc], Hr as (Hret & Hspc & Hpc & Hi).
  rewrite binary_solo_leave; simpl; auto; try lia.
  eexists _, _. split; [reflexivity|]. unfold quiet, ready. simpl.
  split_and!; auto; lia.
Qed.

Lemma binary_solo_complete K t : forall k sh th,
  Z.of_nat k = K - i (local th) -> K <= INT_MAX ->
  quiet sh -> ready K th ->
  0 <= counter (glob sh) -> counter (glob sh) + (K - i (local th)) <= LONG_MAX ->
  exists sh' th',
    solo (inc_with_sem_binary K) (14 * k + 1) t sh th = Some (sh', th') /\
    is_Some (ret th') /\ quiet sh' /\
    counter (glob sh') = counter (glob sh) + (K - i (local th)).
Proof.
  induction k as [|k IH]; intros sh th Hk HK Hq Hr Hv Hb.
  - destruct sh as [g lk sm], th as [[p j x] pc r rt]. unfold quiet, ready in *.
    simpl in *. destruct Hr as (-> & -> & -> & Hj). destruct Hq as [Hm Hc].
    assert (Hlt' : (j <? K) = false) by lia.
    unfold solo, thread_step, inc_with_sem_binary. simpl. rewrite Hlt'. simpl.
    eexists _, _. split; [reflexivity|]. simpl. split_and!; auto; lia.
  - destruct (binary_solo_iteration K t sh th Hq Hr ltac:(lia) HK)
      as (sh1 & th1 & Hsolo & Hq1 & Hr1 & Hi1 & Hc1).
    rewrite wrap_long_id in Hc1 by (unfold LONG_MAX in *; lia).
    destruct (IH sh1 th1) as (sh' & th' & Hsolo' & Hret & Hq' & Hc'); auto; try lia.
    exists sh', th'. replace (14 * S k + 1)%nat with (14 + (14 * k + 1))%nat by lia.
    rewrite solo_app, Hsolo, Hsolo'. split_and!; auto; lia.
Qed.

(** From a quiet state whose workers are all at the head of their loop or
    returned, some schedule takes them all to their return; it adds to the
    counter the iterations that were left. *)
Lemma binary_completes_from K (s : state (vars bin_pc)) :
  0 <= K <= INT_MAX ->
  quiet (shr s) -> 0 <= counter (glob (shr s)) ->
  counter (glob (shr s)) + total (left_over (fun th => K - i (local th))) (threads s)
    <= LONG_MAX ->
  Forall (settled (ready K)) (threads s) ->
  exists sched s',
    run (inc_with_sem_binary K) sched s = Some s' /\ joined s' = true /\
    length (threads s') = length (threads s) /\
    counter (glob (shr s')) =
      counter (glob (shr s)) + total (left_over (fun th => K - i (local th))) (threads s).
Proof.
  intros HK Hq Hv Hb Hall.
  assert (Hgain : forall th, ready K th -> 0 <= K - i (local th)).
  { intros th (_ & _ & _ & Hi). lia. }
  assert (Hsolo : forall t sh th, quiet sh -> ready K th -> 0 <= counter (glob sh) ->
            counter (glob sh) + (K - i (local th)) <= LONG_MAX ->
            exists n sh' th', solo (inc_with_sem_binary K) n t sh th = Some (sh', th') /\
              is_Some (ret th') /\ quiet sh' /\
              counter (glob sh') = counter (glob sh) + (K - i (local th))).
  { intros t sh th Hq' Hr Hv' Hb'.
    destruct (binary_solo_complete K t (Z.to_nat (K - i (local th))) sh th) as (sh' & th' & H);
      auto; try lia; [|eauto].
    destruct Hr as (_ & _ & _ & Hi). lia. }
  exact (complete_all (inc_with_sem_binary K) quiet (ready K)
           (fun sh => counter (glob sh)) (fun th => K - i (local th)) LONG_MAX
           Hgain Hsolo s Hq Hv Hb Hall).
Qed.

Lemma binary_spawn_settled K (cs : list (vars bin_pc)) :
  0 <= K -> Forall (fun c => c = start BHead) cs ->
  Forall (settled (ready K)) (map spawn cs) /\
  total (left_over (fun th => K - i (local th))) (map spawn cs) = Z.of_nat (length cs) * K.
Proof.
  intros HK Hcs. split.
  - apply Forall_forall. intros x Hx.
    apply list_elem_of_fmap in Hx as (c & -> & Hc).
    rewrite Forall_forall in Hcs. rewrite (Hcs c Hc).
    split; [done|]. intros _. unfold ready. simpl. split_and!; auto; lia.
  - rewrite (total_const _ _ K); [by rewrite length_map|].
    intros t x Hx. rewrite list_lookup_fmap in Hx.
    destruct (cs !! t) as [c|] eqn:Hc; simplify_eq/=.
    rewrite Forall_forall in Hcs. rewrite (Hcs c) by (by eapply list_elem_of_lookup_2).
    unfold left_over. simpl. lia.
Qed.

(** The workers can all run to their return. *)
Lemma binary_completes K W permits :
  0 <= K <= INT_MAX -> Z.of_nat W * K <= LONG_MAX -> 1 <= permits <= INT_MAX ->
  exists sched s,
    run (inc_with_sem_binary K) sched (init permits W (start BHead)) = Some s /\
    joined s = true.
Proof.
  intros HK HW Hp.
  destruct (binary_spawn_settled K (replicate W (start BHead))) as [Hall Htot]; [lia| |].
  { apply Forall_forall. by intros c ->%elem_of_replicate_inv. }
  rewrite length_replicate in Htot.
  destruct (binary_completes_from K (init permits W (start BHead))) as (sched & s & Hrun & Hj & _);
    eauto.
  - by split.
  - done.
  - simpl. rewrite Htot. lia.
Qed.

End BinaryCounter.

(** *** [inc_with_sem_three] *)

Module ThreeCounter.
Import Machine MachineFacts Counter.

(** Permits held, by the worker's own position. *)
Definition bal (c : vars three_pc) : Z :=
  match pc c with THead => 0 | _ => 1 end.

Definition anyc (c : vars three_pc) : Prop := True.

Definition finished (c : vars three_pc) : Z :=
  i c + match pc c with TTail => 1 | _ => 0 end.

(** Where the worker is while it is inside a semaphore call. *)
Definition phase (th : thread (vars three_pc)) : Prop :=
  match spc th with
  | Running => True
  | InWait _ => pc (local th) = TRead
  | InPost _ => pc (local th) = THead
  end.

Definition loc_ok (K : Z) (g : globals) (th : thread (vars three_pc)) : Prop :=
  0 <= i (local th) <= K /\
  (bal (local th) = 1 -> i (local th) < K) /\
  (pc (local th) = TSpin \/ pc (local th) = TWrite -> tmp (local th) = counter g) /\
  (is_Some (ret th) -> pc (local th) = THead /\ i (local th) = K) /\
  phase th.

Definition inv (K : Z) (s : state (vars three_pc)) : Prop :=
  acc_ok anyc bal 1 s /\
  counter (glob (shr s)) = total (fun th => finished (local th)) (threads s) /\
  forall u th, threads s !! u = Some th -> loc_ok K (glob (shr s)) th.

Lemma three_ok_next K g c : anyc c -> next_ok anyc (inc_with_sem_three K g c).
Proof. intros _. unfold inc_with_sem_three. by repeat case_match. Qed.

Lemma three_bal_next K g c : anyc c -> next_bal bal (bal c) (inc_with_sem_three K g c).
Proof.
  intros _. unfold inc_with_sem_three, bal. destruct c as [[] j x]; simpl; try done.
  all: by destruct (j <? K).
Qed.

Lemma three_bal_nonneg c : anyc c -> 0 <= bal c.
Proof. intros _. unfold bal. destruct (pc c); lia. Qed.

Lemma three_finished_range K g th : loc_ok K g th -> 0 <= finished (local th) <= K.
Proof.
  unfold loc_ok, finished, bal. intros (H1 & H2 & _).
  destruct (pc (local th)); lia.
Qed.

Lemma three_inv_micro K s s' :
  0 <= K <= INT_MAX -> Z.of_nat (length (threads s)) * K <= LONG_MAX ->
  inv K s -> micro (inc_with_sem_three K) s s' -> inv K s'.
Proof.
  intros HK HW (Hacc & Hsum & Hall) Hmic.
  assert (Hacc' : acc_ok anyc bal 1 s').
  { eapply acc_ok_micro; eauto using three_ok_next, three_bal_next, three_bal_nonneg.
    unfold INT_MAX; lia. }
  split; [done|]. clear Hacc'.
  assert (Hpos : 0 <= counter (glob (shr s))).
  { rewrite Hsum. apply total_nonneg. intros u x Hx.
    by apply (three_finished_range K (glob (shr s))), (Hall u). }
  destruct Hmic as [t b th sh th' Ht Hs ->|u tu Hu Hb ->].
  - pose proof (Hall t th Ht) as (Hi & Hin & Htmp & Hret & Hph).
    assert (Hroom : counter (glob (shr s)) <= LONG_MAX - (K - finished (local th))).
    { rewrite Hsum. etrans; [apply (total_room _ _ K t th); [|done]|lia].
      intros u y Hy. by apply (three_finished_range K (glob (shr s))), (Hall u). }
    assert (Hex : forall u thu, threads s !! u = Some thu -> u <> t ->
                    1 <= eff bal th -> 1 <= eff bal thu -> False).
    { intros u thu Hu Hne H1 H2.
      assert (Hr : 0 <= 1 <= INT_MAX) by (unfold INT_MAX; lia).
      by apply (mutual_exclusion anyc bal 1 Hr s t u th thu). }
    unfold thread_step, inc_with_sem_three in Hs. inv_step Hs.
    all: bool_facts; unfold bal, finished, phase, eff in Hin, Hroom, Hex, Hph;
      repeat match goal with H : spc _ = _ |- _ => rewrite H in * end;
      repeat match goal with H : pc _ = _ |- _ => rewrite H in * end;
      try specialize (Hin eq_refl);
      try specialize (Htmp (or_introl eq_refl)); try specialize (Htmp (or_intror eq_refl));
      rewrite ?Htmp in *.
    all: rewrite ?wrap_long_id by (unfold LONG_MAX, INT_MAX in *; lia).
    all: rewrite ?wrap_int_id by (unfold LONG_MAX, INT_MAX in *; lia).
    all: (split;
      [cbn [threads shr glob]; rewrite (total_insert _ _ t th) by done; rewrite <- Hsum;
       unfold finished; simpl;
       repeat match goal with H : pc _ = _ |- _ => rewrite H end; simpl;
       rewrite ?wrap_int_id by (unfold LONG_MAX, INT_MAX in *; lia); lia
      |intros u thu Hu; split_thread u t Hu;
       [|pose proof (Hall u thu Hu) as (Hi' & Hin' & Htmp' & Hret' & Hph');
         specialize (Hex u thu Hu ltac:(done))];
       unfold loc_ok, bal, phase in *; simpl;
       repeat match goal with H : pc _ = _ |- _ => rewrite H end;
       repeat match goal with H : spc _ = _ |- _ => rewrite H end;
       repeat match goal with H : ret _ = _ |- _ => rewrite H end; simpl;
       rewrite ?wrap_int_id by (unfold LONG_MAX, INT_MAX in *; lia);
       (split_and!; try lia; try done; intros; destruct_or?; try done; try lia; eauto)]).
    all: try (by match goal with H : is_Some None |- _ => destruct H end).
    all: try (split; [done|lia]).
    all: try (exfalso; apply Hex; [simpl; lia|];
      destruct (spc thu);
      repeat match goal with H : pc _ = _ |- _ => rewrite H in * end; simpl; done).
  - split; [simpl; rewrite (total_insert _ _ u tu) by done; simpl; lia|].
    intros v thv Hv. split_thread v u Hv; [|by eapply Hall].
    destruct (Hall u tu Hu) as (Hi & Hin & Htmp & Hret & Hph).
    unfold loc_ok, phase, blocked in *. simpl.
    destruct (spc tu) as [|[]|]; done.
Qed.

Lemma three_inv_start K W :
  0 <= K -> inv K (init 1 W (start THead)).
Proof.
  intros HK. split; [|split].
  - apply acc_ok_start; [unfold INT_MAX; lia|]. by intros c ->%elem_of_replicate_inv.
  - simpl. rewrite (total_const _ _ 0); [lia|].
    intros t x Hx. rewrite list_lookup_fmap in Hx.
    destruct (replicate W _ !! t) as [c|] eqn:Hc; simplify_eq/=.
    by apply lookup_replicate in Hc as [-> _].
  - intros u th Hu. simpl in Hu. rewrite list_lookup_fmap in Hu.
    destruct (replicate W _ !! u) as [c|] eqn:Hc; simplify_eq/=.
    apply lookup_replicate in Hc as [-> _].
    unfold loc_ok, bal, phase; simpl. split_and!; try done; try lia.
Qed.

(** With one permit, every run of [W] workers that ends with all of them
    returned leaves [W * K] in the counter. *)
Lemma three_exact K W sched s :
  0 <= K <= INT_MAX -> Z.of_nat W * K <= LONG_MAX ->
  run (inc_with_sem_three K) sched (init 1 W (start THead)) = Some s ->
  joined s = true ->
  counter (glob (shr s)) = Z.of_nat W * K.
Proof.
  intros HK HW Hrun Hj.
  assert (Hinv : length (threads s) = W /\ inv K s).
  { revert Hrun. apply (invariant_run _ (fun s => length (threads s) = W /\ inv K s)).
    - intros s1 s2 [Hlen Hi] Hm. split.
      + by rewrite (micro_length _ _ _ Hm).
      + eapply three_inv_micro; eauto. by rewrite Hlen.
    - split; [simpl; by rewrite length_map, length_replicate|apply three_inv_start; lia]. }
  destruct Hinv as (Hlen & _ & Hsum & Hall).
  rewrite Hsum, (total_const _ _ K); [by rewrite Hlen|].
  intros t th Ht. destruct (Hall t th Ht) as (_ & _ & _ & Hret & _).
  destruct Hret as [Hpc Hi]; [by eapply joined_ret|].
  unfold finished. rewrite Hpc. lia.
Qed.

(** *** One worker at a time *)

Definition quiet (sh : shared) : Prop :=
  m (sem sh) = None /\ 1 <= count (sem sh) <= INT_MAX.

Definition ready (K : Z) (th : thread (vars three_pc)) : Prop :=
  ret th = None /\ spc th = Running /\ pc (local th) = THead /\ 0 <= i (local th) <= K.

(** [semc_wait] and the read of the counter: seven steps. *)
Lemma three_solo_enter K t sh th :
  quiet sh -> ready K th -> i (local th) < K ->
  solo (inc_with_sem_three K) 7 t sh th =
    Some (with_sem sh {| count := count (sem sh) - 1; m := None |},
          {| local := {| pc := TSpin; i := i (local th); tmp := counter (glob sh) |};
             spc := Running; reg := count (sem sh); ret := None |}).
Proof.
  destruct sh as [g lk [c mu]], th as [[p j x] pc r rt]. unfold quiet, ready. simpl.
  intros (-> & Hc) (-> & -> & -> & Hj) Hlt.
  assert (Hlt' : (j <? K) = true) by lia.
  assert (Hc' : (c =? 0) = false) by lia.
  unfold solo, thread_step, inc_with_sem_three. simpl. rewrite Hlt'. simpl.
  rewrite Hc'. simpl.
  rewrite wrap_int_id by (unfold INT_MAX in *; lia). reflexivity.
Qed.

(** The busy-wait, the write of the counter and [semc_post]: eight steps. *)
Lemma three_solo_leave K t sh j x r :
  m (sem sh) = None -> 0 <= count (sem sh) < INT_MAX -> 0 <= j < INT_MAX ->
  solo (inc_with_sem_three K) 8 t sh
    {| local := {| pc := TSpin; i := j; tmp := x |}; spc := Running; reg := r; ret := None |} =
    Some (with_sem (with_glob sh (set_counter (glob sh) (wrap_long (x + 1))))
                   {| count := count (sem sh) + 1; m := None |},
          {| local := {| pc := THead; i := j + 1; tmp := x |};
             spc := Running; reg := count (sem sh); ret := None |}).
Proof.
  destruct sh as [g lk [c mu]]. simpl. intros -> Hc Hj.
  unfold solo, thread_step, inc_with_sem_three. simpl.
  unfold with_sem, with_glob, in_sem, call_sem, with_local, goto, next_iter,
    pthread_mutex_unlock. simpl.
  rewrite !wrap_int_id by (unfold INT_MAX in *; lia). reflexivity.
Qed.

Lemma three_solo_iteration K t sh th :
  quiet sh -> ready K th -> i (local th) < K -> K <= INT_MAX ->
  exists sh' th',
    solo (inc_with_sem_three K) 15 t sh th = Some (sh', th') /\
    quiet sh' /\ ready K th' /\ i (local th') = i (local th) + 1 /\
    counter (glob sh') = wrap_long (counter (glob sh) + 1).
Proof.
  intros Hq Hr Hlt HK. change 15%nat with (7 + 8)%nat.
  rewrite solo_app, (three_solo_enter K t sh th Hq Hr Hlt).
  destruct Hq as [Hm Hc], Hr as (Hret & Hspc & Hpc & Hi).
  rewrite three_solo_leave; simpl; auto; try lia.
  eexists _, _. split; [reflexivity|]. unfold quiet, ready. simpl.
  split_and!; auto; lia.
Qed.

Lemma three_solo_complete K t : forall k sh th,
  Z.of_nat k = K - i (local th) -> K <= INT_MAX ->
  quiet sh -> ready K th ->
  0 <= counter (glob sh) -> counter (glob sh) + (K - i (local th)) <= LONG_MAX ->
  exists sh' th',
    solo (inc_with_sem_three K) (15 * k + 1) t sh th = Some (sh', th') /\
    is_Some (ret th') /\ quiet sh' /\
    counter (glob sh') = counter (glob sh) + (K - i (local th)).
Proof.
  induction k as [|k IH]; intros sh th Hk HK Hq Hr Hv Hb.
  - destruct sh as [g lk sm], th as [[p j x] pc r rt]. unfold quiet, ready in *.
    simpl in *. destruct Hr as (-> & -> & -> & Hj). destruct Hq as [Hm Hc].
    assert (Hlt' : (j <? K) = false) by lia.
    unfold solo, thread_step, inc_with_sem_three. simpl. rewrite Hlt'. simpl.
    eexists _, _. split; [reflexivity|]. simpl. split_and!; auto; lia.
  - destruct (three_solo_iteration K t sh th Hq Hr ltac:(lia) HK)
      as (sh1 & th1 & Hsolo & Hq1 & Hr1 & Hi1 & Hc1).
    rewrite wrap_long_id in Hc1 by (unfold LONG_MAX in *; lia).
    destruct (IH sh1 th1) as (sh' & th' & Hsolo' & Hret & Hq' & Hc'); auto; try lia.
    exists sh', th'. replace (15 * S k + 1)%nat with (15 + (15 * k + 1))%nat by lia.
    rewrite solo_app, Hsolo, Hsolo'. split_and!; auto; lia.
Qed.

(** From a quiet state whose workers are all at the head of their loop or
    returned, some schedule takes them all to their return; it adds to the
    counter the iterations that were left. *)
Lemma three_completes_from K (s : state (vars three_pc)) :
  0 <= K <= INT_MAX ->
  quiet (shr s) -> 0 <= counter (glob (shr s)) ->
  counter (glob (shr s)) + total (left_over (fun th => K - i (local th))) (threads s)
    <= LONG_MAX ->
  Forall (settled (ready K)) (threads s) ->
  exists sched s',
    run (inc_with_sem_three K) sched s = Some s' /\ joined s' = true /\
    length (threads s') = length (threads s) /\
    counter (glob (shr s')) =
      counter (glob (shr s)) + total (left_over (fun th => K - i (local th))) (threads s).
Proof.
  intros HK Hq Hv Hb Hall.
  assert (Hgain : forall th, ready K th -> 0 <= K - i (local th)).
  { intros th (_ & _ & _ & Hi). lia. }
  assert (Hsolo : forall t sh th, quiet sh -> ready K th -> 0 <= counter (glob sh) ->
            counter (glob sh) + (K - i (local th)) <= LONG_MAX ->
            exists n sh' th', solo (inc_with_sem_three K) n t sh th = Some (sh', th') /\
              is_Some (ret th') /\ quiet sh' /\
              counter (glob sh') = counter (glob sh) + (K - i (local th))).
  { intros t sh th Hq' Hr Hv' Hb'.
    destruct (three_solo_complete K t (Z.to_nat (K - i (local th))) sh th) as (sh' & th' & H);
      auto; try lia; [|eauto].
    destruct Hr as (_ & _ & _ & Hi). lia. }
  exact (complete_all (inc_with_sem_three K) quiet (ready K)
           (fun sh => counter (glob sh)) (fun th => K - i (local th)) LONG_MAX
           Hgain Hsolo s Hq Hv Hb Hall).
Qed.

Lemma three_spawn_settled K (cs : list (vars three_pc)) :
  0 <= K -> Forall (fun c => c = start THead) cs ->
  Forall (settled (ready K)) (map spawn cs) /\
  total (left_over (fun th => K - i (local th))) (map spawn cs) = Z.of_nat (length cs) * K.
Proof.
  intros HK Hcs. split.
  - apply Forall_forall. intros x Hx.
    apply list_elem_of_fmap in Hx as (c & -> & Hc).
    rewrite Forall_forall in Hcs. rewrite (Hcs c Hc).
    split; [done|]. intros _. unfold ready. simpl. split_and!; auto; lia.
  - rewrite (total_const _ _ K); [by rewrite length_map|].
    intros t x Hx. rewrite list_lookup_fmap in Hx.
    destruct (cs !! t) as [c|] eqn:Hc; simplify_eq/=.
    rewrite Forall_forall in Hcs. rewrite (Hcs c) by (by eapply list_elem_of_lookup_2).
    unfold left_over. simpl. lia.
Qed.

(** The workers can all run to their return, whatever the number of
    permits, one or more. *)
Lemma three_completes K W permits :
  0 <= K <= INT_MAX -> Z.of_nat W * K <= LONG_MAX -> 1 <= permits <= INT_MAX ->
  exists sched s,
    run (inc_with_sem_three K) sched (init permits W (start THead)) = Some s /\
    joined s = true.
Proof.
  intros HK HW Hp.
  destruct (three_spawn_settled K (replicate W (start THead))) as [Hall Htot]; [lia| |].
  { apply Forall_forall. by intros c ->%elem_of_replicate_inv. }
  rewrite length_replicate in Htot.
  destruct (three_completes_from K (init permits W (start THead))) as (sched & s & Hrun & Hj & _);
    eauto.
  - by split.
  - done.
  - simpl. rewrite Htot. lia.
Qed.

Lemma has_waiter_spawn {C : Type} (cs : list C) : has_waiter (map spawn cs) = false.
Proof. unfold has_waiter. by induction cs. Qed.

(** With three permits an update can be lost: two workers take a permit
    each, both read the counter, both write the same value back; the rest
    of the run is sequential. The counter ends one short of [W * K]. *)
Lemma lost_update K W :
  1 <= K <= INT_MAX -> (2 <= W)%nat -> Z.of_nat W * K <= LONG_MAX ->
  exists sched s,
    run (inc_with_sem_three K) sched (init 3 W (start THead)) = Some s /\
    joined s = true /\
    counter (glob (shr s)) = Z.of_nat W * K - 1.
Proof.
  intros HK HW Hb. destruct W as [|[|W]]; try lia.
  set (prog := inc_with_sem_three K).
  set (rest := map spawn (replicate W (start THead))).
  set (s0 := init 3 (S (S W)) (start THead)).
  assert (Hw : forall a b : thread (vars three_pc),
             blocked a = false -> blocked b = false -> has_waiter (a :: b :: rest) = false).
  { intros a b Ha Hb'. unfold has_waiter. simpl. rewrite Ha, Hb'. apply has_waiter_spawn. }
  assert (Hr0 : ready K (spawn (start THead))).
  { unfold ready. simpl. split_and!; auto; lia. }
  (* thread 0 takes a permit and reads the counter *)
  assert (Hq0 : quiet (shr s0)) by (split; [done|unfold INT_MAX; simpl; lia]).
  destruct (run_solo prog 7 0 s0 (spawn (start THead)) _ _
              (Hw (spawn (start THead)) (spawn (start THead)) eq_refl eq_refl) eq_refl
              (three_solo_enter K 0 (shr s0) _ Hq0 Hr0 ltac:(simpl; lia))) as [Hrun1 _].
  match type of Hrun1 with _ = Some ?x => set (s1 := x) in * end.
  (* thread 1 takes a permit and reads the counter *)
  assert (Hq1 : quiet (shr s1)) by (split; [done|unfold INT_MAX; simpl; lia]).
  assert (Hw1 : has_waiter (threads s1) = false) by (by apply Hw).
  destruct (run_solo prog 7 1 s1 (spawn (start THead)) _ _ Hw1 eq_refl
              (three_solo_enter K 1 (shr s1) _ Hq1 Hr0 ltac:(simpl; lia))) as [Hrun2 _].
  match type of Hrun2 with _ = Some ?x => set (s2 := x) in * end.
  (* thread 0 writes and gives its permit back *)
  assert (Hw2 : has_waiter (threads s2) = false) by (by apply Hw).
  destruct (run_solo prog 8 0 s2 _ _ _ Hw2 eq_refl
              (three_solo_leave K 0 (shr s2) 0 0 3 eq_refl
                 ltac:(unfold INT_MAX; simpl; lia) ltac:(unfold INT_MAX; lia))) as [Hrun3 _].
  match type of Hrun3 with _ = Some ?x => set (s3 := x) in * end.
  (* thread 1 writes the same value and gives its permit back *)
  assert (Hw3 : has_waiter (threads s3) = false) by (by apply Hw).
  destruct (run_solo prog 8 1 s3 _ _ _ Hw3 eq_refl
              (three_solo_leave K 1 (shr s3) 0 0 2 eq_refl
                 ltac:(unfold INT_MAX; simpl; lia) ltac:(unfold INT_MAX; lia))) as [Hrun4 _].
  match type of Hrun4 with _ = Some ?x => set (s4 := x) in * end.
  (* the rest, one worker after the other *)
  destruct (three_spawn_settled K (replicate W (start THead))) as [Hall Htot]; [lia| |].
  { apply Forall_forall. by intros c ->%elem_of_replicate_inv. }
  rewrite length_replicate in Htot. fold rest in Hall, Htot.
  assert (Hths : exists a b, threads s4 = a :: b :: rest /\
            left_over (fun th => K - i (local th)) a = K - 1 /\
            left_over (fun th => K - i (local th)) b = K - 1 /\
            settled (ready K) a /\ settled (ready K) b).
  { eexists _, _. split; [reflexivity|]. unfold settled, ready, left_over. simpl.
    split_and!; auto; try lia; intros _; split_and!; auto; lia. }
  destruct Hths as (a & b & Hths & Hla & Hlb & Hsa & Hsb).
  assert (Hleft : total (left_over (fun th => K - i (local th))) (threads s4)
                  = Z.of_nat (S (S W)) * K - 2).
  { rewrite Hths.
    change (total ?f (a :: b :: ?l)) with (f a + (f b + total f l)).
    rewrite Htot, Hla, Hlb. lia. }
  assert (Hc4 : counter (glob (shr s4)) = 1) by reflexivity.
  destruct (three_completes_from K s4) as (sched & s & Hrun & Hj & _ & Hc).
  - lia.
  - split; [done|]. simpl. unfold INT_MAX. lia.
  - lia.
  - rewrite Hleft, Hc4. lia.
  - rewrite Hths. apply Forall_cons; split; [done|apply Forall_cons; split; [done|exact Hall]].
  - exists (repeat (Step 0%nat) 7 ++ repeat (Step 1%nat) 7 ++ repeat (Step 0%nat) 8
            ++ repeat (Step 1%nat) 8 ++ sched), s.
    fold prog s0.
    rewrite run_app, Hrun1; cbv beta iota. rewrite run_app, Hrun2; cbv beta iota.
    rewrite run_app, Hrun3; cbv beta iota. rewrite run_app, Hrun4; cbv beta iota.
    split; [done|]. split; [done|].
    rewrite Hc, Hleft, Hc4. lia.
Qed.

End ThreeCounter.


(** ** The invariant pair under the mutex *)

Module PairLockFacts.
Import Machine MachineFacts LockFacts Counter PairLock.

Definition inlock (c : vars pair_pc) : bool :=
  match pc c with QHead => false | _ => true end.

(** What the owner of the mutex knows of the pair at each point of the
    update. *)
Definition knows (g : globals) (c : vars pair_pc) : Prop :=
  match pc c with
  | QHead => True
  | QLoadA | QTail => pair_a g = pair_b g
  | QStoreA => pair_a g = pair_b g /\ tmp c = pair_a g
  | QSpin | QLoadB => pair_a g = wrap_long (pair_b g + 1)
  | QStoreB => pair_a g = wrap_long (pair_b g + 1) /\ tmp c = pair_b g
  end.

Definition loc_ok (g : globals) (th : thread (vars pair_pc)) : Prop :=
  knows g (local th) /\ (is_Some (ret th) -> pc (local th) = QHead).

Definition inv (s : state (vars pair_pc)) : Prop :=
  lock_ok inlock s /\
  (forall u th, threads s !! u = Some th -> loc_ok (glob (shr s)) th) /\
  ((forall u th, threads s !! u = Some th -> inlock (local th) = false) ->
   pair_a (glob (shr s)) = pair_b (glob (shr s))).

Lemma pairlock_lock_next K g c : next_lock inlock (inlock c) (touch_pair_with_lock K g c).
Proof.
  unfold touch_pair_with_lock, inlock. destruct c as [[] j x]; simpl; try done.
  all: by destruct (j <? K).
Qed.

Lemma pairlock_inv_micro K s s' : inv s -> micro (touch_pair_with_lock K) s s' -> inv s'.
Proof.
  intros (Hlock & Hall & Hfree) Hmic.
  assert (Hlock' : lock_ok inlock s').
  { eapply lock_ok_micro; eauto using pairlock_lock_next. }
  split; [done|]. clear Hlock'.
  destruct Hmic as [t b th sh th' Ht Hs ->|u tu Hu Hb ->].
  - pose proof (Hall t th Ht) as (Hpair & Hret).
    assert (Hlt : (t < length (threads s))%nat) by (by eapply lookup_lt_Some).
    assert (Hex : forall u thu, threads s !! u = Some thu -> u <> t ->
                    inlock (local th) = true -> inlock (local thu) = true -> False).
    { intros u thu Hu Hne H1 H2. apply Hne. by apply (lock_exclusion inlock s u t thu th). }
    assert (Hnone : inlock (local th) = false -> lock (shr s) = None ->
                    pair_a (glob (shr s)) = pair_b (glob (shr s))).
    { intros Hin Hlk. apply Hfree. intros u thu Hu.
      destruct (inlock (local thu)) eqn:Hinu; [|done].
      apply (Hlock u thu Hu) in Hinu. congruence. }
    assert (Hsame : forall th1, local th1 = local th ->
              (forall u thu, <[t := th1]> (threads s) !! u = Some thu ->
                 inlock (local thu) = false) ->
              pair_a (glob (shr s)) = pair_b (glob (shr s))).
    { intros th1 Hl Hno. apply Hfree. intros u thu Hu.
      destruct (decide (u = t)) as [->|Hne].
      - simplify_eq. rewrite <- Hl. apply (Hno t). by apply list_lookup_insert_eq.
      - apply (Hno u). by rewrite list_lookup_insert_ne. }
    unfold thread_step, touch_pair_with_lock in Hs. inv_step Hs.
    all: unfold inlock, knows in Hex, Hnone, Hpair;
      repeat match goal with H : pc _ = _ |- _ => rewrite H in * end;
      try specialize (Hnone eq_refl ltac:(done)).
    all: (split;
      [intros u thu Hu; split_thread u t Hu;
       [|pose proof (Hall u thu Hu) as (Hpair' & Hret');
         specialize (Hex u thu Hu ltac:(done))];
       unfold loc_ok, knows, inlock in *; simpl;
       repeat match goal with H : pc _ = _ |- _ => rewrite H end;
       repeat match goal with H : ret _ = _ |- _ => rewrite H end; simpl;
       try done
      |simpl; first
         [refine (Hsame _ _); reflexivity
         |intros Hno; specialize (Hno t _ (list_lookup_insert_eq _ _ _ Hlt));
          unfold inlock in Hno; simpl in Hno; done
         |by intros _]]).
    all: try (split; [|done]; destruct (pc (local thu)); try done; by exfalso; apply Hex).
    all: destruct_and?; split; [congruence|by intros [? ?]].
  - split.
    + intros v thv Hv. split_thread v u Hv; [|by eapply Hall]. by apply (Hall u tu).
    + simpl. intros Hno. apply Hfree. intros v thv Hv.
      destruct (decide (v = u)) as [->|Hne].
      * simplify_eq. apply (Hno u (woken tu)).
        apply list_lookup_insert_eq. by eapply lookup_lt_Some.
      * apply (Hno v). by rewrite list_lookup_insert_ne.
Qed.

Lemma pairlock_inv_start W : inv (init 0 W (start QHead)).
Proof.
  split; [|split].
  - apply lock_ok_start. by intros c ->%elem_of_replicate_inv.
  - intros u th Hu. simpl in Hu. rewrite list_lookup_fmap in Hu.
    destruct (replicate W _ !! u) as [c|] eqn:Hc; simplify_eq/=.
    apply lookup_replicate in Hc as [-> _]. by split.
  - done.
Qed.

(** After any run that ends with all the workers returned, [a == b]. *)
Lemma pair_equal K W sched s :
  run (touch_pair_with_lock K) sched (init 0 W (start QHead)) = Some s ->
  joined s = true ->
  pair_a (glob (shr s)) = pair_b (glob (shr s)).
Proof.
  intros Hrun Hj.
  assert (Hinv : inv s).
  { revert Hrun. apply (invariant_run _ inv); [|apply pairlock_inv_start].
    intros s1 s2. apply pairlock_inv_micro. }
  destruct Hinv as (_ & Hall & Hfree). apply Hfree.
  intros u th Hu. destruct (Hall u th Hu) as [_ Hret].
  unfold inlock. rewrite Hret; [done|]. by eapply joined_ret.
Qed.

(** *** One worker at a time *)

Definition quiet (sh : shared) : Prop := lock sh = None.

Definition ready (K : Z) (th : thread (vars pair_pc)) : Prop :=
  ret th = None /\ spc th = Running /\ pc (local th) = QHead /\ 0 <= i (local th) <= K.

Lemma pairlock_solo_iteration K t sh th :
  quiet sh -> ready K th -> i (local th) < K -> K <= INT_MAX ->
  exists sh' th',
    solo (touch_pair_with_lock K) 7 t sh th = Some (sh', th') /\
    quiet sh' /\ ready K th' /\ i (local th') = i (local th) + 1.
Proof.
  destruct sh as [g lk sm], th as [[p j x] pc r rt]. unfold quiet, ready. simpl.
  intros -> (-> & -> & -> & Hj) Hlt HK.
  assert (Hlt' : (j <? K) = true) by lia.
  unfold solo, thread_step, touch_pair_with_lock. simpl. rewrite Hlt'. simpl.
  eexists _, _. split; [reflexivity|]. simpl.
  rewrite wrap_int_id by (unfold INT_MAX in *; lia).
  split_and!; auto; lia.
Qed.

Lemma pairlock_solo_complete K t : forall k sh th,
  Z.of_nat k = K - i (local th) -> K <= INT_MAX ->
  quiet sh -> ready K th ->
  exists sh' th',
    solo (touch_pair_with_lock K) (7 * k + 1) t sh th = Some (sh', th') /\
    is_Some (ret th') /\ quiet sh'.
Proof.
  induction k as [|k IH]; intros sh th Hk HK Hq Hr.
  - destruct sh as [g lk sm], th as [[p j x] pc r rt]. unfold quiet, ready in *.
    simpl in *. destruct Hr as (-> & -> & -> & Hj).
    assert (Hlt' : (j <? K) = false) by lia.
    unfold solo, thread_step, touch_pair_with_lock. simpl. rewrite Hlt'. simpl.
    eexists _, _. split; [reflexivity|]. simpl. split_and!; auto.
  - destruct (pairlock_solo_iteration K t sh th Hq Hr ltac:(lia) HK)
      as (sh1 & th1 & Hsolo & Hq1 & Hr1 & Hi1).
    destruct (IH sh1 th1) as (sh' & th' & Hsolo' & Hret & Hq'); auto; try lia.
    exists sh', th'. replace (7 * S k + 1)%nat with (7 + (7 * k + 1))%nat by lia.
    rewrite solo_app, Hsolo, Hsolo'. split_and!; auto.
Qed.

(** The workers can all run to their return. *)
Lemma pairlock_completes K W :
  0 <= K <= INT_MAX ->
  exists sched s,
    run (touch_pair_with_lock K) sched (init 0 W (start QHead)) = Some s /\
    joined s = true.
Proof.
  intros HK.
  assert (Hgain : forall th : thread (vars pair_pc), ready K th -> 0 <= 0) by (intros; lia).
  assert (Hsolo : forall t sh th, quiet sh -> ready K th -> 0 <= 0 -> 0 + 0 <= 0 ->
            exists n sh' th', solo (touch_pair_with_lock K) n t sh th = Some (sh', th') /\
              is_Some (ret th') /\ quiet sh' /\ 0 = 0 + 0).
  { intros t sh th Hq Hr _ _.
    destruct (pairlock_solo_complete K t (Z.to_nat (K - i (local th))) sh th) as (sh' & th' & H);
      auto; try lia.
    { destruct Hr as (_ & _ & _ & Hi). lia. }
    destruct H as (? & ? & ?). eauto 10. }
  destruct (complete_all (touch_pair_with_lock K) quiet (ready K)
              (fun _ => 0) (fun _ => 0) 0 Hgain Hsolo (init 0 W (start QHead)))
    as (sched & s & Hrun & Hj & _); eauto.
  - done.
  - lia.
  - assert (0 <= 0 + total (left_over (fun _ : thread (vars pair_pc) => 0))
                       (threads (init 0 W (start QHead))) <= 0); [|lia].
    rewrite (total_const _ _ 0); [lia|].
    intros t x _. unfold left_over. by destruct (ret x).
  - simpl. apply Forall_forall. intros x Hx.
    apply list_elem_of_fmap in Hx as (c & -> & Hc).
    apply elem_of_replicate_inv in Hc as ->.
    split; [done|]. intros _. unfold ready. simpl. split_and!; auto; lia.
Qed.

End PairLockFacts.


(** ** The workers without synchronisation *)

Module AmplificationFacts.
Import Machine MachineFacts Trace.

(** The six steps of an iteration of the unsynchronised counter workers. *)
Definition counter_cycle (j : Z) : list label :=
  [LRead Vcounter; LYieldIf (Z.land j 0x3FF =? 0); LSpin 50; LModify;
   LYieldIf (Z.land j 0x7FF =? 0); LWrite Vcounter].

(** The update steps of an iteration of the unsynchronised pair worker. *)
Definition pair_cycle (j : Z) : list label :=
  [LRead Va; LRead Vb; LYieldIf (Z.land j 0x1FF =? 0); LModify; LModify;
   LYieldIf (Z.land j 0x3FF =? 0); LWrite Va; LWrite Vb].

(** C5, as the code has it. The two unsynchronised counter workers
    ([increment_without_lock_stressed] of w3 and [inc_no_lock] of w6) run
    the same six steps in every iteration: read, yield when
    [i & 0x3FF == 0], busy-wait of 50, modify, yield when
    [i & 0x7FF == 0], write. The pair worker runs read, yield, modify,
    yield, write in the same order on both fields, with the cadences
    [i & 0x1FF == 0] and [i & 0x3FF == 0] and without a busy-wait. *)
Theorem amplification_sequences (K : Z) (g : globals)
    (c : Counter.vars Counter.amp_pc) (p : Pair.vars) :
  Counter.pc c = Counter.ARead -> Counter.i c < K ->
  Pair.pc p = Pair.UReadA -> Pair.i p < K ->
  local_trace (Counter.increment_without_lock_stressed K) 6 g c = counter_cycle (Counter.i c) /\
  local_trace (Counter.inc_no_lock K) 6 g c = counter_cycle (Counter.i c) /\
  local_trace (Pair.touch_pair_without_lock K) 8 g p = pair_cycle (Pair.i p) /\
  spins (pair_cycle (Pair.i p)) = [].
Proof.
  intros Hc Hi Hp Hj. destruct c as [pc i tmp], p as [pp j ta tb ca]. simpl in *. subst.
  assert (Hi' : (i <? K) = true) by lia. assert (Hj' : (j <? K) = true) by lia.
  unfold Counter.increment_without_lock_stressed, Counter.inc_no_lock,
    Pair.touch_pair_without_lock. simpl. rewrite Hi', Hj'. done.
Qed.

Definition zero : globals := {| counter := 0; pair_a := 0; pair_b := 0 |}.

Lemma amplification_sequences_witness :
  local_trace (Counter.increment_without_lock_stressed 1) 6 zero (Counter.start Counter.ARead)
    = counter_cycle 0 /\
  local_trace (Pair.touch_pair_without_lock 1) 8 zero Pair.start = pair_cycle 0.
Proof.
  destruct (amplification_sequences 1 zero (Counter.start Counter.ARead) Pair.start)
    as (H1 & _ & H3 & _); [reflexivity|simpl; lia|reflexivity|simpl; lia|].
  exact (conj H1 H3).
Defined.

(** C5 as stated fails: in iteration 512 the pair worker yields at its
    first cadence and the counter worker does not, and in every iteration
    the counter worker spins and the pair worker does not. *)
Lemma amplification_not_shared :
  let tc := local_trace (Counter.increment_without_lock_stressed 513) 6 zero
              {| Counter.pc := Counter.ARead; Counter.i := 512; Counter.tmp := 0 |} in
  let tp := local_trace (Pair.touch_pair_without_lock 513) 10 zero
              {| Pair.pc := Pair.UReadA; Pair.i := 512; Pair.ta := 0; Pair.tb := 0;
                 Pair.ca := 0 |} in
  cadence tc = [false; false] /\ cadence tp = [true; false] /\
  spins tc = [50] /\ spins tp = [] /\
  cadence tc <> cadence tp /\ spins tc <> spins tp.
Proof. repeat split; discriminate. Qed.

End AmplificationFacts.

(** *** [touch_pair_without_lock] *)

Module PairFacts.
Import Machine MachineFacts Trace Pair.

(** The worker never calls the semaphore; its loop variable stays within
    [0 .. K]; it returns 1 from [UFail] only, and 0 after [K] iterations. *)
Definition loc_ok (K : Z) (th : thread vars) : Prop :=
  spc th = Running /\
  0 <= i (local th) <= K /\
  (pc (local th) <> UReadA -> i (local th) < K) /\
  match ret th with
  | None => True
  | Some v => (v = 1 /\ pc (local th) = UFail) \/
              (v = 0 /\ pc (local th) = UReadA /\ i (local th) = K)
  end.

Definition inv (K : Z) (s : state vars) : Prop :=
  forall u th, threads s !! u = Some th -> loc_ok K th.

(** The read-modify-write cycles a worker has gone through: the
    iterations it has finished and the one it is checking. *)
Definition cycles (c : vars) : Z :=
  i c + match pc c with UCheckA | UCheckB | UFail => 1 | _ => 0 end.

Definition seen (o : option (nat * label)) : list (nat * label) :=
  match o with Some x => [x] | None => [] end.

Lemma exec_step K e s s1 t th :
  0 <= K <= INT_MAX -> inv K s ->
  exec (touch_pair_without_lock K) e s = Some s1 ->
  threads s !! t = Some th ->
  inv K s1 /\
  exists th1, threads s1 !! t = Some th1 /\
    cycles (local th1) =
      cycles (local th) + writebacks t (seen (observe (touch_pair_without_lock K) e s)).
Proof.
  intros HK Hinv He Ht.
  assert (Hlt : (t < length (threads s))%nat) by (by eapply lookup_lt_Some).
  destruct e as [u|u v|v]; simpl in He.
  - destruct (threads s !! u) as [tu|] eqn:Hu; [|done].
    destruct (thread_step _ u _ (shr s) tu) as [[sh tu']|] eqn:Hs; [|done].
    simplify_eq. pose proof (Hinv u tu Hu) as (Hspc & Hi & Hlt' & Hret).
    unfold observe. rewrite Hu.
    unfold thread_step, touch_pair_without_lock in *. rewrite Hspc in *.
    destruct (ret tu) eqn:Hr; [done|].
    destruct tu as [[p j a b c] pcu r rt]. simpl in *. subst.
    destruct p; simpl in *; repeat case_match; simplify_eq/=; bool_facts.
    all: try (assert (j < K) by (apply Hlt'; discriminate)).
    all: (split;
      [intros w thw Hw; split_thread w u Hw; [|by eapply Hinv];
       unfold loc_ok; simpl; rewrite ?wrap_int_id by (unfold INT_MAX in *; lia);
       split_and!; try done; try lia; auto
      |destruct (decide (t = u)) as [->|Hne];
       [rewrite list_lookup_insert_eq by done; simplify_eq; eexists; split; [done|];
        unfold cycles; simpl; rewrite ?Nat.eqb_refl in *;
        rewrite ?wrap_int_id by (unfold INT_MAX in *; lia); try done; try lia
       |rewrite list_lookup_insert_ne by done; eexists; split; [done|];
        simpl; try (destruct (Nat.eqb_spec u t); [congruence|]); try done; lia]]).
    right. split_and!; try done. lia.
  - (* a signal needs a thread inside [semc_post] *)
    destruct (threads s !! u) as [tu|] eqn:Hu; [|done].
    destruct (Hinv u tu Hu) as (Hspc & _). rewrite Hspc in He.
    destruct (threads s !! v); [|done]. by destruct (ret tu).
  - (* a wake-up needs a blocked thread *)
    destruct (threads s !! v) as [tv|] eqn:Hv; [|done].
    destruct (Hinv v tv Hv) as (Hspc & _). unfold blocked in He. by rewrite Hspc in He.
Qed.

Lemma unsync_inv_start K W : 0 <= K -> inv K (init 0 W start).
Proof.
  intros HK u th Hu. simpl in Hu. rewrite list_lookup_fmap in Hu.
  destruct (replicate W _ !! u) as [c|] eqn:Hc; simplify_eq/=.
  apply lookup_replicate in Hc as [-> _].
  unfold loc_ok. simpl. split_and!; try done; lia.
Qed.

(** Along a run, the write-backs of [b] by a worker are the cycles it
    has gone through. *)
Lemma writebacks_run K sched : forall s s' t th,
  0 <= K <= INT_MAX -> inv K s ->
  run (touch_pair_without_lock K) sched s = Some s' ->
  threads s !! t = Some th ->
  inv K s' /\
  exists th', threads s' !! t = Some th' /\
    cycles (local th') =
      cycles (local th) + writebacks t (trace (touch_pair_without_lock K) sched s).
Proof.
  induction sched as [|e rest IH]; intros s s' t th HK Hinv Hrun Ht; simpl in *.
  - simplify_eq. split; [done|]. exists th. split; [done|lia].
  - destruct (exec _ e s) as [s1|] eqn:He; [|done].
    destruct (exec_step K e s s1 t th HK Hinv He Ht) as (Hinv1 & th1 & Ht1 & Hc1).
    destruct (IH s1 s' t th1 HK Hinv1 Hrun Ht1) as (Hinv' & th' & Ht' & Hc').
    split; [done|]. exists th'. split; [done|].
    rewrite Hc', Hc1. destruct (observe _ e s) as [[u l]|]; simpl; [|lia].
    destruct l as [[]| [] | | | |]; simpl; lia.
Qed.

Lemma broke_spec (s : state vars) :
  broke s = true <-> exists u thu, threads s !! u = Some thu /\ ret thu = Some 1.
Proof.
  unfold broke. rewrite existsb_exists. split.
  - intros (th & Hin & Hret). apply list_elem_of_In, list_elem_of_lookup in Hin as [u Hu].
    exists u, th. split; [done|]. destruct (ret th) as [v|]; [|done].
    apply Z.eqb_eq in Hret. by subst.
  - intros (u & th & Hu & Hret). exists th. split.
    + apply list_elem_of_In. by eapply list_elem_of_lookup_2.
    + by rewrite Hret.
Qed.

(** The comparisons [pair_vals.a != pair_vals.b] that worker [t] makes
    along a run, by their operands as they are in memory: the value of
    [pair_vals.a] at the step that loads it and the value of
    [pair_vals.b] at the step that loads it and compares. The first
    component is the first operand of the comparison under way. *)
Definition note (t : nat) (e : @event) (s : state vars) (acc : Z * list (Z * Z))
  : Z * list (Z * Z) :=
  match e with
  | Step u =>
      if Nat.eqb u t then
        match threads s !! t with
        | Some th =>
            match ret th, spc th, pc (local th) with
            | None, Running, UCheckA => (pair_a (glob (shr s)), acc.2)
            | None, Running, UCheckB =>
                (acc.1, acc.2 ++ [(acc.1, pair_b (glob (shr s)))])
            | _, _, _ => acc
            end
        | None => acc
        end
      else acc
  | _ => acc
  end.

Fixpoint comparisons_from (K : Z) (t : nat) (sched : list (@event)) (s : state vars)
    (acc : Z * list (Z * Z)) : Z * list (Z * Z) :=
  match sched with
  | [] => acc
  | e :: rest =>
      match exec (touch_pair_without_lock K) e s with
      | Some s' => comparisons_from K t rest s' (note t e s acc)
      | None => acc
      end
  end.

Definition comparisons (K : Z) (t : nat) (sched : list (@event)) (s : state vars)
  : list (Z * Z) :=
  (comparisons_from K t sched s (0, [])).2.

Definition agree (p : Z * Z) : Prop := p.1 = p.2.

(** What the comparisons made so far say of a worker: at the second load
    it holds the first operand; it is at the [return (void * )1] exactly
    after a comparison that found the pair unequal, the earlier ones
    having found it equal; it has made one comparison in each iteration. *)
Definition hist_ok (th : thread vars) (acc : Z * list (Z * Z)) : Prop :=
  (pc (local th) = UCheckB -> ca (local th) = acc.1) /\
  match pc (local th) with
  | UFail =>
      exists pre a b, acc.2 = pre ++ [(a, b)] /\ a <> b /\ Forall agree pre /\
                      Z.of_nat (length pre) = i (local th)
  | _ => Forall agree acc.2 /\ Z.of_nat (length acc.2) = i (local th)
  end.

Lemma note_step K e s s1 t th acc :
  0 <= K <= INT_MAX -> inv K s ->
  exec (touch_pair_without_lock K) e s = Some s1 ->
  threads s !! t = Some th -> hist_ok th acc ->
  exists th1, threads s1 !! t = Some th1 /\ hist_ok th1 (note t e s acc).
Proof.
  intros HK Hinv He Ht Hh.
  assert (Hlt : (t < length (threads s))%nat) by (by eapply lookup_lt_Some).
  destruct e as [u|u v|v]; simpl in He.
  - destruct (threads s !! u) as [tu|] eqn:Hu; [|done].
    destruct (thread_step _ u _ (shr s) tu) as [[sh tu']|] eqn:Hs; [|done].
    injection He as <-. unfold note.
    destruct (Nat.eqb_spec u t) as [->|Hne].
    + rewrite Ht in Hu. injection Hu as <-. rewrite Ht.
      pose proof (Hinv t th Ht) as (Hspc & Hi & Hlt' & Hret).
      unfold thread_step, touch_pair_without_lock in Hs. rewrite Hspc in *.
      destruct (ret th) eqn:Hr; [done|].
      exists tu'. split; [simpl; by apply list_lookup_insert_eq|].
      destruct Hh as [Hca Hh].
      destruct th as [[p j a b c] pcu r rt]. simpl in *. subst.
      destruct p; simpl in *; repeat case_match; simplify_eq/=; bool_facts.
      all: try (assert (j < K) by (apply Hlt'; discriminate)).
      all: unfold hist_ok; simpl; rewrite ?wrap_int_id by (unfold INT_MAX in *; lia).
      all: try (split; [done|]); try (split; [intros _; done|]).
      all: try done.
      all: specialize (Hca eq_refl); destruct Hh as [Hf Hl].
      * split; [|rewrite length_app; simpl; lia].
        apply Forall_app. split; [done|]. constructor; [|done].
        unfold agree. simpl. congruence.
      * exists acc.2, acc.1, (pair_b (glob (shr s))).
        split; [done|]. split; [congruence|]. done.
    + exists th. split; [simpl; by rewrite list_lookup_insert_ne|done].
  - destruct (threads s !! u) as [tu|] eqn:Hu; [|done].
    destruct (Hinv u tu Hu) as (Hspc & _). rewrite Hspc in He.
    destruct (threads s !! v); [|done]. by destruct (ret tu).
  - destruct (threads s !! v) as [tv|] eqn:Hv; [|done].
    destruct (Hinv v tv Hv) as (Hspc & _). unfold blocked in He. by rewrite Hspc in He.
Qed.

Lemma comparisons_run K sched : forall s s' t th acc,
  0 <= K <= INT_MAX -> inv K s ->
  run (touch_pair_without_lock K) sched s = Some s' ->
  threads s !! t = Some th -> hist_ok th acc ->
  exists th', threads s' !! t = Some th' /\
    hist_ok th' (comparisons_from K t sched s acc).
Proof.
  induction sched as [|e rest IH]; intros s s' t th acc HK Hinv Hrun Ht Hh; simpl in *.
  - simplify_eq. by exists th.
  - destruct (exec _ e s) as [s1|] eqn:He; [|done].
    destruct (exec_step K e s s1 t th HK Hinv He Ht) as (Hinv1 & _).
    destruct (note_step K e s s1 t th acc HK Hinv He Ht Hh) as (th1 & Ht1 & Hh1).
    by apply (IH s1 s' t th1).
Qed.

(** C10, as the code has it. Along every run of [W] unsynchronised pair
    workers, the comparisons of a worker being taken by the values its two
    loads find in memory: every comparison but the last found the pair
    equal; a worker at the second load of a comparison, when the [a] it
    loaded differs from the [b] now in memory, returns 1 in its next two
    steps, in the same iteration and without touching the pair, and when
    they are equal goes on to the next iteration; a worker that has
    returned 1 did so after a comparison that found [a != b], in an
    iteration [i < K], having made [i + 1] comparisons and [i + 1]
    write-backs, at most [K] and exactly [K] when it was in its last
    iteration; a worker that has returned 0 made [K] comparisons that all
    found the pair equal; a worker that has returned makes no further
    step. Once all workers are joined, the driver's flag [broke] is set
    exactly when the last comparison of some worker found [a != b]. *)
Theorem violation_stops_worker (K : Z) (W : nat) sched (s : state vars) :
  0 <= K <= INT_MAX ->
  run (touch_pair_without_lock K) sched (init 0 W start) = Some s ->
  (forall t th, threads s !! t = Some th ->
     let seen := comparisons_from K t sched (init 0 W start) (0, []) in
     let done_ := writebacks t (trace (touch_pair_without_lock K) sched (init 0 W start)) in
     (forall k p, seen.2 !! k = Some p -> (S k < length seen.2)%nat -> p.1 = p.2) /\
     (ret th = None -> pc (local th) = UCheckB -> seen.1 <> pair_b (glob (shr s)) ->
        exists s2 th2,
          run (touch_pair_without_lock K) [Step t; Step t] s = Some s2 /\
          threads s2 !! t = Some th2 /\ ret th2 = Some 1 /\
          i (local th2) = i (local th) /\ glob (shr s2) = glob (shr s)) /\
     (ret th = None -> pc (local th) = UCheckB -> seen.1 = pair_b (glob (shr s)) ->
        exists s1 th1,
          exec (touch_pair_without_lock K) (Step t) s = Some s1 /\
          threads s1 !! t = Some th1 /\ ret th1 = None /\
          pc (local th1) = UReadA /\ i (local th1) = i (local th) + 1) /\
     (ret th = Some 1 ->
        (exists a b, last seen.2 = Some (a, b) /\ a <> b) /\
        0 <= i (local th) < K /\
        done_ = i (local th) + 1 /\ Z.of_nat (length seen.2) = i (local th) + 1) /\
     (ret th = Some 0 ->
        Forall agree seen.2 /\ Z.of_nat (length seen.2) = K /\ done_ = K) /\
     (is_Some (ret th) -> exec (touch_pair_without_lock K) (Step t) s = None)) /\
  (joined s = true ->
     (broke s = true <->
      exists t a b, (t < W)%nat /\
        last (comparisons K t sched (init 0 W start)) = Some (a, b) /\ a <> b)).
Proof.
  intros HK Hrun.
  assert (Hlen : length (threads s) = W).
  { revert Hrun. apply (invariant_run _ (fun s => length (threads s) = W)).
    - intros s1 s2 <- Hm. by apply micro_length in Hm.
    - simpl. by rewrite length_map, length_replicate. }
  assert (H0 : forall t, (t < W)%nat ->
            threads (init 0 W start) !! t = Some (spawn start)).
  { intros t Ht. simpl. rewrite list_lookup_fmap. by rewrite lookup_replicate_2. }
  assert (Hh0 : hist_ok (spawn start) (0, [])) by (split; [done|by split]).
  assert (Hall : forall t th, threads s !! t = Some th ->
            loc_ok K th /\
            hist_ok th (comparisons_from K t sched (init 0 W start) (0, [])) /\
            cycles (local th)
              = writebacks t (trace (touch_pair_without_lock K) sched (init 0 W start))).
  { intros t th Ht.
    assert (HtW : (t < W)%nat) by (apply lookup_lt_Some in Ht; lia).
    destruct (writebacks_run K sched _ s t _ HK (unsync_inv_start K W ltac:(lia)) Hrun
                (H0 t HtW)) as (Hinv & th' & Ht' & Hcyc).
    destruct (comparisons_run K sched _ s t _ (0, []) HK (unsync_inv_start K W ltac:(lia))
                Hrun (H0 t HtW) Hh0) as (th'' & Ht'' & Hh).
    simplify_eq. split; [by apply (Hinv t)|]. split; [done|].
    rewrite Hcyc. unfold cycles. simpl. lia. }
  split.
  - intros t th Ht seen done_.
    destruct (Hall t th Ht) as ((Hspc & Hi & Hlt & Hret) & (Hca & Hh) & Hcyc).
    fold seen in Hca, Hh. fold done_ in Hcyc.
    assert (Hlt' : (t < length (threads s))%nat) by (by eapply lookup_lt_Some).
    split_and!.
    + intros k p Hk Hlast. destruct (pc (local th)).
      11: { destruct Hh as (pre & a & b & Heq & _ & Hpre & _). rewrite Heq in *.
            rewrite length_app in Hlast. simpl in Hlast.
            rewrite lookup_app_l in Hk by lia.
            rewrite Forall_lookup in Hpre. by apply (Hpre k). }
      all: destruct Hh as [Hf _]; rewrite Forall_lookup in Hf; by apply (Hf k).
    + intros Hr Hpc Hne. rewrite <- (Hca Hpc) in Hne. simpl. rewrite Ht.
      unfold thread_step at 1. rewrite Hr, Hspc.
      unfold touch_pair_without_lock at 1. rewrite Hpc.
      destruct (Z.eqb_spec (ca (local th)) (pair_b (glob (shr s)))); [done|].
      simpl. rewrite list_lookup_insert_eq by done.
      unfold thread_step. simpl. rewrite Hr, Hspc. simpl.
      eexists _, _. split; [done|]. simpl.
      rewrite list_insert_insert_eq, list_lookup_insert_eq by done.
      split; [done|]. split; [done|]. split; [done|]. by destruct (shr s).
    + intros Hr Hpc Heq. rewrite <- (Hca Hpc) in Heq. simpl. rewrite Ht.
      unfold thread_step. rewrite Hr, Hspc.
      unfold touch_pair_without_lock. rewrite Hpc.
      destruct (Z.eqb_spec (ca (local th)) (pair_b (glob (shr s)))); [|done].
      eexists _, _. split; [done|]. simpl.
      rewrite list_lookup_insert_eq by done.
      split; [done|]. split; [done|]. split; [done|]. simpl.
      apply wrap_int_id. assert (i (local th) < K) by (apply Hlt; by rewrite Hpc).
      unfold INT_MAX in *. lia.
    + intros Hr. rewrite Hr in Hret. destruct Hret as [[_ Hpc]|[? _]]; [|done].
      rewrite Hpc in Hh. destruct Hh as (pre & a & b & Heq & Hne & Hpre & Hl).
      split; [exists a, b; by rewrite Heq, last_snoc|].
      split; [split; [lia|apply Hlt; by rewrite Hpc]|].
      unfold cycles in Hcyc. rewrite Hpc in Hcyc. split; [lia|].
      rewrite Heq, length_app. simpl. lia.
    + intros Hr. rewrite Hr in Hret. destruct Hret as [[? _]|(_ & Hpc & HiK)]; [done|].
      rewrite Hpc in Hh. destruct Hh as [Hf Hl].
      unfold cycles in Hcyc. rewrite Hpc in Hcyc. split; [done|]. split; lia.
    + intros [v Hv]. simpl. rewrite Ht. unfold thread_step. by rewrite Hv.
  - intros Hj. rewrite broke_spec. split.
    + intros (u & thu & Hu & Hr).
      destruct (Hall u thu Hu) as ((_ & _ & _ & Hret) & (_ & Hh) & _).
      rewrite Hr in Hret. destruct Hret as [[_ Hpc]|[? _]]; [|done].
      rewrite Hpc in Hh. destruct Hh as (pre & a & b & Heq & Hne & _).
      exists u, a, b. split; [apply lookup_lt_Some in Hu; lia|].
      unfold comparisons. by rewrite Heq, last_snoc.
    + intros (t & a & b & HtW & Hlast & Hne).
      destruct (lookup_lt_is_Some_2 (threads s) t ltac:(lia)) as [th Ht].
      exists t, th. split; [done|].
      destruct (Hall t th Ht) as ((_ & _ & _ & Hret) & (_ & Hh) & _).
      destruct (joined_ret s t th Hj Ht) as [v Hv]. rewrite Hv in Hret.
      destruct Hret as [[-> _]|(_ & Hpc & _)]; [done|].
      rewrite Hpc in Hh. destruct Hh as [Hf _]. exfalso.
      unfold comparisons in Hlast. apply last_Some in Hlast as [pre Heq].
      rewrite Heq in Hf. apply Forall_app in Hf as [_ Hf].
      apply Forall_cons in Hf as [Hf _]. by apply Hne.
Qed.

(** Two workers, one iteration each: worker 0 writes the pair back,
    worker 1 reads it and writes [a], worker 0 compares and returns 1. *)
Definition demo_sched : list (@event) :=
  repeat (Step 0%nat) 8 ++ repeat (Step 1%nat) 7 ++ repeat (Step 0%nat) 3.

Lemma violation_stops_worker_witness :
  exists s th,
    run (touch_pair_without_lock 1) demo_sched (init 0 2 start) = Some s /\
    threads s !! 0%nat = Some th /\ ret th = Some 1 /\
    (exists a b, last (comparisons 1 0 demo_sched (init 0 2 start)) = Some (a, b) /\ a <> b) /\
    0 <= i (local th) < 1 /\
    writebacks 0 (trace (touch_pair_without_lock 1) demo_sched (init 0 2 start))
      = i (local th) + 1 /\
    Z.of_nat (length (comparisons 1 0 demo_sched (init 0 2 start))) = i (local th) + 1.
Proof.
  eexists _, _. split; [vm_compute; reflexivity|]. split; [reflexivity|].
  split; [reflexivity|].
  refine (proj1 (proj2 (proj2 (proj2
            (proj1 (violation_stops_worker 1 2 demo_sched _ _ _) 0%nat _ _)))) _).
  - unfold INT_MAX. lia.
  - vm_compute. reflexivity.
  - reflexivity.
  - reflexivity.
Defined.

(** C10 as stated fails: a worker that finds [a != b] in its last
    iteration has gone through all [K] updates of the pair, not fewer.
    Three iterations, two workers: worker 0 runs two iterations and
    writes the pair back in its third, worker 1 reads the pair and writes
    [a], worker 0 compares 4 with 3 and returns 1, with three write-backs
    and three comparisons behind it. *)
Definition last_cycle_sched : list (@event) :=
  repeat (Step 0%nat) 28 ++ repeat (Step 1%nat) 7 ++ repeat (Step 0%nat) 3.

Lemma detecting_worker_did_all_cycles :
  exists s th,
    run (touch_pair_without_lock 3) last_cycle_sched (init 0 2 start) = Some s /\
    threads s !! 0%nat = Some th /\ ret th = Some 1 /\
    writebacks 0 (trace (touch_pair_without_lock 3) last_cycle_sched (init 0 2 start)) = 3 /\
    comparisons 3 0 last_cycle_sched (init 0 2 start) = [(1, 1); (2, 2); (4, 3)] /\
    broke s = true.
Proof.
  eexists _, _. split; [vm_compute; reflexivity|]. by split_and!.
Qed.

End PairFacts.


(** ** The semaphore alone *)

Module SemaphoreFacts.
Import Machine MachineFacts Script.

(** C2 as stated fails: the count is an [int], and [semc_post] on a
    semaphore of [INT_MAX] permits wraps it to [INT_MIN]. *)
Lemma semc_post_overflows :
  exists s,
    run client (repeat (Step 0%nat) 4) (start_state INT_MAX [[Release]]) = Some s /\
    count (sem (shr s)) < 0.
Proof. eexists. split; [vm_compute; reflexivity|]. vm_compute. reflexivity. Qed.

(** One permit, two threads that take it and give it back: the first
    takes it, the second blocks, the first releases and signals, the
    second is woken up and takes it. *)
Definition paired : list op := [Acquire; Release].
Definition handover : list (@event) :=
  repeat (Step 0%nat) 6 ++ repeat (Step 1%nat) 4 ++ repeat (Step 0%nat) 4
  ++ [Signal 0 1; Step 0%nat] ++ repeat (Step 1%nat) 5.

(** A semaphore of [INT_MAX] permits, one thread that takes a permit and
    gives it back: the count goes down to [INT_MAX - 1] and up to
    [INT_MAX] again, within the range of [int]. *)
Lemma semc_wait_never_negative_witness :
  exists s,
    run client (repeat (Step 0%nat) 13) (start_state INT_MAX [paired]) = Some s /\
    0 <= count (sem (shr s)).
Proof.
  eexists. split; [vm_compute; reflexivity|].
  refine (proj1 (semc_wait_never_negative client INT_MAX [paired]
                   (repeat (Step 0%nat) 13) _ _ _ _)).
  - unfold INT_MAX. lia.
  - vm_compute. reflexivity.
  - vm_compute. reflexivity.
Defined.

(** *** Holders of permits *)

Definition bal (c : phase) : Z := match c with Holding => 1 | _ => 0 end.
Definition anyc (c : phase) : Prop := True.

Lemma holder_ok_next g c : anyc c -> next_ok anyc (holder g c).
Proof. by destruct c. Qed.
Lemma holder_bal_next g c : anyc c -> next_bal bal (bal c) (holder g c).
Proof. by destruct c. Qed.
Lemma holder_bal_nonneg c : anyc c -> 0 <= bal c.
Proof. destruct c; simpl; lia. Qed.

(** A thread that has returned from [semc_wait] and not yet called
    [semc_post]. *)
Definition holding (th : thread phase) : Prop :=
  ret th = None /\ spc th = Running /\ local th = Holding.

Definition is_holding (th : thread phase) : bool :=
  match ret th, spc th, local th with
  | None, Running, Holding => true
  | _, _, _ => false
  end.

Definition holders (s : state phase) : Z :=
  total (fun th => if is_holding th then 1 else 0) (threads s).

(** Where a holder is while it is inside a semaphore call. *)
Definition hphase (th : thread phase) : Prop :=
  match spc th with
  | Running => True
  | InWait _ => local th = Holding /\ ret th = None
  | InPost _ => local th = After /\ ret th = None
  end.

Definition hinv (s : state phase) : Prop :=
  forall u th, threads s !! u = Some th -> hphase th.

Lemma hinv_micro s s' : hinv s -> micro holder s s' -> hinv s'.
Proof.
  intros Hall Hmic. destruct Hmic as [t b th sh th' Ht Hs ->|u tu Hu Hb ->].
  - pose proof (Hall t th Ht) as Hph. unfold thread_step, holder in Hs.
    inv_step Hs.
    all: intros u thu Hu; split_thread u t Hu; [|by eapply Hall];
      unfold hphase in *; simpl;
      repeat match goal with H : spc _ = _ |- _ => rewrite H in * end; done.
  - intros v thv Hv. split_thread v u Hv; [|by eapply Hall].
    pose proof (Hall u tu Hu) as Hph. unfold hphase, blocked in *. simpl.
    by destruct (spc tu) as [|[]|].
Qed.

Section Permits.
Variable N : Z.
Variable W : nat.
Hypothesis N_range : 0 <= N <= INT_MAX.

Definition reach (s : state phase) : Prop :=
  exists sched, run holder sched (init N W Before) = Some s.

Lemma reach_inv s : reach s -> acc_ok anyc bal N s /\ hinv s /\ length (threads s) = W.
Proof.
  intros [sched Hrun]. split; [|split].
  - eapply (acc_ok_run holder anyc bal N); eauto using holder_ok_next, holder_bal_next, holder_bal_nonneg.
    by intros c ->%elem_of_replicate_inv.
  - revert Hrun. apply (invariant_run _ hinv).
    + intros s1 s2. apply hinv_micro.
    + intros u th Hu. simpl in Hu. rewrite list_lookup_fmap in Hu.
      by destruct (replicate W Before !! u); simplify_eq/=.
  - revert Hrun. apply (invariant_run _ (fun s => length (threads s) = W)).
    + intros s1 s2 <- Hm. by apply micro_length in Hm.
    + simpl. by rewrite length_map, length_replicate.
Qed.

(** The holders and the permits left make up at most [N]. *)
Lemma holders_bound s :
  reach s -> 0 <= count (sem (shr s)) /\ holders s + count (sem (shr s)) <= N.
Proof.
  intros Hr. destruct (reach_inv s Hr) as (((Hc & _) & Hsum & Hall) & _ & _).
  split; [lia|].
  assert (holders s <= total (eff bal) (threads s)); [|lia].
  apply total_mono. intros t x Hx. destruct (Hall t x Hx) as [_ Heff].
  unfold is_holding, eff in *.
  destruct (ret x), (spc x) as [|[]|[]], (local x); simpl in *; lia.
Qed.

(** [semc_wait] by a thread left alone, with a permit available. *)
Lemma solo_acquire t sh :
  m (sem sh) = None -> 1 <= count (sem sh) <= INT_MAX ->
  solo holder 6 t sh (spawn Before) =
    Some (with_sem sh {| count := count (sem sh) - 1; m := None |},
          {| local := Holding; spc := Running; reg := count (sem sh); ret := None |}).
Proof.
  destruct sh as [g lk [c mu]]. simpl. intros -> Hc.
  assert (Hc' : (c =? 0) = false) by lia.
  unfold solo, thread_step, holder. simpl. rewrite Hc'. simpl.
  rewrite wrap_int_id by (unfold INT_MAX in *; lia). reflexivity.
Qed.

Lemma holding_awake (l : list (thread phase)) :
  Forall holding l -> has_waiter l = false.
Proof.
  unfold has_waiter. induction 1 as [|th l (_ & Hs & _) _ IH]; simpl; [done|].
  unfold blocked. by rewrite Hs.
Qed.

(** Any number [n <= N] of threads can hold a permit together. *)
Lemma fill (n : nat) :
  (n <= W)%nat -> Z.of_nat n <= N ->
  exists sched s,
    run holder sched (init N W Before) = Some s /\
    sem (shr s) = {| count := N - Z.of_nat n; m := None |} /\
    exists pre, threads s = pre ++ replicate (W - n) (spawn Before) /\
      length pre = n /\ Forall holding pre.
Proof.
  induction n as [|n IH]; intros HW HN.
  - exists [], (init N W Before). split; [done|]. split.
    + simpl. unfold semc_init. f_equal. lia.
    + exists []. simpl. rewrite Nat.sub_0_r. split; [apply fmap_replicate|done].
  - destruct IH as (sched & s & Hrun & Hsem & pre & Hths & Hlen & Hpre); [lia|lia|].
    replace (W - n)%nat with (S (W - S n)) in Hths by lia. simpl in Hths.
    assert (Hw : has_waiter (threads s) = false).
    { rewrite Hths. unfold has_waiter. rewrite existsb_app.
      fold (has_waiter pre). rewrite (holding_awake pre Hpre). simpl.
      generalize (W - S n)%nat. intros k. by induction k. }
    assert (Ht : threads s !! n = Some (spawn Before)).
    { rewrite Hths. by apply list_lookup_middle. }
    destruct (run_solo holder 6 n s (spawn Before) _ _ Hw Ht
                (solo_acquire n (shr s) ltac:(by rewrite Hsem)
                   ltac:(rewrite Hsem; simpl; lia))) as [Hrun1 _].
    eexists (sched ++ repeat (Step n) 6), _.
    rewrite run_app, Hrun, Hrun1. split; [done|]. simpl. split.
    + rewrite Hsem. simpl. f_equal. lia.
    + exists (pre ++ [{| local := Holding; spc := Running;
                          reg := count (sem (shr s)); ret := None |}]).
      rewrite Hths, insert_app_r_alt by lia.
      replace (n - length pre)%nat with 0%nat by lia. simpl.
      rewrite <- app_assoc. split; [done|]. rewrite length_app. simpl.
      split; [lia|]. apply Forall_app. split; [done|]. by repeat constructor.
Qed.

(** With no permit left, [semc_wait] blocks its caller. *)
Lemma further_blocks (s : state phase) t :
  m (sem (shr s)) = None -> count (sem (shr s)) = 0 ->
  threads s !! t = Some (spawn Before) ->
  exists s',
    run holder (repeat (Step t) 4) s = Some s' /\
    spc_at s' t = Some (InWait WBlocked) /\
    exec holder (Step t) s' = None /\
    sem (shr s') = sem (shr s).
Proof.
  destruct s as [[g lk [c mu]] ths]. cbn [shr sem m count threads]. intros -> -> Ht.
  assert (Hlt : (t < length ths)%nat) by (by eapply lookup_lt_Some).
  eexists. split.
  { cbn [repeat].
    erewrite run_step; [|exact Ht|reflexivity]. cbn [shr threads].
    erewrite run_step; [|by apply list_lookup_insert_eq|reflexivity].
    cbn [shr threads]. rewrite list_insert_insert_eq.
    erewrite run_step; [|by apply list_lookup_insert_eq|reflexivity].
    cbn [shr threads]. rewrite list_insert_insert_eq.
    erewrite run_step; [|by apply list_lookup_insert_eq|reflexivity].
    cbn [shr threads]. rewrite list_insert_insert_eq. reflexivity. }
  unfold spc_at. simpl. rewrite list_lookup_insert_eq by done. done.
Qed.

(** The store of [semc_post] adds exactly one to the count. *)
Lemma post_increments s t th :
  reach s -> threads s !! t = Some th -> ret th = None ->
  spc th = InPost PIncStore ->
  exists s', exec holder (Step t) s = Some s' /\
    count (sem (shr s')) = count (sem (shr s)) + 1.
Proof.
  intros Hr Ht Hret Hspc. destruct (reach_inv s Hr) as (Hacc & _ & _).
  pose proof (acc_ok_fits anyc bal N holder_bal_nonneg N_range s Hacc t th Ht Hspc) as Hfit.
  destruct Hacc as ((Hc & Hsem) & _).
  destruct (Hsem t th Ht) as (_ & Hreg & _).
  simpl. rewrite Ht. unfold thread_step. rewrite Hret, Hspc. simpl.
  eexists. split; [done|]. simpl. rewrite Hreg by auto.
  apply wrap_int_id. unfold INT_MAX in *. lia.
Qed.

(** [pthread_cond_signal] with a thread blocked on the condition variable
    wakes one up; the signalling thread cannot go on without. *)
Lemma signal_wakes (s : state phase) t th :
  threads s !! t = Some th -> ret th = None -> spc th = InPost PSignal ->
  (has_waiter (threads s) = true ->
     exec holder (Step t) s = None /\
     (exists u tu, threads s !! u = Some tu /\ blocked tu = true) /\
     forall u tu, threads s !! u = Some tu -> blocked tu = true ->
       exists s', exec holder (Signal t u) s = Some s' /\
         spc_at s' u = Some (InWait WReacquire) /\
         spc_at s' t = Some (InPost PUnlock)) /\
  (has_waiter (threads s) = false ->
     exists s', exec holder (Step t) s = Some s' /\
       spc_at s' t = Some (InPost PUnlock)).
Proof.
  intros Ht Hret Hspc.
  assert (Hlt : (t < length (threads s))%nat) by (by eapply lookup_lt_Some).
  split.
  - intros Hw. split; [|split].
    + simpl. rewrite Ht. unfold thread_step. rewrite Hret, Hspc. simpl. by rewrite Hw.
    + unfold has_waiter in Hw. apply existsb_exists in Hw as (tu & Hin & Hb).
      apply list_elem_of_In, list_elem_of_lookup in Hin as [u Hu]. eauto.
    + intros u tu Hu Hb.
      assert (t <> u).
      { intros ->. simplify_eq. unfold blocked in Hb. by rewrite Hspc in Hb. }
      simpl. rewrite Ht, Hu, Hret, Hspc, Hb. eexists. split; [done|].
      unfold spc_at. simpl.
      rewrite list_lookup_insert_ne by done.
      rewrite list_lookup_insert_eq by (by eapply lookup_lt_Some).
      rewrite list_lookup_insert_eq by (by rewrite length_insert). done.
  - intros Hw. simpl. rewrite Ht. unfold thread_step. rewrite Hret, Hspc. simpl.
    rewrite Hw. eexists. split; [done|]. unfold spc_at. simpl.
    by rewrite list_lookup_insert_eq.
Qed.

(** A release hands the permit to a blocked thread. *)
Definition release_wakes (t u : nat) : list (@event) :=
  repeat (Step t) 4 ++ [Signal t u; Step t] ++ repeat (Step u) 5.

Lemma handover_run s t u th tu :
  reach s -> m (sem (shr s)) = None ->
  threads s !! t = Some th -> holding th ->
  threads s !! u = Some tu -> blocked tu = true ->
  exists s' tu',
    run holder (release_wakes t u) s = Some s' /\
    threads s' !! u = Some tu' /\ holding tu' /\
    count (sem (shr s')) = count (sem (shr s)).
Proof.
  intros Hr Hm Ht (Hret & Hspc & Hloc) Hu Hb.
  destruct (reach_inv s Hr) as (Hacc & Hph & _).
  assert (Hne : t <> u).
  { intros ->. simplify_eq. unfold blocked in Hb. by rewrite Hspc in Hb. }
  assert (Hcount : 0 <= count (sem (shr s)) < INT_MAX).
  { destruct Hacc as ((Hc & _) & Hsum & Hall).
    assert (eff bal th <= total (eff bal) (threads s)).
    { apply total_one with t; [|done]. intros v x Hx. by apply (Hall v x Hx). }
    unfold eff in *. rewrite Hspc, Hloc in *. simpl in *. lia. }
  pose proof (Hph u tu Hu) as Hpu. unfold hphase, blocked in *.
  destruct (spc tu) as [|[]|] eqn:Hspu; try done. destruct Hpu as [Hlu Hru].
  assert (Hlt : (t < length (threads s))%nat) by (by eapply lookup_lt_Some).
  assert (Hlu' : (u < length (threads s))%nat) by (by eapply lookup_lt_Some).
  destruct s as [[g lk [c mu]] ths], th as [lt pt rt vt], tu as [lu pu ru vu].
  cbn [shr sem m count threads local spc ret reg] in *. subst.
  assert (Hc1 : (c + 1 =? 0) = false) by lia.
  rewrite (two_id t u _ _ ths Ht Hu). unfold release_wakes. cbn [repeat app].
  eexists _, _. split.
  { repeat (erewrite run_step;
      [|cbn [threads]; first [by apply two_lookup_l|by apply two_lookup_r]|
        unfold thread_step, holder; simpl;
        rewrite ?wrap_int_id by (unfold INT_MAX in *; lia); rewrite ?Hc1; reflexivity];
      cbn [shr threads]; rewrite ?two_insert_l, ?two_insert_r by done).
    erewrite run_signal;
      [|cbn [threads]; by apply two_lookup_l|cbn [threads]; by apply two_lookup_r
       |done|done|done].
    cbn [shr threads]. rewrite two_insert_r, two_insert_l by done.
    repeat (erewrite run_step;
      [|cbn [threads]; first [by apply two_lookup_l|by apply two_lookup_r]|
        unfold thread_step, holder; simpl;
        rewrite ?wrap_int_id by (unfold INT_MAX in *; lia); rewrite ?Hc1; simpl; reflexivity];
      cbn [shr threads]; rewrite ?two_insert_l, ?two_insert_r by done).
    reflexivity. }
  simpl. split; [by apply two_lookup_r|]. split; [done|].
  rewrite ?wrap_int_id by (unfold INT_MAX in *; lia). lia.
Qed.

End Permits.

(** C3. A semaphore of [N] permits ([0 <= N <= INT_MAX]) and [W > N]
    threads that each take a permit and give it back.
    - In every reachable state the count is between 0 and [N] and the
      holders are at most [N - count].
    - Some run leads to [N] holders at once; the count is then 0, and the
      next thread that calls [semc_wait] finds it zero and blocks: it
      cannot move by itself.
    - From a reachable state with the mutex free, a holder [t] and a
      blocked thread [u]: [t] releases, its signal wakes [u], and [u]
      returns from [semc_wait] holding the permit.
    - The store of [semc_post] adds exactly one to the count.
    - At its signal, [semc_post] cannot go on while a thread is blocked
      without waking one up, and it can wake up any of them. *)
Theorem semaphore_admits_permits (N : Z) (W : nat) :
  0 <= N <= INT_MAX -> N < Z.of_nat W ->
  (forall s, reach N W s ->
     0 <= count (sem (shr s)) /\ holders s + count (sem (shr s)) <= N) /\
  (exists sched s,
     run holder sched (init N W Before) = Some s /\
     holders s = N /\ count (sem (shr s)) = 0 /\
     exists s',
       run holder (repeat (Step (Z.to_nat N)) 4) s = Some s' /\
       spc_at s' (Z.to_nat N) = Some (InWait WBlocked) /\
       exec holder (Step (Z.to_nat N)) s' = None /\
       count (sem (shr s')) = 0) /\
  (forall s t u th tu,
     reach N W s -> m (sem (shr s)) = None ->
     threads s !! t = Some th -> holding th ->
     threads s !! u = Some tu -> blocked tu = true ->
     exists s' tu',
       run holder (release_wakes t u) s = Some s' /\
       threads s' !! u = Some tu' /\ holding tu' /\
       count (sem (shr s')) = count (sem (shr s))) /\
  (forall s t th,
     reach N W s -> threads s !! t = Some th -> ret th = None ->
     spc th = InPost PIncStore ->
     exists s', exec holder (Step t) s = Some s' /\
       count (sem (shr s')) = count (sem (shr s)) + 1) /\
  (forall (s : state phase) t th,
     threads s !! t = Some th -> ret th = None -> spc th = InPost PSignal ->
     has_waiter (threads s) = true ->
     exec holder (Step t) s = None /\
     (exists u tu, threads s !! u = Some tu /\ blocked tu = true) /\
     forall u tu, threads s !! u = Some tu -> blocked tu = true ->
       exists s', exec holder (Signal t u) s = Some s' /\
         spc_at s' u = Some (InWait WReacquire) /\
         spc_at s' t = Some (InPost PUnlock)).
Proof.
  intros HN HW. split_and!.
  - intros s Hr. by apply (holders_bound N W).
  - destruct (fill N W HN (Z.to_nat N)) as (sched & s & Hrun & Hsem & pre & Hths & Hlen & Hpre);
      [lia|lia|].
    exists sched, s. split; [done|].
    assert (Hh : holders s = N).
    { unfold holders. rewrite Hths, total_app.
      rewrite (total_const _ pre 1), (total_const _ (replicate _ _) 0).
      - rewrite Hlen. lia.
      - by intros t x [-> _]%lookup_replicate.
      - intros t x Hx. eapply Forall_lookup_1 in Hpre as (Hr & Hs & Hl); eauto.
        unfold is_holding. by rewrite Hr, Hs, Hl. }
    split; [done|]. rewrite Hsem. simpl. split; [lia|].
    destruct (further_blocks s (Z.to_nat N)) as (s' & Hrun' & Hspc & Hex & Hsem').
    + by rewrite Hsem.
    + rewrite Hsem. simpl. lia.
    + rewrite Hths, lookup_app_r by lia.
      apply lookup_replicate. split; [done|lia].
    + exists s'. split_and!; auto. rewrite Hsem', Hsem. simpl. lia.
  - intros s t u th tu. by apply handover_run.
  - intros s t th. by apply post_increments.
  - intros s t th Ht Hret Hspc Hw.
    by destruct (signal_wakes s t th Ht Hret Hspc) as [H _]; apply H.
Qed.

Lemma semaphore_admits_permits_witness :
  0 <= 1 <= INT_MAX /\ 1 < Z.of_nat 2 /\
  exists sched s,
    run holder sched (init 1 2 Before) = Some s /\
    holders s = 1 /\ count (sem (shr s)) = 0 /\
    exists s',
      run holder (repeat (Step (Z.to_nat 1)) 4) s = Some s' /\
      spc_at s' (Z.to_nat 1) = Some (InWait WBlocked) /\
      exec holder (Step (Z.to_nat 1)) s' = None /\
      count (sem (shr s')) = 0.
Proof.
  assert (H1 : 0 <= 1 <= INT_MAX) by (unfold INT_MAX; lia).
  assert (H2 : 1 < Z.of_nat 2) by lia.
  split; [exact H1|]. split; [exact H2|].
  exact (proj1 (proj2 (semaphore_admits_permits 1 2 H1 H2))).
Defined.

End SemaphoreFacts.


(** * The drivers: what [main] prints after [pthread_join] *)

Module CounterFacts.
Import Machine MachineFacts Counter.

Lemma product_fits (K : Z) (W : nat) :
  0 <= K <= INT_MAX -> Z.of_nat W <= INT_MAX -> Z.of_nat W * K <= LONG_MAX.
Proof. unfold INT_MAX, LONG_MAX. intros HK HW. nia. Qed.

(** C1. [W] workers of [K] iterations each ([K] an [int], at most
    [INT_MAX] workers), the counter starting at 0. With the mutex
    ([inc_with_lock], [increment_with_lock]) and with the semaphore of one
    permit ([inc_with_sem_binary]) the workers can all run to their end,
    and whatever the interleaving, once all are joined the counter is
    [W * K]. *)
Theorem guarded_counter_exact (K : Z) (W : nat) :
  0 <= K <= INT_MAX -> Z.of_nat W <= INT_MAX ->
  ((exists sched s,
      run (inc_with_lock K) sched (init 0 W (start LHead)) = Some s /\ joined s = true) /\
   forall sched s,
     run (inc_with_lock K) sched (init 0 W (start LHead)) = Some s ->
     joined s = true -> counter (glob (shr s)) = Z.of_nat W * K) /\
  ((exists sched s,
      run (increment_with_lock K) sched (init 0 W (start LHead)) = Some s /\
      joined s = true) /\
   forall sched s,
     run (increment_with_lock K) sched (init 0 W (start LHead)) = Some s ->
     joined s = true -> counter (glob (shr s)) = Z.of_nat W * K) /\
  ((exists sched s,
      run (inc_with_sem_binary K) sched (init 1 W (start BHead)) = Some s /\
      joined s = true) /\
   forall sched s,
     run (inc_with_sem_binary K) sched (init 1 W (start BHead)) = Some s ->
     joined s = true -> counter (glob (shr s)) = Z.of_nat W * K).
Proof.
  intros HK HW. pose proof (product_fits K W HK HW) as Hfit.
  split_and!.
  - by apply LockedCounter.mutex_completes.
  - intros sched s. by apply LockedCounter.mutex_exact.
  - by apply LockedCounter.mutex_completes.
  - intros sched s. by apply LockedCounter.mutex_exact.
  - apply BinaryCounter.binary_completes; auto. unfold INT_MAX. lia.
  - intros sched s. by apply BinaryCounter.binary_exact.
Qed.

Lemma guarded_counter_exact_witness :
  0 <= 2 <= INT_MAX /\ Z.of_nat 3 <= INT_MAX /\
  forall sched s,
    run (inc_with_sem_binary 2) sched (init 1 3 (start BHead)) = Some s ->
    joined s = true -> counter (glob (shr s)) = Z.of_nat 3 * 2.
Proof.
  assert (H1 : 0 <= 2 <= INT_MAX) by (unfold INT_MAX; lia).
  assert (H2 : Z.of_nat 3 <= INT_MAX) by (unfold INT_MAX; lia).
  split; [exact H1|]. split; [exact H2|].
  exact (proj2 (proj2 (proj2 (guarded_counter_exact 2 3 H1 H2)))).
Defined.

End CounterFacts.

Module ThreePermits.
Import Machine MachineFacts Counter ThreeCounter.

(** A worker is inside the guarded region from its return from
    [semc_wait] to its call of [semc_post]. *)
Definition inside (th : thread (vars three_pc)) : Z :=
  match spc th, pc (local th) with
  | Running, (TRead | TSpin | TWrite | TTail) => 1
  | _, _ => 0
  end.

Lemma inside_le_permits K W permits sched s :
  0 <= permits <= INT_MAX ->
  run (inc_with_sem_three K) sched (init permits W (start THead)) = Some s ->
  total inside (threads s) <= permits.
Proof.
  intros Hp Hrun.
  assert (Hacc : acc_ok anyc bal permits s).
  { eapply (acc_ok_run (inc_with_sem_three K) anyc bal permits);
      eauto using three_ok_next, three_bal_next, three_bal_nonneg.
    by intros c ->%elem_of_replicate_inv. }
  pose proof (held_le_permits _ _ _ _ Hacc) as Hheld.
  assert (total inside (threads s) <= total (eff bal) (threads s)); [|lia].
  destruct Hacc as (_ & _ & Hall).
  apply total_mono. intros t x Hx. destruct (Hall t x Hx) as [_ Heff].
  unfold inside, eff, bal in *.
  destruct (spc x) as [|[]|[]], (pc (local x)); simpl in *; lia.
Qed.

Lemma two_inside K W :
  1 <= K <= INT_MAX -> (2 <= W)%nat ->
  exists sched s a b,
    run (inc_with_sem_three K) sched (init 3 W (start THead)) = Some s /\
    threads s !! 0%nat = Some a /\ threads s !! 1%nat = Some b /\
    inside a = 1 /\ inside b = 1.
Proof.
  intros HK HW. destruct W as [|[|W]]; try lia.
  set (prog := inc_with_sem_three K).
  set (rest := map spawn (replicate W (start THead))).
  set (s0 := init 3 (S (S W)) (start THead)).
  assert (Hw : forall a b : thread (vars three_pc),
             blocked a = false -> blocked b = false -> has_waiter (a :: b :: rest) = false).
  { intros a b Ha Hb'. unfold has_waiter. simpl. rewrite Ha, Hb'. apply has_waiter_spawn. }
  assert (Hr0 : ready K (spawn (start THead))).
  { unfold ready. simpl. split_and!; auto; lia. }
  assert (Hq0 : quiet (shr s0)) by (split; [done|unfold INT_MAX; simpl; lia]).
  destruct (run_solo prog 7 0 s0 (spawn (start THead)) _ _
              (Hw (spawn (start THead)) (spawn (start THead)) eq_refl eq_refl) eq_refl
              (three_solo_enter K 0 (shr s0) _ Hq0 Hr0 ltac:(simpl; lia))) as [Hrun1 _].
  match type of Hrun1 with _ = Some ?x => set (s1 := x) in * end.
  assert (Hq1 : quiet (shr s1)) by (split; [done|unfold INT_MAX; simpl; lia]).
  assert (Hw1 : has_waiter (threads s1) = false) by (by apply Hw).
  destruct (run_solo prog 7 1 s1 (spawn (start THead)) _ _ Hw1 eq_refl
              (three_solo_enter K 1 (shr s1) _ Hq1 Hr0 ltac:(simpl; lia))) as [Hrun2 _].
  match type of Hrun2 with _ = Some ?x => set (s2 := x) in * end.
  exists (repeat (Step 0%nat) 7 ++ repeat (Step 1%nat) 7), s2.
  eexists _, _. fold prog s0.
  rewrite run_app, Hrun1; cbv beta iota. rewrite Hrun2.
  split; [done|]. split; [reflexivity|]. split; [reflexivity|]. by split.
Qed.

(** C4. [W >= 2] workers of [K >= 1] iterations on the semaphore of three
    permits ([inc_with_sem_three]): some interleaving runs all workers to
    their end and leaves the counter below [W * K]; two workers can be
    inside the guarded region at once, and never more workers than there
    are permits. The same workers on a semaphore of one permit always end
    with [W * K]. *)
Theorem three_permits_lose_updates (K : Z) (W : nat) :
  1 <= K <= INT_MAX -> (2 <= W)%nat -> Z.of_nat W <= INT_MAX ->
  (exists sched s,
     run (inc_with_sem_three K) sched (init 3 W (start THead)) = Some s /\
     joined s = true /\ counter (glob (shr s)) < Z.of_nat W * K) /\
  (exists sched s a b,
     run (inc_with_sem_three K) sched (init 3 W (start THead)) = Some s /\
     threads s !! 0%nat = Some a /\ threads s !! 1%nat = Some b /\
     inside a = 1 /\ inside b = 1) /\
  (forall sched s,
     run (inc_with_sem_three K) sched (init 3 W (start THead)) = Some s ->
     total inside (threads s) <= 3) /\
  (exists sched s,
     run (inc_with_sem_three K) sched (init 1 W (start THead)) = Some s /\
     joined s = true) /\
  (forall sched s,
     run (inc_with_sem_three K) sched (init 1 W (start THead)) = Some s ->
     total inside (threads s) <= 1 /\
     (joined s = true -> counter (glob (shr s)) = Z.of_nat W * K)).
Proof.
  intros HK HW HWmax.
  assert (Hfit : Z.of_nat W * K <= LONG_MAX) by (apply CounterFacts.product_fits; lia).
  split_and!.
  - destruct (lost_update K W HK HW Hfit) as (sched & s & Hrun & Hj & Hc).
    exists sched, s. split_and!; auto. lia.
  - by apply two_inside.
  - intros sched s Hrun. eapply inside_le_permits; [|done]. unfold INT_MAX. lia.
  - apply three_completes; auto; unfold INT_MAX in *; lia.
  - intros sched s Hrun. split.
    + eapply inside_le_permits; [|done]. unfold INT_MAX. lia.
    + intros Hj. eapply three_exact; eauto. lia.
Qed.

Lemma three_permits_lose_updates_witness :
  1 <= 1 <= INT_MAX /\ (2 <= 2)%nat /\ Z.of_nat 2 <= INT_MAX /\
  exists sched s,
    run (inc_with_sem_three 1) sched (init 3 2 (start THead)) = Some s /\
    joined s = true /\ counter (glob (shr s)) < Z.of_nat 2 * 1.
Proof.
  assert (H1 : 1 <= 1 <= INT_MAX) by (unfold INT_MAX; lia).
  assert (H2 : (2 <= 2)%nat) by lia.
  assert (H3 : Z.of_nat 2 <= INT_MAX) by (unfold INT_MAX; lia).
  split; [exact H1|]. split; [exact H2|]. split; [exact H3|].
  exact (proj1 (three_permits_lose_updates 1 2 H1 H2 H3)).
Defined.

End ThreePermits.

Module LockedPair.
Import Machine MachineFacts Counter PairLock.

(** C6. [W] workers of [K] iterations of [touch_pair_with_lock], the pair
    starting at [a = b = 0]: the workers can all run to their end, and
    whatever the interleaving, once all are joined [a] equals [b]. *)
Theorem locked_pair_stays_equal (K : Z) (W : nat) :
  0 <= K <= INT_MAX ->
  (exists sched s,
     run (touch_pair_with_lock K) sched (init 0 W (start QHead)) = Some s /\
     joined s = true) /\
  forall sched s,
    run (touch_pair_with_lock K) sched (init 0 W (start QHead)) = Some s ->
    joined s = true ->
    pair_a (glob (shr s)) = pair_b (glob (shr s)).
Proof.
  intros HK. split.
  - by apply PairLockFacts.pairlock_completes.
  - intros sched s. apply PairLockFacts.pair_equal.
Qed.

Lemma locked_pair_stays_equal_witness :
  0 <= 3 <= INT_MAX /\
  forall sched s,
    run (touch_pair_with_lock 3) sched (init 0 2 (start QHead)) = Some s ->
    joined s = true ->
    pair_a (glob (shr s)) = pair_b (glob (shr s)).
Proof.
  assert (H1 : 0 <= 3 <= INT_MAX) by (unfold INT_MAX; lia).
  split; [exact H1|].
  exact (proj2 (locked_pair_stays_equal 3 2 H1)).
Defined.

End LockedPair.


(** * Further properties of the guarded workers *)

Module ExclusionFacts.
Import Machine MachineFacts LockFacts Counter PairLock.

(** The guarded section of [inc_with_lock] / [increment_with_lock] and of
    [touch_pair_with_lock]: from the return of [pthread_mutex_lock] to the
    call of [pthread_mutex_unlock]. Whatever [K], [W] and the
    interleaving, two workers are never inside it together, and the
    worker inside is the owner recorded in the mutex. *)
Theorem mutex_sections_exclusive (K : Z) (W : nat) :
  (forall sched s t u a b,
     run (inc_with_lock K) sched (init 0 W (start LHead)) = Some s ->
     threads s !! t = Some a -> threads s !! u = Some b ->
     pc (local a) <> LHead -> pc (local b) <> LHead ->
     t = u /\ lock (shr s) = Some t) /\
  (forall sched s t u a b,
     run (touch_pair_with_lock K) sched (init 0 W (start QHead)) = Some s ->
     threads s !! t = Some a -> threads s !! u = Some b ->
     pc (local a) <> QHead -> pc (local b) <> QHead ->
     t = u /\ lock (shr s) = Some t).
Proof.
  split.
  - intros sched s t u a b Hrun Ha Hb Hpa Hpb.
    assert (Hok : lock_ok LockedCounter.inlock s).
    { revert Hrun. apply (invariant_run _ (lock_ok LockedCounter.inlock)).
      - intros s1 s2. apply lock_ok_micro. apply LockedCounter.mutex_lock_next.
      - apply lock_ok_start. by intros c ->%elem_of_replicate_inv. }
    assert (Hia : LockedCounter.inlock (local a) = true).
    { unfold LockedCounter.inlock. by destruct (pc (local a)). }
    assert (Hib : LockedCounter.inlock (local b) = true).
    { unfold LockedCounter.inlock. by destruct (pc (local b)). }
    split; [by eapply lock_exclusion|]. by apply (Hok t a Ha).
  - intros sched s t u a b Hrun Ha Hb Hpa Hpb.
    assert (Hok : lock_ok PairLockFacts.inlock s).
    { revert Hrun. apply (invariant_run _ (lock_ok PairLockFacts.inlock)).
      - intros s1 s2. apply lock_ok_micro. apply PairLockFacts.pairlock_lock_next.
      - apply lock_ok_start. by intros c ->%elem_of_replicate_inv. }
    assert (Hia : PairLockFacts.inlock (local a) = true).
    { unfold PairLockFacts.inlock. by destruct (pc (local a)). }
    assert (Hib : PairLockFacts.inlock (local b) = true).
    { unfold PairLockFacts.inlock. by destruct (pc (local b)). }
    split; [by eapply lock_exclusion|]. by apply (Hok t a Ha).
Qed.

Lemma mutex_sections_exclusive_witness :
  exists s,
    run (inc_with_lock 1) [Step 0%nat] (init 0 2 (start LHead)) = Some s /\
    lock (shr s) = Some 0%nat.
Proof.
  eexists. split; [reflexivity|].
  refine (proj2 (proj1 (mutex_sections_exclusive 1 2) [Step 0%nat] _ 0%nat 0%nat _ _
                   eq_refl eq_refl eq_refl _ _)); discriminate.
Defined.

(** *** Permits of the semaphore workers *)

Section Returned.
Context {C : Type} (prog : globals -> C -> action C).
Variable okc : C -> Prop.
Variable bal : C -> Z.
Variable permits : Z.

Hypothesis ok_next : forall g c, okc c -> next_ok okc (prog g c).
Hypothesis bal_next : forall g c, okc c -> next_bal bal (bal c) (prog g c).
Hypothesis bal_nonneg : forall c, okc c -> 0 <= bal c.
Hypothesis bal_return : forall g c v, prog g c = AReturn v -> bal c = 0.
Hypothesis permits_range : 0 <= permits <= INT_MAX.

(** A worker that has returned is outside the semaphore and holds no
    permit. *)
Definition ret_ok (s : state C) : Prop :=
  forall u th, threads s !! u = Some th -> is_Some (ret th) ->
    spc th = Running /\ bal (local th) = 0.

Lemma ret_ok_micro (s s' : state C) : ret_ok s -> micro prog s s' -> ret_ok s'.
Proof.
  intros Hall Hmic. destruct Hmic as [t b th sh th' Ht Hs ->|u tu Hu Hb ->].
  - intros u thu Hu Hret. split_thread u t Hu; [|by eapply Hall].
    unfold thread_step in Hs. destruct (ret th) eqn:Hr; [done|].
    assert (Hno : forall x : thread C, ret x = ret th -> is_Some (ret x) -> False).
    { intros x Hx [v Hv]. congruence. }
    destruct (spc th) as [|w|p] eqn:Hspc.
    + destruct (prog (glob (shr s)) (local th)) as [l g c|c|c|c|c|v] eqn:Hp.
      * simplify_eq/=. by destruct (Hno _ eq_refl Hret).
      * destruct (pthread_mutex_lock t (lock (shr s))); simplify_eq/=.
        by destruct (Hno _ eq_refl Hret).
      * simplify_eq/=. by destruct (Hno _ eq_refl Hret).
      * simplify_eq/=. by destruct (Hno _ eq_refl Hret).
      * simplify_eq/=. by destruct (Hno _ eq_refl Hret).
      * simplify_eq/=. split; [done|]. by eapply bal_return.
    + destruct (semc_wait _ _ _ _) as [[[w' r] sm]|]; simplify_eq/=.
      by destruct (Hno _ eq_refl Hret).
    + destruct (semc_post _ _ _ _ _) as [[[p' r] sm]|]; simplify_eq/=.
      by destruct (Hno _ eq_refl Hret).
  - intros v thv Hv Hret. split_thread v u Hv; [|by eapply Hall].
    simpl in Hret. destruct (Hall u tu Hu Hret) as [Hspc _].
    unfold blocked in Hb. by rewrite Hspc in Hb.
Qed.

Lemma permits_kept (cs : list C) sched s :
  (forall c, c ∈ cs -> okc c /\ bal c = 0) ->
  run prog sched (start_state permits cs) = Some s ->
  0 <= count (sem (shr s)) <= permits /\
  (joined s = true -> count (sem (shr s)) = permits).
Proof.
  intros Hcs Hrun.
  assert (Hacc : acc_ok okc bal permits s).
  { eapply (acc_ok_run prog okc bal permits); eauto. }
  assert (Hret : ret_ok s).
  { revert Hrun. apply (invariant_run prog ret_ok).
    - intros s1 s2. apply ret_ok_micro.
    - intros u th Hu [v Hv]. simpl in Hu. rewrite list_lookup_fmap in Hu.
      destruct (cs !! u); simplify_eq/=. }
  destruct Hacc as ((Hc & _) & Hsum & Hall).
  assert (Hpos : 0 <= total (eff bal) (threads s)).
  { apply total_nonneg. intros t x Hx. by apply (Hall t x Hx). }
  split; [lia|]. intros Hj.
  rewrite (total_const _ _ 0) in Hsum; [lia|].
  intros t x Hx. destruct (Hret t x Hx) as [Hspc Hbal]; [by eapply joined_ret|].
  unfold eff. rewrite Hspc, Hbal. done.
Qed.

End Returned.

(** A worker of [inc_with_sem_binary] is inside the guarded section from
    its return from [semc_wait] to its call of [semc_post]. *)
Definition inside_binary (th : thread (vars bin_pc)) : Z :=
  match spc th, pc (local th) with
  | Running, (BLoad | BStore | BTail) => 1
  | _, _ => 0
  end.

(** The workers of [inc_with_sem_binary] and of [inc_with_sem_three] on a
    semaphore of [N] permits ([0 <= N <= INT_MAX]), whatever [K], [W] and
    the interleaving: the permit count stays between 0 and [N], it is [N]
    again once all workers are joined, and the workers of
    [inc_with_sem_binary] inside the guarded section are never more than
    [N] (with one permit: never two). *)
Theorem semaphore_workers_keep_permits (K N : Z) (W : nat) :
  0 <= N <= INT_MAX ->
  (forall sched s,
     run (inc_with_sem_binary K) sched (init N W (start BHead)) = Some s ->
     0 <= count (sem (shr s)) <= N /\
     (joined s = true -> count (sem (shr s)) = N) /\
     total inside_binary (threads s) <= N) /\
  (forall sched s,
     run (inc_with_sem_three K) sched (init N W (start THead)) = Some s ->
     0 <= count (sem (shr s)) <= N /\
     (joined s = true -> count (sem (shr s)) = N)).
Proof.
  intros HN. split.
  - intros sched s Hrun.
    assert (Hcs : forall c, c ∈ replicate W (start BHead) ->
                    BinaryCounter.anyc c /\ BinaryCounter.bal c = 0).
    { by intros c ->%elem_of_replicate_inv. }
    destruct (permits_kept (inc_with_sem_binary K) BinaryCounter.anyc BinaryCounter.bal N)
      with (cs := replicate W (start BHead)) (sched := sched) (s := s) as [Hc Hj];
      eauto using BinaryCounter.binary_ok_next, BinaryCounter.binary_bal_next,
        BinaryCounter.binary_bal_nonneg.
    { intros g c v. unfold inc_with_sem_binary, BinaryCounter.bal.
      destruct (pc c); try done. }
    split; [done|]. split; [done|].
    assert (Hacc : acc_ok BinaryCounter.anyc BinaryCounter.bal N s).
    { eapply (acc_ok_run (inc_with_sem_binary K) BinaryCounter.anyc BinaryCounter.bal N);
        eauto using BinaryCounter.binary_ok_next, BinaryCounter.binary_bal_next,
          BinaryCounter.binary_bal_nonneg. }
    pose proof (held_le_permits _ _ _ _ Hacc) as Hheld.
    assert (total inside_binary (threads s) <= total (eff BinaryCounter.bal) (threads s));
      [|lia].
    destruct Hacc as (_ & _ & Hall).
    apply total_mono. intros t x Hx. destruct (Hall t x Hx) as [_ Heff].
    unfold inside_binary, eff, BinaryCounter.bal in *.
    destruct (spc x) as [|[]|[]], (pc (local x)); simpl in *; lia.
  - intros sched s Hrun.
    assert (Hcs : forall c, c ∈ replicate W (start THead) ->
                    ThreeCounter.anyc c /\ ThreeCounter.bal c = 0).
    { by intros c ->%elem_of_replicate_inv. }
    eapply (permits_kept (inc_with_sem_three K) ThreeCounter.anyc ThreeCounter.bal N);
      eauto using ThreeCounter.three_ok_next, ThreeCounter.three_bal_next,
        ThreeCounter.three_bal_nonneg.
    intros g c v. unfold inc_with_sem_three, ThreeCounter.bal.
    destruct (pc c); try done.
Qed.

Lemma semaphore_workers_keep_permits_witness :
  0 <= 1 <= INT_MAX /\
  forall sched s,
    run (inc_with_sem_binary 5) sched (init 1 4 (start BHead)) = Some s ->
    0 <= count (sem (shr s)) <= 1 /\
    (joined s = true -> count (sem (shr s)) = 1) /\
    total inside_binary (threads s) <= 1.
Proof.
  assert (H1 : 0 <= 1 <= INT_MAX) by (unfold INT_MAX; lia).
  split; [exact H1|].
  exact (proj1 (semaphore_workers_keep_permits 5 1 4 H1)).
Defined.

End ExclusionFacts.


(** * The counter without synchronisation *)

Module Naive.
Import Machine Counter.

Inductive naive_pc := NLoad | NStore.

(** w3/thread_demo.c, [increment_without_lock]:
    [for (int i = 0; i < ITERATIONS; i++) { counter++; }]
    with [counter++] as its load and its store, [tmp] being the register
    between the two. *)
Definition increment_without_lock (K : Z) (g : globals) (c : vars naive_pc)
  : action (vars naive_pc) :=
  match pc c with
  | NLoad =>
      if i c <? K
      then ALocal (LRead Vcounter) g (load_tmp c NStore (counter g))
      else AReturn 0
  | NStore =>
      ALocal (LWrite Vcounter) (set_counter g (wrap_long (tmp c + 1))) (next_iter c NLoad)
  end.

End Naive.

Module UnsyncCounter.
Import Machine MachineFacts Counter Naive.

(** The two stressed workers are the same function. *)
Lemma stressed_same : increment_without_lock_stressed = inc_no_lock.
Proof. reflexivity. Qed.

(** The write-backs made so far: a worker has made [i] of them. *)
Definition written {P : Type} (ths : list (thread (vars P))) : Z :=
  total (fun th => i (local th)) ths.

(** What a worker holds in [tmp], [F] write-backs having been made: the
    value it read, and from [AModify] on that value plus one. *)
Definition amp_tmp (F : Z) (c : vars amp_pc) : Prop :=
  match pc c with
  | ARead => True
  | AYield1 | ASpin | AModify => 0 <= tmp c <= F /\ (1 <= i c -> 1 <= tmp c)
  | AYield2 | AWrite => 1 <= tmp c <= F + 1 /\ (1 <= i c -> 2 <= tmp c)
  end.

Definition naive_tmp (F : Z) (c : vars naive_pc) : Prop :=
  match pc c with
  | NLoad => True
  | NStore => 0 <= tmp c <= F /\ (1 <= i c -> 1 <= tmp c)
  end.

Section Bounds.
Context {P : Type}.
Variable head : P.
Variable tmp_ok : Z -> vars P -> Prop.
Variable K : Z.

Definition loc_ok (F : Z) (th : thread (vars P)) : Prop :=
  0 <= i (local th) <= K /\
  (pc (local th) <> head -> i (local th) < K) /\
  (is_Some (ret th) -> i (local th) = K) /\
  tmp_ok F (local th).

(** The counter never exceeds the number of write-backs; it is at least 1
    after the first of them; and while it is below 2 some worker still has
    an iteration to run (for [K >= 2]). *)
Definition inv (s : state (vars P)) : Prop :=
  0 <= counter (glob (shr s)) <= written (threads s) /\
  (1 <= written (threads s) -> 1 <= counter (glob (shr s))) /\
  (2 <= K -> threads s <> [] -> counter (glob (shr s)) <= 1 ->
     exists u th, threads s !! u = Some th /\ i (local th) < K) /\
  forall u th, threads s !! u = Some th -> loc_ok (written (threads s)) th.

End Bounds.

Lemma written_insert {P : Type} (ths : list (thread (vars P))) t th th' :
  ths !! t = Some th ->
  written (<[t := th']> ths) = written ths - i (local th) + i (local th').
Proof. intros Ht. unfold written. by rewrite (total_insert _ _ t th). Qed.

Lemma written_ge {P : Type} K (ths : list (thread (vars P))) t th :
  (forall u x, ths !! u = Some x -> 0 <= i (local x) <= K) ->
  ths !! t = Some th ->
  i (local th) <= written ths <= Z.of_nat (length ths) * K - (K - i (local th)).
Proof.
  intros Hall Ht. split.
  - apply (total_one (fun th => i (local th)) ths t th); [|done].
    intros u x Hx. by apply (Hall u x).
  - apply (total_room (fun th => i (local th)) ths K t th); [|done].
    intros u x Hx. by apply (Hall u x).
Qed.

Section BoundsFacts.
Context {P : Type}.
Variable head : P.
Variable tmp_ok : Z -> vars P -> Prop.
Variable K : Z.
Hypothesis tmp_mono : forall F F' c, tmp_ok F c -> F <= F' -> tmp_ok F' c.

Lemma loc_ok_mono F F' (th : thread (vars P)) :
  loc_ok head tmp_ok K F th -> F <= F' -> loc_ok head tmp_ok K F' th.
Proof.
  intros (H1 & H2 & H3 & H4) HF. unfold loc_ok.
  split; [done|]. split; [done|]. split; [done|]. by apply (tmp_mono F).
Qed.

Lemma unfinished_insert (ths : list (thread (vars P))) t th th' :
  ths !! t = Some th -> i (local th') = i (local th) ->
  (exists u x, ths !! u = Some x /\ i (local x) < K) ->
  exists u x, <[t := th']> ths !! u = Some x /\ i (local x) < K.
Proof.
  intros Ht Hi (u & x & Hu & Hx).
  assert (Hlt : (t < length ths)%nat) by (by eapply lookup_lt_Some).
  destruct (decide (u = t)) as [->|Hne].
  - exists t, th'. rewrite list_lookup_insert_eq by done. split; [done|].
    simplify_eq. lia.
  - exists u, x. by rewrite list_lookup_insert_ne.
Qed.

(** A step that leaves the worker's locals and the shared variables as
    they are: a step inside a semaphore call, a wake-up, a return. *)
Lemma inv_frame (s : state (vars P)) t th th' sh :
  inv head tmp_ok K s -> threads s !! t = Some th ->
  local th' = local th -> (is_Some (ret th') -> i (local th) = K) ->
  glob sh = glob (shr s) ->
  inv head tmp_ok K {| shr := sh; threads := <[t := th']> (threads s) |}.
Proof.
  intros (Hc & Hone & Hlow & Hall) Ht Hloc Hret Hg.
  assert (Hlt : (t < length (threads s))%nat) by (by eapply lookup_lt_Some).
  assert (HF : written (<[t := th']> (threads s)) = written (threads s)).
  { rewrite (written_insert _ t th) by done. rewrite Hloc. lia. }
  unfold inv. cbn [shr threads]. rewrite HF, Hg.
  split; [done|]. split; [done|]. split.
  - intros HK Hne Hle. apply (unfinished_insert _ t th); [done|by rewrite Hloc|].
    apply Hlow; auto. intros Hnil. by rewrite Hnil in Ht.
  - intros u thu Hu. destruct (decide (u = t)) as [->|Hne].
    + rewrite list_lookup_insert_eq in Hu by done. simplify_eq.
      destruct (Hall t th Ht) as (H1 & H2 & H3 & H4).
      unfold loc_ok. rewrite Hloc.
      split; [done|]. split; [done|]. split; [done|]. done.
    + rewrite list_lookup_insert_ne in Hu by done. by apply (Hall u).
Qed.

(** A step of the worker's own code. *)
Lemma inv_local (s : state (vars P)) t th c' g' :
  inv head tmp_ok K s -> threads s !! t = Some th -> ret th = None ->
  i (local th) <= i c' ->
  0 <= counter g' <= written (threads s) - i (local th) + i c' ->
  (1 <= written (threads s) - i (local th) + i c' -> 1 <= counter g') ->
  (2 <= K -> counter g' <= 1 ->
     i c' < K \/ (counter g' = counter (glob (shr s)) /\ i c' = i (local th))) ->
  0 <= i c' <= K -> (pc c' <> head -> i c' < K) ->
  tmp_ok (written (threads s) - i (local th) + i c') c' ->
  inv head tmp_ok K {| shr := with_glob (shr s) g';
                       threads := <[t := with_local th c']> (threads s) |}.
Proof.
  intros (Hc & Hone & Hlow & Hall) Ht Hret Hi Hc' Hone' Hlow' Hi' Hpc' Htmp'.
  assert (Hlt : (t < length (threads s))%nat) by (by eapply lookup_lt_Some).
  assert (HF : written (<[t := with_local th c']> (threads s))
               = written (threads s) - i (local th) + i c').
  { by rewrite (written_insert _ t th). }
  unfold inv. cbn [shr threads with_glob glob]. rewrite HF.
  split; [done|]. split; [done|]. split.
  - intros HK Hne Hle. destruct (Hlow' HK Hle) as [Hlt'|[Hsame Hisame]].
    + exists t, (with_local th c'). by rewrite list_lookup_insert_eq.
    + apply (unfinished_insert _ t th); [done|done|].
      apply Hlow; auto; [|lia]. intros Hnil. by rewrite Hnil in Ht.
  - intros u thu Hu. destruct (decide (u = t)) as [->|Hne].
    + rewrite list_lookup_insert_eq in Hu by done. simplify_eq.
      unfold loc_ok. simpl. rewrite Hret.
      split; [done|]. split; [done|]. split; [by intros [? [=]]|]. done.
    + rewrite list_lookup_insert_ne in Hu by done.
      apply (loc_ok_mono (written (threads s))); [by apply (Hall u)|lia].
Qed.

Lemma inv_start W :
  0 <= K -> tmp_ok 0 (start head) -> inv head tmp_ok K (init 0 W (start head)).
Proof.
  intros HK Htmp.
  assert (HF : written (threads (init 0 W (start head))) = 0).
  { unfold written. rewrite (total_const _ _ 0); [lia|].
    intros t x Hx. simpl in Hx. rewrite list_lookup_fmap in Hx.
    destruct (replicate W _ !! t) as [c|] eqn:Hc; simplify_eq/=.
    by apply lookup_replicate in Hc as [-> _]. }
  unfold inv. rewrite HF.
  split; [simpl; lia|]. split; [lia|]. split.
  - intros H2 Hne _. destruct W as [|W]; [done|].
    exists 0%nat, (spawn (start head)). simpl. split; [done|lia].
  - intros u th Hu. simpl in Hu. rewrite list_lookup_fmap in Hu.
    destruct (replicate W _ !! u) as [c|] eqn:Hc; simplify_eq/=.
    apply lookup_replicate in Hc as [-> _].
    unfold loc_ok. simpl.
    split; [lia|]. split; [done|]. split; [by intros [? [=]]|]. done.
Qed.

(** What the invariant gives at the end. *)
Lemma inv_final (s : state (vars P)) :
  inv head tmp_ok K s -> 0 <= K ->
  0 <= counter (glob (shr s)) <= Z.of_nat (length (threads s)) * K /\
  (joined s = true -> threads s <> [] -> Z.min K 2 <= counter (glob (shr s))).
Proof.
  intros (Hc & Hone & Hlow & Hall) HK. split.
  - split; [lia|]. etrans; [apply Hc|]. apply total_le.
    intros t x Hx. by apply (Hall t x Hx).
  - intros Hj Hne.
    assert (HF : written (threads s) = Z.of_nat (length (threads s)) * K).
    { apply total_const. intros t x Hx. apply (Hall t x Hx). by eapply joined_ret. }
    assert (Hlen : 1 <= Z.of_nat (length (threads s))).
    { destruct (threads s); [done|simpl; lia]. }
    destruct (decide (K <= 0)) as [|HK1]; [lia|].
    assert (1 <= counter (glob (shr s))) by (apply Hone; nia).
    destruct (decide (K = 1)) as [|HK2]; [lia|].
    destruct (decide (counter (glob (shr s)) <= 1)) as [Hle|]; [|lia].
    destruct (Hlow ltac:(lia) Hne Hle) as (u & x & Hu & Hx).
    destruct (Hall u x Hu) as (_ & _ & Hret & _).
    rewrite Hret in Hx; [lia|]. by eapply joined_ret.
Qed.

End BoundsFacts.

Lemma amp_tmp_mono F F' c : amp_tmp F c -> F <= F' -> amp_tmp F' c.
Proof. unfold amp_tmp. destruct (pc c); intros; try done; lia. Qed.

Lemma naive_tmp_mono F F' c : naive_tmp F c -> F <= F' -> naive_tmp F' c.
Proof. unfold naive_tmp. destruct (pc c); intros; try done; lia. Qed.

Ltac side_conditions :=
  solve [ done | lia | intros; lia | intros; right; lia | intros; left; lia
        | intros; congruence ].

Lemma amp_inv_micro K s s' :
  0 <= K <= INT_MAX -> Z.of_nat (length (threads s)) * K <= LONG_MAX ->
  inv ARead amp_tmp K s -> micro (inc_no_lock K) s s' -> inv ARead amp_tmp K s'.
Proof.
  intros HK HW Hinv Hmic.
  destruct Hmic as [t b th sh th' Ht Hs ->|u tu Hu Hb ->].
  - pose proof Hinv as (Hc & Hone & Hlow & Hall).
    pose proof (Hall t th Ht) as (Hi & Hpc & Hret & Htmp).
    pose proof (written_ge K (threads s) t th
                  (fun u x Hx => proj1 (Hall u x Hx)) Ht) as HF.
    unfold thread_step in Hs. destruct (ret th) eqn:Hr; [done|].
    destruct (spc th) as [|w|p] eqn:Hspc.
    + unfold inc_no_lock, amp_tmp in *.
      destruct th as [[p j x] sp r rt]. simpl in *.
      destruct p; simpl in *; try specialize (Hpc ltac:(done));
        try (destruct (j <? K) eqn:Hlt); simplify_eq/=; bool_facts;
        rewrite ?wrap_long_id by (unfold LONG_MAX, INT_MAX in *; lia);
        rewrite ?wrap_int_id by (unfold LONG_MAX, INT_MAX in *; lia).
      2: { apply (inv_frame ARead amp_tmp K s t _ _ _ Hinv Ht); try done. simpl. lia. }
      all: apply (inv_local ARead amp_tmp K amp_tmp_mono s t _ _ _ Hinv Ht eq_refl);
        unfold amp_tmp; simpl;
        rewrite ?wrap_int_id by (unfold LONG_MAX, INT_MAX in *; lia); side_conditions.
    + destruct (semc_wait _ _ _ _) as [[[w' r] sm]|]; simplify_eq/=.
      apply (inv_frame ARead amp_tmp K s t th); try done. simpl. rewrite Hr. by intros [? [=]].
    + destruct (semc_post _ _ _ _ _) as [[[p' r] sm]|]; simplify_eq/=.
      apply (inv_frame ARead amp_tmp K s t th); try done. simpl. rewrite Hr. by intros [? [=]].
  - destruct s as [sh ths]. apply (inv_frame ARead amp_tmp K _ u tu); try done.
    simpl. intros Hret. by apply (proj2 (proj2 (proj2 Hinv)) u tu Hu).
Qed.

Lemma naive_inv_micro K s s' :
  0 <= K <= INT_MAX -> Z.of_nat (length (threads s)) * K <= LONG_MAX ->
  inv NLoad naive_tmp K s -> micro (increment_without_lock K) s s' ->
  inv NLoad naive_tmp K s'.
Proof.
  intros HK HW Hinv Hmic.
  destruct Hmic as [t b th sh th' Ht Hs ->|u tu Hu Hb ->].
  - pose proof Hinv as (Hc & Hone & Hlow & Hall).
    pose proof (Hall t th Ht) as (Hi & Hpc & Hret & Htmp).
    pose proof (written_ge K (threads s) t th
                  (fun u x Hx => proj1 (Hall u x Hx)) Ht) as HF.
    unfold thread_step in Hs. destruct (ret th) eqn:Hr; [done|].
    destruct (spc th) as [|w|p] eqn:Hspc.
    + unfold increment_without_lock, naive_tmp in *.
      destruct th as [[p j x] sp r rt]. simpl in *.
      destruct p; simpl in *; try specialize (Hpc ltac:(done));
        try (destruct (j <? K) eqn:Hlt); simplify_eq/=; bool_facts;
        rewrite ?wrap_long_id by (unfold LONG_MAX, INT_MAX in *; lia);
        rewrite ?wrap_int_id by (unfold LONG_MAX, INT_MAX in *; lia).
      2: { apply (inv_frame NLoad naive_tmp K s t _ _ _ Hinv Ht); try done. simpl. lia. }
      all: apply (inv_local NLoad naive_tmp K naive_tmp_mono s t _ _ _ Hinv Ht eq_refl);
        unfold naive_tmp; simpl;
        rewrite ?wrap_int_id by (unfold LONG_MAX, INT_MAX in *; lia);
        rewrite ?wrap_long_id by (unfold LONG_MAX, INT_MAX in *; lia); side_conditions.
    + destruct (semc_wait _ _ _ _) as [[[w' r] sm]|]; simplify_eq/=.
      apply (inv_frame NLoad naive_tmp K s t th); try done. simpl. rewrite Hr. by intros [? [=]].
    + destruct (semc_post _ _ _ _ _) as [[[p' r] sm]|]; simplify_eq/=.
      apply (inv_frame NLoad naive_tmp K s t th); try done. simpl. rewrite Hr. by intros [? [=]].
  - destruct s as [sh ths]. apply (inv_frame NLoad naive_tmp K _ u tu); try done.
    simpl. intros Hret. by apply (proj2 (proj2 (proj2 Hinv)) u tu Hu).
Qed.

(** *** Programs that never call the semaphore *)

Section NoSemaphore.
Context {C : Type} (prog : globals -> C -> action C).

Definition no_sem (a : action C) : Prop :=
  match a with
  | AWait _ | APost _ => False
  | _ => True
  end.

Hypothesis prog_no_sem : forall g c, no_sem (prog g c).

Definition all_running (s : state C) : Prop :=
  forall u th, threads s !! u = Some th -> spc th = Running.

Lemma all_running_micro (s s' : state C) :
  all_running s -> micro prog s s' -> all_running s'.
Proof.
  intros Hall Hmic. destruct Hmic as [t b th sh th' Ht Hs ->|u tu Hu Hb ->].
  - intros u thu Hu. split_thread u t Hu; [|by eapply Hall].
    pose proof (Hall t th Ht) as Hspc.
    pose proof (prog_no_sem (glob (shr s)) (local th)) as Hno.
    unfold thread_step in Hs. rewrite Hspc in Hs.
    destruct (ret th); [done|].
    destruct (prog (glob (shr s)) (local th)); simplify_eq/=; try done.
    by destruct (pthread_mutex_lock t (lock (shr s))); simplify_eq/=.
  - pose proof (Hall u tu Hu) as Hspc. unfold blocked in Hb. by rewrite Hspc in Hb.
Qed.

Lemma all_running_run permits (cs : list C) sched s :
  run prog sched (start_state permits cs) = Some s -> all_running s.
Proof.
  apply (invariant_run prog all_running).
  - intros s1 s2. apply all_running_micro.
  - intros u th Hu. simpl in Hu. rewrite list_lookup_fmap in Hu.
    by destruct (cs !! u); simplify_eq/=.
Qed.

Lemma all_running_no_waiter (ths : list (thread C)) :
  (forall u th, ths !! u = Some th -> spc th = Running) -> has_waiter ths = false.
Proof.
  intros Hall. unfold has_waiter. apply not_true_is_false.
  intros (x & Hx & Hb)%existsb_exists. apply list_elem_of_In in Hx.
  apply list_elem_of_lookup in Hx as [u Hu].
  unfold blocked in Hb. by rewrite (Hall u x Hu) in Hb.
Qed.

End NoSemaphore.

Lemma joined_all {C : Type} (s : state C) :
  Forall (fun th => is_Some (ret th)) (threads s) -> joined s = true.
Proof.
  intros Hall. unfold joined. apply forallb_forall. intros x Hx.
  apply list_elem_of_In in Hx. rewrite Forall_forall in Hall.
  by destruct (Hall x Hx) as [v ->].
Qed.

Lemma amp_no_sem K g c : no_sem (inc_no_lock K g c).
Proof. unfold inc_no_lock. destruct (pc c); try done. by destruct (i c <? K). Qed.

Lemma naive_no_sem K g c : no_sem (increment_without_lock K g c).
Proof. unfold increment_without_lock. destruct (pc c); try done. by destruct (i c <? K). Qed.

(** *** Runs of read-modify-write workers, one worker at a time *)

Section Rmw.
Context {P : Type} (prog : globals -> vars P -> action (vars P)).
Variable head : P.
(** [mid th j x]: worker [th] is in iteration [j], past its read of the
    counter, which gave [x]. *)
Variable mid : thread (vars P) -> Z -> Z -> Prop.
(** The steps from the head of the loop to the read, and from there to
    the head of the loop again. *)
Variable nr nw : nat.
Variable K : Z.

Definition ready (th : thread (vars P)) : Prop :=
  ret th = None /\ spc th = Running /\ pc (local th) = head /\ 0 <= i (local th) <= K.

Hypothesis read_step : forall t sh th,
  ready th -> i (local th) < K ->
  exists th1, solo prog nr t sh th = Some (sh, th1) /\
    mid th1 (i (local th)) (counter (glob sh)).
Hypothesis write_step : forall t sh th j x,
  mid th j x -> 0 <= j < K -> 0 <= x < LONG_MAX ->
  exists th2,
    solo prog nw t sh th = Some (with_glob sh (set_counter (glob sh) (x + 1)), th2) /\
    ready th2 /\ i (local th2) = j + 1.
Hypothesis return_step : forall t sh th,
  ready th -> i (local th) = K ->
  exists th3, solo prog 1 t sh th = Some (sh, th3) /\ is_Some (ret th3) /\ spc th3 = Running.
Hypothesis mid_awake : forall th j x, mid th j x -> spc th = Running.
Hypothesis prog_no_sem : forall g c, no_sem (prog g c).

Lemma rmw_iterations (n : nat) : forall t sh th,
  ready th -> i (local th) + Z.of_nat n <= K ->
  0 <= counter (glob sh) -> counter (glob sh) + Z.of_nat n <= LONG_MAX ->
  exists sh' th',
    solo prog (n * (nr + nw)) t sh th = Some (sh', th') /\
    ready th' /\ i (local th') = i (local th) + Z.of_nat n /\
    counter (glob sh') = counter (glob sh) + Z.of_nat n.
Proof.
  induction n as [|n IH]; intros t sh th Hr Hi Hc Hb.
  - exists sh, th. simpl. split; [done|]. split; [done|]. lia.
  - pose proof Hr as (_ & _ & _ & Hi0).
    destruct (read_step t sh th Hr ltac:(lia)) as (th1 & Hs1 & Hmid).
    destruct (write_step t sh th1 _ _ Hmid ltac:(lia) ltac:(lia)) as (th2 & Hs2 & Hr2 & Hi2).
    destruct (IH t (with_glob sh (set_counter (glob sh) (counter (glob sh) + 1))) th2 Hr2)
      as (sh' & th' & Hs3 & Hr' & Hi' & Hc'); [simpl; lia..|].
    exists sh', th'.
    replace (S n * (nr + nw))%nat with (nr + (nw + n * (nr + nw)))%nat by lia.
    rewrite solo_app, Hs1, solo_app, Hs2, Hs3. simpl in Hc'.
    split; [done|]. split; [done|]. lia.
Qed.

Lemma rmw_complete t sh th :
  ready th -> 0 <= counter (glob sh) ->
  counter (glob sh) + (K - i (local th)) <= LONG_MAX ->
  exists n sh' th',
    solo prog n t sh th = Some (sh', th') /\ is_Some (ret th') /\ spc th' = Running /\
    counter (glob sh') = counter (glob sh) + (K - i (local th)).
Proof.
  intros Hr Hc Hb. pose proof Hr as (_ & _ & _ & Hi0).
  destruct (rmw_iterations (Z.to_nat (K - i (local th))) t sh th Hr)
    as (sh1 & th1 & Hs1 & Hr1 & Hi1 & Hc1); try lia.
  destruct (return_step t sh1 th1 Hr1 ltac:(lia)) as (th3 & Hs3 & Hret & Hspc).
  exists (Z.to_nat (K - i (local th)) * (nr + nw) + 1)%nat, sh1, th3.
  rewrite solo_app, Hs1, Hs3. split; [done|]. split; [done|]. split; [done|]. lia.
Qed.

Lemma rmw_complete_rest (rest pre : list (thread (vars P))) sh :
  0 <= K -> 0 <= counter (glob sh) ->
  counter (glob sh) + Z.of_nat (length rest) * K <= LONG_MAX ->
  has_waiter pre = false ->
  (forall x, x ∈ rest -> ready x /\ i (local x) = 0) ->
  exists sched s',
    run prog sched {| shr := sh; threads := pre ++ rest |} = Some s' /\
    counter (glob (shr s')) = counter (glob sh) + Z.of_nat (length rest) * K /\
    exists rest', threads s' = pre ++ rest' /\
      Forall (fun th => is_Some (ret th)) rest'.
Proof.
  intros HK Hc Hb Hw Hrest.
  assert (Htot : total (left_over (fun th => K - i (local th))) rest
                 = Z.of_nat (length rest) * K).
  { apply total_const. intros t x Hx. apply list_elem_of_lookup_2 in Hx.
    destruct (Hrest x Hx) as [(Hret & _) Hi]. unfold left_over. rewrite Hret. lia. }
  destruct (complete_from prog (fun _ => True) ready (fun sh => counter (glob sh))
              (fun th => K - i (local th)) LONG_MAX) with (rest := rest) (pre := pre) (sh := sh)
    as (sched & s' & Hrun & _ & Hval & rest' & Hths & _ & Hdone); auto.
  - intros th (_ & _ & _ & Hi). lia.
  - intros t sh0 th Hq Hr Hv Hbound.
    destruct (rmw_complete t sh0 th Hr Hv Hbound) as (n & sh' & th' & Hs & Hret & _ & Hc').
    by exists n, sh', th'.
  - rewrite Htot. lia.
  - apply Forall_forall. intros x Hx. destruct (Hrest x Hx) as [Hr _].
    split; [|done]. unfold blocked. destruct Hr as (_ & -> & _). done.
  - exists sched, s'. split; [done|]. split; [lia|]. by exists rest'.
Qed.

Lemma ready_spawn : 0 <= K -> ready (spawn (start head)) /\ i (local (spawn (start head))) = 0.
Proof. intros HK. unfold ready. simpl. split; [|done]. split_and!; auto; lia. Qed.

Lemma ready_spawns W x :
  0 <= K -> x ∈ map spawn (replicate W (start head)) -> ready x /\ i (local x) = 0.
Proof.
  intros HK Hx. apply list_elem_of_fmap in Hx as (c & -> & Hc).
  apply elem_of_replicate_inv in Hc as ->. by apply ready_spawn.
Qed.

(** Some run takes every worker to its return with all [W * K]
    increments in the counter. *)
Lemma rmw_exact_run W :
  0 <= K -> Z.of_nat W * K <= LONG_MAX ->
  exists sched s,
    run prog sched (init 0 W (start head)) = Some s /\ joined s = true /\
    counter (glob (shr s)) = Z.of_nat W * K.
Proof.
  intros HK Hfit.
  destruct (rmw_complete_rest (map spawn (replicate W (start head))) []
              (shr (init 0 W (start head))))
    as (sched & s & Hrun & Hc & rest' & Hths & Hdone); auto.
  - simpl. lia.
  - simpl. rewrite length_map, length_replicate. lia.
  - intros x. by apply ready_spawns.
  - exists sched, s. split; [done|]. split.
    + unfold joined. rewrite Hths. simpl. apply forallb_forall. intros x Hx.
      apply list_elem_of_In in Hx. rewrite Forall_forall in Hdone.
      by destruct (Hdone x Hx) as [v ->].
    + rewrite Hc. simpl. rewrite length_map, length_replicate. lia.
Qed.

Lemma run_first n sh (a b : thread (vars P)) l sh' a' :
  spc a = Running -> spc b = Running -> has_waiter l = false ->
  solo prog n 0 sh a = Some (sh', a') ->
  run prog (repeat (Step 0%nat) n) {| shr := sh; threads := a :: b :: l |}
    = Some {| shr := sh'; threads := a' :: b :: l |}.
Proof.
  intros Ha Hb Hl Hs.
  destruct (run_solo prog n 0 {| shr := sh; threads := a :: b :: l |} a sh' a')
    as [Hrun _]; try done.
  unfold has_waiter, blocked in *. simpl. by rewrite Ha, Hb.
Qed.

Lemma run_second n sh (a b : thread (vars P)) l sh' b' :
  spc a = Running -> spc b = Running -> has_waiter l = false ->
  solo prog n 1 sh b = Some (sh', b') ->
  run prog (repeat (Step 1%nat) n) {| shr := sh; threads := a :: b :: l |}
    = Some {| shr := sh'; threads := a :: b' :: l |}.
Proof.
  intros Ha Hb Hl Hs.
  destruct (run_solo prog n 1 {| shr := sh; threads := a :: b :: l |} b sh' b')
    as [Hrun _]; try done.
  unfold has_waiter, blocked in *. simpl. by rewrite Ha, Hb.
Qed.

(** The lowest result. The first worker reads 0; the workers from the
    third on run to their end and the second runs all its iterations but
    the last; the first writes 1; the second reads 1; the first runs to
    its end; the second writes 2 and returns. *)
Lemma rmw_low_run W :
  2 <= K -> (2 <= W)%nat -> Z.of_nat W * K <= LONG_MAX ->
  exists sched s,
    run prog sched (init 0 W (start head)) = Some s /\ joined s = true /\
    counter (glob (shr s)) = 2.
Proof.
  intros HK HW Hfit. destruct W as [|[|W]]; try lia.
  set (c0 := start head). set (rest := map spawn (replicate W c0)).
  set (sh0 := shr (init 0 (S (S W)) c0)).
  assert (Hinit : init 0 (S (S W)) c0
                  = {| shr := sh0; threads := spawn c0 :: spawn c0 :: rest |}) by reflexivity.
  destruct (ready_spawn ltac:(lia)) as [Hr0 Hi0]. fold c0 in Hr0, Hi0.
  assert (Hlen : Z.of_nat (length rest) = Z.of_nat W).
  { unfold rest. by rewrite length_map, length_replicate. }
  assert (Hwrest : has_waiter rest = false).
  { apply all_running_no_waiter. intros u th Hu. unfold rest in Hu.
    rewrite list_lookup_fmap in Hu. by destruct (_ !! u); simplify_eq/=. }
  (* the first worker reads 0 *)
  destruct (read_step 0 sh0 (spawn c0) Hr0 ltac:(simpl; lia)) as (a1 & Hs1 & Hmid1).
  change (mid a1 0 0) in Hmid1.
  pose proof (mid_awake _ _ _ Hmid1) as Ha1.
  pose proof (run_first nr sh0 (spawn c0) (spawn c0) rest sh0 a1 eq_refl eq_refl Hwrest Hs1) as Hrun1.
  (* the workers from the third on run to their end *)
  destruct (rmw_complete_rest rest [a1; spawn c0] sh0)
    as (sched2 & s2 & Hrun2 & Hc2 & rest2 & Hths2 & Hdone2).
  { lia. } { simpl. lia. } { simpl. nia. }
  { unfold has_waiter, blocked. simpl. by rewrite Ha1. }
  { intros x. apply ready_spawns. lia. }
  destruct s2 as [sh2 ths2]. simpl in Hths2, Hc2, Hrun2. subst ths2.
  assert (Hc2' : counter (glob sh2) = Z.of_nat W * K) by lia.
  assert (Hw2 : has_waiter rest2 = false).
  { apply all_running_no_waiter. intros u th Hu.
    assert (Hall : all_running {| shr := sh2; threads := a1 :: spawn c0 :: rest2 |}).
    { apply (all_running_run prog prog_no_sem 0 (replicate (S (S W)) c0)
               (repeat (Step 0%nat) nr ++ sched2)).
      fold (init 0 (S (S W)) c0). rewrite Hinit, run_app, Hrun1. exact Hrun2. }
    apply (Hall (S (S u)) th Hu). }
  (* the second worker runs all its iterations but the last *)
  destruct (rmw_iterations (Z.to_nat (K - 1)) 1 sh2 (spawn c0) Hr0)
    as (sh3 & b3 & Hs3 & Hr3 & Hi3 & Hc3).
  { simpl. lia. } { lia. } { nia. }
  simpl in Hi3.
  pose proof Hr3 as (_ & Hb3 & _).
  pose proof (run_second _ sh2 a1 (spawn c0) rest2 _ _ Ha1 eq_refl Hw2 Hs3) as Hrun3.
  (* the first worker writes 1 *)
  destruct (write_step 0 sh3 a1 0 0 Hmid1) as (a4 & Hs4 & Hr4 & Hi4).
  { lia. } { unfold LONG_MAX. lia. }
  set (sh4 := with_glob sh3 (set_counter (glob sh3) (0 + 1))) in *.
  pose proof Hr4 as (_ & Ha4 & _).
  pose proof (run_first _ sh3 a1 b3 rest2 _ _ Ha1 Hb3 Hw2 Hs4) as Hrun4.
  (* the second worker reads 1 *)
  destruct (read_step 1 sh4 b3 Hr3 ltac:(lia)) as (b5 & Hs5 & Hmid5).
  change (counter (glob sh4)) with (0 + 1) in Hmid5.
  pose proof (mid_awake _ _ _ Hmid5) as Hb5.
  pose proof (run_second _ sh4 a4 b3 rest2 _ _ Ha4 Hb3 Hw2 Hs5) as Hrun5.
  (* the first worker runs to its end *)
  destruct (rmw_complete 0 sh4 a4 Hr4) as (n6 & sh6 & a6 & Hs6 & Hret6 & Ha6 & Hc6).
  { simpl. lia. } { simpl. unfold LONG_MAX, INT_MAX in *. nia. }
  change (counter (glob sh4)) with (0 + 1) in Hc6.
  pose proof (run_first _ sh4 a4 b5 rest2 _ _ Ha4 Hb5 Hw2 Hs6) as Hrun6.
  (* the second worker writes 2 and returns *)
  destruct (write_step 1 sh6 b5 _ _ Hmid5) as (b7 & Hs7 & Hr7 & Hi7).
  { lia. } { unfold LONG_MAX. lia. }
  set (sh7 := with_glob sh6 (set_counter (glob sh6) (0 + 1 + 1))) in *.
  pose proof Hr7 as (_ & Hb7 & _).
  pose proof (run_second _ sh6 a6 b5 rest2 _ _ Ha6 Hb5 Hw2 Hs7) as Hrun7.
  destruct (return_step 1 sh7 b7 Hr7 ltac:(lia)) as (b8 & Hs8 & Hret8 & Hb8).
  pose proof (run_second _ sh7 a6 b7 rest2 _ _ Ha6 Hb7 Hw2 Hs8) as Hrun8.
  eexists (repeat (Step 0%nat) nr ++ sched2 ++ repeat (Step 1%nat) _
           ++ repeat (Step 0%nat) nw ++ repeat (Step 1%nat) nr
           ++ repeat (Step 0%nat) n6 ++ repeat (Step 1%nat) nw
           ++ repeat (Step 1%nat) 1),
          {| shr := sh7; threads := a6 :: b8 :: rest2 |}.
  split.
  - rewrite Hinit, run_app, Hrun1; cbv beta iota.
    rewrite run_app, Hrun2; cbv beta iota.
    rewrite run_app, Hrun3; cbv beta iota.
    rewrite run_app, Hrun4; cbv beta iota.
    rewrite run_app, Hrun5; cbv beta iota.
    rewrite run_app, Hrun6; cbv beta iota.
    rewrite run_app, Hrun7; cbv beta iota.
    exact Hrun8.
  - split; [|done]. apply joined_all. simpl.
    apply Forall_cons; split; [done|]. apply Forall_cons; split; [done|]. done.
Qed.

(** With one iteration each: the first worker reads 0, the others run to
    their end, the first writes 1 and returns. *)
Lemma rmw_low_run_one W :
  K = 1 -> (2 <= W)%nat -> Z.of_nat W * K <= LONG_MAX ->
  exists sched s,
    run prog sched (init 0 W (start head)) = Some s /\ joined s = true /\
    counter (glob (shr s)) = 1.
Proof.
  intros HK HW Hfit. destruct W as [|[|W]]; try lia.
  set (c0 := start head). set (rest := map spawn (replicate W c0)).
  set (sh0 := shr (init 0 (S (S W)) c0)).
  assert (Hinit : init 0 (S (S W)) c0
                  = {| shr := sh0; threads := [spawn c0] ++ spawn c0 :: rest |}) by reflexivity.
  destruct (ready_spawn ltac:(lia)) as [Hr0 Hi0]. fold c0 in Hr0, Hi0.
  assert (Hwrest : has_waiter rest = false).
  { apply all_running_no_waiter. intros u th Hu. unfold rest in Hu.
    rewrite list_lookup_fmap in Hu. by destruct (_ !! u); simplify_eq/=. }
  destruct (read_step 0 sh0 (spawn c0) Hr0 ltac:(simpl; lia)) as (a1 & Hs1 & Hmid1).
  change (mid a1 0 0) in Hmid1.
  pose proof (mid_awake _ _ _ Hmid1) as Ha1.
  pose proof (run_first nr sh0 (spawn c0) (spawn c0) rest sh0 a1 eq_refl eq_refl Hwrest Hs1) as Hrun1.
  destruct (rmw_complete_rest (spawn c0 :: rest) [a1] sh0)
    as (sched2 & s2 & Hrun2 & Hc2 & rest2 & Hths2 & Hdone2).
  { lia. } { simpl. lia. }
  { simpl length. unfold rest. rewrite length_map, length_replicate. simpl. nia. }
  { unfold has_waiter, blocked. simpl. by rewrite Ha1. }
  { intros x Hx. apply (ready_spawns (S W)); [lia|]. exact Hx. }
  destruct s2 as [sh2 ths2]. simpl in Hths2, Hc2, Hrun2. subst ths2.
  assert (Hw2 : has_waiter (a1 :: rest2) = false).
  { apply all_running_no_waiter.
    change (all_running {| shr := sh2; threads := a1 :: rest2 |}).
    apply (all_running_run prog prog_no_sem 0 (replicate (S (S W)) c0)
             (repeat (Step 0%nat) nr ++ sched2)).
    fold (init 0 (S (S W)) c0). rewrite Hinit, run_app. simpl app.
    rewrite Hrun1. exact Hrun2. }
  destruct (write_step 0 sh2 a1 0 0 Hmid1) as (a4 & Hs4 & Hr4 & Hi4).
  { lia. } { unfold LONG_MAX. lia. }
  set (sh4 := with_glob sh2 (set_counter (glob sh2) (0 + 1))) in *.
  destruct (return_step 0 sh4 a4 Hr4 ltac:(lia)) as (a5 & Hs5 & Hret5 & Ha5).
  assert (Hs45 : solo prog (nw + 1) 0 sh2 a1 = Some (sh4, a5)).
  { by rewrite solo_app, Hs4. }
  destruct (run_solo prog (nw + 1) 0 {| shr := sh2; threads := a1 :: rest2 |} a1 sh4 a5)
    as [Hrun4 _]; try done.
  simpl in Hrun4.
  exists (repeat (Step 0%nat) nr ++ sched2 ++ repeat (Step 0%nat) (nw + 1)),
         {| shr := sh4; threads := a5 :: rest2 |}.
  split.
  - rewrite Hinit, run_app. simpl app. rewrite Hrun1; cbv beta iota.
    rewrite run_app, Hrun2; cbv beta iota. exact Hrun4.
  - split; [|done]. apply joined_all. simpl. apply Forall_cons; split; done.
Qed.

End Rmw.

Definition amp_mid (th : thread (vars amp_pc)) (j x : Z) : Prop :=
  ret th = None /\ spc th = Running /\ local th = {| pc := AYield1; i := j; tmp := x |}.

Definition naive_mid (th : thread (vars naive_pc)) (j x : Z) : Prop :=
  ret th = None /\ spc th = Running /\ local th = {| pc := NStore; i := j; tmp := x |}.

Lemma amp_read_step K t sh th :
  ready ARead K th -> i (local th) < K ->
  exists th1, solo (inc_no_lock K) 1 t sh th = Some (sh, th1) /\
    amp_mid th1 (i (local th)) (counter (glob sh)).
Proof.
  destruct sh as [g lk sm], th as [[p j x] sp r rt]. unfold ready. simpl.
  intros (-> & -> & -> & Hj) Hlt. assert (Hlt' : (j <? K) = true) by lia.
  unfold solo, thread_step, inc_no_lock. simpl. rewrite Hlt'. simpl.
  eexists. split; [reflexivity|]. done.
Qed.

Lemma amp_write_step K t sh th j x :
  K <= INT_MAX ->
  amp_mid th j x -> 0 <= j < K -> 0 <= x < LONG_MAX ->
  exists th2,
    solo (inc_no_lock K) 5 t sh th
      = Some (with_glob sh (set_counter (glob sh) (x + 1)), th2) /\
    ready ARead K th2 /\ i (local th2) = j + 1.
Proof.
  destruct sh as [g lk sm], th as [c sp r rt]. unfold amp_mid. simpl.
  intros HK (-> & -> & ->) Hj Hx.
  unfold solo, thread_step, inc_no_lock. simpl.
  eexists. split; [|split].
  - unfold next_iter, load_tmp, goto, with_local, with_glob. simpl.
    rewrite ?wrap_long_id by (unfold LONG_MAX in *; lia). reflexivity.
  - unfold ready. simpl. rewrite wrap_int_id by (unfold INT_MAX in *; lia).
    split_and!; auto; lia.
  - simpl. rewrite wrap_int_id by (unfold INT_MAX in *; lia). done.
Qed.

Lemma amp_return_step K t sh th :
  ready ARead K th -> i (local th) = K ->
  exists th3, solo (inc_no_lock K) 1 t sh th = Some (sh, th3) /\
    is_Some (ret th3) /\ spc th3 = Running.
Proof.
  destruct sh as [g lk sm], th as [[p j x] sp r rt]. unfold ready. simpl.
  intros (-> & -> & -> & Hj) Hlt. assert (Hlt' : (j <? K) = false) by lia.
  unfold solo, thread_step, inc_no_lock. simpl. rewrite Hlt'. simpl.
  eexists. split; [reflexivity|]. simpl. split; [by eexists|done].
Qed.

Lemma naive_read_step K t sh th :
  ready NLoad K th -> i (local th) < K ->
  exists th1, solo (increment_without_lock K) 1 t sh th = Some (sh, th1) /\
    naive_mid th1 (i (local th)) (counter (glob sh)).
Proof.
  destruct sh as [g lk sm], th as [[p j x] sp r rt]. unfold ready. simpl.
  intros (-> & -> & -> & Hj) Hlt. assert (Hlt' : (j <? K) = true) by lia.
  unfold solo, thread_step, increment_without_lock. simpl. rewrite Hlt'. simpl.
  eexists. split; [reflexivity|]. done.
Qed.

Lemma naive_write_step K t sh th j x :
  K <= INT_MAX ->
  naive_mid th j x -> 0 <= j < K -> 0 <= x < LONG_MAX ->
  exists th2,
    solo (increment_without_lock K) 1 t sh th
      = Some (with_glob sh (set_counter (glob sh) (x + 1)), th2) /\
    ready NLoad K th2 /\ i (local th2) = j + 1.
Proof.
  destruct sh as [g lk sm], th as [c sp r rt]. unfold naive_mid. simpl.
  intros HK (-> & -> & ->) Hj Hx.
  unfold solo, thread_step, increment_without_lock. simpl.
  eexists. split; [|split].
  - unfold next_iter, load_tmp, goto, with_local, with_glob. simpl.
    rewrite ?wrap_long_id by (unfold LONG_MAX in *; lia). reflexivity.
  - unfold ready. simpl. rewrite wrap_int_id by (unfold INT_MAX in *; lia).
    split_and!; auto; lia.
  - simpl. rewrite wrap_int_id by (unfold INT_MAX in *; lia). done.
Qed.

Lemma naive_return_step K t sh th :
  ready NLoad K th -> i (local th) = K ->
  exists th3, solo (increment_without_lock K) 1 t sh th = Some (sh, th3) /\
    is_Some (ret th3) /\ spc th3 = Running.
Proof.
  destruct sh as [g lk sm], th as [[p j x] sp r rt]. unfold ready. simpl.
  intros (-> & -> & -> & Hj) Hlt. assert (Hlt' : (j <? K) = false) by lia.
  unfold solo, thread_step, increment_without_lock. simpl. rewrite Hlt'. simpl.
  eexists. split; [reflexivity|]. simpl. split; [by eexists|done].
Qed.

(** Without synchronisation the counter is never above the number of
    increments made, [W * K] at most; once all workers are joined it is
    at least 2 (at least 1 when [K = 1]): for the three workers
    [inc_no_lock] (w6), [increment_without_lock_stressed] and
    [increment_without_lock] (w3). *)
Theorem unsync_counter_bounds (K : Z) (W : nat) :
  0 <= K <= INT_MAX -> Z.of_nat W <= INT_MAX ->
  (forall sched s,
     run (inc_no_lock K) sched (init 0 W (start ARead)) = Some s ->
     0 <= counter (glob (shr s)) <= Z.of_nat W * K /\
     (joined s = true -> (1 <= W)%nat -> Z.min K 2 <= counter (glob (shr s)))) /\
  (forall sched s,
     run (increment_without_lock_stressed K) sched (init 0 W (start ARead)) = Some s ->
     0 <= counter (glob (shr s)) <= Z.of_nat W * K /\
     (joined s = true -> (1 <= W)%nat -> Z.min K 2 <= counter (glob (shr s)))) /\
  (forall sched s,
     run (increment_without_lock K) sched (init 0 W (start NLoad)) = Some s ->
     0 <= counter (glob (shr s)) <= Z.of_nat W * K /\
     (joined s = true -> (1 <= W)%nat -> Z.min K 2 <= counter (glob (shr s)))).
Proof.
  intros HK HW. pose proof (CounterFacts.product_fits K W HK HW) as Hfit.
  assert (Hamp : forall sched s,
     run (inc_no_lock K) sched (init 0 W (start ARead)) = Some s ->
     0 <= counter (glob (shr s)) <= Z.of_nat W * K /\
     (joined s = true -> (1 <= W)%nat -> Z.min K 2 <= counter (glob (shr s)))).
  { intros sched s Hrun.
    assert (Hinv : length (threads s) = W /\ inv ARead amp_tmp K s).
    { revert Hrun.
      apply (invariant_run _ (fun s => length (threads s) = W /\ inv ARead amp_tmp K s)).
      - intros s1 s2 [Hlen Hi] Hm. split.
        + by rewrite (micro_length _ _ _ Hm).
        + eapply amp_inv_micro; eauto. by rewrite Hlen.
      - split; [simpl; by rewrite length_map, length_replicate|].
        apply inv_start; [lia|done]. }
    destruct Hinv as [Hlen Hinv].
    destruct (inv_final ARead amp_tmp K s Hinv ltac:(lia)) as [Hle Hlow].
    rewrite Hlen in Hle. split; [done|]. intros Hj HW1. apply Hlow; [done|].
    intros Hnil. rewrite Hnil in Hlen. simpl in Hlen. lia. }
  split; [exact Hamp|]. split; [exact Hamp|].
  intros sched s Hrun.
  assert (Hinv : length (threads s) = W /\ inv NLoad naive_tmp K s).
  { revert Hrun.
    apply (invariant_run _ (fun s => length (threads s) = W /\ inv NLoad naive_tmp K s)).
    - intros s1 s2 [Hlen Hi] Hm. split.
      + by rewrite (micro_length _ _ _ Hm).
      + eapply naive_inv_micro; eauto. by rewrite Hlen.
    - split; [simpl; by rewrite length_map, length_replicate|].
      apply inv_start; [lia|done]. }
  destruct Hinv as [Hlen Hinv].
  destruct (inv_final NLoad naive_tmp K s Hinv ltac:(lia)) as [Hle Hlow].
  rewrite Hlen in Hle. split; [done|]. intros Hj HW1. apply Hlow; [done|].
  intros Hnil. rewrite Hnil in Hlen. simpl in Hlen. lia.
Qed.

Lemma unsync_counter_bounds_witness :
  0 <= 3 <= INT_MAX /\ Z.of_nat 2 <= INT_MAX /\
  forall sched s,
    run (increment_without_lock 3) sched (init 0 2 (start NLoad)) = Some s ->
    0 <= counter (glob (shr s)) <= Z.of_nat 2 * 3 /\
    (joined s = true -> (1 <= 2)%nat -> Z.min 3 2 <= counter (glob (shr s))).
Proof.
  assert (H1 : 0 <= 3 <= INT_MAX) by (unfold INT_MAX; lia).
  assert (H2 : Z.of_nat 2 <= INT_MAX) by (unfold INT_MAX; lia).
  split; [exact H1|]. split; [exact H2|].
  exact (proj2 (proj2 (unsync_counter_bounds 3 2 H1 H2))).
Defined.

(** Both ends of that range are reached: with two workers or more, some
    interleaving runs every worker to its end and leaves all [W * K]
    increments in the counter, and some interleaving leaves 2 (1 when
    [K = 1]), whatever [K] and [W]. *)
Theorem unsync_counter_outcomes (K : Z) (W : nat) :
  1 <= K <= INT_MAX -> (2 <= W)%nat -> Z.of_nat W <= INT_MAX ->
  ((exists sched s,
      run (inc_no_lock K) sched (init 0 W (start ARead)) = Some s /\
      joined s = true /\ counter (glob (shr s)) = Z.of_nat W * K) /\
   (exists sched s,
      run (inc_no_lock K) sched (init 0 W (start ARead)) = Some s /\
      joined s = true /\ counter (glob (shr s)) = Z.min K 2)) /\
  ((exists sched s,
      run (increment_without_lock_stressed K) sched (init 0 W (start ARead)) = Some s /\
      joined s = true /\ counter (glob (shr s)) = Z.of_nat W * K) /\
   (exists sched s,
      run (increment_without_lock_stressed K) sched (init 0 W (start ARead)) = Some s /\
      joined s = true /\ counter (glob (shr s)) = Z.min K 2)) /\
  ((exists sched s,
      run (increment_without_lock K) sched (init 0 W (start NLoad)) = Some s /\
      joined s = true /\ counter (glob (shr s)) = Z.of_nat W * K) /\
   (exists sched s,
      run (increment_without_lock K) sched (init 0 W (start NLoad)) = Some s /\
      joined s = true /\ counter (glob (shr s)) = Z.min K 2)).
Proof.
  intros HK HW HWmax.
  assert (Hfit : Z.of_nat W * K <= LONG_MAX) by (apply CounterFacts.product_fits; lia).
  assert (Hamp :
    (exists sched s,
      run (inc_no_lock K) sched (init 0 W (start ARead)) = Some s /\
      joined s = true /\ counter (glob (shr s)) = Z.of_nat W * K) /\
    (exists sched s,
      run (inc_no_lock K) sched (init 0 W (start ARead)) = Some s /\
      joined s = true /\ counter (glob (shr s)) = Z.min K 2)).
  { split.
    - apply (rmw_exact_run (inc_no_lock K) ARead amp_mid 1 5 K); try lia.
      + apply amp_read_step.
      + intros t sh th j x. apply amp_write_step. lia.
      + apply amp_return_step.
    - destruct (decide (K = 1)) as [->|HK1].
      + apply (rmw_low_run_one (inc_no_lock 1) ARead amp_mid 1 5 1); try done.
        * apply amp_read_step.
        * intros t sh th j x. apply amp_write_step. unfold INT_MAX. lia.
        * apply amp_return_step.
        * by intros th j x (_ & ? & _).
        * apply amp_no_sem.
      + rewrite Z.min_r by lia.
        apply (rmw_low_run (inc_no_lock K) ARead amp_mid 1 5 K); try done; try lia.
        * apply amp_read_step.
        * intros t sh th j x. apply amp_write_step. lia.
        * apply amp_return_step.
        * by intros th j x (_ & ? & _).
        * apply amp_no_sem. }
  split; [exact Hamp|]. split; [exact Hamp|]. split.
  - apply (rmw_exact_run (increment_without_lock K) NLoad naive_mid 1 1 K); try lia.
    + apply naive_read_step.
    + intros t sh th j x. apply naive_write_step. lia.
    + apply naive_return_step.
  - destruct (decide (K = 1)) as [->|HK1].
    + apply (rmw_low_run_one (increment_without_lock 1) NLoad naive_mid 1 1 1); try done.
      * apply naive_read_step.
      * intros t sh th j x. apply naive_write_step. unfold INT_MAX. lia.
      * apply naive_return_step.
      * by intros th j x (_ & ? & _).
      * apply naive_no_sem.
    + rewrite Z.min_r by lia.
      apply (rmw_low_run (increment_without_lock K) NLoad naive_mid 1 1 K); try done; try lia.
      * apply naive_read_step.
      * intros t sh th j x. apply naive_write_step. lia.
      * apply naive_return_step.
      * by intros th j x (_ & ? & _).
      * apply naive_no_sem.
Qed.

Lemma unsync_counter_outcomes_witness :
  1 <= 5 <= INT_MAX /\ (2 <= 3)%nat /\ Z.of_nat 3 <= INT_MAX /\
  exists sched s,
    run (inc_no_lock 5) sched (init 0 3 (start ARead)) = Some s /\
    joined s = true /\ counter (glob (shr s)) = Z.min 5 2.
Proof.
  assert (H1 : 1 <= 5 <= INT_MAX) by (unfold INT_MAX; lia).
  assert (H2 : (2 <= 3)%nat) by lia.
  assert (H3 : Z.of_nat 3 <= INT_MAX) by (unfold INT_MAX; lia).
  split; [exact H1|]. split; [exact H2|]. split; [exact H3|].
  exact (proj2 (proj1 (unsync_counter_outcomes 5 3 H1 H2 H3))).
Defined.

End UnsyncCounter.


(** * The invariant pair without synchronisation: what can happen *)

Module PairRuns.
Import Machine MachineFacts Pair PairFacts.

Lemma pair_no_sem K g c : UnsyncCounter.no_sem (touch_pair_without_lock K g c).
Proof.
  unfold touch_pair_without_lock. destruct (pc c); try done.
  - by destruct (i c <? K).
  - by destruct (ca c =? pair_b g).
Qed.

(** A pair that is already broken by one, [a = b + 1]: a fresh worker
    left alone reads it, writes [a + 1] and [b + 1] back, finds [a != b]
    and returns 1, in eleven steps. *)
Definition skewed (sh : shared) : Prop :=
  pair_a (glob sh) = pair_b (glob sh) + 1 /\ 0 <= pair_b (glob sh).

Definition fresh (K : Z) (th : thread vars) : Prop :=
  ret th = None /\ spc th = Running /\ pc (local th) = UReadA /\ i (local th) = 0 /\ 1 <= K.

Lemma solo_on_skewed K t sh th :
  skewed sh -> fresh K th -> pair_b (glob sh) + 1 < LONG_MAX ->
  exists sh' th',
    solo (touch_pair_without_lock K) 11 t sh th = Some (sh', th') /\
    ret th' = Some 1 /\ skewed sh' /\ pair_b (glob sh') = pair_b (glob sh) + 1.
Proof.
  destruct sh as [[cnt a b] lk sm], th as [[p j x y z] sp r rt].
  unfold skewed, fresh. simpl. intros [-> Hb] (-> & -> & -> & -> & HK) Hfit.
  assert (Hlt : (0 <? K) = true) by lia.
  unfold solo, thread_step, touch_pair_without_lock. simpl. rewrite Hlt. simpl.
  rewrite !wrap_long_id by (unfold LONG_MAX in *; lia).
  assert (Hne : (b + 1 + 1 =? b + 1) = false) by lia.
  rewrite Hne. simpl.
  eexists _, _. split; [reflexivity|]. simpl. split; [done|]. split; [split; lia|lia].
Qed.

(** With two workers or more, whatever [K >= 1], some interleaving breaks
    the invariant for good: the first worker is stopped between its two
    write-backs, every other worker then finds [a != b] after its own
    first update and returns 1, and so does the first when it resumes.
    All workers are joined, the driver's flag is set, and [a = W] while
    [b = 1]. *)
Theorem unsync_pair_can_break (K : Z) (W : nat) :
  1 <= K -> (2 <= W)%nat -> Z.of_nat W < LONG_MAX ->
  exists sched s,
    run (touch_pair_without_lock K) sched (init 0 W start) = Some s /\
    joined s = true /\ broke s = true /\
    pair_a (glob (shr s)) = Z.of_nat W /\ pair_b (glob (shr s)) = 1.
Proof.
  intros HK HW Hfit. destruct W as [|W]; [lia|].
  set (prog := touch_pair_without_lock K).
  set (rest := map spawn (replicate W start)).
  set (s0 := init 0 (S W) start).
  assert (Hinit : s0 = {| shr := shr s0; threads := spawn start :: rest |}) by reflexivity.
  assert (Hlen : Z.of_nat (length rest) = Z.of_nat W).
  { unfold rest. by rewrite length_map, length_replicate. }
  assert (Hwrest : has_waiter rest = false).
  { apply UnsyncCounter.all_running_no_waiter. intros u th Hu. unfold rest in Hu.
    rewrite list_lookup_fmap in Hu. by destruct (_ !! u); simplify_eq/=. }
  assert (Hlt : (0 <? K) = true) by lia.
  (* the first worker up to its write of [a] *)
  set (a1 := {| local := {| pc := UWriteB; i := 0; ta := 1; tb := 1; ca := 0 |};
                spc := Running; reg := 0; ret := None |} : thread vars).
  set (sh1 := with_glob (shr s0) (set_a (glob (shr s0)) 1)).
  assert (Hs1 : solo prog 7 0 (shr s0) (spawn start) = Some (sh1, a1)).
  { unfold solo, thread_step, prog, touch_pair_without_lock. simpl. rewrite Hlt. simpl.
    reflexivity. }
  assert (Hw0 : has_waiter (threads s0) = false) by exact Hwrest.
  destruct (run_solo prog 7 0 s0 (spawn start) sh1 a1 Hw0 eq_refl Hs1) as [Hrun1 _].
  change (<[0%nat := a1]> (threads s0)) with ([a1] ++ rest) in Hrun1.
  (* the others, one after the other *)
  destruct (complete_from prog skewed (fresh K) (fun sh => pair_b (glob sh))
              (fun _ => 1) (LONG_MAX - 2)) with (rest := rest) (pre := [a1]) (sh := sh1)
    as (sched2 & s2 & Hrun2 & Hq2 & Hval2 & rest2 & Hths2 & Hlen2 & Hdone2).
  { intros; lia. }
  { intros t sh th Hq Hr Hv Hb.
    destruct (solo_on_skewed K t sh th Hq Hr ltac:(lia)) as (sh' & th' & Hs & Hret & Hq' & Hb').
    exists 11%nat, sh', th'. split; [done|]. split; [by rewrite Hret|]. done. }
  { split; simpl; lia. } { simpl. lia. }
  { simpl. rewrite (total_le _ rest 1); [lia|]. intros t x Hx. unfold left_over.
    destruct (ret x); lia. }
  { done. }
  { apply Forall_forall. intros x Hx. apply list_elem_of_fmap in Hx as (c & -> & Hc).
    apply elem_of_replicate_inv in Hc as ->. split; [done|]. intros _.
    unfold fresh. simpl. split_and!; auto. }
  assert (Htot : total (left_over (fun _ : thread vars => 1)) rest = Z.of_nat W).
  { rewrite (total_const _ rest 1); [lia|]. intros t x Hx. unfold rest in Hx.
    rewrite list_lookup_fmap in Hx. by destruct (_ !! t); simplify_eq/=. }
  destruct s2 as [sh2 ths2]. simpl in Hths2, Hval2, Hq2. subst ths2.
  rewrite Htot in Hval2. destruct Hq2 as [Ha2 _].
  assert (Hw2 : has_waiter (a1 :: rest2) = false).
  { apply UnsyncCounter.all_running_no_waiter.
    change (UnsyncCounter.all_running {| shr := sh2; threads := a1 :: rest2 |}).
    apply (UnsyncCounter.all_running_run prog (pair_no_sem K) 0 (replicate (S W) start)
             (repeat (Step 0%nat) 7 ++ sched2)).
    fold (init 0 (S W) start). fold s0. rewrite run_app, Hrun1. exact Hrun2. }
  (* the first worker writes [b], compares and returns 1 *)
  set (sh3 := with_glob sh2 (set_b (glob sh2) 1)).
  set (a3 := {| local := {| pc := UFail; i := 0; ta := 1; tb := 1; ca := pair_a (glob sh2) |};
                spc := Running; reg := 0; ret := Some 1 |} : thread vars).
  assert (Hs3 : solo prog 4 0 sh2 a1 = Some (sh3, a3)).
  { unfold solo, thread_step, prog, touch_pair_without_lock. simpl.
    assert (Hne : (pair_a (glob sh2) =? 1) = false) by lia. rewrite Hne. simpl.
    reflexivity. }
  destruct (run_solo prog 4 0 {| shr := sh2; threads := a1 :: rest2 |} a1 sh3 a3 Hw2 eq_refl Hs3)
    as [Hrun3' _].
  assert (Hrun3 : run prog (repeat (Step 0%nat) 4) {| shr := sh2; threads := a1 :: rest2 |}
                  = Some {| shr := sh3; threads := a3 :: rest2 |}) by exact Hrun3'.
  clear Hrun3'.
  exists (repeat (Step 0%nat) 7 ++ sched2 ++ repeat (Step 0%nat) 4),
         {| shr := sh3; threads := a3 :: rest2 |}.
  split; [|split; [|split; [|split]]].
  - rewrite run_app, Hrun1; cbv beta iota. rewrite run_app, Hrun2; cbv beta iota.
    exact Hrun3.
  - apply UnsyncCounter.joined_all. simpl. apply Forall_cons. split; [by eexists|done].
  - apply broke_spec. exists 0%nat, a3. done.
  - simpl. lia.
  - done.
Qed.

Lemma unsync_pair_can_break_witness :
  1 <= 1 /\ (2 <= 2)%nat /\ Z.of_nat 2 < LONG_MAX /\
  exists sched s,
    run (touch_pair_without_lock 1) sched (init 0 2 start) = Some s /\
    joined s = true /\ broke s = true /\
    pair_a (glob (shr s)) = Z.of_nat 2 /\ pair_b (glob (shr s)) = 1.
Proof.
  assert (H1 : 1 <= 1) by lia.
  assert (H2 : (2 <= 2)%nat) by lia.
  assert (H3 : Z.of_nat 2 < LONG_MAX) by (unfold LONG_MAX; lia).
  split; [exact H1|]. split; [exact H2|]. split; [exact H3|].
  exact (unsync_pair_can_break 1 2 H1 H2 H3).
Defined.

End PairRuns.

(** * The invariant pair without synchronisation: one worker alone *)

Module PairAlone.
Import Machine MachineFacts Pair PairFacts.

(** What holds of the pair and of the locals of the only worker at each
    point of its loop body. *)
Definition at_point (K : Z) (g : globals) (c : vars) : Prop :=
  let j := i c in
  match pc c with
  | UReadA => pair_a g = j /\ pair_b g = j
  | UReadB => pair_a g = j /\ pair_b g = j /\ ta c = j /\ j < K
  | UYield1 | UIncA => pair_a g = j /\ pair_b g = j /\ ta c = j /\ tb c = j /\ j < K
  | UIncB => pair_a g = j /\ pair_b g = j /\ ta c = j + 1 /\ tb c = j /\ j < K
  | UYield2 | UWriteA =>
      pair_a g = j /\ pair_b g = j /\ ta c = j + 1 /\ tb c = j + 1 /\ j < K
  | UWriteB => pair_a g = j + 1 /\ pair_b g = j /\ tb c = j + 1 /\ j < K
  | UCheckA => pair_a g = j + 1 /\ pair_b g = j + 1 /\ j < K
  | UCheckB => pair_a g = j + 1 /\ pair_b g = j + 1 /\ ca c = j + 1 /\ j < K
  | UFail => False
  end.

Definition alone_ok (K : Z) (g : globals) (th : thread vars) : Prop :=
  spc th = Running /\ 0 <= i (local th) <= K /\ at_point K g (local th) /\
  match ret th with
  | Some v => v = 0 /\ pc (local th) = UReadA /\ i (local th) = K
  | None => True
  end.

Definition alone (K : Z) (s : state vars) : Prop :=
  exists th, threads s = [th] /\ alone_ok K (glob (shr s)) th.

Lemma alone_micro K s s' :
  0 <= K <= INT_MAX -> alone K s -> micro (touch_pair_without_lock K) s s' -> alone K s'.
Proof.
  intros HK (th & Hths & Hspc & Hi & Hat & Hret) Hmic.
  destruct Hmic as [t b th0 sh th' Ht Hs ->|u tu Hu Hb ->].
  - rewrite Hths in Ht. destruct t as [|t]; [|done]. simplify_eq/=.
    unfold thread_step in Hs. rewrite Hspc in Hs.
    destruct (ret th0) eqn:Hr; [done|].
    destruct th0 as [[p j x y z] sp r rt]. destruct s as [[[cnt a c] lk sm] ths].
    unfold touch_pair_without_lock, at_point in *. simpl in *. subst.
    destruct p; simpl in *; repeat case_match; simplify_eq/=; bool_facts;
      destruct_and?; subst;
      rewrite ?wrap_long_id by (unfold LONG_MAX, INT_MAX in *; lia);
      rewrite ?wrap_int_id by (unfold LONG_MAX, INT_MAX in *; lia).
    all: try lia.
    all: eexists; split; [reflexivity|]; unfold alone_ok, at_point; simpl.
    all: rewrite ?wrap_int_id by (unfold LONG_MAX, INT_MAX in *; lia).
    all: split_and!; try done; lia.
  - rewrite Hths in Hu. destruct u as [|u]; [|done]. simplify_eq/=.
    unfold blocked in Hb. by rewrite Hspc in Hb.
Qed.

Lemma alone_start K : 0 <= K -> alone K (init 0 1 start).
Proof.
  intros HK. exists (spawn start). split; [done|].
  unfold alone_ok, at_point. simpl. split_and!; try done; lia.
Qed.

(** The ten steps of an iteration and the return, by the worker alone. *)
Definition even (sh : shared) : Prop :=
  pair_a (glob sh) = pair_b (glob sh) /\ 0 <= pair_b (glob sh).

Definition ready (K : Z) (th : thread vars) : Prop :=
  ret th = None /\ spc th = Running /\ pc (local th) = UReadA /\ 0 <= i (local th) <= K.

Lemma alone_iteration K t sh th :
  even sh -> ready K th -> i (local th) < K -> K <= INT_MAX ->
  pair_b (glob sh) < LONG_MAX ->
  exists sh' th',
    solo (touch_pair_without_lock K) 10 t sh th = Some (sh', th') /\
    even sh' /\ ready K th' /\ i (local th') = i (local th) + 1 /\
    pair_b (glob sh') = pair_b (glob sh) + 1.
Proof.
  destruct sh as [[cnt a b] lk sm], th as [[p j x y z] sp r rt].
  unfold even, ready. simpl. intros [-> Hb] (-> & -> & -> & Hj) Hlt HK Hfit.
  assert (Hlt' : (j <? K) = true) by lia.
  unfold solo, thread_step, touch_pair_without_lock. simpl. rewrite Hlt'. simpl.
  rewrite !wrap_long_id by (unfold LONG_MAX in *; lia).
  rewrite Z.eqb_refl. simpl.
  eexists _, _. split; [reflexivity|]. simpl.
  rewrite wrap_int_id by (unfold INT_MAX in *; lia).
  split_and!; auto; lia.
Qed.

Lemma alone_complete K t : forall k sh th,
  Z.of_nat k = K - i (local th) -> K <= INT_MAX ->
  even sh -> ready K th -> pair_b (glob sh) + (K - i (local th)) <= LONG_MAX ->
  exists sh' th',
    solo (touch_pair_without_lock K) (10 * k + 1) t sh th = Some (sh', th') /\
    is_Some (ret th') /\ even sh' /\
    pair_b (glob sh') = pair_b (glob sh) + (K - i (local th)).
Proof.
  induction k as [|k IH]; intros sh th Hk HK Hq Hr Hb.
  - destruct sh as [g lk sm], th as [[p j x y z] pc r rt]. unfold even, ready in *.
    simpl in *. destruct Hr as (-> & -> & -> & Hj).
    assert (Hlt' : (j <? K) = false) by lia.
    unfold solo, thread_step, touch_pair_without_lock. simpl. rewrite Hlt'. simpl.
    eexists _, _. split; [reflexivity|]. simpl. split_and!; auto; try lia;
      try (by destruct Hq).
  - destruct (alone_iteration K t sh th Hq Hr ltac:(lia) HK ltac:(lia))
      as (sh1 & th1 & Hsolo & Hq1 & Hr1 & Hi1 & Hb1).
    destruct (IH sh1 th1) as (sh' & th' & Hsolo' & Hret & Hq' & Hb'); auto; try lia.
    exists sh', th'. replace (10 * S k + 1)%nat with (10 + (10 * k + 1))%nat by lia.
    rewrite solo_app, Hsolo, Hsolo'. split_and!; auto; lia.
Qed.

(** One worker of [touch_pair_without_lock] alone, [K] iterations: it
    runs to its return; it never finds [a != b], so that the driver's
    flag stays clear; and once it is joined [a = b = K]. *)
Theorem unsync_pair_alone (K : Z) :
  0 <= K <= INT_MAX ->
  (exists sched s,
     run (touch_pair_without_lock K) sched (init 0 1 start) = Some s /\
     joined s = true) /\
  forall sched s,
    run (touch_pair_without_lock K) sched (init 0 1 start) = Some s ->
    broke s = false /\
    (joined s = true -> pair_a (glob (shr s)) = K /\ pair_b (glob (shr s)) = K).
Proof.
  intros HK. split.
  - destruct (alone_complete K 0 (Z.to_nat K) (shr (init 0 1 start)) (spawn start))
      as (sh' & th' & Hsolo & Hret & _).
    { simpl. lia. } { lia. } { split; simpl; lia. }
    { unfold ready. simpl. split_and!; auto; lia. }
    { simpl. unfold LONG_MAX, INT_MAX in *. lia. }
    destruct (run_solo (touch_pair_without_lock K) (10 * Z.to_nat K + 1) 0 (init 0 1 start)
                (spawn start) sh' th') as [Hrun _]; try done.
    eexists _, _. split; [exact Hrun|]. unfold joined. simpl.
    destruct Hret as [v ->]. done.
  - intros sched s Hrun.
    assert (Hinv : alone K s).
    { revert Hrun. apply (invariant_run _ (alone K)).
      - intros s1 s2. by apply alone_micro.
      - apply alone_start. lia. }
    destruct Hinv as (th & Hths & Hspc & Hi & Hat & Hret). split.
    + unfold broke. rewrite Hths. simpl. destruct (ret th) as [v|]; [|done].
      destruct Hret as [-> _]. done.
    + intros Hj. unfold joined in Hj. rewrite Hths in Hj. simpl in Hj.
      destruct (ret th) as [v|]; [|done]. destruct Hret as (_ & Hpc & HiK).
      unfold at_point in Hat. rewrite Hpc in Hat. lia.
Qed.

Lemma unsync_pair_alone_witness :
  0 <= 3 <= INT_MAX /\
  forall sched s,
    run (touch_pair_without_lock 3) sched (init 0 1 start) = Some s ->
    broke s = false /\
    (joined s = true -> pair_a (glob (shr s)) = 3 /\ pair_b (glob (shr s)) = 3).
Proof.
  assert (H1 : 0 <= 3 <= INT_MAX) by (unfold INT_MAX; lia).
  split; [exact H1|]. exact (proj2 (unsync_pair_alone 3 H1)).
Defined.

End PairAlone.

(** * The invariant pair under the mutex: the values *)

Module PairValues.
Import Machine MachineFacts LockFacts Counter PairLock.

(** The updates of [b] a worker has made. *)
Definition fin (c : vars pair_pc) : Z :=
  i c + match pc c with QTail => 1 | _ => 0 end.

Definition range_ok (K : Z) (th : thread (vars pair_pc)) : Prop :=
  0 <= i (local th) <= K /\
  (pc (local th) <> QHead -> i (local th) < K) /\
  (is_Some (ret th) -> pc (local th) = QHead /\ i (local th) = K).

Definition vinv (K : Z) (s : state (vars pair_pc)) : Prop :=
  PairLockFacts.inv s /\
  pair_b (glob (shr s)) = total (fun th => fin (local th)) (threads s) /\
  forall u th, threads s !! u = Some th -> range_ok K th.

Lemma fin_range K th : range_ok K th -> 0 <= fin (local th) <= K.
Proof.
  unfold range_ok, fin. intros (H1 & H2 & _).
  destruct (pc (local th)) eqn:Hpc; try lia.
  assert (i (local th) < K) by (by apply H2). lia.
Qed.

Lemma vinv_micro K s s' :
  0 <= K <= INT_MAX -> Z.of_nat (length (threads s)) * K <= LONG_MAX ->
  vinv K s -> micro (touch_pair_with_lock K) s s' -> vinv K s'.
Proof.
  intros HK HW (Hpl & Hsum & Hall) Hmic.
  split; [by eapply PairLockFacts.pairlock_inv_micro|].
  destruct Hmic as [t b th sh th' Ht Hs ->|u tu Hu Hb ->].
  - pose proof (Hall t th Ht) as (Hi & Hin & Hret).
    destruct Hpl as (_ & Hknows & _).
    pose proof (Hknows t th Ht) as [Hk _].
    assert (Hroom : pair_b (glob (shr s)) <= LONG_MAX - (K - fin (local th))).
    { rewrite Hsum. etrans; [apply (total_room _ _ K t th); [|done]|lia].
      intros u y Hy. by apply (fin_range K), (Hall u). }
    assert (Hpos : 0 <= pair_b (glob (shr s))).
    { rewrite Hsum. apply total_nonneg. intros u y Hy. by apply (fin_range K), (Hall u). }
    unfold thread_step, touch_pair_with_lock in Hs. inv_step Hs.
    all: bool_facts; unfold PairLockFacts.knows, fin in Hk, Hroom;
      repeat match goal with H : pc _ = _ |- _ => rewrite H in * end;
      try specialize (Hin ltac:(done)).
    all: (split;
      [cbn [threads shr glob]; rewrite (total_insert _ _ t th) by done; rewrite <- Hsum;
       unfold fin; simpl;
       repeat match goal with H : pc _ = _ |- _ => rewrite H end; simpl;
       destruct_and?;
       rewrite ?wrap_int_id by (unfold LONG_MAX, INT_MAX in *; lia);
       repeat match goal with H : tmp _ = _ |- _ => rewrite H end;
       rewrite ?wrap_long_id by (unfold LONG_MAX, INT_MAX in *; lia); lia
      |intros u thu Hu; split_thread u t Hu; [|by apply (Hall u)];
       unfold range_ok; simpl;
       repeat match goal with H : pc _ = _ |- _ => rewrite H end;
       repeat match goal with H : ret _ = _ |- _ => rewrite H end; simpl;
       rewrite ?wrap_int_id by (unfold LONG_MAX, INT_MAX in *; lia);
       split_and!; try lia; try done; intros; try done; try lia]).
    all: try (by match goal with H : is_Some None |- _ => destruct H end).
    all: try (split; [done|lia]).
  - split; [simpl; rewrite (total_insert _ _ u tu) by done; simpl; lia|].
    intros v thv Hv. split_thread v u Hv; [|by eapply Hall]. by apply (Hall u tu).
Qed.

Lemma vinv_start K W : 0 <= K -> vinv K (init 0 W (start QHead)).
Proof.
  intros HK. split; [apply PairLockFacts.pairlock_inv_start|]. split.
  - simpl. rewrite (total_const _ _ 0); [lia|].
    intros t x Hx. rewrite list_lookup_fmap in Hx.
    destruct (replicate W _ !! t) as [c|] eqn:Hc; simplify_eq/=.
    by apply lookup_replicate in Hc as [-> _].
  - intros u th Hu. simpl in Hu. rewrite list_lookup_fmap in Hu.
    destruct (replicate W _ !! u) as [c|] eqn:Hc; simplify_eq/=.
    apply lookup_replicate in Hc as [-> _].
    unfold range_ok; simpl. split_and!; try done; try lia.
Qed.

(** Under the mutex the pair counts the updates: once [W] workers of [K]
    iterations are joined, [a] and [b] are both [W * K] (and the workers
    can all be joined). *)
Theorem locked_pair_counts (K : Z) (W : nat) :
  0 <= K <= INT_MAX -> Z.of_nat W <= INT_MAX ->
  (exists sched s,
     run (touch_pair_with_lock K) sched (init 0 W (start QHead)) = Some s /\
     joined s = true) /\
  forall sched s,
    run (touch_pair_with_lock K) sched (init 0 W (start QHead)) = Some s ->
    joined s = true ->
    pair_a (glob (shr s)) = Z.of_nat W * K /\ pair_b (glob (shr s)) = Z.of_nat W * K.
Proof.
  intros HK HW. pose proof (CounterFacts.product_fits K W HK HW) as Hfit.
  split; [by apply PairLockFacts.pairlock_completes|].
  intros sched s Hrun Hj.
  assert (Hinv : length (threads s) = W /\ vinv K s).
  { revert Hrun. apply (invariant_run _ (fun s => length (threads s) = W /\ vinv K s)).
    - intros s1 s2 [Hlen Hi] Hm. split.
      + by rewrite (micro_length _ _ _ Hm).
      + eapply vinv_micro; eauto. by rewrite Hlen.
    - split; [simpl; by rewrite length_map, length_replicate|apply vinv_start; lia]. }
  destruct Hinv as (Hlen & _ & Hsum & Hall).
  assert (Hb : pair_b (glob (shr s)) = Z.of_nat W * K).
  { rewrite Hsum, (total_const _ _ K); [by rewrite Hlen|].
    intros t th Ht. destruct (Hall t th Ht) as (_ & _ & Hret).
    destruct Hret as [Hpc Hi]; [by eapply joined_ret|].
    unfold fin. rewrite Hpc. lia. }
  split; [|done]. rewrite <- Hb. by eapply PairLockFacts.pair_equal.
Qed.

Lemma locked_pair_counts_witness :
  0 <= 4 <= INT_MAX /\ Z.of_nat 3 <= INT_MAX /\
  forall sched s,
    run (touch_pair_with_lock 4) sched (init 0 3 (start QHead)) = Some s ->
    joined s = true ->
    pair_a (glob (shr s)) = Z.of_nat 3 * 4 /\ pair_b (glob (shr s)) = Z.of_nat 3 * 4.
Proof.
  assert (H1 : 0 <= 4 <= INT_MAX) by (unfold INT_MAX; lia).
  assert (H2 : Z.of_nat 3 <= INT_MAX) by (unfold INT_MAX; lia).
  split; [exact H1|]. split; [exact H2|].
  exact (proj2 (locked_pair_counts 4 3 H1 H2)).
Defined.

End PairValues.


(** * The bounds-safety clinic: w6/thread_recitation.c, Part 5 *)

Module Stdio.
Import Mem.

(** What the program prints: one item per call of [printf] or [fprintf]
    of the functions below, with the values of its arguments. *)
Inductive output :=
| OPrompt (n : Z)              (* "Enter a short label (<= %zu chars):\n> " *)
| ONoInput                     (* "error: no input.\n" *)
| OWarnInput (n : Z)           (* "[warn] input longer than %zu chars; truncated and flushing.\n" *)
| OWarnTag (need cap : Z)      (* "[warn] tag truncated (need %d, cap %zu)\n" *)
| OSafeTag (tag : list Z)      (* "Safe tag = \"%s\"\n" *)
| OWarnLocal (name : list Z)   (* "[warn] local truncated for \"%s\"\n" *)
| OBanner (text : list Z)      (* "thread-banner: %s\n" *)
| OTitle (title : list Z)      (* "\n===== %s =====\n" *)
| OPressEnter.                 (* "Press ENTER to continue...\n" *)

(** The memory, what is left to read on [stdin] (end-of-file after the
    last byte), and the output so far. *)
Record world := { wmem : mem; stdin : list Z; out : list output }.

Definition newline : Z := 10.

(** Consecutive stores, as [fgets] and [snprintf] make them. *)
Fixpoint store_bytes (m : mem) (p : ptr) (bytes : list Z) : option mem :=
  match bytes with
  | [] => Some m
  | c :: rest =>
      match store m p c with
      | Some m' => store_bytes m' (ptr_add p 1) rest
      | None => None
      end
  end.

(** The characters [fgets] takes from the stream, at most [n] of them, a
    newline being the last one taken; and what is left of the stream. *)
Fixpoint fgets_chars (n : nat) (input : list Z) : list Z * list Z :=
  match n, input with
  | O, _ => ([], input)
  | S _, [] => ([], [])
  | S n', c :: rest =>
      if c =? newline then ([c], rest)
      else let (chars, rest') := fgets_chars n' rest in (c :: chars, rest')
  end.

(** [fgets(s, n, stdin)] (ISO C 7.21.7.2): at most [n - 1] characters are
    read and a NUL is stored after them; at end-of-file with nothing read
    the array is left as it is and the result is a null pointer, [false]
    here. With [n <= 0] nothing is attempted and the result is null; with
    [n = 1] nothing is read and the empty string is stored. *)
Definition fgets (m : mem) (s : ptr) (n : Z) (input : list Z)
  : result (mem * list Z * bool) :=
  if n <=? 0 then Ok (m, input, false)
  else if n =? 1 then
    match store m s 0 with
    | Some m' => Ok (m', input, true)
    | None => Fault
    end
  else
    match input with
    | [] => Ok (m, input, false)
    | _ :: _ =>
        let (chars, rest) := fgets_chars (Z.to_nat (n - 1)) input in
        match store_bytes m s (chars ++ [0]) with
        | Some m' => Ok (m', rest, true)
        | None => Fault
        end
    end.

(** [int c; while ((c = getchar()) != '\n' && c != EOF) {}] *)
Fixpoint flush_line (input : list Z) : list Z :=
  match input with
  | [] => []
  | c :: rest => if c =? newline then rest else flush_line rest
  end.

(** [strchr(s, c) == NULL], for [c] other than NUL. *)
Definition strchr_null (m : mem) (s : ptr) (c : Z) : option bool :=
  (fun str => negb (existsb (fun x => x =? c) str)) <$> cstring m s.

(** [chomp_newline]:
    [size_t n = strlen(s); if (n && s[n-1] == '\n') s[n-1] = '\0';] *)
Definition chomp_newline (m : mem) (s : ptr) : result mem :=
  match strlen m s with
  | None => Fault
  | Some n =>
      if n =? 0 then Ok m
      else
        match load m (ptr_add s (n - 1)) with
        | None => Fault
        | Some c =>
            if c =? newline then
              match store m (ptr_add s (n - 1)) 0 with
              | Some m' => Ok m'
              | None => Fault
              end
            else Ok m
        end
  end.

(** [read_label_bounded(dst, cap)]. The conversion [(int)cap] wraps. *)
Definition read_label_bounded (w : world) (dst : ptr) (cap : Z) : result world :=
  let o1 := out w ++ [OPrompt (if cap =? 0 then 0 else cap - 1)] in
  match fgets (wmem w) dst (wrap_int cap) (stdin w) with
  | Fault => Fault
  | Ok (m1, rest, false) =>
      match store m1 dst 0 with
      | Some m2 => Ok {| wmem := m2; stdin := rest; out := o1 ++ [ONoInput] |}
      | None => Fault
      end
  | Ok (m1, rest, true) =>
      match strchr_null m1 dst newline with
      | None => Fault
      | Some truncated =>
          let o2 := if truncated then o1 ++ [OWarnInput (wrap_size (cap - 1))] else o1 in
          let rest2 := if truncated then flush_line rest else rest in
          match chomp_newline m1 dst with
          | Ok m2 => Ok {| wmem := m2; stdin := rest2; out := o2 |}
          | Fault => Fault
          end
      end
  end.

(** [wait_for_enter(title)]:
    [if (title && *title) printf(...); printf("Press ENTER ..."); int c; while (...) {}] *)
Definition wait_for_enter (w : world) (title : ptr) : result world :=
  let pause o := Ok {| wmem := wmem w; stdin := flush_line (stdin w);
                       out := o ++ [OPressEnter] |} in
  match title with
  | Null => pause (out w)
  | Ptr _ _ =>
      match load (wmem w) title with
      | None => Fault
      | Some c =>
          if c =? 0 then pause (out w)
          else match cstring (wmem w) title with
               | Some t => pause (out w ++ [OTitle t])
               | None => Fault
               end
      end
  end.

(** [snprintf(buf, size, ...)] (ISO C 7.21.6.5), [text] being the
    formatted output: at most [size - 1] characters are stored and a NUL
    after them, nothing at all when [size] is 0; the result is the length
    of the whole [text]. *)
Definition snprintf (m : mem) (buf : ptr) (size : Z) (text : list Z) : result (mem * Z) :=
  if size =? 0 then Ok (m, wrap_int (Z.of_nat (length text)))
  else
    match store_bytes m buf (take (Z.to_nat (size - 1)) text ++ [0]) with
    | Some m' => Ok (m', wrap_int (Z.of_nat (length text)))
    | None => Fault
    end.

(** The arrays of Part 5: [char label[16]], [char tag[20]] in [main],
    [char local[24]] in [fn_bounds]. *)
Definition label_size : Z := 16.
Definition tag_size : Z := 20.
Definition local_size : Z := 24.

(** [main], Part 5:
    [int need = snprintf(tag, sizeof(tag), "TAG:%s", label);
     if (need >= (int)sizeof(tag)) fprintf(stderr, ...);
     printf("Safe tag = \"%s\"\n", tag);] *)
Definition make_tag (w : world) (tag label : ptr) : result world :=
  match cstring (wmem w) label with
  | None => Fault
  | Some l =>
      match snprintf (wmem w) tag tag_size (bytes_of_string "TAG:" ++ l) with
      | Fault => Fault
      | Ok (m1, need) =>
          let o1 := if need >=? wrap_int tag_size
                    then out w ++ [OWarnTag need tag_size] else out w in
          match cstring m1 tag with
          | Some t => Ok {| wmem := m1; stdin := stdin w; out := o1 ++ [OSafeTag t] |}
          | None => Fault
          end
      end
  end.

(** [fn_bounds], on its arguments [a->tag] and [a->name], the array
    [local] being the object at [local]:
    [int need2 = snprintf(local, sizeof(local), "[%s:%s]", a->tag, a->name);
     if (need2 >= (int)sizeof(local)) fprintf(stderr, ..., a->name);
     printf("thread-banner: %s\n", local);] *)
Definition fn_bounds (w : world) (local tag name : ptr) : result world :=
  match cstring (wmem w) tag, cstring (wmem w) name with
  | Some t, Some n =>
      match snprintf (wmem w) local local_size
              (bytes_of_string "[" ++ t ++ bytes_of_string ":" ++ n ++ bytes_of_string "]") with
      | Fault => Fault
      | Ok (m1, need2) =>
          match cstring m1 name, cstring m1 local with
          | Some n1, Some banner =>
              let o1 := if need2 >=? wrap_int local_size
                        then out w ++ [OWarnLocal n1] else out w in
              Ok {| wmem := m1; stdin := stdin w; out := o1 ++ [OBanner banner] |}
          | _, _ => Fault
          end
      end
  | _, _ => Fault
  end.

(** The first line of a stream, without its newline. *)
Fixpoint first_line (input : list Z) : list Z :=
  match input with
  | [] => []
  | c :: rest => if c =? newline then [] else c :: first_line rest
  end.

(** A string with one trailing newline taken off. *)
Definition chomp (s : list Z) : list Z :=
  match last s with
  | Some c => if c =? newline then removelast s else s
  | None => s
  end.

(** The bytes before the first NUL: what [strlen], [strchr] and ["%s"]
    see of bytes stored in an array. *)
Fixpoint upto_nul (s : list Z) : list Z :=
  match s with
  | [] => []
  | c :: rest => if c =? 0 then [] else c :: upto_nul rest
  end.

Definition no_nul (s : list Z) : bool := forallb (fun c => negb (c =? 0)) s.

End Stdio.

Module StdioFacts.
Import Mem Formatters FormatterFacts Stdio.

Lemma write_at_nil o off : (off <= length o)%nat -> write_at o off [] = o.
Proof. intros H. unfold write_at. simpl. rewrite Nat.add_0_r. apply take_drop. Qed.

Lemma write_at_cons o off c bytes :
  (off + S (length bytes) <= length o)%nat ->
  write_at (<[off := c]> o) (S off) bytes = write_at o off (c :: bytes).
Proof.
  intros H. unfold write_at.
  rewrite (take_S_r _ _ c) by (apply list_lookup_insert_eq; lia).
  rewrite take_insert_ge by lia. rewrite drop_insert_lt by lia.
  rewrite <- app_assoc. simpl.
  by replace (off + S (length bytes))%nat with (S (off + length bytes)) by lia.
Qed.

Lemma store_bytes_ok bytes : forall m b off o,
  m !! b = Some o -> 0 <= off -> (Z.to_nat off + length bytes <= length o)%nat ->
  store_bytes m (Ptr b off) bytes = Some (<[b := write_at o (Z.to_nat off) bytes]> m).
Proof.
  induction bytes as [|c bytes IH]; intros m b off o Ho Hoff Hlen; simpl in *.
  - rewrite write_at_nil by lia. by rewrite list_insert_id.
  - destruct (Z.ltb_spec off 0); [lia|]. rewrite Ho.
    destruct (decide (Z.to_nat off < length o)%nat); [|lia].
    assert (Hb : (b < length m)%nat) by (by apply lookup_lt_Some in Ho).
    rewrite (IH _ b (off + 1) (<[Z.to_nat off := c]> o)).
    + rewrite list_insert_insert_eq. do 2 f_equal.
      replace (Z.to_nat (off + 1)) with (S (Z.to_nat off)) by lia.
      apply write_at_cons. lia.
    + by rewrite list_lookup_insert_eq.
    + lia.
    + rewrite length_insert. lia.
Qed.

Lemma cstring_other (m : mem) b o' b' off :
  b <> b' -> cstring (<[b := o']> m) (Ptr b' off) = cstring m (Ptr b' off).
Proof. intros Hne. unfold cstring, bytes_from. by rewrite list_lookup_insert_ne. Qed.

Lemma cstring_written_more (m : mem) bo o_out offo (text more : list Z) :
  m !! bo = Some o_out -> 0 <= offo ->
  (Z.to_nat offo + length (text ++ 0%Z :: more) <= length o_out)%nat ->
  Forall (fun c => c <> 0) text ->
  cstring (<[bo := write_at o_out (Z.to_nat offo) (text ++ 0 :: more)]> m) (Ptr bo offo)
    = Some text.
Proof.
  intros Ho Hoffo Hroom Hnz.
  assert (Hb : (bo < length m)%nat) by (by apply lookup_lt_Some in Ho).
  unfold cstring, bytes_from. destruct (Z.ltb_spec offo 0); [lia|].
  rewrite list_lookup_insert_eq by done. unfold write_at.
  rewrite drop_app_length' by (rewrite length_take; lia).
  rewrite <- !app_assoc. simpl. rewrite find_nul_app by done. simpl.
  by rewrite take_app_length.
Qed.

Lemma strlen_cstring m p s :
  cstring m p = Some s -> strlen m p = Some (Z.of_nat (length s)).
Proof.
  destruct p as [|b off]; [done|]. intros Hs.
  destruct (cstring_inv _ _ _ _ Hs) as (o & Ho & Hoff & Hnul & _).
  unfold strlen, bytes_from. destruct (Z.ltb_spec off 0); [lia|].
  rewrite Ho, Hnul. done.
Qed.

Lemma chomp_newline_spec (m : mem) (b : block) (off : Z) (src : list Z) :
  cstring m (Ptr b off) = Some src ->
  exists m',
    chomp_newline m (Ptr b off) = Ok m' /\
    cstring m' (Ptr b off) = Some (chomp src) /\
    Z.of_nat (length src) - 1 <= Z.of_nat (length (chomp src)) <= Z.of_nat (length src) /\
    (forall p, p <> Ptr b (off + Z.of_nat (length src) - 1) -> load m' p = load m p) /\
    forall b', b' <> b -> m' !! b' = m !! b'.
Proof.
  intros Hs. destruct (cstring_inv _ _ _ _ Hs) as (o & Ho & Hoff & Hnul & Hsrc & Hlen & Hnz).
  unfold chomp_newline. rewrite (strlen_cstring _ _ _ Hs).
  destruct (Z.eqb_spec (Z.of_nat (length src)) 0) as [H0|H0].
  { destruct src; [|done]. exists m. unfold chomp. simpl. split_and!; auto; lia. }
  unfold chomp. destruct (last src) as [c|] eqn:Hlast.
  2:{ apply last_None in Hlast. subst. done. }
  apply last_Some in Hlast as [pre ->]. rewrite length_app in *. simpl in *.
  assert (Hld : load m (Ptr b (off + (Z.of_nat (length pre + 1) - 1))) = Some c).
  { simpl. destruct (Z.ltb_spec (off + (Z.of_nat (length pre + 1) - 1)) 0); [lia|].
    rewrite Ho.
    replace (Z.to_nat (off + (Z.of_nat (length pre + 1) - 1)))
      with (Z.to_nat off + length pre)%nat by lia.
    rewrite <- lookup_drop.
    assert (Hx : (pre ++ [c]) !! length pre = Some c).
    { by rewrite list_lookup_middle. }
    rewrite Hsrc in Hx. rewrite lookup_take in Hx.
    by destruct (decide (length pre < length pre + 1)%nat); [|lia]. }
  simpl in Hld. rewrite Hld. destruct (Z.eqb_spec c newline) as [->|Hc].
  - simpl. destruct (Z.ltb_spec (off + (Z.of_nat (length pre + 1) - 1)) 0); [lia|].
    rewrite Ho.
    destruct (decide (Z.to_nat (off + (Z.of_nat (length pre + 1) - 1)) < length o)%nat); [|lia].
    eexists. split; [reflexivity|].
    replace (Z.to_nat (off + (Z.of_nat (length pre + 1) - 1)))
      with (Z.to_nat off + length pre)%nat by lia.
    rewrite removelast_last.
    assert (Hb : (b < length m)%nat) by (by apply lookup_lt_Some in Ho).
    apply Forall_app in Hnz as [Hpre _].
    split; [|split; [lia|split]].
    + unfold cstring, bytes_from. destruct (Z.ltb_spec off 0); [lia|].
      rewrite list_lookup_insert_eq by done.
      assert (Hdrop : drop (Z.to_nat off) (<[(Z.to_nat off + length pre)%nat := 0]> o)
                      = pre ++ 0 :: drop (Z.to_nat off + length pre + 1) o).
      { rewrite drop_insert_ge by lia.
        replace (Z.to_nat off + length pre - Z.to_nat off)%nat with (length pre) by lia.
        assert (Hd : drop (Z.to_nat off) o
                     = pre ++ newline :: drop (Z.to_nat off + length pre + 1) o).
        { rewrite <- (take_drop (length pre + 1) (drop (Z.to_nat off) o)) at 1.
          rewrite <- Hsrc, <- app_assoc. simpl. rewrite drop_drop.
          by rewrite Nat.add_assoc. }
        rewrite Hd. rewrite insert_app_r_alt by lia. rewrite Nat.sub_diag. done. }
      rewrite Hdrop, find_nul_app by done. simpl. by rewrite take_app_length.
    + intros p Hp. destruct p as [|b' off']; [done|]. simpl.
      destruct (Z.ltb_spec off' 0); [done|].
      destruct (decide (b' = b)) as [->|Hne].
      * rewrite list_lookup_insert_eq by done. rewrite Ho.
        rewrite list_lookup_insert_ne; [done|]. intros Heq. apply Hp. f_equal. lia.
      * by rewrite list_lookup_insert_ne.
    + intros b' Hne. by rewrite list_lookup_insert_ne.
  - exists m. split_and!; auto; rewrite ?length_app; simpl; lia.
Qed.

(** [chomp_newline] on a string [src] at [p]: it returns, the string at
    [p] is then [src] without one trailing newline, and nothing else
    changes but the byte of that newline. *)
Theorem chomp_newline_chomps (m : mem) (b : block) (off : Z) (src : list Z) :
  cstring m (Ptr b off) = Some src ->
  exists m',
    chomp_newline m (Ptr b off) = Ok m' /\
    cstring m' (Ptr b off) = Some (chomp src) /\
    Z.of_nat (length src) - 1 <= Z.of_nat (length (chomp src)) <= Z.of_nat (length src) /\
    (forall p, p <> Ptr b (off + Z.of_nat (length src) - 1) -> load m' p = load m p) /\
    forall b', b' <> b -> m' !! b' = m !! b'.
Proof.
  intros Hs.
  destruct (chomp_newline_spec m b off src Hs) as (m' & Hcall & Hstr & Hlen & Hload & Hblocks).
  exists m'. split; [exact Hcall|]. split; [exact Hstr|]. split; [exact Hlen|].
  split; [exact Hload|exact Hblocks].
Qed.

Definition has_newline (s : list Z) : bool := existsb (fun x => x =? newline) s.

Lemma fgets_chars_spec n : forall input chars rest,
  fgets_chars n input = (chars, rest) ->
  (has_newline chars = true /\ chars = first_line input ++ [newline] /\
   rest = flush_line input /\ (length (first_line input) < n)%nat /\
   has_newline input = true) \/
  (has_newline chars = false /\ chars = take n (first_line input) /\
   flush_line rest = flush_line input /\
   ((length (first_line input) < n)%nat -> has_newline input = false)).
Proof.
  unfold has_newline.
  induction n as [|n IH]; intros input chars rest Hf; simpl in Hf.
  - simplify_eq. right. split_and!; auto. lia.
  - destruct input as [|c r]; [simplify_eq; right; split_and!; auto|].
    cbn [first_line flush_line existsb].
    destruct (Z.eqb_spec c newline) as [->|Hc].
    + simplify_eq. left. cbn [existsb app length]. rewrite Z.eqb_refl.
      split_and!; auto. lia.
    + destruct (fgets_chars n r) as [chars' rest'] eqn:Hr. injection Hf as <- <-.
      destruct (IH r chars' rest' Hr) as [(H1 & H2 & H3 & H4 & H5)|(H1 & H2 & H3 & H4)].
      * left. cbn [existsb app length].
        destruct (Z.eqb_spec c newline); [done|]. cbn [orb].
        split_and!; auto; [by rewrite H2|lia].
      * right. cbn [existsb app length take].
        destruct (Z.eqb_spec c newline); [done|]. cbn [orb].
        split_and!; auto; [by rewrite H2|]. intros Hlt. apply H4. lia.
Qed.

Lemma existsb_newline_false (s : list Z) c :
  has_newline s = false -> last s = Some c -> (c =? newline) = false.
Proof.
  unfold has_newline. intros Hn [pre ->]%last_Some.
  rewrite existsb_app in Hn. apply orb_false_elim in Hn as [_ Hn]. cbn [existsb] in Hn.
  by rewrite orb_false_r in Hn.
Qed.

Lemma first_line_no_newline input : has_newline (first_line input) = false.
Proof.
  unfold has_newline. induction input as [|c r IH]; cbn [first_line existsb]; [done|].
  destruct (Z.eqb_spec c newline) as [->|Hc]; cbn [existsb]; [done|].
  rewrite IH. by destruct (Z.eqb_spec c newline).
Qed.

Lemma fgets_reads m s n input :
  2 <= n -> input <> [] ->
  fgets m s n input =
    let (chars, rest) := fgets_chars (Z.to_nat (n - 1)) input in
    match store_bytes m s (chars ++ [0]) with
    | Some m' => Ok (m', rest, true)
    | None => Fault
    end.
Proof.
  intros Hn Hin. unfold fgets.
  destruct (Z.leb_spec n 0); [lia|]. destruct (Z.eqb_spec n 1); [lia|].
  by destruct input.
Qed.

Lemma upto_nul_split (l : list Z) : exists more, l ++ [0] = upto_nul l ++ 0 :: more.
Proof.
  induction l as [|c l [more IH]]; simpl.
  - by exists [].
  - destruct (Z.eqb_spec c 0) as [->|Hc].
    + by exists (l ++ [0]).
    + exists more. by rewrite IH.
Qed.

Lemma upto_nul_nonzero (l : list Z) : Forall (fun c => c <> 0) (upto_nul l).
Proof.
  induction l as [|c l IH]; simpl; [constructor|].
  destruct (Z.eqb_spec c 0); by constructor.
Qed.

Lemma upto_nul_length (l : list Z) : (length (upto_nul l) <= length l)%nat.
Proof.
  induction l as [|c l IH]; simpl; [lia|].
  destruct (c =? 0); simpl; lia.
Qed.

Lemma upto_nul_id (l : list Z) : no_nul l = true -> upto_nul l = l.
Proof.
  induction l as [|c l IH]; simpl; [done|].
  destruct (c =? 0); simpl; [done|]. intros H. by rewrite IH.
Qed.

Lemma no_nul_take (l : list Z) n : no_nul l = true -> no_nul (take n l) = true.
Proof.
  unfold no_nul. revert n. induction l as [|c l IH]; intros [|n]; simpl; try done.
  intros [Hc Hl]%andb_true_iff. by rewrite Hc, IH.
Qed.

Lemma no_nul_Forall (l : list Z) : Forall (fun c => c <> 0) l -> no_nul l = true.
Proof.
  induction 1 as [|c l Hc _ IH]; simpl; [done|].
  by destruct (Z.eqb_spec c 0).
Qed.

Lemma upto_nul_no_newline (l : list Z) :
  has_newline l = false -> has_newline (upto_nul l) = false.
Proof.
  unfold has_newline. induction l as [|c l IH]; cbn [upto_nul existsb]; [done|].
  intros [Hc Hl]%orb_false_elim. destruct (c =? 0); cbn [existsb]; [done|].
  by rewrite Hc, IH.
Qed.

Lemma upto_nul_line (l : list Z) :
  upto_nul (l ++ [newline]) = if no_nul l then l ++ [newline] else upto_nul l.
Proof.
  unfold no_nul. induction l as [|c l IH]; cbn [app upto_nul forallb]; [done|].
  destruct (c =? 0); cbn [negb andb]; [done|]. rewrite IH.
  by destruct (forallb _ l).
Qed.

Lemma has_newline_snoc (l : list Z) : has_newline (l ++ [newline]) = true.
Proof.
  unfold has_newline. rewrite existsb_app. cbn [existsb]. rewrite Z.eqb_refl.
  by rewrite orb_true_r.
Qed.

Lemma chomp_no_newline (l : list Z) : has_newline l = false -> chomp l = l.
Proof.
  intros Hn. unfold chomp. destruct (last l) as [c|] eqn:Hlast; [|done].
  by rewrite (existsb_newline_false _ _ Hn Hlast).
Qed.

Lemma chomp_snoc (l : list Z) : chomp (l ++ [newline]) = l.
Proof. unfold chomp. rewrite last_snoc, Z.eqb_refl. apply removelast_last. Qed.

(** The bytes [chars ++ [0]] stored at a place with room for them read as
    the string [upto_nul chars]. *)
Lemma cstring_stored (m : mem) b obj off (chars : list Z) :
  m !! b = Some obj -> 0 <= off ->
  (Z.to_nat off + length (chars ++ [0%Z]) <= length obj)%nat ->
  cstring (<[b := write_at obj (Z.to_nat off) (chars ++ [0])]> m) (Ptr b off)
    = Some (upto_nul chars).
Proof.
  intros Hb Hoff Hroom. destruct (upto_nul_split chars) as [more Hsplit].
  rewrite Hsplit in *. apply cstring_written_more; auto. apply upto_nul_nonzero.
Qed.

(** [read_label_bounded] on any bytes: what is stored reads up to the
    first NUL of the line, and a line with a NUL that [fgets] has read
    whole, newline included, is taken for a truncated one. *)
Lemma read_label_any (m : mem) (input : list Z) (o : list output)
    (b : block) (off : Z) (obj : list Z) (cap : Z) :
  m !! b = Some obj -> 0 <= off -> off + cap <= Z.of_nat (length obj) ->
  2 <= cap <= INT_MAX -> input <> [] ->
  let line := first_line input in
  let fits := (Z.of_nat (length line) <? cap - 1) && has_newline input in
  exists m',
    read_label_bounded {| wmem := m; stdin := input; out := o |} (Ptr b off) cap
      = Ok {| wmem := m';
              stdin := if fits && negb (no_nul line)
                       then flush_line (flush_line input) else flush_line input;
              out := (o ++ [OPrompt (cap - 1)])
                     ++ (if fits && no_nul line then [] else [OWarnInput (cap - 1)]) |} /\
    cstring m' (Ptr b off) = Some (upto_nul (take (Z.to_nat (cap - 1)) line)) /\
    (forall p, ~ inside p b off (off + cap) -> load m' p = load m p) /\
    forall b', b' <> b -> m' !! b' = m !! b'.
Proof.
  intros Hb Hoff Hroom Hcap Hin line fits.
  unfold read_label_bounded. cbn [wmem stdin out].
  rewrite wrap_int_id by (unfold INT_MAX in *; lia).
  rewrite wrap_size_id by (unfold SIZE_MAX, INT_MAX in *; lia).
  destruct (Z.eqb_spec cap 0); [lia|].
  rewrite fgets_reads by (done || lia).
  destruct (fgets_chars (Z.to_nat (cap - 1)) input) as [chars rest] eqn:Hf.
  assert (Hspec := fgets_chars_spec _ _ _ _ Hf). fold line in Hspec.
  assert (Hlenc : (length chars <= Z.to_nat (cap - 1))%nat).
  { destruct Hspec as [(_ & -> & _ & Hl & _)|(_ & -> & _)].
    - rewrite length_app. simpl. lia.
    - rewrite length_take. lia. }
  rewrite (store_bytes_ok _ m b off obj)
    by first [done | rewrite ?length_app; simpl; lia].
  set (m1 := <[b := write_at obj (Z.to_nat off) (chars ++ [0])]> m).
  assert (Hs1 : cstring m1 (Ptr b off) = Some (upto_nul chars)).
  { apply cstring_stored; auto. rewrite length_app. simpl. lia. }
  pose proof (upto_nul_length chars) as Hlenu.
  unfold strchr_null. rewrite Hs1. cbn [fmap option_fmap option_map].
  fold (has_newline (upto_nul chars)).
  destruct (chomp_newline_spec m1 b off (upto_nul chars) Hs1)
    as (m2 & Hch & Hs2 & _ & Hfr2 & Hbl2).
  assert (Hblocks : forall b', b' <> b -> m2 !! b' = m !! b').
  { intros b' Hne. rewrite Hbl2 by done. unfold m1. by rewrite list_lookup_insert_ne. }
  rewrite Hch.
  assert (Hframe1 : forall p, ~ inside p b off (off + cap) -> load m1 p = load m p).
  { intros p Hp. apply load_frame; [done|rewrite length_app; simpl; lia|].
    intros (x & -> & Hx). apply Hp. exists x. split; [done|].
    rewrite length_app in Hx. simpl in Hx. lia. }
  assert (Hframe2 : forall p, ~ inside p b off (off + cap) -> load m2 p = load m p).
  { intros p Hp. rewrite <- Hframe1 by done.
    destruct (decide (upto_nul chars = [])) as [Hnil|Hne].
    - unfold chomp_newline in Hch. rewrite (strlen_cstring _ _ _ Hs1), Hnil in Hch.
      simpl in Hch. by simplify_eq.
    - apply Hfr2. intros ->. apply Hp. eexists. split; [done|].
      destruct (upto_nul chars); [done|]. simpl in *. lia. }
  exists m2. destruct Hspec as [(Hn & Hc & Hr & Hl & Hi)|(Hn & Hc & Hr & Hl)].
  - (* the line and its newline have been read *)
    assert (Hfits : fits = true).
    { unfold fits. rewrite Hi, andb_true_r. apply Z.ltb_lt. lia. }
    assert (Hseen : has_newline (upto_nul chars) = no_nul line).
    { rewrite Hc, upto_nul_line. destruct (no_nul line); [apply has_newline_snoc|].
      apply upto_nul_no_newline, first_line_no_newline. }
    assert (Hlab : chomp (upto_nul chars) = upto_nul line).
    { rewrite Hc, upto_nul_line. destruct (no_nul line) eqn:Hnn.
      - rewrite chomp_snoc. by rewrite upto_nul_id.
      - apply chomp_no_newline, upto_nul_no_newline, first_line_no_newline. }
    rewrite Hseen, Hfits, Hr. cbn [andb].
    split; [destruct (no_nul line); cbn [negb]; by rewrite ?app_nil_r|]. split; [|done].
    rewrite Hs2, Hlab. by rewrite take_ge by (fold line; lia).
  - (* no newline among the characters read *)
    assert (Hfits : fits = false).
    { unfold fits. destruct (Z.ltb_spec (Z.of_nat (length line)) (cap - 1)); [|done].
      rewrite Hl by lia. done. }
    rewrite (upto_nul_no_newline _ Hn), Hfits, Hr. cbn [andb negb].
    split; [done|]. split; [|done].
    rewrite Hs2, <- Hc. f_equal. apply chomp_no_newline. by apply upto_nul_no_newline.
Qed.

(** [read_label_bounded(dst, cap)] with [2 <= cap <= INT_MAX], a
    destination of [cap] bytes, and input to read, whatever its bytes: the
    call returns; the label at [dst] is the first line up to its first
    NUL, cut to [cap - 1] characters, so for a line without NUL the line
    itself cut to [cap - 1]; the warning is printed unless the line and
    its newline fitted in and the line has no NUL; the whole line has been
    consumed, newline included, whether it was cut or not, and when a line
    that fitted in has a NUL, taken for a cut, the line after it as well;
    nothing outside the [cap] bytes of the destination has changed. *)
Theorem read_label_bounded_line (m : mem) (input : list Z) (o : list output)
    (b : block) (off : Z) (obj : list Z) (cap : Z) :
  m !! b = Some obj -> 0 <= off -> off + cap <= Z.of_nat (length obj) ->
  2 <= cap <= INT_MAX -> input <> [] ->
  let line := first_line input in
  let fits := (Z.of_nat (length line) <? cap - 1) && has_newline input in
  (exists m',
     read_label_bounded {| wmem := m; stdin := input; out := o |} (Ptr b off) cap
       = Ok {| wmem := m';
               stdin := if fits && negb (no_nul line)
                        then flush_line (flush_line input) else flush_line input;
               out := (o ++ [OPrompt (cap - 1)])
                      ++ (if fits && no_nul line then [] else [OWarnInput (cap - 1)]) |} /\
     cstring m' (Ptr b off) = Some (upto_nul (take (Z.to_nat (cap - 1)) line)) /\
     (forall p, ~ inside p b off (off + cap) -> load m' p = load m p) /\
     forall b', b' <> b -> m' !! b' = m !! b') /\
  (no_nul line = true ->
     upto_nul (take (Z.to_nat (cap - 1)) line) = take (Z.to_nat (cap - 1)) line).
Proof.
  intros Hb Hoff Hroom Hcap Hin line fits. split.
  - by apply (read_label_any m input o b off obj cap).
  - intros Hnn. by apply upto_nul_id, no_nul_take.
Qed.

(** The edges of [read_label_bounded], on a destination that has a byte
    at [dst]: at end-of-file it reports the missing input and stores the
    empty string; with [cap = 0] it does the same whatever the input is,
    storing one byte into a destination said to have none; with
    [cap = 1] it stores the empty string, warns and consumes the line. *)
Theorem read_label_bounded_edges (m : mem) (input : list Z) (o : list output)
    (b : block) (off : Z) (obj : list Z) :
  m !! b = Some obj -> 0 <= off < Z.of_nat (length obj) ->
  let empty := <[b := <[Z.to_nat off := 0]> obj]> m in
  (forall cap, 2 <= cap <= INT_MAX ->
     read_label_bounded {| wmem := m; stdin := []; out := o |} (Ptr b off) cap
       = Ok {| wmem := empty; stdin := []; out := (o ++ [OPrompt (cap - 1)]) ++ [ONoInput] |}) /\
  read_label_bounded {| wmem := m; stdin := input; out := o |} (Ptr b off) 0
    = Ok {| wmem := empty; stdin := input; out := (o ++ [OPrompt 0]) ++ [ONoInput] |} /\
  read_label_bounded {| wmem := m; stdin := input; out := o |} (Ptr b off) 1
    = Ok {| wmem := empty; stdin := flush_line input;
            out := (o ++ [OPrompt 0]) ++ [OWarnInput 0] |} /\
  cstring empty (Ptr b off) = Some [].
Proof.
  intros Hb Hoff empty.
  assert (Hst : store m (Ptr b off) 0 = Some empty).
  { simpl. destruct (Z.ltb_spec off 0); [lia|]. rewrite Hb.
    by destruct (decide (Z.to_nat off < length obj)%nat); [|lia]. }
  assert (Hlt : (b < length m)%nat) by (by apply lookup_lt_Some in Hb).
  assert (Hs : cstring empty (Ptr b off) = Some []).
  { unfold cstring, bytes_from, empty. destruct (Z.ltb_spec off 0); [lia|].
    rewrite list_lookup_insert_eq by done.
    rewrite drop_insert_ge by lia. rewrite Nat.sub_diag.
    destruct (drop (Z.to_nat off) obj) as [|x l] eqn:Hd.
    { apply (f_equal length) in Hd. rewrite length_drop in Hd. simpl in Hd. lia. }
    done. }
  split_and!.
  - intros cap Hcap. unfold read_label_bounded, fgets. cbn [wmem stdin out].
    rewrite wrap_int_id by (unfold INT_MAX in *; lia).
    destruct (Z.eqb_spec cap 0); [lia|]. destruct (Z.leb_spec cap 0); [lia|].
    destruct (Z.eqb_spec cap 1); [lia|]. by rewrite Hst.
  - unfold read_label_bounded, fgets. cbn [wmem stdin out].
    change (wrap_int 0) with 0. change (0 <=? 0) with true. change (0 =? 0) with true.
    cbv iota. by rewrite Hst.
  - unfold read_label_bounded, fgets. cbn [wmem stdin out].
    change (wrap_int 1) with 1. change (1 <=? 0) with false. change (1 =? 1) with true.
    cbv iota. rewrite Hst. unfold strchr_null. rewrite Hs.
    cbn [fmap option_fmap option_map existsb negb].
    unfold chomp_newline. rewrite (strlen_cstring _ _ _ Hs). cbn [length].
    change (Z.of_nat 0 =? 0) with true. cbv iota.
    change (1 =? 0) with false. cbv iota. change (wrap_size (1 - 1)) with 0. done.
  - done.
Qed.

Lemma read_label_bounded_edges_witness :
  let m := [replicate 16 7] in
  read_label_bounded {| wmem := m; stdin := [104; 105; 10; 33]; out := [] |} (Ptr 0 0) 0
    = Ok {| wmem := [0 :: replicate 15 7]; stdin := [104; 105; 10; 33];
            out := [OPrompt 0; ONoInput] |}.
Proof.
  refine (proj1 (proj2 (read_label_bounded_edges [replicate 16 7] [104; 105; 10; 33] []
                          0%nat 0 (replicate 16 7) _ _))).
  - reflexivity.
  - simpl. lia.
Defined.

(** *** [snprintf] *)

Lemma snprintf_stores (m : mem) (b : block) (obj : list Z) (size : Z) (text : list Z) :
  m !! b = Some obj -> 1 <= size <= Z.of_nat (length obj) ->
  Z.of_nat (length text) <= INT_MAX -> Forall (fun c => c <> 0) text ->
  let m' := <[b := write_at obj 0 (take (Z.to_nat (size - 1)) text ++ [0])]> m in
  snprintf m (Ptr b 0) size text = Ok (m', Z.of_nat (length text)) /\
  cstring m' (Ptr b 0) = Some (take (Z.to_nat (size - 1)) text) /\
  forall b' off, b' <> b -> cstring m' (Ptr b' off) = cstring m (Ptr b' off).
Proof.
  intros Hb Hsize Hlen Hnz m'.
  assert (Hroom : (Z.to_nat 0 + length (take (Z.to_nat (size - 1)) text ++ [0%Z])
                   <= length obj)%nat).
  { rewrite length_app, length_take. simpl. lia. }
  split; [|split].
  - unfold snprintf. destruct (Z.eqb_spec size 0); [lia|].
    rewrite (store_bytes_ok _ m b 0 obj) by first [done | lia].
    rewrite wrap_int_id by (unfold INT_MAX in *; lia). done.
  - apply (cstring_written m b obj 0); auto; [lia|]. by apply Forall_take.
  - intros b' off Hne. by apply cstring_other.
Qed.

Lemma bytes_nonzero (s : string) :
  forallb (fun c => negb (c =? 0)) (bytes_of_string s) = true ->
  Forall (fun c => c <> 0) (bytes_of_string s).
Proof.
  intros H. apply Forall_forall. intros c Hc. apply list_elem_of_In in Hc.
  rewrite forallb_forall in H. specialize (H c Hc).
  by destruct (Z.eqb_spec c 0).
Qed.

Lemma cstring_nonzero m p s : cstring m p = Some s -> Forall (fun c => c <> 0) s.
Proof.
  destruct p as [|b off]; [done|]. intros Hs.
  by destruct (cstring_inv _ _ _ _ Hs) as (_ & _ & _ & _ & _ & _ & H).
Qed.

Lemma cstring_bound m b off s o :
  cstring m (Ptr b off) = Some s -> m !! b = Some o -> (length s < length o)%nat.
Proof.
  intros Hs Ho. destruct (cstring_inv _ _ _ _ Hs) as (o' & Ho' & _ & _ & _ & Hlt & _).
  simplify_eq. lia.
Qed.

Lemma cstring_same_block (m m' : mem) b off :
  m' !! b = m !! b -> cstring m' (Ptr b off) = cstring m (Ptr b off).
Proof. intros H. unfold cstring, bytes_from. by rewrite H. Qed.

(** [read_label_bounded] at end-of-file. *)
Lemma read_label_eof (m : mem) (o : list output) (b : block) (off : Z) (obj : list Z)
    (cap : Z) :
  m !! b = Some obj -> 0 <= off < Z.of_nat (length obj) -> 2 <= cap <= INT_MAX ->
  let empty := <[b := <[Z.to_nat off := 0]> obj]> m in
  read_label_bounded {| wmem := m; stdin := []; out := o |} (Ptr b off) cap
    = Ok {| wmem := empty; stdin := []; out := (o ++ [OPrompt (cap - 1)]) ++ [ONoInput] |} /\
  cstring empty (Ptr b off) = Some [].
Proof.
  intros Hb Hoff Hcap empty.
  assert (Hst : store m (Ptr b off) 0 = Some empty).
  { simpl. destruct (Z.ltb_spec off 0); [lia|]. rewrite Hb.
    by destruct (decide (Z.to_nat off < length obj)%nat); [|lia]. }
  assert (Hlt : (b < length m)%nat) by (by apply lookup_lt_Some in Hb).
  split.
  - unfold read_label_bounded, fgets. cbn [wmem stdin out].
    rewrite wrap_int_id by (unfold INT_MAX in *; lia).
    destruct (Z.eqb_spec cap 0); [lia|]. destruct (Z.leb_spec cap 0); [lia|].
    destruct (Z.eqb_spec cap 1); [lia|]. by rewrite Hst.
  - unfold cstring, bytes_from, empty. destruct (Z.ltb_spec off 0); [lia|].
    rewrite list_lookup_insert_eq by done.
    rewrite drop_insert_ge by lia. rewrite Nat.sub_diag.
    destruct (drop (Z.to_nat off) obj) as [|x l] eqn:Hd; [|done].
    apply (f_equal length) in Hd. rewrite length_drop in Hd. simpl in Hd. lia.
Qed.

(** [read_label_bounded] on any input, end-of-file included: it returns
    and leaves as label the first line up to its first NUL, cut to
    [cap - 1] characters. *)
Lemma read_label_total (m : mem) (input : list Z) (o : list output)
    (b : block) (off : Z) (obj : list Z) (cap : Z) :
  m !! b = Some obj -> 0 <= off -> off + cap <= Z.of_nat (length obj) ->
  2 <= cap <= INT_MAX ->
  exists w1,
    read_label_bounded {| wmem := m; stdin := input; out := o |} (Ptr b off) cap = Ok w1 /\
    cstring (wmem w1) (Ptr b off)
      = Some (upto_nul (take (Z.to_nat (cap - 1)) (first_line input))) /\
    forall b', b' <> b -> wmem w1 !! b' = m !! b'.
Proof.
  intros Hb Hoff Hroom Hcap. destruct input as [|c input'].
  - destruct (read_label_eof m o b off obj cap Hb) as [Hr Hs]; [lia|done|].
    eexists. split; [exact Hr|]. split.
    + cbn [wmem first_line]. by rewrite take_nil.
    + intros b' Hne. cbn [wmem]. by rewrite list_lookup_insert_ne.
  - destruct (read_label_any m (c :: input') o b off obj cap Hb)
      as (m1 & Hr & Hs & _ & Hbl); try done.
    eexists. split; [exact Hr|]. by split.
Qed.

(** Part 5 from the input to the banner of a thread, with the arrays of
    the program ([label[16]], [tag[20]], [local[24]]) and a thread name
    [name], for every input, end-of-file and NUL bytes included. The
    three calls return. The label is the first line up to its first NUL,
    cut to 15 characters. The tag is "TAG:" and the label, always whole:
    the warning of [main] is never printed. The banner is "[", the tag,
    ":", the name, "]" cut to 23 characters, and [fn_bounds] warns exactly
    when it is cut; for a name of two characters, as "T1" and "T2", that
    is when the label has 15 characters, which for a line without NUL
    among its first 15 bytes is when the line has 15 characters or
    more. *)
Theorem part5_banner (m : mem) (input : list Z) (o : list output)
    (bl bt bloc bn : block) (offn : Z) (objl objt objloc name : list Z) :
  m !! bl = Some objl -> Z.of_nat (length objl) = label_size ->
  m !! bt = Some objt -> Z.of_nat (length objt) = tag_size ->
  m !! bloc = Some objloc -> Z.of_nat (length objloc) = local_size ->
  bl <> bt -> bl <> bloc -> bt <> bloc -> bn <> bl -> bn <> bt -> bn <> bloc ->
  cstring m (Ptr bn offn) = Some name -> Z.of_nat (length name) + 22 <= INT_MAX ->
  let line := first_line input in
  let lab := upto_nul (take 15 line) in
  let tag_text := bytes_of_string "TAG:" ++ lab in
  let banner := bytes_of_string "[" ++ tag_text ++ bytes_of_string ":" ++ name
                ++ bytes_of_string "]" in
  let cut := 24 <=? Z.of_nat (length banner) in
  exists w1 w2 w3,
    read_label_bounded {| wmem := m; stdin := input; out := o |} (Ptr bl 0) label_size = Ok w1 /\
    cstring (wmem w1) (Ptr bl 0) = Some lab /\
    make_tag w1 (Ptr bt 0) (Ptr bl 0) = Ok w2 /\
    fn_bounds w2 (Ptr bloc 0) (Ptr bt 0) (Ptr bn offn) = Ok w3 /\
    stdin w3 = stdin w1 /\
    out w2 = out w1 ++ [OSafeTag tag_text] /\
    out w3 = (if cut then out w2 ++ [OWarnLocal name] else out w2)
             ++ [OBanner (take 23 banner)] /\
    cstring (wmem w3) (Ptr bloc 0) = Some (take 23 banner) /\
    (length name = 2%nat -> cut = (15 <=? Z.of_nat (length lab))) /\
    (no_nul (take 15 line) = true ->
       Z.of_nat (length lab) = Z.min 15 (Z.of_nat (length line))).
Proof.
  intros Hbl Hll Hbt Hlt Hbloc Hlloc Hne1 Hne2 Hne3 Hne4 Hne5 Hne6 Hname Hnlen
    line lab tag_text banner cut.
  unfold label_size, tag_size, local_size in *.
  destruct (read_label_total m input o bl 0 objl 16 Hbl) as (w1 & Hr1 & Hs1 & Hfr1);
    try done; try lia; try (unfold INT_MAX; lia).
  destruct w1 as [m1 in1 o1]. cbn [wmem] in Hs1, Hfr1.
  eexists _, _, _. split; [exact Hr1|].
  change (Z.to_nat (16 - 1)) with 15%nat in Hs1. fold line lab in Hs1.
  split; [exact Hs1|].
  assert (Hlab : (length lab <= 15)%nat).
  { unfold lab. pose proof (upto_nul_length (take 15 line)) as Hu.
    rewrite length_take in Hu. lia. }
  assert (Hnzlab : Forall (fun c => c <> 0) lab) by apply upto_nul_nonzero.
  assert (Hnzname : Forall (fun c => c <> 0) name) by (by eapply cstring_nonzero).
  assert (Htg : Forall (fun c => c <> 0) (bytes_of_string "TAG:")) by (by apply bytes_nonzero).
  assert (Hnztag : Forall (fun c => c <> 0) tag_text) by (by apply Forall_app).
  assert (Hlentag : length tag_text = (4 + length lab)%nat).
  { unfold tag_text. by rewrite length_app. }
  (* the tag *)
  assert (Hbt1 : m1 !! bt = Some objt) by (by rewrite Hfr1).
  destruct (snprintf_stores m1 bt objt 20 tag_text) as (Hsn2 & Hs2 & Hfr2);
    try done; try lia; try (unfold INT_MAX; lia).
  change (Z.to_nat (20 - 1)) with 19%nat in *.
  rewrite (take_ge tag_text 19) in * by lia.
  set (m2 := <[bt := write_at objt 0 (tag_text ++ [0])]> m1) in *.
  assert (Hmk : make_tag {| wmem := m1; stdin := in1; out := o1 |} (Ptr bt 0) (Ptr bl 0)
                = Ok {| wmem := m2; stdin := in1; out := o1 ++ [OSafeTag tag_text] |}).
  { unfold make_tag. cbn [wmem stdin out]. rewrite Hs1. fold tag_text.
    unfold tag_size. rewrite Hsn2, Hs2.
    change (wrap_int 20) with 20.
    destruct (Z.geb_spec (Z.of_nat (length tag_text)) 20); [lia|]. done. }
  split; [exact Hmk|].
  (* the banner *)
  assert (Hname2 : cstring m2 (Ptr bn offn) = Some name).
  { unfold m2. rewrite cstring_other by done.
    rewrite (cstring_same_block m m1) by (by apply Hfr1). done. }
  assert (Hnzb : Forall (fun c => c <> 0) banner).
  { unfold banner. repeat (apply Forall_app; split); auto; by apply bytes_nonzero. }
  assert (Hbloc2 : m2 !! bloc = Some objloc).
  { unfold m2. rewrite list_lookup_insert_ne by done. by rewrite Hfr1. }
  assert (Hlenb : Z.of_nat (length banner) <= INT_MAX).
  { unfold banner. rewrite !length_app, Hlentag.
    cbn [bytes_of_string list_ascii_of_string map length]. lia. }
  destruct (snprintf_stores m2 bloc objloc 24 banner) as (Hsn3 & Hs3 & Hfr3);
    try done; try lia.
  change (Z.to_nat (24 - 1)) with 23%nat in *.
  set (m3 := <[bloc := write_at objloc 0 (take 23 banner ++ [0])]> m2) in *.
  assert (Hfn : fn_bounds {| wmem := m2; stdin := in1; out := o1 ++ [OSafeTag tag_text] |}
                (Ptr bloc 0) (Ptr bt 0) (Ptr bn offn)
              = Ok {| wmem := m3; stdin := in1;
                      out := (if cut
                              then (o1 ++ [OSafeTag tag_text]) ++ [OWarnLocal name]
                              else o1 ++ [OSafeTag tag_text])
                             ++ [OBanner (take 23 banner)] |}).
  { unfold fn_bounds. cbn [wmem stdin out]. rewrite Hs2, Hname2. fold banner.
    unfold local_size. rewrite Hsn3, Hs3.
    rewrite (Hfr3 bn offn) by done. rewrite Hname2.
    change (wrap_int 24) with 24. fold cut.
    unfold cut. by destruct (Z.geb_spec (Z.of_nat (length banner)) 24);
      destruct (Z.leb_spec 24 (Z.of_nat (length banner))); try lia. }
  split; [exact Hfn|]. split; [reflexivity|]. split; [reflexivity|].
  split; [reflexivity|]. split; [exact Hs3|]. split.
  - intros Hn2. unfold cut. apply Bool.eq_iff_eq_true. rewrite !Z.leb_le.
    unfold banner. rewrite !length_app, Hlentag, Hn2.
    cbn [bytes_of_string list_ascii_of_string map length]. lia.
  - intros Hnn. unfold lab. rewrite (upto_nul_id _ Hnn), length_take. lia.
Qed.

Lemma load_cstring m p t :
  cstring m p = Some t -> load m p = Some (match t with [] => 0 | c :: _ => c end).
Proof.
  destruct p as [|b off]; [done|]. intros Hs.
  destruct (cstring_inv _ _ _ _ Hs) as (o & Ho & Hoff & Hnul & Ht & Hlen & _).
  simpl. destruct (Z.ltb_spec off 0); [lia|]. rewrite Ho.
  destruct (find_nul_spec _ _ Hnul) as [Hz _].
  replace (Z.to_nat off) with (Z.to_nat off + 0)%nat by lia. rewrite <- lookup_drop.
  destruct t as [|c t]; [done|].
  destruct (drop (Z.to_nat off) o) as [|x l]; [done|]. simpl in Ht. by simplify_eq.
Qed.

Lemma has_newline_middle (l r : list Z) : has_newline (l ++ newline :: r) = true.
Proof.
  unfold has_newline. rewrite existsb_app. cbn [existsb]. rewrite Z.eqb_refl.
  by rewrite orb_true_r.
Qed.

Lemma lines_split (l r : list Z) :
  Forall (fun c => c <> newline) l ->
  first_line (l ++ newline :: r) = l /\ flush_line (l ++ newline :: r) = r.
Proof.
  intros Hl. induction Hl as [|c l Hc _ [IH1 IH2]]; cbn [app first_line flush_line].
  - by rewrite Z.eqb_refl.
  - destruct (Z.eqb_spec c newline); [done|]. by rewrite IH1, IH2.
Qed.

(** The label read and the pause that follows, on input made of a first
    line, a second line and the rest. When the first line has no NUL, or
    does not fit in [cap - 1] characters with its newline, input stays in
    step with the lines typed in: the label read consumes the first line,
    however long, and the pause of [wait_for_enter] prints its title (when
    it has one), consumes the second line and nothing more. When the first
    line fits and has a NUL, the label read takes it for a cut line and
    consumes the second line as well, and the pause then consumes a line
    of the rest. The pause leaves the memory as it is. *)
Theorem label_then_pause (m : mem) (o : list output) (b : block) (obj : list Z)
    (cap : Z) (line1 line2 rest : list Z) (bt : block) (offt : Z) (title : list Z) :
  m !! b = Some obj -> cap <= Z.of_nat (length obj) -> 2 <= cap <= INT_MAX ->
  Forall (fun c => c <> newline) line1 ->
  Forall (fun c => c <> newline) line2 ->
  bt <> b -> cstring m (Ptr bt offt) = Some title ->
  let swallowed := (Z.of_nat (length line1) <? cap - 1) && negb (no_nul line1) in
  exists w1 w2,
    read_label_bounded {| wmem := m; stdin := line1 ++ newline :: line2 ++ newline :: rest;
                          out := o |} (Ptr b 0) cap = Ok w1 /\
    cstring (wmem w1) (Ptr b 0) = Some (upto_nul (take (Z.to_nat (cap - 1)) line1)) /\
    stdin w1 = (if swallowed then rest else line2 ++ newline :: rest) /\
    wait_for_enter w1 (Ptr bt offt) = Ok w2 /\
    stdin w2 = (if swallowed then flush_line rest else rest) /\
    wmem w2 = wmem w1 /\
    out w2 = (match title with [] => out w1 | _ => out w1 ++ [OTitle title] end)
             ++ [OPressEnter].
Proof.
  intros Hb Hcap Hrange H1 H2 Hne Htitle swallowed.
  destruct (lines_split line1 (line2 ++ newline :: rest) H1) as [Hline Hflush].
  destruct (lines_split line2 rest H2) as [_ Hflush2].
  destruct (read_label_any m (line1 ++ newline :: line2 ++ newline :: rest) o
              b 0 obj cap Hb) as (m1 & Hr1 & Hs1 & _ & Hfr1); try done; try lia.
  { by destruct line1. }
  rewrite Hline, Hflush, Hflush2, has_newline_middle, andb_true_r in Hr1.
  rewrite Hline in Hs1. fold swallowed in Hr1.
  assert (Ht1 : cstring m1 (Ptr bt offt) = Some title).
  { rewrite (cstring_same_block m m1) by (by apply Hfr1). done. }
  pose proof (load_cstring _ _ _ Ht1) as Hld.
  assert (Hnext : flush_line (if swallowed then rest else line2 ++ newline :: rest)
                  = if swallowed then flush_line rest else rest).
  { destruct swallowed; [done|exact Hflush2]. }
  destruct title as [|c t].
  - eexists _, _. split; [exact Hr1|]. split; [exact Hs1|]. split; [reflexivity|].
    unfold wait_for_enter. cbn [wmem stdin out]. rewrite Hld, Hnext.
    rewrite Z.eqb_refl. by split_and!.
  - apply cstring_nonzero in Htitle. apply Forall_cons in Htitle as [Hc _].
    eexists _, _. split; [exact Hr1|]. split; [exact Hs1|]. split; [reflexivity|].
    unfold wait_for_enter. cbn [wmem stdin out]. rewrite Hld, Hnext.
    rewrite Ht1. destruct (Z.eqb_spec c 0); [done|]. by split_and!.
Qed.

(** A first line "a", NUL, "b" read into eight bytes: the label is "a",
    the second line is consumed by the label read and the pause takes
    the third. *)
Lemma label_then_pause_witness :
  exists w1 w2,
    read_label_bounded {| wmem := [replicate 8 0; literal "go"];
                          stdin := [97; 0; 98] ++ newline :: [99] ++ newline :: [100; 10; 33];
                          out := [] |} (Ptr 0 0) 8 = Ok w1 /\
    cstring (wmem w1) (Ptr 0 0) = Some [97] /\
    stdin w1 = [100; 10; 33] /\
    wait_for_enter w1 (Ptr 1 0) = Ok w2 /\
    stdin w2 = [33] /\ wmem w2 = wmem w1 /\
    out w2 = (out w1 ++ [OTitle (bytes_of_string "go")]) ++ [OPressEnter].
Proof.
  refine (label_then_pause [replicate 8 0; literal "go"] [] 0%nat (replicate 8 0) 8
            [97; 0; 98] [99] [100; 10; 33] 1%nat 0 (bytes_of_string "go") _ _ _ _ _ _ _).
  - reflexivity.
  - simpl. lia.
  - unfold INT_MAX. lia.
  - repeat (constructor; [discriminate|]). constructor.
  - repeat (constructor; [discriminate|]). constructor.
  - discriminate.
  - reflexivity.
Defined.

Lemma chomp_newline_chomps_witness :
  exists m',
    chomp_newline [literal "hi" ++ [7]; [104; 105; 10; 0; 9]] (Ptr 1 0) = Ok m' /\
    cstring m' (Ptr 1 0) = Some (chomp [104; 105; 10]) /\
    Z.of_nat (length [104; 105; 10]) - 1 <= Z.of_nat (length (chomp [104; 105; 10]))
      <= Z.of_nat (length [104; 105; 10]) /\
    (forall p, p <> Ptr 1 (0 + Z.of_nat (length [104; 105; 10]) - 1) ->
       load m' p = load [literal "hi" ++ [7]; [104; 105; 10; 0; 9]] p) /\
    forall b', b' <> 1%nat -> m' !! b' = [literal "hi" ++ [7]; [104; 105; 10; 0; 9]] !! b'.
Proof.
  apply (chomp_newline_chomps [literal "hi" ++ [7]; [104; 105; 10; 0; 9]] 1%nat 0
           [104; 105; 10]).
  reflexivity.
Defined.

(** A line "a", NUL, "b" read into eight bytes: the label is "a", the
    warning is printed although the line fitted in, and the next line is
    consumed too. *)
Lemma read_label_bounded_line_witness :
  exists m',
    read_label_bounded {| wmem := [replicate 8 0]; stdin := [97; 0; 98; 10; 99; 10; 33];
                          out := [] |} (Ptr 0 0) 8
      = Ok {| wmem := m'; stdin := [33]; out := [OPrompt 7; OWarnInput 7] |} /\
    cstring m' (Ptr 0 0) = Some [97].
Proof.
  destruct (proj1 (read_label_bounded_line [replicate 8 0] [97; 0; 98; 10; 99; 10; 33] []
                     0%nat 0 (replicate 8 0) 8 eq_refl ltac:(lia) ltac:(simpl; lia)
                     ltac:(unfold INT_MAX; lia) ltac:(discriminate)))
    as (m' & H1 & H2 & _).
  exists m'. split; [exact H1|exact H2].
Defined.

Lemma part5_banner_witness :
  let m := [replicate 16 0; replicate 20 0; replicate 24 0; literal "T1"] in
  let input := bytes_of_string "abcdefghijklmnopq" ++ [newline] in
  exists w1 w2 w3,
    read_label_bounded {| wmem := m; stdin := input; out := [] |} (Ptr 0 0) label_size = Ok w1 /\
    make_tag w1 (Ptr 1 0) (Ptr 0 0) = Ok w2 /\
    fn_bounds w2 (Ptr 2 0) (Ptr 1 0) (Ptr 3 0) = Ok w3 /\
    cstring (wmem w3) (Ptr 2 0) = Some (bytes_of_string "[TAG:abcdefghijklmno:T1").
Proof.
  intros m input.
  destruct (part5_banner m input [] 0%nat 1%nat 2%nat 3%nat 0
              (replicate 16 0) (replicate 20 0) (replicate 24 0) (bytes_of_string "T1"))
    as (w1 & w2 & w3 & H1 & _ & H2 & H3 & _ & _ & _ & H4 & _);
    try reflexivity; try discriminate;
    try (unfold INT_MAX; cbn; lia); try (cbn; discriminate).
  exists w1, w2, w3. split; [exact H1|]. split; [exact H2|]. split; [exact H3|]. exact H4.
Defined.

End StdioFacts.


(** * The formatting routines under threads *)

Module FormatThreads.
Import Mem Formatters.

(** The routine a worker calls: [upper_reentrant] (w6, by
    [thread_fn_ok]), or the routine on the static buffer,
    [upper_not_reentrant] (w6, by [thread_fn_bad]) and
    [not_reentrant_upper] (w3, by [call_not_reentrant]). *)
Inductive routine := Reentrant | Static.

(** Where a worker is in the routine. The length of the source is taken
    in one step ([strlen] reads the source only); after that every load
    and every store is a step of its own. *)
Inductive fpc :=
| FCall                  (* before the first statement of the routine *)
| FLoad (i n : Z)        (* the test [i < n] and the load of [s[i]] *)
| FStore (i n c : Z)     (* the store [out[i] = (char)toupper(c)] *)
| FNul (n : Z)           (* the store [out[n] = '\0'] *)
| FPublish               (* [*(a->out) = p], after the routine has returned *)
| FReturned.

(** A worker: its routine and arguments (for [Static] the destination is
    the static buffer and the capacity its size), where it is, and for
    [thread_fn_bad] and [call_not_reentrant] the pointer it has put in
    [*(a->out)]. *)
Record worker := {
  kind : routine; w_in : ptr; w_out : ptr; w_cap : Z;
  at_pc : fpc; got : option ptr
}.

Definition goto (w : worker) (p : fpc) : worker :=
  {| kind := kind w; w_in := w_in w; w_out := w_out w; w_cap := w_cap w;
     at_pc := p; got := got w |}.

Definition publish (w : worker) : worker :=
  {| kind := kind w; w_in := w_in w; w_out := w_out w; w_cap := w_cap w;
     at_pc := FReturned; got := Some (w_out w) |}.

(** [args_ok_t] *)
Record args_ok := { a_in : ptr; a_out : ptr; a_cap : Z }.

(** [thread_fn_ok(&a2)] *)
Definition thread_fn_ok (a2 : args_ok) : worker :=
  {| kind := Reentrant; w_in := a_in a2; w_out := a_out a2; w_cap := a_cap a2;
     at_pc := FCall; got := None |}.

(** [thread_fn_bad(&{in, &out})] and [call_not_reentrant(&{in, &outptr})],
    the static buffer being the object [buf]. *)
Definition thread_fn_bad (buf : block) (s : ptr) : worker :=
  {| kind := Static; w_in := s; w_out := Ptr buf 0; w_cap := buf_size;
     at_pc := FCall; got := None |}.
Definition call_not_reentrant := thread_fn_bad.

(** One step of a worker: [None] when it has returned, [Some Fault] when
    the step is an access outside an object. *)
Definition step (m : mem) (w : worker) : option (result (mem * worker)) :=
  match at_pc w with
  | FCall =>
      if match kind w with Reentrant => w_cap w =? 0 | Static => false end
      then Some (Ok (m, goto w FReturned))
      else
        match strlen m (w_in w) with
        | None => Some Fault
        | Some len =>
            let n := if len >=? w_cap w then wrap_size (w_cap w - 1) else len in
            Some (Ok (m, goto w (FLoad 0 n)))
        end
  | FLoad i n =>
      if i <? n then
        match load m (ptr_add (w_in w) i) with
        | None => Some Fault
        | Some c => Some (Ok (m, goto w (FStore i n c)))
        end
      else Some (Ok (m, goto w (FNul n)))
  | FStore i n c =>
      match store m (ptr_add (w_out w) i) (toupper c) with
      | None => Some Fault
      | Some m' => Some (Ok (m', goto w (FLoad (i + 1) n)))
      end
  | FNul n =>
      match store m (ptr_add (w_out w) n) 0 with
      | None => Some Fault
      | Some m' =>
          Some (Ok (m', goto w match kind w with Static => FPublish | Reentrant => FReturned end))
      end
  | FPublish => Some (Ok (m, publish w))
  | FReturned => None
  end.

(** The threads of a scenario over one memory; a schedule names the
    thread of each step. *)
Inductive outcome := Reached (m : mem) (ws : list worker) | Crashed | Refused.

Fixpoint run (sched : list nat) (m : mem) (ws : list worker) : outcome :=
  match sched with
  | [] => Reached m ws
  | t :: rest =>
      match ws !! t with
      | None => Refused
      | Some w =>
          match step m w with
          | None => Refused
          | Some Fault => Crashed
          | Some (Ok (m', w')) => run rest m' (<[t := w']> ws)
          end
      end
  end.

Definition returned (w : worker) : bool :=
  match at_pc w with FReturned => true | _ => false end.

End FormatThreads.

Module FormatThreadFacts.
Import Mem Formatters FormatterFacts FormatThreads.

Lemma write_at_snoc o off bytes x :
  (off + length bytes < length o)%nat ->
  <[(off + length bytes)%nat := x]> (write_at o off bytes) = write_at o off (bytes ++ [x]).
Proof.
  intros H. unfold write_at.
  rewrite insert_app_r_alt by (rewrite length_take; lia).
  rewrite insert_app_r_alt by (rewrite length_take; lia).
  rewrite length_take, length_app, Nat.min_l by lia. simpl.
  replace (off + length bytes - off - length bytes)%nat with 0%nat by lia.
  destruct (lookup_lt_is_Some_2 o (off + length bytes)%nat H) as [y Hy].
  rewrite (drop_S _ _ _ Hy). simpl. rewrite <- app_assoc. simpl.
  by replace (off + (length bytes + 1))%nat with (S (off + length bytes)) by lia.
Qed.

Lemma load_cstring_at m b off s (i : nat) c :
  cstring m (Ptr b off) = Some s -> s !! i = Some c ->
  load m (Ptr b (off + Z.of_nat i)) = Some c.
Proof.
  intros Hs Hi. destruct (cstring_inv _ _ _ _ Hs) as (o & Ho & Hoff & _ & Hsrc & Hlen & _).
  simpl. destruct (Z.ltb_spec (off + Z.of_nat i) 0); [lia|]. rewrite Ho.
  rewrite Hsrc in Hi. apply lookup_take_Some in Hi as [Hi _].
  rewrite lookup_drop in Hi. rewrite <- Hi. f_equal. lia.
Qed.

Lemma take_min_length {A} (l : list A) (k : nat) : take (k `min` length l) l = take k l.
Proof.
  destruct (decide (k <= length l)%nat).
  - by rewrite Nat.min_l.
  - rewrite Nat.min_r by lia. rewrite firstn_all. by rewrite take_ge by lia.
Qed.

Definition blk (p : ptr) : option block :=
  match p with Ptr b _ => Some b | Null => None end.

Definition args_of (w : worker) : args_ok :=
  {| a_in := w_in w; a_out := w_out w; a_cap := w_cap w |}.

(** The arguments of a worker of Part 4: a string in memory, and room for
    [cap] bytes at the destination. *)
Definition placed (m0 : mem) (a : args_ok) : Prop :=
  exists bs offs bo offo src o,
    a_in a = Ptr bs offs /\ a_out a = Ptr bo offo /\
    cstring m0 (Ptr bs offs) = Some src /\ m0 !! bo = Some o /\
    0 <= offo /\ 0 < a_cap a <= SIZE_MAX /\ offo + a_cap a <= Z.of_nat (length o).

(** What a worker has written when it is at [p]: the converted characters
    before its index, and at the end the terminator as well. *)
Definition prog (src o : list Z) (offo cap : Z) (cur : option (list Z)) (p : fpc) : Prop :=
  let n := Z.min (Z.of_nat (length src)) (cap - 1) in
  let upto (i : Z) := write_at o (Z.to_nat offo) (map toupper (take (Z.to_nat i) src)) in
  match p with
  | FCall => cur = Some o
  | FLoad i n' => n' = n /\ 0 <= i <= n /\ cur = Some (upto i)
  | FStore i n' c => n' = n /\ 0 <= i < n /\ src !! Z.to_nat i = Some c /\ cur = Some (upto i)
  | FNul n' => n' = n /\ cur = Some (upto n)
  | FPublish => False
  | FReturned => cur = Some (write_at o (Z.to_nat offo) (upper_truncated src cap ++ [0]))
  end.

(** The steps a worker has left. *)
Definition todo (m0 : mem) (w : worker) : nat :=
  match at_pc w with
  | FCall =>
      match strlen m0 (w_in w) with
      | Some len => 2 * Z.to_nat (Z.min len (w_cap w - 1)) + 3
      | None => 0
      end
  | FLoad i n => 2 * Z.to_nat (n - i) + 2
  | FStore i n _ => 2 * Z.to_nat (n - i) + 1
  | FNul _ => 1
  | FPublish => 1
  | FReturned => 0
  end.

Section Isolation.
Variable m0 : mem.
Variable all : list args_ok.
Hypothesis all_placed : forall a, a ∈ all -> placed m0 a.
Hypothesis out_distinct : forall i j a a',
  all !! i = Some a -> all !! j = Some a' -> i <> j -> blk (a_out a) <> blk (a_out a').
Hypothesis in_not_out : forall a a', a ∈ all -> a' ∈ all -> blk (a_in a) <> blk (a_out a').

Definition inv_w (m : mem) (w : worker) : Prop :=
  kind w = Reentrant /\
  exists bs offs bo offo src o,
    w_in w = Ptr bs offs /\ w_out w = Ptr bo offo /\
    cstring m0 (Ptr bs offs) = Some src /\ m0 !! bo = Some o /\
    0 <= offo /\ 0 < w_cap w <= SIZE_MAX /\ offo + w_cap w <= Z.of_nat (length o) /\
    prog src o offo (w_cap w) (m !! bo) (at_pc w).

Definition frame (m : mem) : Prop :=
  forall b, (forall a, a ∈ all -> blk (a_out a) <> Some b) -> m !! b = m0 !! b.

Definition G (m : mem) (ws : list worker) : Prop :=
  args_of <$> ws = all /\ (forall k w, ws !! k = Some w -> inv_w m w) /\ frame m.

Lemma G_args m ws k w : G m ws -> ws !! k = Some w -> all !! k = Some (args_of w).
Proof. intros [<- _] Hk. by rewrite list_lookup_fmap, Hk. Qed.

Lemma G_update m ws t w m' w' :
  G m ws -> ws !! t = Some w -> args_of w' = args_of w ->
  (forall b, blk (w_out w) <> Some b -> m' !! b = m !! b) ->
  inv_w m' w' -> G m' (<[t := w']> ws).
Proof.
  intros HG Ht Hargs Hframe Hw'.
  pose proof (G_args _ _ _ _ HG Ht) as Hat.
  destruct HG as (Hall & Hinv & Hfr). split; [|split].
  - rewrite list_fmap_insert, Hargs, <- Hall. apply list_insert_id.
    by rewrite list_lookup_fmap, Ht.
  - intros k u Hk. destruct (decide (k = t)) as [->|Hne].
    + rewrite list_lookup_insert_eq in Hk by (by apply lookup_lt_Some in Ht).
      by simplify_eq.
    + rewrite list_lookup_insert_ne in Hk by done.
      destruct (Hinv k u Hk) as (Hkind & bs & offs & bo & offo & src & o & Hin & Hout & Hrest).
      split; [done|]. exists bs, offs, bo, offo, src, o.
      split; [done|]. split; [done|].
      rewrite Hframe; [done|].
      assert (Hku : all !! k = Some (args_of u)).
      { rewrite <- Hall. by rewrite list_lookup_fmap, Hk. }
      pose proof (out_distinct k t _ _ Hku Hat Hne) as Hd. simpl in Hd.
      rewrite Hout in Hd. simpl in Hd. congruence.
  - intros b Hb. rewrite Hframe; [by apply Hfr|].
    apply (Hb (args_of w)). by eapply list_elem_of_lookup_2.
Qed.

Lemma source_kept m ws t w bs offs src :
  G m ws -> ws !! t = Some w -> w_in w = Ptr bs offs ->
  cstring m0 (Ptr bs offs) = Some src -> cstring m (Ptr bs offs) = Some src.
Proof.
  intros HG Ht Hin Hsrc. rewrite <- Hsrc. apply StdioFacts.cstring_same_block.
  pose proof (G_args _ _ _ _ HG Ht) as Hat.
  destruct HG as (_ & _ & Hfr). apply Hfr. intros a Ha.
  pose proof (in_not_out (args_of w) a) as Hd. simpl in Hd. rewrite Hin in Hd. simpl in Hd.
  intros Heq. apply Hd; [by eapply list_elem_of_lookup_2|done|by rewrite Heq].
Qed.

(** A worker that has not returned takes its step, and the step keeps
    the invariant. *)
Lemma G_step m ws t w :
  G m ws -> ws !! t = Some w ->
  (at_pc w = FReturned /\ step m w = None) \/
  exists m' w', step m w = Some (Ok (m', w')) /\ G m' (<[t := w']> ws) /\
                (todo m0 w' + 1 = todo m0 w)%nat.
Proof.
  intros HG Ht.
  pose proof HG as (Hall & Hinv & Hfr).
  destruct (Hinv t w Ht) as (Hkind & bs & offs & bo & offo & src & o & Hin & Hout & Hsrc0
                               & Ho & Hoffo & Hcap & Hroom & Hprog).
  pose proof (source_kept _ _ _ _ _ _ _ HG Ht Hin Hsrc0) as Hsrc.
  pose proof (StdioFacts.strlen_cstring _ _ _ Hsrc) as Hlen.
  pose proof (StdioFacts.strlen_cstring _ _ _ Hsrc0) as Hlen0.
  set (n := Z.min (Z.of_nat (length src)) (w_cap w - 1)) in *.
  assert (Hinv' : forall m' p, prog src o offo (w_cap w) (m' !! bo) p ->
                               inv_w m' (goto w p)).
  { intros m' p Hp. split; [done|]. by exists bs, offs, bo, offo, src, o. }
  assert (Hlenup : forall i : Z, 0 <= i <= n ->
            length (map toupper (take (Z.to_nat i) src)) = Z.to_nat i).
  { intros i Hi. rewrite length_map, length_take. lia. }
  unfold step, todo. destruct (at_pc w) as [|i n'|i n' c|n'| |] eqn:Hpc; simpl in Hprog.
  - (* the call *)
    right. rewrite Hkind, Hin, Hlen, Hlen0.
    destruct (Z.eqb_spec (w_cap w) 0); [lia|]. cbv zeta.
    assert ((if Z.of_nat (length src) >=? w_cap w then wrap_size (w_cap w - 1)
             else Z.of_nat (length src)) = n) as ->.
    { unfold n. destruct (Z.geb_spec (Z.of_nat (length src)) (w_cap w)).
      - rewrite wrap_size_id by lia. lia.
      - lia. }
    eexists _, _. split; [done|]. split.
    + eapply G_update; eauto. apply Hinv'. simpl. rewrite Hprog.
      split; [done|]. split; [lia|]. simpl. rewrite StdioFacts.write_at_nil; [done|lia].
    + simpl. fold n. lia.
  - (* the test and the load *)
    right. destruct Hprog as (-> & Hi & Hcur). fold n in Hi |- *.
    destruct (Z.ltb_spec i n).
    + destruct (src !! Z.to_nat i) as [c|] eqn:Hc.
      2:{ apply lookup_ge_None in Hc. lia. }
      rewrite Hin. simpl ptr_add.
      replace (offs + i) with (offs + Z.of_nat (Z.to_nat i)) by lia.
      rewrite (load_cstring_at _ _ _ _ _ _ Hsrc Hc).
      eexists _, _. split; [done|]. split.
      * eapply G_update; eauto. apply Hinv'. simpl. fold n. split; [done|].
        split; [lia|]. split; [|done].
        rewrite <- Hc. f_equal.
      * simpl. lia.
    + assert (i = n) as -> by lia.
      eexists _, _. split; [done|]. split.
      * eapply G_update; eauto. apply Hinv'. simpl. by fold n.
      * simpl. lia.
  - (* the store *)
    right. destruct Hprog as (-> & Hi & Hc & Hcur). fold n in Hi |- *.
    rewrite Hout. cbn [ptr_add store].
    destruct (Z.ltb_spec (offo + i) 0); [lia|]. rewrite Hcur.
    rewrite write_at_length by (rewrite Hlenup by lia; lia).
    destruct (decide (Z.to_nat (offo + i) < length o)%nat); [|lia].
    eexists _, _. split; [done|]. split.
    + eapply G_update; eauto.
      * intros b Hb. rewrite Hout in Hb. simpl in Hb.
        apply list_lookup_insert_ne. congruence.
      * apply Hinv'. simpl. fold n. split; [done|]. split; [lia|].
        rewrite list_lookup_insert_eq by (by apply lookup_lt_Some in Hcur).
        f_equal.
        replace (Z.to_nat (offo + i)) with
          (Z.to_nat offo + length (map toupper (take (Z.to_nat i) src)))%nat
          by (rewrite Hlenup by lia; lia).
        rewrite write_at_snoc by (rewrite Hlenup by lia; lia).
        f_equal. replace (Z.to_nat (i + 1)) with (S (Z.to_nat i)) by lia.
        rewrite (take_S_r _ _ c) by done. by rewrite map_app.
    + simpl. lia.
  - (* the terminator *)
    right. destruct Hprog as (-> & Hcur). fold n.
    rewrite Hout, Hkind. cbn [ptr_add store].
    destruct (Z.ltb_spec (offo + n) 0); [lia|]. rewrite Hcur.
    rewrite write_at_length by (rewrite Hlenup by lia; lia).
    destruct (decide (Z.to_nat (offo + n) < length o)%nat); [|lia].
    eexists _, _. split; [done|]. split.
    + eapply G_update; eauto.
      * intros b Hb. rewrite Hout in Hb. simpl in Hb.
        apply list_lookup_insert_ne. congruence.
      * apply Hinv'. simpl.
        rewrite list_lookup_insert_eq by (by apply lookup_lt_Some in Hcur).
        f_equal.
        replace (Z.to_nat (offo + n)) with
          (Z.to_nat offo + length (map toupper (take (Z.to_nat n) src)))%nat
          by (rewrite Hlenup by lia; lia).
        rewrite write_at_snoc by (rewrite Hlenup by lia; lia).
        unfold upper_truncated. do 3 f_equal.
        rewrite <- (take_min_length src (Z.to_nat (w_cap w - 1))).
        f_equal. lia.
    + simpl. lia.
  - done.
  - by left.
Qed.

Lemma G_run sched : forall m ws,
  G m ws ->
  match run sched m ws with
  | Reached m' ws' => G m' ws'
  | Crashed => False
  | Refused => True
  end.
Proof.
  induction sched as [|t rest IH]; intros m ws HG; simpl; [done|].
  destruct (ws !! t) as [w|] eqn:Ht; [|done].
  destruct (G_step _ _ _ _ HG Ht) as [[_ ->]|(m' & w' & -> & HG' & _)]; [done|].
  by apply IH.
Qed.

Lemma G_start : G m0 (thread_fn_ok <$> all).
Proof.
  split; [|split].
  - rewrite <- list_fmap_compose. rewrite <- (list_fmap_id all) at 2.
    apply list_fmap_ext. by intros _ [? ? ?] _.
  - intros k w Hk. rewrite list_lookup_fmap in Hk.
    destruct (all !! k) as [a|] eqn:Ha; [|done]. simpl in Hk. simplify_eq.
    destruct (all_placed a) as (bs & offs & bo & offo & src & o & H1 & H2 & H3 & H4 & H5 & H6 & H7).
    { by eapply list_elem_of_lookup_2. }
    split; [done|]. exists bs, offs, bo, offo, src, o. simpl.
    repeat split; try done; lia.
  - by intros b _.
Qed.

Lemma sum_todo_insert (ws : list worker) t w w' :
  ws !! t = Some w ->
  (sum_list (todo m0 <$> <[t := w']> ws) + todo m0 w
   = sum_list (todo m0 <$> ws) + todo m0 w')%nat.
Proof.
  revert t. induction ws as [|u ws IH]; intros [|t] Ht; simpl in *; try done.
  - simplify_eq. lia.
  - specialize (IH t Ht). unfold fmap in IH. lia.
Qed.

Lemma sum_todo_zero (ws : list worker) :
  sum_list (todo m0 <$> ws) = 0%nat -> Forall (fun w => todo m0 w = 0%nat) ws.
Proof.
  induction ws as [|u ws IH]; simpl; intros H; constructor; [lia|apply IH; unfold fmap; lia].
Qed.

Lemma sum_todo_pos (ws : list worker) :
  (0 < sum_list (todo m0 <$> ws))%nat -> exists t w, ws !! t = Some w /\ (0 < todo m0 w)%nat.
Proof.
  induction ws as [|u ws IH]; simpl; intros H; [lia|].
  destruct (decide (0 < todo m0 u)%nat).
  - by exists 0%nat, u.
  - destruct IH as (t & w & Ht & Hw); [unfold fmap; lia|]. by exists (S t), w.
Qed.

(** From every state of the invariant the workers can all run to their
    end. *)
Lemma G_complete k : forall m ws,
  G m ws -> sum_list (todo m0 <$> ws) = k ->
  exists sched m' ws', run sched m ws = Reached m' ws' /\
                       Forall (fun w => returned w = true) ws'.
Proof.
  induction k as [|k IH]; intros m ws HG Hk.
  - exists [], m, ws. split; [done|].
    apply Forall_lookup. intros t w Ht.
    pose proof (sum_todo_zero _ Hk) as Hz.
    rewrite Forall_lookup in Hz. specialize (Hz t w Ht).
    destruct (G_step _ _ _ _ HG Ht) as [[Hpc _]|(m' & w' & _ & _ & Hdec)]; [|lia].
    unfold returned. by rewrite Hpc.
  - destruct (sum_todo_pos ws) as (t & w & Ht & Hpos); [lia|].
    destruct (G_step _ _ _ _ HG Ht) as [[Hpc _]|(m' & w' & Hstep & HG' & Hdec)].
    { unfold todo in Hpos. rewrite Hpc in Hpos. lia. }
    destruct (IH m' (<[t := w']> ws) HG') as (sched & m'' & ws'' & Hrun & Hall).
    { pose proof (sum_todo_insert ws t w w' Ht). lia. }
    exists (t :: sched), m'', ws''. split; [|done].
    simpl. by rewrite Ht, Hstep.
Qed.

Lemma G_result m ws k a w src :
  G m ws -> all !! k = Some a -> ws !! k = Some w -> returned w = true ->
  cstring m0 (a_in a) = Some src ->
  exists bo offo o, a_out a = Ptr bo offo /\ m0 !! bo = Some o /\
    m !! bo = Some (write_at o (Z.to_nat offo) (upper_truncated src (a_cap a) ++ [0])) /\
    cstring m (a_out a) = Some (upper_truncated src (a_cap a)).
Proof.
  intros HG Ha Hk Hret Hsrc.
  pose proof (G_args _ _ _ _ HG Hk) as Hat. simplify_eq.
  destruct HG as (Hall & Hinv & Hfr).
  destruct (Hinv k w Hk) as (Hkind & bs & offs & bo & offo & src' & o & Hin & Hout & Hsrc0
                               & Ho & Hoffo & Hcap & Hroom & Hprog).
  simpl in *. rewrite Hin in Hsrc. simplify_eq.
  unfold returned in Hret. destruct (at_pc w); try done. simpl in Hprog.
  exists bo, offo, o. split; [done|]. split; [done|]. split; [done|].
  rewrite Hout.
  assert (Hl : Z.of_nat (length (upper_truncated src (w_cap w)))
               = Z.min (Z.of_nat (length src)) (w_cap w - 1)).
  { apply upper_truncated_length. lia. }
  assert (Hm : m = <[bo := write_at o (Z.to_nat offo) (upper_truncated src (w_cap w) ++ [0])]>
                     (<[bo := o]> m)).
  { rewrite list_insert_insert_eq. symmetry. by apply list_insert_id. }
  rewrite Hm. apply cstring_written.
  - apply list_lookup_insert_eq. by apply lookup_lt_Some in Hprog.
  - done.
  - rewrite length_app. simpl. lia.
  - apply upper_truncated_nonzero. by eapply StdioFacts.cstring_nonzero.
Qed.
End Isolation.

(** Part 4 with any number of workers: [thread_fn_ok] on arguments whose
    destinations are in pairwise distinct objects, none of them the object
    of a source, each with room for its capacity (which is not zero). No
    interleaving faults. In every state reached, the objects that are not
    a destination are as at the start, and the destination of a worker
    that has returned holds the upper-cased source, cut to [cap - 1]
    characters and terminated, the rest of its object being as at the
    start. And the workers can all return. *)
Theorem reentrant_workers_isolated (m0 : mem) (all : list args_ok) :
  (forall a, a ∈ all -> placed m0 a) ->
  (forall i j a a', all !! i = Some a -> all !! j = Some a' -> i <> j ->
                    blk (a_out a) <> blk (a_out a')) ->
  (forall a a', a ∈ all -> a' ∈ all -> blk (a_in a) <> blk (a_out a')) ->
  (forall sched,
     match run sched m0 (thread_fn_ok <$> all) with
     | Crashed => False
     | Refused => True
     | Reached m ws =>
         (forall b, (forall a, a ∈ all -> blk (a_out a) <> Some b) -> m !! b = m0 !! b) /\
         (forall k a w src,
            all !! k = Some a -> ws !! k = Some w -> returned w = true ->
            cstring m0 (a_in a) = Some src ->
            exists bo offo o, a_out a = Ptr bo offo /\ m0 !! bo = Some o /\
              m !! bo = Some (write_at o (Z.to_nat offo)
                                (upper_truncated src (a_cap a) ++ [0])) /\
              cstring m (a_out a) = Some (upper_truncated src (a_cap a)))
     end) /\
  (exists sched m ws, run sched m0 (thread_fn_ok <$> all) = Reached m ws /\
                      Forall (fun w => returned w = true) ws).
Proof.
  intros Hplaced Hdist Hio.
  pose proof (G_start m0 all Hplaced) as H0.
  split.
  - intros sched.
    assert (Hrun : match run sched m0 (thread_fn_ok <$> all) with
                   | Reached m ws => G m0 all m ws
                   | Crashed => False
                   | Refused => True
                   end) by (apply G_run; auto).
    destruct (run sched m0 (thread_fn_ok <$> all)) as [m ws| |]; try done.
    split.
    + by destruct Hrun as (_ & _ & Hfr).
    + intros k a w src. by apply (G_result m0 all).
  - eapply G_complete; eauto.
Qed.

(** ** Workers on the static buffer *)

Definition todo_bad (m0 : mem) (w : worker) : nat :=
  match at_pc w with
  | FCall =>
      match strlen m0 (w_in w) with
      | Some len => 2 * Z.to_nat (Z.min len (w_cap w - 1)) + 4
      | None => 0
      end
  | FLoad i n => 2 * Z.to_nat (n - i) + 3
  | FStore i n _ => 2 * Z.to_nat (n - i) + 2
  | FNul _ => 2
  | FPublish => 1
  | FReturned => 0
  end.

(** Where a worker on a source [src] can be. *)
Definition at_ok (src : list Z) (p : fpc) : Prop :=
  let n := Z.min (Z.of_nat (length src)) (buf_size - 1) in
  match p with
  | FLoad i n' => n' = n /\ 0 <= i <= n
  | FStore i n' c => n' = n /\ 0 <= i < n /\ src !! Z.to_nat i = Some c
  | FNul n' => n' = n
  | FCall | FPublish | FReturned => True
  end.

Section Shared.
Variable m0 : mem.
Variable buf : block.
Variable o0 : list Z.
Variable srcs : list ptr.
Hypothesis buf_object : m0 !! buf = Some o0.
Hypothesis buf_length : length o0 = Z.to_nat buf_size.
Hypothesis sources : forall s, s ∈ srcs ->
  exists b off str, s = Ptr b off /\ b <> buf /\ cstring m0 s = Some str.

(** Every byte of the buffer is the one of the start, a terminator, or
    the conversion of the character that one of the sources has at the
    same index. *)
Definition mixed (ob : list Z) : Prop :=
  length ob = Z.to_nat buf_size /\
  forall (j : nat) x, ob !! j = Some x ->
    o0 !! j = Some x \/ x = 0 \/
    exists s str c, s ∈ srcs /\ cstring m0 s = Some str /\ str !! j = Some c /\ x = toupper c.

Definition inv_s (w : worker) : Prop :=
  kind w = Static /\ w_out w = Ptr buf 0 /\ w_cap w = buf_size /\
  (at_pc w = FReturned -> got w = Some (Ptr buf 0)) /\
  exists bs offs src,
    w_in w = Ptr bs offs /\ bs <> buf /\ cstring m0 (Ptr bs offs) = Some src /\
    at_ok src (at_pc w).

Definition Sh (m : mem) (ws : list worker) : Prop :=
  w_in <$> ws = srcs /\ (forall k w, ws !! k = Some w -> inv_s w) /\
  (forall b, b <> buf -> m !! b = m0 !! b) /\
  exists ob, m !! buf = Some ob /\ mixed ob.

Lemma Sh_update m ws t w m' w' :
  Sh m ws -> ws !! t = Some w -> w_in w' = w_in w ->
  (forall b, b <> buf -> m' !! b = m !! b) ->
  (exists ob, m' !! buf = Some ob /\ mixed ob) ->
  inv_s w' -> Sh m' (<[t := w']> ws).
Proof.
  intros (Hall & Hinv & Hfr & Hbuf) Ht Hin Hframe Hbuf' Hw'. split; [|split; [|split]].
  - rewrite list_fmap_insert, Hin, <- Hall. apply list_insert_id.
    by rewrite list_lookup_fmap, Ht.
  - intros k u Hk. destruct (decide (k = t)) as [->|Hne].
    + rewrite list_lookup_insert_eq in Hk by (by apply lookup_lt_Some in Ht).
      by simplify_eq.
    + rewrite list_lookup_insert_ne in Hk by done. by apply (Hinv k).
  - intros b Hb. rewrite Hframe by done. by apply Hfr.
  - done.
Qed.

Lemma Sh_step m ws t w :
  Sh m ws -> ws !! t = Some w ->
  (at_pc w = FReturned /\ step m w = None) \/
  exists m' w', step m w = Some (Ok (m', w')) /\ Sh m' (<[t := w']> ws) /\
                (todo_bad m0 w' + 1 = todo_bad m0 w)%nat.
Proof.
  intros HS Ht.
  pose proof HS as (Hall & Hinv & Hfr & ob & Hob & Hlenb & Hmix).
  destruct (Hinv t w Ht) as (Hkind & Hout & Hcap & Hgot & bs & offs & src & Hin & Hne & Hsrc0 & Hat).
  assert (Hsrc : cstring m (Ptr bs offs) = Some src).
  { rewrite <- Hsrc0. apply StdioFacts.cstring_same_block. by apply Hfr. }
  pose proof (StdioFacts.strlen_cstring _ _ _ Hsrc) as Hlen.
  pose proof (StdioFacts.strlen_cstring _ _ _ Hsrc0) as Hlen0.
  assert (Hmem : w_in w ∈ srcs).
  { rewrite <- Hall. apply list_elem_of_lookup_2 with t. by rewrite list_lookup_fmap, Ht. }
  set (n := Z.min (Z.of_nat (length src)) (buf_size - 1)) in *.
  assert (Hinv' : forall p, at_ok src p -> p <> FReturned -> inv_s (goto w p)).
  { intros p Hp Hp'. split; [done|]. split; [done|]. split; [done|]. split; [done|].
    by exists bs, offs, src. }
  assert (Hsame : exists ob, m !! buf = Some ob /\ mixed ob) by (by exists ob).
  unfold step, todo_bad. destruct (at_pc w) as [|i n'|i n' c|n'| |] eqn:Hpc; simpl in Hat.
  - right. rewrite Hkind, Hin, Hlen, Hlen0, Hcap. cbv zeta.
    assert ((if Z.of_nat (length src) >=? buf_size then wrap_size (buf_size - 1)
             else Z.of_nat (length src)) = n) as ->.
    { unfold n, buf_size. destruct (Z.geb_spec (Z.of_nat (length src)) 64).
      - rewrite wrap_size_id by (unfold SIZE_MAX; lia). lia.
      - lia. }
    eexists _, _. split; [done|]. split.
    + eapply Sh_update; eauto. apply Hinv'; [|done]. simpl. fold n.
      split; [done|]. unfold n, buf_size. lia.
    + simpl. fold n. lia.
  - right. destruct Hat as (-> & Hi). fold n in Hi |- *.
    destruct (Z.ltb_spec i n).
    + destruct (src !! Z.to_nat i) as [c|] eqn:Hc.
      2:{ apply lookup_ge_None in Hc. lia. }
      rewrite Hin. simpl ptr_add.
      replace (offs + i) with (offs + Z.of_nat (Z.to_nat i)) by lia.
      rewrite (load_cstring_at _ _ _ _ _ _ Hsrc Hc).
      eexists _, _. split; [done|]. split.
      * eapply Sh_update; eauto. apply Hinv'; [|done]. simpl. fold n.
        split; [done|]. split; [lia|done].
      * simpl. lia.
    + assert (i = n) as -> by lia.
      eexists _, _. split; [done|]. split.
      * eapply Sh_update; eauto. apply Hinv'; [|done]. simpl. by fold n.
      * simpl. lia.
  - right. destruct Hat as (-> & Hi & Hc). fold n in Hi |- *.
    rewrite Hout. cbn [ptr_add store].
    destruct (Z.ltb_spec (0 + i) 0); [lia|]. rewrite Hob.
    destruct (decide (Z.to_nat (0 + i) < length ob)%nat) as [Hlt|Hge].
    2:{ exfalso. apply Hge. rewrite Hlenb. unfold n, buf_size in *. lia. }
    eexists _, _. split; [done|]. split.
    + eapply Sh_update; eauto.
      * intros b Hb. by apply list_lookup_insert_ne.
      * eexists. split.
        { apply list_lookup_insert_eq. by apply lookup_lt_Some in Hob. }
        split; [by rewrite length_insert|].
        intros j x Hj. destruct (decide (j = Z.to_nat (0 + i))) as [->|Hji].
        -- rewrite list_lookup_insert_eq in Hj by done. simplify_eq.
           right. right. exists (w_in w), src, c.
           rewrite Hin. split; [by rewrite <- Hin|]. split; [done|].
           split; [|done]. rewrite <- Hc. f_equal.
        -- rewrite list_lookup_insert_ne in Hj by done. by apply Hmix.
      * apply Hinv'; [|done]. simpl. fold n. split; [done|]. lia.
    + simpl. lia.
  - right. subst n'. fold n.
    rewrite Hout, Hkind. cbn [ptr_add store].
    destruct (Z.ltb_spec (0 + n) 0); [unfold n, buf_size in *; lia|]. rewrite Hob.
    destruct (decide (Z.to_nat (0 + n) < length ob)%nat) as [Hlt|Hge].
    2:{ exfalso. apply Hge. rewrite Hlenb. unfold n, buf_size in *. lia. }
    eexists _, _. split; [done|]. split.
    + eapply Sh_update; eauto.
      * intros b Hb. by apply list_lookup_insert_ne.
      * eexists. split.
        { apply list_lookup_insert_eq. by apply lookup_lt_Some in Hob. }
        split; [by rewrite length_insert|].
        intros j x Hj. destruct (decide (j = Z.to_nat (0 + n))) as [->|Hji].
        -- rewrite list_lookup_insert_eq in Hj by done. simplify_eq. by right; left.
        -- rewrite list_lookup_insert_ne in Hj by done. by apply Hmix.
      * by apply Hinv'.
    + simpl. lia.
  - right. eexists _, _. split; [done|]. split.
    + eapply Sh_update; eauto.
      split; [done|]. split; [done|]. split; [done|]. split.
      * intros _. simpl. by rewrite Hout.
      * by exists bs, offs, src.
    + simpl. lia.
  - by left.
Qed.

Lemma Sh_run sched : forall m ws,
  Sh m ws ->
  match run sched m ws with
  | Reached m' ws' => Sh m' ws'
  | Crashed => False
  | Refused => True
  end.
Proof.
  induction sched as [|t rest IH]; intros m ws HS; simpl; [done|].
  destruct (ws !! t) as [w|] eqn:Ht; [|done].
  destruct (Sh_step _ _ _ _ HS Ht) as [[_ ->]|(m' & w' & -> & HS' & _)]; [done|].
  by apply IH.
Qed.

Lemma Sh_start : Sh m0 (thread_fn_bad buf <$> srcs).
Proof.
  split; [|split; [|split]].
  - rewrite <- list_fmap_compose. rewrite <- (list_fmap_id srcs) at 2.
    by apply list_fmap_ext.
  - intros k w Hk. rewrite list_lookup_fmap in Hk.
    destruct (srcs !! k) as [s|] eqn:Hs; [|done]. simpl in Hk. simplify_eq.
    destruct (sources s) as (b & off & str & -> & Hb & Hstr).
    { by eapply list_elem_of_lookup_2. }
    split; [done|]. split; [done|]. split; [done|]. split; [done|].
    by exists b, off, str.
  - done.
  - exists o0. split; [done|]. split; [done|]. intros j x Hj. by left.
Qed.

Lemma sum_bad_insert (ws : list worker) t w w' :
  ws !! t = Some w ->
  (sum_list (todo_bad m0 <$> <[t := w']> ws) + todo_bad m0 w
   = sum_list (todo_bad m0 <$> ws) + todo_bad m0 w')%nat.
Proof.
  revert t. induction ws as [|u ws IH]; intros [|t] Ht; simpl in *; try done.
  - simplify_eq. lia.
  - specialize (IH t Ht). unfold fmap in IH. lia.
Qed.

Lemma sum_bad_zero (ws : list worker) :
  sum_list (todo_bad m0 <$> ws) = 0%nat -> Forall (fun w => todo_bad m0 w = 0%nat) ws.
Proof.
  induction ws as [|u ws IH]; simpl; intros H; constructor; [lia|apply IH; unfold fmap; lia].
Qed.

Lemma sum_bad_pos (ws : list worker) :
  (0 < sum_list (todo_bad m0 <$> ws))%nat ->
  exists t w, ws !! t = Some w /\ (0 < todo_bad m0 w)%nat.
Proof.
  induction ws as [|u ws IH]; simpl; intros H; [lia|].
  destruct (decide (0 < todo_bad m0 u)%nat).
  - by exists 0%nat, u.
  - destruct IH as (t & w & Ht & Hw); [unfold fmap; lia|]. by exists (S t), w.
Qed.

Lemma Sh_complete k : forall m ws,
  Sh m ws -> sum_list (todo_bad m0 <$> ws) = k ->
  exists sched m' ws', run sched m ws = Reached m' ws' /\
                       Forall (fun w => returned w = true) ws'.
Proof.
  induction k as [|k IH]; intros m ws HS Hk.
  - exists [], m, ws. split; [done|].
    apply Forall_lookup. intros t w Ht.
    pose proof (sum_bad_zero _ Hk) as Hz.
    rewrite Forall_lookup in Hz. specialize (Hz t w Ht).
    destruct (Sh_step _ _ _ _ HS Ht) as [[Hpc _]|(m' & w' & _ & _ & Hdec)]; [|lia].
    unfold returned. by rewrite Hpc.
  - destruct (sum_bad_pos ws) as (t & w & Ht & Hpos); [lia|].
    destruct (Sh_step _ _ _ _ HS Ht) as [[Hpc _]|(m' & w' & Hstep & HS' & Hdec)].
    { unfold todo_bad in Hpos. rewrite Hpc in Hpos. lia. }
    destruct (IH m' (<[t := w']> ws) HS') as (sched & m'' & ws'' & Hrun & Hall).
    { pose proof (sum_bad_insert ws t w w' Ht). lia. }
    exists (t :: sched), m'', ws''. split; [|done].
    simpl. by rewrite Ht, Hstep.
Qed.
End Shared.

(** Parts 3b and C2 with any number of workers: [thread_fn_bad] (or
    [call_not_reentrant]) on strings outside the object of the static
    buffer. No interleaving faults and the workers can all return. In
    every state reached the other objects are as at the start, a worker
    that has returned has stored the address of the static buffer, so all
    of them the same pointer, and every byte of the buffer is the one of
    the start, a terminator, or the conversion of the character one of the
    sources has at that index. *)
Theorem static_buffer_shared (m0 : mem) (buf : block) (o0 : list Z) (srcs : list ptr) :
  m0 !! buf = Some o0 -> length o0 = Z.to_nat buf_size ->
  (forall s, s ∈ srcs -> exists b off str, s = Ptr b off /\ b <> buf /\ cstring m0 s = Some str) ->
  (forall sched,
     match run sched m0 (thread_fn_bad buf <$> srcs) with
     | Crashed => False
     | Refused => True
     | Reached m ws =>
         (forall b, b <> buf -> m !! b = m0 !! b) /\
         (forall w, w ∈ ws -> returned w = true -> got w = Some (Ptr buf 0)) /\
         exists ob, m !! buf = Some ob /\ length ob = Z.to_nat buf_size /\
           forall (j : nat) x, ob !! j = Some x ->
             o0 !! j = Some x \/ x = 0 \/
             exists s str c, s ∈ srcs /\ cstring m0 s = Some str /\
                             str !! j = Some c /\ x = toupper c
     end) /\
  (exists sched m ws, run sched m0 (thread_fn_bad buf <$> srcs) = Reached m ws /\
                      Forall (fun w => returned w = true) ws).
Proof.
  intros Hbuf Hlen Hsrcs.
  pose proof (Sh_start m0 buf o0 srcs Hbuf Hlen Hsrcs) as H0.
  split.
  - intros sched.
    assert (Hrun : match run sched m0 (thread_fn_bad buf <$> srcs) with
                   | Reached m ws => Sh m0 buf o0 srcs m ws
                   | Crashed => False
                   | Refused => True
                   end) by (apply Sh_run; auto).
    destruct (run sched m0 (thread_fn_bad buf <$> srcs)) as [m ws| |]; try done.
    destruct Hrun as (_ & Hinv & Hfr & ob & Hob & Hl & Hmix).
    split; [done|]. split.
    + intros w Hw Hret. apply list_elem_of_lookup in Hw as [k Hk].
      destruct (Hinv k w Hk) as (_ & _ & _ & Hgot & _). apply Hgot.
      unfold returned in Hret. by destruct (at_pc w).
    + by exists ob.
  - eapply Sh_complete; eauto.
Qed.

End FormatThreadFacts.

Module FormatThreadRuns.
Import Mem Formatters FormatterFacts FormatThreads FormatThreadFacts.

Lemma sched_step t m ws w m' w' rest :
  ws !! t = Some w -> step m w = Some (Ok (m', w')) ->
  run (t :: rest) m ws = run rest m' (<[t := w']> ws).
Proof. intros Ht Hs. simpl. by rewrite Ht, Hs. Qed.

Lemma goto_same w : goto w (at_pc w) = w.
Proof. by destruct w. Qed.

(** [k] iterations of the loop by one worker, from index [i]. *)
Lemma loop_run t bs offs buf src n (k : nat) : forall steps m ws w i ob rest,
  steps = (2 * k)%nat -> ws !! t = Some w -> at_pc w = FLoad i n ->
  0 <= i -> i + Z.of_nat k <= n -> n <= Z.of_nat (length src) ->
  w_in w = Ptr bs offs -> w_out w = Ptr buf 0 -> bs <> buf ->
  cstring m (Ptr bs offs) = Some src ->
  m !! buf = Some ob -> n <= Z.of_nat (length ob) ->
  run (replicate steps t ++ rest) m ws =
  run rest
    (<[buf := write_at ob (Z.to_nat i) (map toupper (take k (drop (Z.to_nat i) src)))]> m)
    (<[t := goto w (FLoad (i + Z.of_nat k) n)]> ws).
Proof.
  induction k as [|k IH]; intros steps m ws w i ob rest -> Ht Hpc Hi Hk Hn Hin Hout Hne Hsrc Hob Hlen.
  - simpl. rewrite StdioFacts.write_at_nil by lia. rewrite list_insert_id by done.
    rewrite Z.add_0_r, <- Hpc, goto_same. by rewrite list_insert_id.
  - replace (2 * S k)%nat with (S (S (2 * k))) by lia.
    cbn [replicate app].
    destruct (src !! Z.to_nat i) as [c|] eqn:Hc.
    2:{ apply lookup_ge_None in Hc. lia. }
    assert (Hlt : (t < length ws)%nat) by (by apply lookup_lt_Some in Ht).
    rewrite (sched_step t m ws w m (goto w (FStore i n c))); [|done|].
    2:{ unfold step. rewrite Hpc. destruct (Z.ltb_spec i n); [|lia].
        rewrite Hin. simpl ptr_add.
        replace (offs + i) with (offs + Z.of_nat (Z.to_nat i)) by lia.
        by rewrite (load_cstring_at _ _ _ _ _ _ Hsrc Hc). }
    rewrite (sched_step t m _ (goto w (FStore i n c))
               (<[buf := <[Z.to_nat i := toupper c]> ob]> m)
               (goto w (FLoad (i + 1) n))).
    2:{ by apply list_lookup_insert_eq. }
    2:{ unfold step. simpl. rewrite Hout. cbn [ptr_add store].
        destruct (Z.ltb_spec (0 + i) 0); [lia|]. rewrite Hob.
        rewrite Z.add_0_l.
        destruct (decide (Z.to_nat i < length ob)%nat); [done|lia]. }
    rewrite list_insert_insert_eq.
    rewrite (IH (2 * k)%nat _ _ (goto w (FLoad (i + 1) n)) (i + 1)
               (<[Z.to_nat i := toupper c]> ob)); try done; try lia.
    + rewrite !list_insert_insert_eq. f_equal.
      * f_equal. replace (Z.to_nat (i + 1)) with (S (Z.to_nat i)) by lia.
        rewrite (drop_S _ _ _ Hc). simpl.
        apply StdioFacts.write_at_cons. rewrite length_map, length_take, length_drop. lia.
      * f_equal. unfold goto. simpl. do 2 f_equal. lia.
    + by apply list_lookup_insert_eq.
    + by rewrite StdioFacts.cstring_other.
    + apply list_lookup_insert_eq. by apply lookup_lt_Some in Hob.
    + rewrite length_insert. lia.
Qed.

Lemma cstring_prefix (m : mem) b text rest :
  m !! b = Some (text ++ 0 :: rest) -> Forall (fun c => c <> 0) text ->
  cstring m (Ptr b 0) = Some text.
Proof.
  intros Hb Hnz. unfold cstring, bytes_from. rewrite Hb.
  change (0 <? 0) with false. cbv iota. change (Z.to_nat 0) with 0%nat.
  rewrite drop_0, find_nul_app by done. simpl. by rewrite take_app_length.
Qed.

(** The call of a worker on the static buffer, on a string that fits. *)
Lemma call_step m w bs offs src :
  at_pc w = FCall -> kind w = Static -> w_cap w = buf_size -> w_in w = Ptr bs offs ->
  cstring m (Ptr bs offs) = Some src -> Z.of_nat (length src) < buf_size ->
  step m w = Some (Ok (m, goto w (FLoad 0 (Z.of_nat (length src))))).
Proof.
  intros Hpc Hkind Hcap Hin Hsrc Hfit. unfold step.
  rewrite Hpc, Hkind, Hin, (StdioFacts.strlen_cstring _ _ _ Hsrc), Hcap. cbv zeta.
  by destruct (Z.geb_spec (Z.of_nat (length src)) buf_size); [lia|].
Qed.

(** The end of a worker on the static buffer: the test that leaves the
    loop, the terminator, and the pointer handed out. *)
Lemma finish_run t buf m ws w n ob rest :
  ws !! t = Some w -> at_pc w = FLoad n n -> kind w = Static -> w_out w = Ptr buf 0 ->
  m !! buf = Some ob -> 0 <= n -> (Z.to_nat n < length ob)%nat ->
  run (t :: t :: t :: rest) m ws =
  run rest (<[buf := <[Z.to_nat n := 0]> ob]> m) (<[t := publish w]> ws).
Proof.
  intros Ht Hpc Hkind Hout Hob Hn Hlt.
  assert (Hlen : (t < length ws)%nat) by (by apply lookup_lt_Some in Ht).
  rewrite (sched_step t m ws w m (goto w (FNul n))); [|done|].
  2:{ unfold step. rewrite Hpc. by rewrite Z.ltb_irrefl. }
  rewrite (sched_step t m _ (goto w (FNul n)) (<[buf := <[Z.to_nat n := 0]> ob]> m)
             (goto w FPublish)).
  2:{ by apply list_lookup_insert_eq. }
  2:{ unfold step. simpl. rewrite Hout, Hkind. cbn [ptr_add store].
      destruct (Z.ltb_spec (0 + n) 0); [lia|]. rewrite Hob, Z.add_0_l.
      by destruct (decide (Z.to_nat n < length ob)%nat). }
  rewrite list_insert_insert_eq.
  rewrite (sched_step t _ _ (goto w FPublish) (<[buf := <[Z.to_nat n := 0]> ob]> m) (publish w)).
  2:{ by apply list_lookup_insert_eq. }
  2:{ done. }
  by rewrite list_insert_insert_eq.
Qed.

(** Parts 3b and C2 can garble: for two workers on strings [a] and [b]
    that fit the static buffer and every [k] up to both lengths, an
    interleaving returns both workers and leaves in the buffer the first
    [k] characters of the conversion of [a] followed by the conversion of
    [b] from [k] on. *)
Theorem static_buffer_garbled (m0 : mem) (buf ba bb : block) (offa offb : Z)
    (o0 a b : list Z) (k : nat) :
  m0 !! buf = Some o0 -> length o0 = Z.to_nat buf_size ->
  ba <> buf -> bb <> buf ->
  cstring m0 (Ptr ba offa) = Some a -> cstring m0 (Ptr bb offb) = Some b ->
  Z.of_nat (length a) < buf_size -> Z.of_nat (length b) < buf_size ->
  (k <= length a)%nat -> (k <= length b)%nat ->
  exists sched m ws,
    run sched m0 [thread_fn_bad buf (Ptr ba offa); thread_fn_bad buf (Ptr bb offb)]
      = Reached m ws /\
    Forall (fun w => returned w = true /\ got w = Some (Ptr buf 0)) ws /\
    cstring m (Ptr buf 0) = Some (take k (map toupper a) ++ drop k (map toupper b)).
Proof.
  intros Hbuf Hlen0 Hna Hnb Ha Hb Hfa Hfb Hka Hkb.
  set (na := length a). set (nb := length b).
  set (A0 := thread_fn_bad buf (Ptr ba offa)).
  set (B0 := thread_fn_bad buf (Ptr bb offb)).
  assert (Hmlen : (buf < length m0)%nat) by (by apply lookup_lt_Some in Hbuf).
  unfold buf_size in *.
  (* B: the call and [k] characters *)
  set (o1 := write_at o0 (Z.to_nat 0) (map toupper (take k (drop (Z.to_nat 0) b)))).
  set (m1 := <[buf := o1]> m0).
  assert (Ho1 : length o1 = length o0).
  { apply write_at_length. rewrite length_map, length_take, length_drop. simpl. lia. }
  (* A: the whole routine *)
  set (o2 := write_at o1 (Z.to_nat 0) (map toupper (take na (drop (Z.to_nat 0) a)))).
  set (m2 := <[buf := o2]> m1).
  assert (Ho2 : length o2 = length o0).
  { rewrite <- Ho1. apply write_at_length.
    rewrite length_map, length_take, length_drop. simpl. lia. }
  set (o3 := <[Z.to_nat (Z.of_nat na) := 0]> o2).
  set (m3 := <[buf := o3]> m2).
  (* B: the rest *)
  set (o4 := write_at o3 (Z.to_nat (Z.of_nat k))
               (map toupper (take (nb - k) (drop (Z.to_nat (Z.of_nat k)) b)))).
  set (m4 := <[buf := o4]> m3).
  assert (Ho3 : length o3 = length o0) by (unfold o3; by rewrite length_insert).
  assert (Ho4 : length o4 = length o0).
  { rewrite <- Ho3. apply write_at_length.
    rewrite length_map, length_take, length_drop. lia. }
  set (o5 := <[Z.to_nat (Z.of_nat nb) := 0]> o4).
  set (m5 := <[buf := o5]> m4).
  exists ([1%nat] ++ replicate (2 * k) 1%nat ++ [0%nat] ++ replicate (2 * na) 0%nat
          ++ [0; 0; 0]%nat ++ replicate (2 * (nb - k)) 1%nat ++ [1; 1; 1]%nat).
  exists m5, [publish (goto A0 (FLoad (0 + Z.of_nat na) (Z.of_nat na)));
              publish (goto (goto B0 (FLoad (0 + Z.of_nat k) (Z.of_nat nb)))
                         (FLoad (Z.of_nat k + Z.of_nat (nb - k)) (Z.of_nat nb)))].
  split; [|split].
  - cbn [app].
    rewrite (sched_step 1 m0 _ B0 m0 (goto B0 (FLoad 0 (Z.of_nat nb)))); [|done|].
    2:{ by apply (call_step _ _ bb offb b). }
    cbn [insert list_insert].
    rewrite (loop_run 1 bb offb buf b (Z.of_nat nb) k (2 * k) m0 _
               (goto B0 (FLoad 0 (Z.of_nat nb))) 0 o0); try done; try lia.
    fold o1 m1. cbn [insert list_insert].
    rewrite (sched_step 0 m1 _ A0 m1 (goto A0 (FLoad 0 (Z.of_nat na)))); [|done|].
    2:{ apply (call_step _ _ ba offa a); try done.
        unfold m1. by rewrite StdioFacts.cstring_other. }
    cbn [insert list_insert].
    rewrite (loop_run 0 ba offa buf a (Z.of_nat na) na (2 * na) m1 _
               (goto A0 (FLoad 0 (Z.of_nat na))) 0 o1); try done; try lia.
    2:{ unfold m1. by rewrite StdioFacts.cstring_other. }
    2:{ unfold m1. by apply list_lookup_insert_eq. }
    fold o2 m2. cbn [insert list_insert app].
    rewrite (finish_run 0 buf m2 _ (goto A0 (FLoad (0 + Z.of_nat na) (Z.of_nat na)))
               (Z.of_nat na) o2); try done; try lia.
    2:{ unfold m2, m1. apply list_lookup_insert_eq. by rewrite length_insert. }
    fold o3 m3. cbn [insert list_insert].
    rewrite (loop_run 1 bb offb buf b (Z.of_nat nb) (nb - k) (2 * (nb - k)) m3 _
               (goto B0 (FLoad (0 + Z.of_nat k) (Z.of_nat nb))) (Z.of_nat k) o3);
      try done; try lia.
    2:{ unfold m3, m2, m1. by rewrite !StdioFacts.cstring_other. }
    2:{ unfold m3, m2, m1. apply list_lookup_insert_eq. by rewrite !length_insert. }
    fold o4 m4. cbn [insert list_insert].
    rewrite (finish_run 1 buf m4 _
               (goto (goto B0 (FLoad (0 + Z.of_nat k) (Z.of_nat nb)))
                  (FLoad (Z.of_nat k + Z.of_nat (nb - k)) (Z.of_nat nb)))
               (Z.of_nat nb) o4 []); try done; try lia.

    + simpl. f_equal. lia.
    + unfold m4, m3, m2, m1. apply list_lookup_insert_eq. by rewrite !length_insert.
  - by repeat constructor.
  - pose proof (StdioFacts.cstring_nonzero _ _ _ Ha) as Hnza.
    pose proof (StdioFacts.cstring_nonzero _ _ _ Hb) as Hnzb.
    assert (Hup : forall l, Forall (fun c => c <> 0) l -> Forall (fun c => c <> 0) (map toupper l)).
    { intros l Hl. apply Forall_map. eapply Forall_impl; [exact Hl|].
      intros c. apply toupper_nonzero. }
    apply (cstring_prefix _ _ _ (drop (S nb) o3)).
    2:{ apply Forall_app. split; [apply Forall_take|apply Forall_drop]; by apply Hup. }
    unfold m5, m4, m3, m2, m1.
    rewrite list_lookup_insert_eq by (by rewrite !length_insert).
    f_equal. unfold o5, o4.
    rewrite !Nat2Z.id.
    replace nb with (k + length (map toupper (take (nb - k) (drop k b))))%nat at 1
      by (rewrite length_map, length_take, length_drop; lia).
    rewrite write_at_snoc by (rewrite length_map, length_take, length_drop; lia).
    unfold write_at.
    rewrite length_app, length_map, length_take, length_drop. simpl.
    replace (k + ((nb - k) `min` (length b - k) + 1))%nat with (S nb) by lia.
    rewrite (take_ge (drop k b)) by (rewrite length_drop; lia).
    rewrite <- fmap_drop. rewrite <- !app_assoc. simpl. f_equal.
    (* the first [k] bytes are those of [a] *)
    unfold o3, o2. simpl Z.to_nat. rewrite Nat2Z.id.
    rewrite drop_0, (take_ge a) by lia.
    rewrite take_insert_ge by lia.
    unfold write_at. simpl. rewrite take_app_le by (rewrite length_map; lia).
    done.
Qed.

(** The strings and arrays of Part 4: the two literals, [A_buf] and
    [B_buf]. *)
Definition part4_mem : mem :=
  [literal "abcdef"; literal "XYZ123"; replicate 64 0; replicate 64 0].
Definition part4_args : list args_ok :=
  [ {| a_in := Ptr 0 0; a_out := Ptr 2 0; a_cap := 64 |};
    {| a_in := Ptr 1 0; a_out := Ptr 3 0; a_cap := 64 |} ].

(** The static buffer and the two literals of Parts 3b and C2. *)
Definition part3b_mem : mem := [replicate 64 0; literal "abcdef"; literal "XYZ123"].

Lemma reentrant_workers_isolated_witness :
  (forall sched,
     match run sched part4_mem (thread_fn_ok <$> part4_args) with
     | Crashed => False
     | Refused => True
     | Reached m ws =>
         (forall b, (forall a, a ∈ part4_args -> blk (a_out a) <> Some b) ->
                    m !! b = part4_mem !! b) /\
         (forall k a w src,
            part4_args !! k = Some a -> ws !! k = Some w -> returned w = true ->
            cstring part4_mem (a_in a) = Some src ->
            exists bo offo o, a_out a = Ptr bo offo /\ part4_mem !! bo = Some o /\
              m !! bo = Some (write_at o (Z.to_nat offo)
                                (upper_truncated src (a_cap a) ++ [0])) /\
              cstring m (a_out a) = Some (upper_truncated src (a_cap a)))
     end) /\
  (exists sched m ws, run sched part4_mem (thread_fn_ok <$> part4_args) = Reached m ws /\
                      Forall (fun w => returned w = true) ws).
Proof.
  apply (reentrant_workers_isolated part4_mem part4_args).
  - intros a Ha. unfold part4_args in Ha.
    apply elem_of_cons in Ha as [->|Ha]; [|apply elem_of_cons in Ha as [->|Ha]].
    + exists 0%nat, 0, 2%nat, 0, (bytes_of_string "abcdef"), (replicate 64 0).
      repeat split; try reflexivity; vm_compute; congruence.
    + exists 1%nat, 0, 3%nat, 0, (bytes_of_string "XYZ123"), (replicate 64 0).
      repeat split; try reflexivity; vm_compute; congruence.
    + by apply elem_of_nil in Ha.
  - intros [|[|i]] [|[|j]] a a' Ha Ha' Hij; simpl in *; simplify_eq; done.
  - intros a a' Ha Ha'. unfold part4_args in *.
    apply elem_of_cons in Ha as [->|Ha]; [|apply elem_of_cons in Ha as [->|Ha]];
      try (by apply elem_of_nil in Ha);
      (apply elem_of_cons in Ha' as [->|Ha']; [|apply elem_of_cons in Ha' as [->|Ha']]);
      try (by apply elem_of_nil in Ha'); done.
Defined.

Lemma static_buffer_shared_witness :
  (forall sched,
     match run sched part3b_mem (thread_fn_bad 0 <$> [Ptr 1 0; Ptr 2 0]) with
     | Crashed => False
     | Refused => True
     | Reached m ws =>
         (forall b, b <> 0%nat -> m !! b = part3b_mem !! b) /\
         (forall w, w ∈ ws -> returned w = true -> got w = Some (Ptr 0 0)) /\
         exists ob, m !! 0%nat = Some ob /\ length ob = Z.to_nat buf_size /\
           forall (j : nat) x, ob !! j = Some x ->
             replicate 64 0 !! j = Some x \/ x = 0 \/
             exists s str c, s ∈ [Ptr 1 0; Ptr 2 0] /\ cstring part3b_mem s = Some str /\
                             str !! j = Some c /\ x = toupper c
     end) /\
  (exists sched m ws,
     run sched part3b_mem (thread_fn_bad 0 <$> [Ptr 1 0; Ptr 2 0]) = Reached m ws /\
     Forall (fun w => returned w = true) ws).
Proof.
  apply (static_buffer_shared part3b_mem 0%nat (replicate 64 0) [Ptr 1 0; Ptr 2 0]).
  - reflexivity.
  - reflexivity.
  - intros s Hs.
    apply elem_of_cons in Hs as [->|Hs]; [|apply elem_of_cons in Hs as [->|Hs]].
    + by exists 1%nat, 0, (bytes_of_string "abcdef").
    + by exists 2%nat, 0, (bytes_of_string "XYZ123").
    + by apply elem_of_nil in Hs.
Defined.

Lemma static_buffer_garbled_witness :
  exists sched m ws,
    run sched part3b_mem [thread_fn_bad 0 (Ptr 1 0); thread_fn_bad 0 (Ptr 2 0)]
      = Reached m ws /\
    Forall (fun w => returned w = true /\ got w = Some (Ptr 0 0)) ws /\
    cstring m (Ptr 0 0) = Some (bytes_of_string "ABC123").
Proof.
  apply (static_buffer_garbled part3b_mem 0%nat 1%nat 2%nat 0 0 (replicate 64 0)
           (bytes_of_string "abcdef") (bytes_of_string "XYZ123") 3%nat);
    try reflexivity; try done; vm_compute; lia.
Defined.

End FormatThreadRuns.


(** * No lost wake-up *)

Module ProgressFacts.
Import Machine MachineFacts Counter ExclusionFacts.

Lemma has_waiter_false {C : Type} (ths : list (thread C)) u tu :
  has_waiter ths = false -> ths !! u = Some tu -> blocked tu = false.
Proof.
  unfold has_waiter. revert u. induction ths as [|a l IH]; intros u; simpl; [done|].
  intros [Ha Hl]%orb_false_elim Hu. destruct u as [|u]; simplify_eq/=; eauto.
Qed.

Lemma has_waiter_true {C : Type} (ths : list (thread C)) :
  has_waiter ths = true -> exists u tu, ths !! u = Some tu /\ blocked tu = true.
Proof.
  unfold has_waiter. induction ths as [|a l IH]; simpl; [done|].
  destruct (blocked a) eqn:Ha; simpl.
  - intros _. by exists 0%nat, a.
  - intros Hl. destruct (IH Hl) as (u & tu & Hu & Hb). by exists (S u), tu.
Qed.

(** A thread that can be picked: not returned, not blocked. *)
Definition awake {C : Type} (th : thread C) : bool :=
  match ret th with
  | None => negb (blocked th)
  | Some _ => false
  end.

Lemma awake_some {C : Type} (ths : list (thread C)) :
  existsb awake ths = true -> exists t th, ths !! t = Some th /\ awake th = true.
Proof.
  induction ths as [|a l IH]; simpl; [done|].
  destruct (awake a) eqn:Ha; simpl.
  - intros _. by exists 0%nat, a.
  - intros Hl. destruct (IH Hl) as (u & tu & Hu & Hb). by exists (S u), tu.
Qed.

Lemma awake_none {C : Type} (ths : list (thread C)) u tu :
  existsb awake ths = false -> ths !! u = Some tu -> awake tu = false.
Proof.
  revert u. induction ths as [|a l IH]; intros u; simpl; [done|].
  intros [Ha Hl]%orb_false_elim Hu. destruct u as [|u]; simplify_eq/=; eauto.
Qed.

Lemma not_joined {C : Type} (s : state C) :
  joined s = false -> exists t th, threads s !! t = Some th /\ ret th = None.
Proof.
  unfold joined. induction (threads s) as [|a l IH]; simpl; [done|].
  destruct (ret a) eqn:Ha; simpl.
  - intros Hl. destruct (IH Hl) as (u & tu & Hu & Hb). by exists (S u), tu.
  - intros _. by exists 0%nat, a.
Qed.

Section Progress.
Context {C : Type} (prog : globals -> C -> action C).
Variable okc : C -> Prop.
Variable bal : C -> Z.
Variable permits : Z.

Hypothesis ok_next : forall g c, okc c -> next_ok okc (prog g c).
Hypothesis bal_next : forall g c, okc c -> next_bal bal (bal c) (prog g c).
Hypothesis bal_nonneg : forall c, okc c -> 0 <= bal c.
Hypothesis bal_return : forall g c v, prog g c = AReturn v -> bal c = 0.
(** The worker calls [semc_wait] only while it holds no permit, and does
    not use the mutex [lock]. *)
Hypothesis wait_free : forall g c c', prog g c = AWait c' -> bal c = 0.
Hypothesis no_lock : forall g c c', prog g c <> ALock c'.
Hypothesis permits_range : 1 <= permits <= INT_MAX.

(** Inside [semc_wait] the worker's own position is already past the
    call. *)
Definition wait_ok (s : state C) : Prop :=
  forall u th w, threads s !! u = Some th -> spc th = InWait w -> bal (local th) = 1.

(** The owner of the mutex of the semaphore is one of the threads. *)
Definition owner_ok (s : state C) : Prop :=
  forall o, m (sem (shr s)) = Some o -> (o < length (threads s))%nat.

(** Threads that are awake inside [semc_wait] before their decrement, or
    about to signal: each of them takes a permit, goes (back) to sleep on
    a count of zero, or wakes a sleeper up. *)
Definition phi (th : thread C) : Z :=
  match spc th with
  | InWait (WLock | WTest | WReacquire | WDecLoad | WDecStore) => 1
  | InPost PSignal => 1
  | _ => 0
  end.

Definition sleepy (th : thread C) : bool :=
  match spc th with
  | InWait (WCondWait | WBlocked) => true
  | _ => false
  end.

(** While a thread sleeps or is about to, every permit of the count is
    matched by such a thread: no permit is left over with nobody to come
    for it. *)
Definition wake_ok (s : state C) : Prop :=
  (exists u tu, threads s !! u = Some tu /\ sleepy tu = true) ->
  count (sem (shr s)) <= total phi (threads s).

Lemma phi_nonneg th : 0 <= phi th.
Proof. unfold phi. destruct (spc th) as [|[]|[]]; lia. Qed.

Lemma wait_ok_micro (s s' : state C) :
  acc_ok okc bal permits s -> wait_ok s -> micro prog s s' -> wait_ok s'.
Proof.
  intros (_ & _ & Hall) Hw Hmic.
  destruct Hmic as [t b th sh th' Ht Hs ->|u tu Hu Hb ->].
  - intros u thu w Hu Hspc. split_thread u t Hu; [|by eapply Hw].
    pose proof (Hall t th Ht) as (Hok & _).
    pose proof (bal_next (glob (shr s)) _ Hok) as Hbal.
    unfold thread_step in Hs. destruct (ret th); [done|].
    destruct (spc th) as [|w0|p] eqn:Hspc0.
    + destruct (prog (glob (shr s)) (local th)) as [l g c|c|c|c|c|v] eqn:Hp;
        simpl in Hbal.
      * simplify_eq/=. congruence.
      * destruct (pthread_mutex_lock t (lock (shr s))); simplify_eq/=. congruence.
      * simplify_eq/=. congruence.
      * simplify_eq/=. rewrite Hbal. rewrite (wait_free _ _ _ Hp). done.
      * simplify_eq/=.
      * simplify_eq/=. congruence.
    + destruct (semc_wait _ _ _ _) as [[[w' r] sm]|]; simplify_eq/=.
      by eapply (Hw t th w0).
    + destruct (semc_post _ _ _ _ _) as [[[p' r] sm]|]; simplify_eq/=.
      destruct p'; simplify_eq/=.
  - intros v thv w Hv Hspc. split_thread v u Hv; [|by eapply Hw].
    unfold blocked in Hb. destruct (spc tu) as [|w0|] eqn:Hspc0; try done.
    by eapply (Hw u tu w0).
Qed.

Lemma owner_ok_micro (s s' : state C) : owner_ok s -> micro prog s s' -> owner_ok s'.
Proof.
  intros Ho Hmic. pose proof (micro_length prog s s' Hmic) as Hlen.
  intros o. rewrite Hlen.
  destruct Hmic as [t b th sh th' Ht Hs ->|u tu Hu Hb ->]; [|apply Ho].
  pose proof (lookup_lt_Some _ _ _ Ht) as Hlt.
  specialize (Ho o). inv_step Hs; simpl; try done.
  all: by intros [= <-].
Qed.

Lemma wake_ok_exec e (s s' : state C) :
  sem_ok s -> post_fits s -> wake_ok s -> exec prog e s = Some s' -> wake_ok s'.
Proof.
  intros [Hc Hsem] Hfits HJ He.
  assert (Hpos : forall l : list (thread C), 0 <= total phi l).
  { intros l. apply total_nonneg. intros. apply phi_nonneg. }
  destruct e as [t|t u|u]; simpl in He.
  - destruct (threads s !! t) as [th|] eqn:Ht; [|done].
    destruct (thread_step _ _ _ _ _) as [[sh th']|] eqn:Hs; [|done].
    injection He as <-.
    intros (u & tu & Hu & Hsl). simpl.
    pose proof (Hpos (<[t := th']> (threads s))) as Hpos'.
    rewrite (total_insert phi _ t th) in * by done.
    pose proof (Hsem t th Ht) as (Hm & Hreg & Hnz).
    pose proof (Hfits t th Ht) as Hmax.
    assert (HA : u <> t -> count (sem (shr s)) <= total phi (threads s)).
    { intros Hne. apply HJ. exists u, tu. split; [|done].
      simpl in Hu. by rewrite list_lookup_insert_ne in Hu. }
    assert (HA' : sleepy th = true -> count (sem (shr s)) <= total phi (threads s)).
    { intros Hth. apply HJ. by exists t, th. }
    assert (spc th = InPost PSignal \/ spc th <> InPost PSignal) as [Hsig|Hnsig].
    { destruct (spc th) as [|[]|[]]; (by left) || (by right). }
    { unfold thread_step in Hs. rewrite Hsig in Hs. destruct (ret th); [done|].
      simpl in Hs. destruct (has_waiter (threads s)) eqn:Hw; [done|]. simplify_eq/=.
      exfalso. split_thread u t Hu; try (simpl in Hsl; done).
      unfold sleepy in Hsl. destruct (spc tu) as [|[]|] eqn:Hspcu; try done.
      - pose proof (Hsem u tu Hu) as (Hm' & _). rewrite Hspcu in Hm'.
        rewrite Hsig in Hm. simpl in *.
        assert (m (sem (shr s)) = Some u) by (by apply Hm').
        assert (m (sem (shr s)) = Some t) by (by apply Hm).
        congruence.
      - pose proof (has_waiter_false _ _ _ Hw Hu) as Hb.
        unfold blocked in Hb. by rewrite Hspcu in Hb. }
    set (held := total phi (threads s)) in *.
    unfold sleepy in HA'. unfold phi in *.
    inv_step Hs.
    all: try specialize (Hmax eq_refl).
    all: try specialize (Hreg (or_introl eq_refl)); try specialize (Hreg (or_intror eq_refl)).
    all: try specialize (Hnz (or_introl eq_refl)); try specialize (Hnz (or_intror eq_refl)).
    all: bool_facts.
    all: repeat match goal with H : spc _ = _ |- _ => rewrite H in * end.
    all: simpl in *.
    all: rewrite ?wrap_int_id by (unfold INT_MAX in *; lia).
    all: split_thread u t Hu;
      first [ specialize (HA ltac:(done)); lia
            | unfold sleepy in Hsl; simpl in Hsl;
              repeat match goal with H : spc _ = _ |- _ => rewrite H in * end;
              try done; try specialize (HA' eq_refl); lia ].
  - destruct (threads s !! t) as [th|] eqn:Ht; [|done].
    destruct (threads s !! u) as [tu|] eqn:Hu; [|done].
    destruct (ret th) eqn:Hret; [done|].
    destruct (spc th) as [|w|p] eqn:Hspc; try done.
    destruct p; try done.
    destruct (blocked tu) eqn:Hb; [|done].
    injection He as <-.
    assert (Hne : t <> u).
    { intros ->. simplify_eq. unfold blocked in Hb. by rewrite Hspc in Hb. }
    intros _. simpl.
    rewrite (total_insert phi _ t th) by (by rewrite list_lookup_insert_ne).
    rewrite (total_insert phi _ u tu) by done.
    assert (count (sem (shr s)) <= total phi (threads s)).
    { apply HJ. exists u, tu. split; [done|].
      unfold blocked in Hb. unfold sleepy. by destruct (spc tu) as [|[]|]. }
    unfold phi at 2 3 4 5. simpl. rewrite Hspc.
    unfold blocked in Hb. destruct (spc tu) as [|[]|]; try done. lia.
  - destruct (threads s !! u) as [tu|] eqn:Hu; [|done].
    destruct (blocked tu) eqn:Hb; [|done].
    injection He as <-.
    intros _. simpl.
    rewrite (total_insert phi _ u tu) by done.
    assert (count (sem (shr s)) <= total phi (threads s)).
    { apply HJ. exists u, tu. split; [done|].
      unfold blocked in Hb. unfold sleepy. by destruct (spc tu) as [|[]|]. }
    unfold phi at 2 3. simpl.
    unfold blocked in Hb. destruct (spc tu) as [|[]|]; try done. lia.
Qed.

(** The five invariants together. *)
Definition live (s : state C) : Prop :=
  acc_ok okc bal permits s /\ ret_ok bal s /\ wait_ok s /\ owner_ok s /\ wake_ok s.

Lemma live_micro_part (s s' : state C) :
  acc_ok okc bal permits s /\ ret_ok bal s /\ wait_ok s /\ owner_ok s ->
  micro prog s s' ->
  acc_ok okc bal permits s' /\ ret_ok bal s' /\ wait_ok s' /\ owner_ok s'.
Proof.
  intros (Hacc & Hret & Hw & Ho) Hmic.
  assert (Hrange : 0 <= permits <= INT_MAX) by lia.
  split; [by eapply (acc_ok_micro prog okc bal permits)|].
  split; [by eapply (ret_ok_micro prog bal)|].
  split; [by eapply wait_ok_micro|by eapply owner_ok_micro].
Qed.

Lemma live_exec e (s s' : state C) : live s -> exec prog e s = Some s' -> live s'.
Proof.
  intros (Hacc & Hret & Hw & Ho & HJ) He.
  assert (Hrange : 0 <= permits <= INT_MAX) by lia.
  assert (Hpart : acc_ok okc bal permits s' /\ ret_ok bal s' /\ wait_ok s' /\ owner_ok s').
  { destruct (exec_micro _ _ _ _ He) as [Hm|(s1 & Hm1 & Hm2 & _)].
    - by apply (live_micro_part s).
    - apply (live_micro_part s1); [|done]. by apply (live_micro_part s). }
  destruct Hpart as (Hacc' & Hret' & Hw' & Ho').
  repeat (split; [done|]).
  apply (wake_ok_exec e s); [by destruct Hacc| |done|done].
  by apply (acc_ok_fits okc bal permits).
Qed.

Lemma live_run sched : forall (s s' : state C),
  live s -> run prog sched s = Some s' -> live s'.
Proof.
  induction sched as [|e r IH]; intros s s' Hs; simpl.
  - by intros [= <-].
  - destruct (exec prog e s) as [s1|] eqn:He; [|done].
    apply IH. by apply (live_exec e s).
Qed.

Lemma live_start (cs : list C) :
  (forall c, c ∈ cs -> okc c /\ bal c = 0) -> live (start_state permits cs).
Proof.
  intros Hcs.
  assert (Hrange : 0 <= permits <= INT_MAX) by lia.
  assert (Hth : forall u (th : thread C),
            threads (start_state permits cs) !! u = Some th ->
            spc th = Running /\ ret th = None).
  { intros u th Hu. simpl in Hu. rewrite list_lookup_fmap in Hu.
    destruct (cs !! u); by simplify_eq/=. }
  split; [by apply acc_ok_start|]. split; [|split; [|split]].
  - intros u th Hu [v Hv]. destruct (Hth u th Hu). congruence.
  - intros u th w Hu Hspc. destruct (Hth u th Hu). congruence.
  - by intros o.
  - intros (u & tu & Hu & Hsl). destruct (Hth u tu Hu) as [Hspc _].
    unfold sleepy in Hsl. by rewrite Hspc in Hsl.
Qed.

(** In a state of the invariants with a worker that has not returned, a
    step of a thread or a signal is enabled. *)
Lemma live_moves (s : state C) :
  live s -> joined s = false ->
  exists e, (forall u, e <> Spurious u) /\ is_Some (exec prog e s).
Proof.
  intros (Hacc & Hret & Hw & Ho & HJ) Hj.
  pose proof Hacc as ((Hc & Hsem) & Hsum & Hall).
  destruct (m (sem (shr s))) as [o|] eqn:Hm.
  - (* the owner of the mutex moves *)
    destruct (lookup_lt_is_Some_2 (threads s) o (Ho o Hm)) as [th Ht].
    pose proof (Hsem o th Ht) as (Hown & _).
    assert (Hh : holds_m (spc th) = true) by (by apply Hown).
    assert (Hr : ret th = None).
    { destruct (ret th) as [v|] eqn:Hr; [|done].
      destruct (Hret o th Ht) as [Hspc _]; [by exists v|]. by rewrite Hspc in Hh. }
    assert (Hstep : forall b sh th',
              thread_step prog o b (shr s) th = Some (sh, th') ->
              b = has_waiter (threads s) ->
              exists e, (forall u, e <> Spurious u) /\ is_Some (exec prog e s)).
    { intros b sh th' Hs ->. exists (Step o). split; [done|].
      simpl. rewrite Ht, Hs. done. }
    unfold thread_step in Hstep. rewrite Hr in Hstep.
    destruct (spc th) as [|[]|[]] eqn:Hspc; try done; simpl in Hstep;
      try (by eapply Hstep).
    destruct (has_waiter (threads s)) eqn:Hwt.
    + destruct (has_waiter_true _ Hwt) as (u & tu & Hu & Hb).
      exists (Signal o u). split; [done|].
      simpl. by rewrite Ht, Hu, Hr, Hspc, Hb.
    + by eapply (Hstep false).
  - destruct (existsb awake (threads s)) eqn:Haw.
    + (* a thread that is awake moves, the mutex being free *)
      destruct (awake_some _ Haw) as (t & th & Ht & Hth).
      unfold awake in Hth. destruct (ret th) eqn:Hr; [done|].
      apply negb_true_iff in Hth.
      pose proof (Hsem t th Ht) as (Hown & _).
      assert (Hh : holds_m (spc th) = false).
      { destruct (holds_m (spc th)); [|done].
        assert (m (sem (shr s)) = Some t) by (by apply Hown). congruence. }
      exists (Step t). split; [done|].
      simpl. rewrite Ht. unfold thread_step. rewrite Hr.
      unfold blocked in Hth.
      destruct (spc th) as [|[]|[]] eqn:Hspc; try done; simpl; try (by rewrite Hm).
      destruct (prog (glob (shr s)) (local th)) as [l g c|c|c|c|c|v] eqn:Hp; try done.
      by destruct (no_lock _ _ _ Hp).
    + (* every thread has returned or sleeps: the count would be both
         [permits] and zero *)
      exfalso.
      destruct (not_joined s Hj) as (t & th & Ht & Hr).
      assert (Hbl : forall u tu, threads s !! u = Some tu ->
                      is_Some (ret tu) \/ spc tu = InWait WBlocked).
      { intros u tu Hu. pose proof (awake_none _ _ _ Haw Hu) as Hn.
        unfold awake in Hn. destruct (ret tu); [by left; eexists|right].
        apply negb_false_iff in Hn. unfold blocked in Hn.
        by destruct (spc tu) as [|[]|]. }
      assert (Hphi : total phi (threads s) = 0).
      { rewrite (total_const phi _ 0); [lia|]. intros u tu Hu.
        unfold phi. destruct (Hbl u tu Hu) as [Hsome| ->]; [|done].
        by destruct (Hret u tu Hu Hsome) as [-> _]. }
      assert (Heff : total (eff bal) (threads s) = 0).
      { rewrite (total_const (eff bal) _ 0); [lia|]. intros u tu Hu.
        unfold eff. destruct (Hbl u tu Hu) as [Hsome|Hspc].
        - by destruct (Hret u tu Hu Hsome) as [-> ->].
        - rewrite (Hw u tu _ Hu Hspc), Hspc. done. }
      assert (count (sem (shr s)) <= total phi (threads s)); [|lia].
      apply HJ. exists t, th. split; [done|].
      destruct (Hbl t th Ht) as [[v Hv]|Hspc]; [congruence|].
      unfold sleepy. by rewrite Hspc.
Qed.

Lemma never_stuck (cs : list C) sched s :
  (forall c, c ∈ cs -> okc c /\ bal c = 0) ->
  run prog sched (start_state permits cs) = Some s -> joined s = false ->
  exists e, (forall u, e <> Spurious u) /\ is_Some (exec prog e s).
Proof.
  intros Hcs Hrun Hj. apply live_moves; [|done].
  eapply live_run; [|done]. by apply live_start.
Qed.

End Progress.

(** *** Under the mutex *)

Section MutexProgress.
Context {C : Type} (prog : globals -> C -> action C).
Variable inlock : C -> bool.

Hypothesis lock_next : forall g c, LockFacts.next_lock inlock (inlock c) (prog g c).
Hypothesis prog_no_sem : forall g c, UnsyncCounter.no_sem (prog g c).
Hypothesis return_unlocked : forall g c v, prog g c = AReturn v -> inlock c = false.

(** The owner of the mutex is one of the threads, and a thread that has
    returned does not own it. *)
Definition lock_owner_ok (s : state C) : Prop :=
  (forall o, lock (shr s) = Some o -> (o < length (threads s))%nat) /\
  (forall u th, threads s !! u = Some th -> is_Some (ret th) -> inlock (local th) = false).

Lemma lock_owner_ok_micro (s s' : state C) :
  lock_owner_ok s -> micro prog s s' -> lock_owner_ok s'.
Proof.
  intros [Ho Hr] Hmic. pose proof (micro_length prog s s' Hmic) as Hlen.
  destruct Hmic as [t b th sh th' Ht Hs ->|u tu Hu Hb ->].
  - pose proof (lookup_lt_Some _ _ _ Ht) as Hlt. split.
    + intros o. rewrite Hlen. specialize (Ho o). inv_step Hs; simpl; try done.
      all: by intros [= <-].
    + intros u thu Hu Hret. split_thread u t Hu; [|by eapply Hr].
      unfold thread_step in Hs. destruct (ret th) eqn:Hrt; [done|].
      assert (Hno : forall x : thread C, ret x = ret th -> is_Some (ret x) -> False).
      { intros x Hx [v Hv]. congruence. }
      destruct (spc th) as [|w|p] eqn:Hspc.
      * destruct (prog (glob (shr s)) (local th)) as [l g c|c|c|c|c|v] eqn:Hp.
        -- simplify_eq/=. by destruct (Hno _ eq_refl Hret).
        -- destruct (pthread_mutex_lock t (lock (shr s))); simplify_eq/=.
           by destruct (Hno _ eq_refl Hret).
        -- simplify_eq/=. by destruct (Hno _ eq_refl Hret).
        -- simplify_eq/=. by destruct (Hno _ eq_refl Hret).
        -- simplify_eq/=. by destruct (Hno _ eq_refl Hret).
        -- simplify_eq/=. by eapply return_unlocked.
      * destruct (semc_wait _ _ _ _) as [[[w' r] sm]|]; simplify_eq/=.
        by destruct (Hno _ eq_refl Hret).
      * destruct (semc_post _ _ _ _ _) as [[[p' r] sm]|]; simplify_eq/=.
        by destruct (Hno _ eq_refl Hret).
  - split; [intros o; simpl; rewrite length_insert; apply Ho|].
    intros v thv Hv Hret. split_thread v u Hv; [|by eapply Hr].
    by apply (Hr u tu).
Qed.

Lemma mutex_never_stuck (cs : list C) sched s :
  (forall c, c ∈ cs -> inlock c = false) ->
  run prog sched (start_state 0 cs) = Some s -> joined s = false ->
  exists t, is_Some (exec prog (Step t) s).
Proof.
  intros Hcs Hrun Hj.
  assert (Hlock : LockFacts.lock_ok inlock s).
  { revert Hrun. apply (invariant_run prog (LockFacts.lock_ok inlock)).
    - intros s1 s2. by apply LockFacts.lock_ok_micro.
    - by apply LockFacts.lock_ok_start. }
  assert (Hown : lock_owner_ok s).
  { revert Hrun. apply (invariant_run prog lock_owner_ok).
    - intros s1 s2. apply lock_owner_ok_micro.
    - split; [done|]. intros u th Hu [v Hv]. simpl in Hu.
      rewrite list_lookup_fmap in Hu. destruct (cs !! u); simplify_eq/=. }
  pose proof (UnsyncCounter.all_running_run prog prog_no_sem 0 cs sched s Hrun) as Hrunning.
  destruct Hown as [Ho Hr].
  assert (Hgo : forall t th,
            threads s !! t = Some th -> ret th = None ->
            (forall c, prog (glob (shr s)) (local th) = ALock c -> lock (shr s) = None) ->
            is_Some (exec prog (Step t) s)).
  { intros t th Ht Hret Hfree. simpl. rewrite Ht. unfold thread_step.
    rewrite Hret, (Hrunning t th Ht).
    destruct (prog (glob (shr s)) (local th)) as [l g c|c|c|c|c|v] eqn:Hp; try done.
    by rewrite (Hfree c eq_refl). }
  destruct (lock (shr s)) as [o|] eqn:Hl.
  - destruct (lookup_lt_is_Some_2 (threads s) o (Ho o eq_refl)) as [th Ht].
    assert (Hin : inlock (local th) = true) by (by apply (Hlock o th Ht)).
    exists o. apply (Hgo o th Ht).
    + destruct (ret th) as [v|] eqn:Hret; [|done].
      rewrite (Hr o th Ht) in Hin; [done|by exists v].
    + intros c Hp. pose proof (lock_next (glob (shr s)) (local th)) as Hn.
      rewrite Hp in Hn. simpl in Hn. destruct Hn as [Hn _]. congruence.
  - destruct (not_joined s Hj) as (t & th & Ht & Hret).
    exists t. by apply (Hgo t th Ht).
Qed.

End MutexProgress.

(** The mutex workers never get stuck: in every state that workers of
    [inc_with_lock] (or [increment_with_lock]) or of
    [touch_pair_with_lock] can reach with a worker that has not returned,
    some thread can make a step; the owner of the mutex if there is one. *)
Theorem mutex_workers_never_stuck (K : Z) (W : nat) :
  (forall sched s,
     run (inc_with_lock K) sched (init 0 W (start LHead)) = Some s ->
     joined s = false ->
     exists t, is_Some (exec (inc_with_lock K) (Step t) s)) /\
  (forall sched s,
     run (PairLock.touch_pair_with_lock K) sched (init 0 W (start PairLock.QHead)) = Some s ->
     joined s = false ->
     exists t, is_Some (exec (PairLock.touch_pair_with_lock K) (Step t) s)).
Proof.
  split.
  - intros sched s Hrun Hj.
    eapply (mutex_never_stuck (inc_with_lock K) LockedCounter.inlock);
      eauto using LockedCounter.mutex_lock_next.
    + intros g c. unfold inc_with_lock. destruct (pc c); try done. by destruct (i c <? K).
    + intros g c v. unfold inc_with_lock, LockedCounter.inlock. by destruct (pc c).
    + by intros c ->%elem_of_replicate_inv.
  - intros sched s Hrun Hj.
    eapply (mutex_never_stuck (PairLock.touch_pair_with_lock K) PairLockFacts.inlock);
      eauto using PairLockFacts.pairlock_lock_next.
    + intros g c. unfold PairLock.touch_pair_with_lock.
      destruct (pc c); try done. by destruct (i c <? K).
    + intros g c v. unfold PairLock.touch_pair_with_lock, PairLockFacts.inlock.
      by destruct (pc c).
    + by intros c ->%elem_of_replicate_inv.
Qed.

(** With no permit: a worker is before its first call of [semc_wait] or
    inside it, before the decrement. *)
Definition waiting_pc (w : wait_pc) : bool :=
  match w with
  | WLock | WTest | WCondWait | WBlocked | WReacquire => true
  | WDecLoad | WDecStore | WUnlock => false
  end.

Definition held_back {P : Type} (head first : P) (th : thread (vars P)) : Prop :=
  ret th = None /\ i (local th) = 0 /\
  match spc th with
  | Running => pc (local th) = head
  | InWait w => waiting_pc w = true /\ pc (local th) = first
  | InPost _ => False
  end.

Definition starved {P : Type} (head first : P) (s : state (vars P)) : Prop :=
  count (sem (shr s)) = 0 /\ counter (glob (shr s)) = 0 /\
  forall u th, threads s !! u = Some th -> held_back head first th.

Lemma starved_binary K s s' :
  1 <= K -> starved BHead BLoad s -> micro (inc_with_sem_binary K) s s' ->
  starved BHead BLoad s'.
Proof.
  intros HK (Hc & Hg & Hall) Hmic.
  destruct Hmic as [t b th sh th' Ht Hs ->|u tu Hu Hb ->].
  - pose proof (Hall t th Ht) as (Hr & Hi & Hpc).
    unfold thread_step in Hs. rewrite Hr in Hs.
    destruct (spc th) as [|w|p] eqn:Hspc; [| |done].
    + unfold inc_with_sem_binary in Hs. rewrite Hpc, Hi in Hs.
      destruct (Z.ltb_spec 0 K); [|lia]. simplify_eq/=.
      split; [done|]. split; [done|].
      intros u thu Hu. split_thread u t Hu; [|by eapply Hall].
      by repeat split.
    + destruct Hpc as [Hw Hpc].
      unfold semc_wait, pthread_mutex_lock, pthread_mutex_unlock in Hs.
      rewrite Hc in Hs.
      destruct w; try done; repeat case_match; simplify_eq/=.
      all: split; [done|]; split; [done|].
      all: intros u thu Hu; split_thread u t Hu; [|by eapply Hall].
      all: by repeat split.
  - split; [done|]. split; [done|].
    intros v thv Hv. split_thread v u Hv; [|by eapply Hall].
    destruct (Hall u tu Hu) as (Hr & Hi & Hpc).
    unfold blocked in Hb. destruct (spc tu) as [|[]|]; try done; by repeat split.
Qed.

Lemma starved_three K s s' :
  1 <= K -> starved THead TRead s -> micro (inc_with_sem_three K) s s' ->
  starved THead TRead s'.
Proof.
  intros HK (Hc & Hg & Hall) Hmic.
  destruct Hmic as [t b th sh th' Ht Hs ->|u tu Hu Hb ->].
  - pose proof (Hall t th Ht) as (Hr & Hi & Hpc).
    unfold thread_step in Hs. rewrite Hr in Hs.
    destruct (spc th) as [|w|p] eqn:Hspc; [| |done].
    + unfold inc_with_sem_three in Hs. rewrite Hpc, Hi in Hs.
      destruct (Z.ltb_spec 0 K); [|lia]. simplify_eq/=.
      split; [done|]. split; [done|].
      intros u thu Hu. split_thread u t Hu; [|by eapply Hall].
      by repeat split.
    + destruct Hpc as [Hw Hpc].
      unfold semc_wait, pthread_mutex_lock, pthread_mutex_unlock in Hs.
      rewrite Hc in Hs.
      destruct w; try done; repeat case_match; simplify_eq/=.
      all: split; [done|]; split; [done|].
      all: intros u thu Hu; split_thread u t Hu; [|by eapply Hall].
      all: by repeat split.
  - split; [done|]. split; [done|].
    intros v thv Hv. split_thread v u Hv; [|by eapply Hall].
    destruct (Hall u tu Hu) as (Hr & Hi & Hpc).
    unfold blocked in Hb. destruct (spc tu) as [|[]|]; try done; by repeat split.
Qed.

Lemma starved_start {P : Type} (head first : P) (W : nat) :
  starved head first (init 0 W (start head)).
Proof.
  split; [done|]. split; [done|]. intros u th Hu.
  unfold init, start_state in Hu. simpl in Hu. rewrite list_lookup_fmap in Hu.
  destruct (replicate W (start head) !! u) as [c|] eqn:Hc; [|done].
  apply lookup_replicate in Hc as [-> _]. by simplify_eq/=.
Qed.

(** The semaphore workers never get stuck: on a semaphore of [N >= 1]
    permits, in every state that [inc_with_sem_binary] or
    [inc_with_sem_three] workers can reach (spurious wake-ups included)
    with a worker that has not returned, a thread can make a step or a
    signal can wake a sleeper up. No wake-up is lost: the workers never all
    sleep in [pthread_cond_wait], and a permit is never left over while
    the workers that could take it sleep. *)
Theorem semaphore_workers_never_stuck (K N : Z) (W : nat) :
  1 <= N <= INT_MAX ->
  (forall sched s,
     run (inc_with_sem_binary K) sched (init N W (start BHead)) = Some s ->
     joined s = false ->
     exists e, (forall u, e <> Spurious u) /\
               is_Some (exec (inc_with_sem_binary K) e s)) /\
  (forall sched s,
     run (inc_with_sem_three K) sched (init N W (start THead)) = Some s ->
     joined s = false ->
     exists e, (forall u, e <> Spurious u) /\
               is_Some (exec (inc_with_sem_three K) e s)).
Proof.
  intros HN. split.
  - intros sched s Hrun Hj.
    eapply (never_stuck (inc_with_sem_binary K) BinaryCounter.anyc BinaryCounter.bal N);
      eauto using BinaryCounter.binary_ok_next, BinaryCounter.binary_bal_next,
        BinaryCounter.binary_bal_nonneg.
    + intros g c v. unfold inc_with_sem_binary, BinaryCounter.bal.
      destruct (pc c); try done.
    + intros g c c'. unfold inc_with_sem_binary, BinaryCounter.bal.
      destruct (pc c); try done.
    + intros g c c'. unfold inc_with_sem_binary.
      destruct (pc c); try done. by destruct (i c <? K).
    + by intros c ->%elem_of_replicate_inv.
  - intros sched s Hrun Hj.
    eapply (never_stuck (inc_with_sem_three K) ThreeCounter.anyc ThreeCounter.bal N);
      eauto using ThreeCounter.three_ok_next, ThreeCounter.three_bal_next,
        ThreeCounter.three_bal_nonneg.
    + intros g c v. unfold inc_with_sem_three, ThreeCounter.bal.
      destruct (pc c); try done.
    + intros g c c'. unfold inc_with_sem_three, ThreeCounter.bal.
      destruct (pc c); try done.
    + intros g c c'. unfold inc_with_sem_three.
      destruct (pc c); try done. by destruct (i c <? K).
    + by intros c ->%elem_of_replicate_inv.
Qed.

Lemma semaphore_workers_never_stuck_witness :
  1 <= 1 <= INT_MAX /\
  forall sched s,
    run (inc_with_sem_binary 5) sched (init 1 4 (start BHead)) = Some s ->
    joined s = false ->
    exists e, (forall u, e <> Spurious u) /\
              is_Some (exec (inc_with_sem_binary 5) e s).
Proof.
  assert (H1 : 1 <= 1 <= INT_MAX) by (unfold INT_MAX; lia).
  split; [exact H1|].
  exact (proj1 (semaphore_workers_never_stuck 5 1 4 H1)).
Defined.

(** A semaphore initialised with no permit holds every worker back:
    whatever the interleaving and the spurious wake-ups, no worker ever
    returns from its first [semc_wait] ([K >= 1]), none returns from its
    function, the count stays zero and the counter is never touched. *)
Theorem semaphore_without_permits (K : Z) (W : nat) :
  1 <= K ->
  (forall sched s,
     run (inc_with_sem_binary K) sched (init 0 W (start BHead)) = Some s ->
     count (sem (shr s)) = 0 /\ counter (glob (shr s)) = 0 /\
     forall u th, threads s !! u = Some th ->
       ret th = None /\ i (local th) = 0 /\ pc (local th) <> BStore /\
       pc (local th) <> BTail /\ (pc (local th) = BLoad -> spc th <> Running)) /\
  (forall sched s,
     run (inc_with_sem_three K) sched (init 0 W (start THead)) = Some s ->
     count (sem (shr s)) = 0 /\ counter (glob (shr s)) = 0 /\
     forall u th, threads s !! u = Some th ->
       ret th = None /\ i (local th) = 0 /\
       (pc (local th) = THead \/ pc (local th) = TRead /\ spc th <> Running)).
Proof.
  intros HK. split.
  - intros sched s Hrun.
    assert (Hs : starved BHead BLoad s).
    { revert Hrun. apply (invariant_run _ (starved BHead BLoad)).
      - intros s1 s2 H1 H2. by apply (starved_binary K s1).
      - apply starved_start. }
    destruct Hs as (Hc & Hg & Hall). split; [done|]. split; [done|].
    intros u th Hu. destruct (Hall u th Hu) as (Hr & Hi & Hpc).
    split; [done|]. split; [done|].
    destruct (spc th) as [|w|p]; [|destruct Hpc as [_ Hpc]|done]; rewrite Hpc; done.
  - intros sched s Hrun.
    assert (Hs : starved THead TRead s).
    { revert Hrun. apply (invariant_run _ (starved THead TRead)).
      - intros s1 s2 H1 H2. by apply (starved_three K s1).
      - apply starved_start. }
    destruct Hs as (Hc & Hg & Hall). split; [done|]. split; [done|].
    intros u th Hu. destruct (Hall u th Hu) as (Hr & Hi & Hpc).
    split; [done|]. split; [done|].
    destruct (spc th) as [|w|p]; [by left|destruct Hpc as [_ Hpc]; by right|done].
Qed.

Lemma semaphore_without_permits_witness :
  1 <= 5 /\
  forall sched s,
    run (inc_with_sem_binary 5) sched (init 0 4 (start BHead)) = Some s ->
    count (sem (shr s)) = 0 /\ counter (glob (shr s)) = 0 /\
    forall u th, threads s !! u = Some th ->
      ret th = None /\ i (local th) = 0 /\ pc (local th) <> BStore /\
      pc (local th) <> BTail /\ (pc (local th) = BLoad -> spc th <> Running).
Proof.
  assert (H1 : 1 <= 5) by lia.
  split; [exact H1|].
  exact (proj1 (semaphore_without_permits 5 4 H1)).
Defined.

End ProgressFacts.

